(** * Half-edge mesh engine (HalfEdgeMesh.cpp): a shallow embedding

    Vertices, half-edges, faces and regions live in four stores addressed by
    handles (the C++ pointers).  [None] is the null pointer; a handle that is
    not in its store is a dangling pointer.  Every operation is a state
    transformer over the mesh that may fault (where the C++ dereferences a
    null or dangling pointer, erases [end()], or indexes out of range) or run
    out of fuel (the unbounded loops carry a fuel argument). *)

From stdpp Require Import base option list gmap fin_maps.
From Stdlib Require Import ZArith Lia.

(** ** Template parameters [VertexT], [NormalT] and the arithmetic they bring *)

Class Geometry := {
  VertexT : Type;
  NormalT : Type;
  Scalar : Type;
  (** [a + b] and [a * 0.5] on positions *)
  vadd : VertexT → VertexT → VertexT;
  vhalf : VertexT → VertexT;
  (** default-constructed normal, and the normal of a triangle's corners *)
  default_normal : NormalT;
  normal_of : VertexT → VertexT → VertexT → NormalT;
  (** [n1 * n2] (dot product), [fabs], [>] and unary minus on floats *)
  ndot : NormalT → NormalT → Scalar;
  fabs : Scalar → Scalar;
  sgt : Scalar → Scalar → bool;
  sneg : Scalar → Scalar;
  (** [m_position[k]], [m_normal[k]] *)
  vcoord : VertexT → nat → Scalar;
  ncoord : NormalT → nat → Scalar;
  (** the literals 0.8 and 0.0, and the colour hash of a region number *)
  tint : Scalar;
  zero : Scalar;
  hash_r : Z → Scalar;
  hash_g : Z → Scalar;
  hash_b : Z → Scalar
}.

Section Mesh.
Context `{G : Geometry}.

(** ** Data model *)

Record HVertex := mkHVertex {
  m_position : VertexT;
  m_normal : NormalT;
  out : list nat;
  in_ : list nat
}.

Record HEdge := mkHEdge {
  start : nat;
  end_ : nat;
  pair : option nat;
  next : option nat;
  face : option nat;
  used : bool
}.

Record HFace := mkHFace {
  m_edge : option nat;
  f_normal : NormalT;
  m_region : option nat;
  m_used : bool;
  m_face_index : nat
}.

Record Region := mkRegion {
  r_faces : list nat;
  m_inPlane : bool;
  m_region_number : Z
}.

Record HalfEdgeMesh := mkMesh {
  vertices : gmap nat HVertex;
  edges : gmap nat HEdge;
  faces : gmap nat HFace;
  regions : gmap nat Region;
  m_vertices : list nat;
  m_faces : list nat;
  m_regions : list nat;
  m_globalIndex : Z;
  m_colorRegions : bool
}.

Definition empty_mesh : HalfEdgeMesh :=
  mkMesh ∅ ∅ ∅ ∅ [] [] [] 0 false.

(** Field updates. *)
Definition with_position (p : VertexT) (v : HVertex) : HVertex :=
  mkHVertex p (m_normal v) (out v) (in_ v).
Definition with_normal (n : NormalT) (v : HVertex) : HVertex :=
  mkHVertex (m_position v) n (out v) (in_ v).
Definition with_out (l : list nat) (v : HVertex) : HVertex :=
  mkHVertex (m_position v) (m_normal v) l (in_ v).
Definition with_in (l : list nat) (v : HVertex) : HVertex :=
  mkHVertex (m_position v) (m_normal v) (out v) l.
Definition push_out (e : nat) (v : HVertex) : HVertex := with_out (out v ++ [e]) v.
Definition push_in (e : nat) (v : HVertex) : HVertex := with_in (in_ v ++ [e]) v.

Definition with_start (v : nat) (e : HEdge) : HEdge :=
  mkHEdge v (end_ e) (pair e) (next e) (face e) (used e).
Definition with_end (v : nat) (e : HEdge) : HEdge :=
  mkHEdge (start e) v (pair e) (next e) (face e) (used e).
Definition with_pair (p : option nat) (e : HEdge) : HEdge :=
  mkHEdge (start e) (end_ e) p (next e) (face e) (used e).
Definition with_next (n : option nat) (e : HEdge) : HEdge :=
  mkHEdge (start e) (end_ e) (pair e) n (face e) (used e).
Definition with_face (f : option nat) (e : HEdge) : HEdge :=
  mkHEdge (start e) (end_ e) (pair e) (next e) f (used e).
Definition with_used (b : bool) (e : HEdge) : HEdge :=
  mkHEdge (start e) (end_ e) (pair e) (next e) (face e) b.

Definition with_m_edge (e : option nat) (f : HFace) : HFace :=
  mkHFace e (f_normal f) (m_region f) (m_used f) (m_face_index f).
Definition with_f_normal (n : NormalT) (f : HFace) : HFace :=
  mkHFace (m_edge f) n (m_region f) (m_used f) (m_face_index f).
Definition with_m_region (r : option nat) (f : HFace) : HFace :=
  mkHFace (m_edge f) (f_normal f) r (m_used f) (m_face_index f).
Definition with_m_used (b : bool) (f : HFace) : HFace :=
  mkHFace (m_edge f) (f_normal f) (m_region f) b (m_face_index f).
Definition with_m_face_index (i : nat) (f : HFace) : HFace :=
  mkHFace (m_edge f) (f_normal f) (m_region f) (m_used f) i.

Definition with_r_faces (l : list nat) (r : Region) : Region :=
  mkRegion l (m_inPlane r) (m_region_number r).

Definition set_vertices (f : gmap nat HVertex → gmap nat HVertex) (s : HalfEdgeMesh) :=
  mkMesh (f (vertices s)) (edges s) (faces s) (regions s)
         (m_vertices s) (m_faces s) (m_regions s) (m_globalIndex s) (m_colorRegions s).
Definition set_edges (f : gmap nat HEdge → gmap nat HEdge) (s : HalfEdgeMesh) :=
  mkMesh (vertices s) (f (edges s)) (faces s) (regions s)
         (m_vertices s) (m_faces s) (m_regions s) (m_globalIndex s) (m_colorRegions s).
Definition set_faces (f : gmap nat HFace → gmap nat HFace) (s : HalfEdgeMesh) :=
  mkMesh (vertices s) (edges s) (f (faces s)) (regions s)
         (m_vertices s) (m_faces s) (m_regions s) (m_globalIndex s) (m_colorRegions s).
Definition set_regions (f : gmap nat Region → gmap nat Region) (s : HalfEdgeMesh) :=
  mkMesh (vertices s) (edges s) (faces s) (f (regions s))
         (m_vertices s) (m_faces s) (m_regions s) (m_globalIndex s) (m_colorRegions s).
Definition set_m_vertices (f : list nat → list nat) (s : HalfEdgeMesh) :=
  mkMesh (vertices s) (edges s) (faces s) (regions s)
         (f (m_vertices s)) (m_faces s) (m_regions s) (m_globalIndex s) (m_colorRegions s).
Definition set_m_faces (f : list nat → list nat) (s : HalfEdgeMesh) :=
  mkMesh (vertices s) (edges s) (faces s) (regions s)
         (m_vertices s) (f (m_faces s)) (m_regions s) (m_globalIndex s) (m_colorRegions s).
Definition set_m_globalIndex (f : Z → Z) (s : HalfEdgeMesh) :=
  mkMesh (vertices s) (edges s) (faces s) (regions s)
         (m_vertices s) (m_faces s) (m_regions s) (f (m_globalIndex s)) (m_colorRegions s).

(** ** The monad of mesh operations *)

Inductive outcome (A : Type) : Type :=
  | Ok (a : A) (s : HalfEdgeMesh)
  | Fault
  | OutOfFuel.
Global Arguments Ok {A} a s.
Global Arguments Fault {A}.
Global Arguments OutOfFuel {A}.

Definition MeshM (A : Type) : Type := HalfEdgeMesh → outcome A.

Global Instance MeshM_ret : MRet MeshM := λ A a s, Ok a s.
Global Instance MeshM_bind : MBind MeshM := λ A B f c s,
  match c s with
  | Ok a s' => f a s'
  | Fault => Fault
  | OutOfFuel => OutOfFuel
  end.

Definition fault {A} : MeshM A := λ _, Fault.
Definition out_of_fuel {A} : MeshM A := λ _, OutOfFuel.
Definition gets {A} (f : HalfEdgeMesh → A) : MeshM A := λ s, Ok (f s) s.
Definition modify (f : HalfEdgeMesh → HalfEdgeMesh) : MeshM unit := λ s, Ok tt (f s).

(** Dereferencing: a null pointer or a freed object is a fault. *)
Definition nonnull {A} (o : option A) : MeshM A :=
  match o with Some a => mret a | None => fault end.

Definition getV (v : nat) : MeshM HVertex := s ← gets vertices; nonnull (s !! v).
Definition getE (e : nat) : MeshM HEdge := s ← gets edges; nonnull (s !! e).
Definition getF (f : nat) : MeshM HFace := s ← gets faces; nonnull (s !! f).
Definition getR (r : nat) : MeshM Region := s ← gets regions; nonnull (s !! r).

Definition modV (v : nat) (f : HVertex → HVertex) : MeshM unit :=
  h ← getV v; modify (set_vertices (insert v (f h))).
Definition modE (e : nat) (f : HEdge → HEdge) : MeshM unit :=
  h ← getE e; modify (set_edges (insert e (f h))).
Definition modF (x : nat) (f : HFace → HFace) : MeshM unit :=
  h ← getF x; modify (set_faces (insert x (f h))).
Definition modR (r : nat) (f : Region → Region) : MeshM unit :=
  h ← getR r; modify (set_regions (insert r (f h))).

(** [new]: the object is placed at a handle not in use. *)
Definition fresh_id {A} (m : gmap nat A) : nat := S (max_list (elements (dom m))).

Definition newV (h : HVertex) : MeshM nat :=
  v ← gets (λ s, fresh_id (vertices s)); modify (set_vertices (insert v h));; mret v.
Definition newE (h : HEdge) : MeshM nat :=
  e ← gets (λ s, fresh_id (edges s)); modify (set_edges (insert e h));; mret e.
Definition newF (h : HFace) : MeshM nat :=
  f ← gets (λ s, fresh_id (faces s)); modify (set_faces (insert f h));; mret f.

(** [delete]: freeing an object that is not live is a fault. *)
Definition freeV (v : nat) : MeshM unit := getV v;; modify (set_vertices (delete v)).
Definition freeE (e : nat) : MeshM unit := getE e;; modify (set_edges (delete e)).

(** [l.erase(find(l.begin(), l.end(), x))]: erasing [end()] is undefined. *)
Fixpoint erase_first (x : nat) (l : list nat) : option (list nat) :=
  match l with
  | [] => None
  | y :: l' => if decide (y = x) then Some l' else cons y <$> erase_first x l'
  end.

Fixpoint forM_ {A} (l : list A) (f : A → MeshM unit) : MeshM unit :=
  match l with
  | [] => mret tt
  | x :: l' => f x;; forM_ l' f
  end.

Fixpoint foldM {A B} (f : B → A → MeshM B) (b : B) (l : list A) : MeshM B :=
  match l with
  | [] => mret b
  | x :: l' => b' ← f b x; foldM f b' l'
  end.

Definition when (b : bool) (c : MeshM unit) : MeshM unit := if b then c else mret tt.

(** Modelled from the spec: [HalfEdgeFace::operator[]], [operator()] and
    [calc_normal] are not in the sources.  A face holds one half-edge of its
    3-cycle: edge [k] of a face is [k] applications of [next] from [m_edge],
    vertex [k] is the vertex that edge ends in, and [calc_normal] stores the
    normal of the three corners. *)
Definition e_next (e : nat) : MeshM nat := h ← getE e; nonnull (next h).
Definition e_pair (e : nat) : MeshM nat := h ← getE e; nonnull (pair h).
Definition e_face (e : nat) : MeshM (option nat) := h ← getE e; mret (face h).
Definition e_start (e : nat) : MeshM nat := h ← getE e; mret (start h).
Definition e_end (e : nat) : MeshM nat := h ← getE e; mret (end_ h).

Definition face_edge (f : nat) (k : nat) : MeshM nat :=
  h ← getF f;
  e0 ← nonnull (m_edge h);
  match k with
  | 0 => getE e0;; mret e0
  | 1 => e_next e0
  | _ => e1 ← e_next e0; e_next e1
  end.

Definition face_vertex (f : nat) (k : nat) : MeshM nat :=
  e ← face_edge f k; e_end e.

Definition calc_normal (f : nat) : MeshM unit :=
  v0 ← face_vertex f 0; v1 ← face_vertex f 1; v2 ← face_vertex f 2;
  h0 ← getV v0; h1 ← getV v1; h2 ← getV v2;
  modF f (with_f_normal (normal_of (m_position h0) (m_position h1) (m_position h2))).

(** ** Graph store *)

Definition addVertex (v : VertexT) : MeshM unit :=
  x ← newV (mkHVertex v default_normal [] []);
  modify (set_m_vertices (λ l, l ++ [x]));;
  modify (set_m_globalIndex (λ i, i + 1)%Z).

Definition deleteVertex (v : nat) : MeshM unit :=
  l ← gets m_vertices;
  l' ← nonnull (erase_first v l);
  modify (set_m_vertices (λ _, l'));;
  modify (set_m_globalIndex (λ i, i - 1)%Z);;
  freeV v.

(** [assert(m_globalIndex == m_vertices.size())], then the normal of the
    vertex at index [m_globalIndex - 1] is set. *)
Definition addNormal (n : NormalT) : MeshM unit :=
  l ← gets m_vertices; i ← gets m_globalIndex;
  if bool_decide (i = Z.of_nat (length l) ∧ 0 < i)%Z then
    v ← nonnull (l !! Z.to_nat (i - 1));
    modV v (with_normal n)
  else fault.

Definition halfEdgeToVertex (v next_v : nat) : MeshM (option nat) :=
  hv ← getV v;
  foldM (λ edge cur,
           hc ← getE cur;
           mret (if decide (end_ hc = v ∧ start hc = next_v) then Some cur else edge))
        None (in_ hv).

(** ** Builder *)

(** One pass of the [for k] loop of [addTriangle]. *)
Definition addTriangle_edge (f current next_v : nat) : MeshM nat :=
  edgeToVertex ← halfEdgeToVertex current next_v;
  match edgeToVertex with
  | Some x =>
      e ← e_pair x;
      modE e (with_face (Some f));;
      mret e
  | None =>
      edge ← newE (mkHEdge current next_v None None (Some f) false);
      pr ← newE (mkHEdge next_v current None None None false);
      modE edge (with_pair (Some pr));;
      modE pr (with_pair (Some edge));;
      modV current (push_out edge);;
      modV next_v (push_in edge);;
      modV current (push_in pr);;
      modV next_v (push_out pr);;
      mret edge
  end.

Definition vertex_at (i : nat) : MeshM nat :=
  l ← gets m_vertices; nonnull (l !! i).

Definition new_face : MeshM nat := newF (mkHFace None default_normal None false 0).

Definition addTriangle (a b c : nat) : MeshM unit :=
  f ← new_face;
  va ← vertex_at a; vb ← vertex_at b;
  e0 ← addTriangle_edge f va vb;
  vc ← vertex_at c;
  e1 ← addTriangle_edge f vb vc;
  e2 ← addTriangle_edge f vc va;
  modE e0 (with_next (Some e1));;
  modE e1 (with_next (Some e2));;
  modE e2 (with_next (Some e0));;
  modF f (with_m_edge (Some e0));;
  calc_normal f;;
  modify (set_m_faces (λ l, l ++ [f]));;
  n ← gets (λ s, length (m_faces s));
  modF f (with_m_face_index n).

(** One of the three edge lookups of [addFace]. *)
Definition addFace_edge (v1 v2 : nat) : MeshM nat :=
  current ← halfEdgeToVertex v1 v2;
  match current with
  | None =>
      v1v2 ← newE (mkHEdge v1 v2 None None None false);
      v2v1 ← newE (mkHEdge v2 v1 None None None false);
      modV v1 (push_out v1v2);;
      modV v2 (push_in v1v2);;
      modV v1 (push_in v2v1);;
      modV v2 (push_out v2v1);;
      modE v1v2 (with_pair (Some v2v1));;
      modE v2v1 (with_pair (Some v1v2));;
      mret v1v2
  | Some cur =>
      fc ← e_face cur;
      match fc with
      | None => mret cur
      | Some _ => e_pair cur
      end
  end.

(** [x] if [x] is among the outgoing edges of the vertex [e] ends in,
    else [x->pair]. *)
Definition out_or_pair (e x : nat) : MeshM nat :=
  v ← e_end e; hv ← getV v;
  if decide (x ∈ out hv) then mret x else e_pair x.

Definition addFace (v1 v2 v3 : nat) : MeshM unit :=
  f ← new_face;
  v1v2 ← addFace_edge v1 v2;
  v2v3 ← addFace_edge v2 v3;
  v3v1 ← addFace_edge v3 v1;
  n1 ← out_or_pair v1v2 v2v3;
  modE v1v2 (with_next (Some n1));;
  n1' ← e_next v1v2;
  n2 ← out_or_pair n1' v3v1;
  modE n1' (with_next (Some n2));;
  a ← e_next v1v2; b ← e_next a;
  modE b (with_next (Some v1v2));;
  modF f (with_m_edge (Some v1v2));;
  c0 ← mret v1v2;
  modE c0 (with_face (Some f));;
  c1 ← e_next c0;
  modE c1 (with_face (Some f));;
  c2 ← e_next c1;
  modE c2 (with_face (Some f));;
  calc_normal f;;
  modify (set_m_faces (λ l, l ++ [f])).

(** ** Topology editor *)

Definition erase_out (v e : nat) : MeshM unit :=
  hv ← getV v; l ← nonnull (erase_first e (out hv));
  modify (set_vertices (insert v (with_out l hv))).
Definition erase_in (v e : nat) : MeshM unit :=
  hv ← getV v; l ← nonnull (erase_first e (in_ hv));
  modify (set_vertices (insert v (with_in l hv))).

Definition deleteEdge (edge : nat) (deletePair : bool) : MeshM unit :=
  s ← e_start edge; erase_out s edge;;
  t ← e_end edge; erase_in t edge;;
  when deletePair (
    p ← e_pair edge;
    ps ← e_start p; erase_out ps p;;
    pe ← e_end p; erase_in pe p;;
    freeE p);;
  freeE edge.

(** Modelled from the spec: the destructor of a face is not in the sources;
    following section 5 (deletion evicts a face from its region) the face
    leaves the face list of its region when there is one. *)
Definition freeF (f : nat) : MeshM unit :=
  h ← getF f;
  match m_region h with
  | Some r => modify (set_regions (alter (λ hr, with_r_faces (filter (λ x, x ≠ f) (r_faces hr)) hr) r))
  | None => mret tt
  end;;
  modify (set_faces (delete f)).

Definition erase_face (f : nat) : MeshM unit :=
  l ← gets m_faces; l' ← nonnull (erase_first f l);
  modify (set_m_faces (λ _, l'));;
  freeF f.

Definition delete_if_isolated (p : nat) : MeshM unit :=
  hv ← getV p; when (bool_decide (length (out hv) = 0)) (deleteVertex p).

Definition deleteFace (f : nat) : MeshM unit :=
  startEdge ← face_edge f 0;
  nextEdge ← face_edge f 1;
  lastEdge ← face_edge f 2;
  p1 ← face_vertex f 0;
  p2 ← face_vertex f 1;
  p3 ← face_vertex f 2;
  modE startEdge (with_face None);; modE startEdge (with_next None);;
  modE nextEdge (with_face None);; modE nextEdge (with_next None);;
  modE lastEdge (with_face None);; modE lastEdge (with_next None);;
  pf ← (e_pair startEdge ≫= e_face);
  when (bool_decide (pf = None)) (
    deleteEdge startEdge true;;
    delete_if_isolated p1;; delete_if_isolated p3);;
  pf ← (e_pair nextEdge ≫= e_face);
  when (bool_decide (pf = None)) (
    deleteEdge nextEdge true;;
    delete_if_isolated p1;; delete_if_isolated p2);;
  pf ← (e_pair lastEdge ≫= e_face);
  when (bool_decide (pf = None)) (
    deleteEdge lastEdge true;;
    delete_if_isolated p3;; delete_if_isolated p2);;
  erase_face f.

(** The block of [collapseEdge] that removes the triangle on the side of
    [e]: the two other edges go, their pairs become each other's pair. *)
Definition collapse_side (e : nat) : MeshM unit :=
  f ← e_face e;
  when (bool_decide (f ≠ None)) (
    nnp ← ((e_next e ≫= e_next) ≫= e_pair);
    np ← (e_next e ≫= e_pair);
    modE nnp (with_pair (Some np));;
    np ← (e_next e ≫= e_pair);
    nnp ← ((e_next e ≫= e_next) ≫= e_pair);
    modE np (with_pair (Some nnp));;
    nn ← (e_next e ≫= e_next); deleteEdge nn false;;
    n ← e_next e; deleteEdge n false).

Definition collapse_face (e : nat) : MeshM unit :=
  f ← e_face e;
  match f with
  | Some x => erase_face x
  | None => mret tt
  end.

(** The two loops that move the edges of [p2] over to [p1].  With
    [p1 = p2] the loop appends to the vector it iterates over. *)
Definition rehome_out (p1 p2 : nat) : MeshM unit :=
  h2 ← getV p2;
  if decide (p1 = p2) then (if bool_decide (out h2 = []) then mret tt else fault)
  else forM_ (out h2) (λ x, modE x (with_start p1);; modV p1 (push_out x)).
Definition rehome_in (p1 p2 : nat) : MeshM unit :=
  h2 ← getV p2;
  if decide (p1 = p2) then (if bool_decide (in_ h2 = []) then mret tt else fault)
  else forM_ (in_ h2) (λ x, modE x (with_end p1);; modV p1 (push_in x)).

Definition collapseEdge (edge : nat) : MeshM unit :=
  p1 ← e_start edge;
  p2 ← e_end edge;
  h1 ← getV p1; h2 ← getV p2;
  modV p1 (with_position (vhalf (vadd (m_position h1) (m_position h2))));;
  collapse_side edge;;
  p ← e_pair edge; collapse_side p;;
  p ← e_pair edge; collapse_face p;;
  collapse_face edge;;
  deleteEdge edge true;;
  rehome_out p1 p2;;
  rehome_in p1 p2;;
  deleteVertex p2.

Definition flipEdge (edge : nat) : MeshM unit :=
  pf ← (e_pair edge ≫= e_face);
  ef ← (if bool_decide (pf ≠ None) then e_face edge else mret None);
  if bool_decide (pf ≠ None ∧ ef ≠ None) then
    newEdgeStart ← (e_next edge ≫= e_end);
    newEdgeEnd ← ((e_pair edge ≫= e_next) ≫= e_end);
    nn ← (e_next edge ≫= e_next);
    pn ← (e_pair edge ≫= e_next);
    modE nn (with_next (Some pn));;
    pnn ← ((e_pair edge ≫= e_next) ≫= e_next);
    n ← e_next edge;
    modE pnn (with_next (Some n));;
    pnn ← ((e_pair edge ≫= e_next) ≫= e_next);
    pnnf ← e_face pnn;
    newEdge ← newE (mkHEdge newEdgeStart newEdgeEnd None (Some pnn) pnnf false);
    modV newEdgeStart (push_out newEdge);;
    modV newEdgeEnd (push_in newEdge);;
    nn ← (e_next edge ≫= e_next);
    nnf ← e_face nn;
    newPair ← newE (mkHEdge newEdgeEnd newEdgeStart (Some newEdge) (Some nn) nnf false);
    modV newEdgeEnd (push_out newPair);;
    modV newEdgeStart (push_in newPair);;
    modE newEdge (with_pair (Some newPair));;
    f1 ← (e_face newEdge ≫= nonnull); modF f1 (with_m_edge (Some newEdge));;
    f2 ← (e_face newPair ≫= nonnull); modF f2 (with_m_edge (Some newPair));;
    n ← e_next edge; modE n (with_next (Some newEdge));;
    pn ← (e_pair edge ≫= e_next); modE pn (with_next (Some newPair));;
    x ← e_next newEdge; fx ← e_face newEdge; modE x (with_face fx);;
    x ← (e_next newEdge ≫= e_next); fx ← e_face newEdge; modE x (with_face fx);;
    x ← e_next newPair; fx ← e_face newPair; modE x (with_face fx);;
    x ← (e_next newPair ≫= e_next); fx ← e_face newPair; modE x (with_face fx);;
    f1 ← (e_face newEdge ≫= nonnull); calc_normal f1;;
    f2 ← (e_face newPair ≫= nonnull); calc_normal f2;;
    deleteEdge edge true
  else mret tt.

(** The overload of [flipEdge] that takes two faces: the loop walks
    [current] three times along [next], dereferencing it at the top of
    each pass. *)
Definition flipEdge_faces (f1 f2 : nat) : MeshM unit :=
  h ← getF f1;
  '(commonEdge, _) ← foldM (λ '(common, current) (_ : nat),
      cur ← nonnull current;
      pf ← (e_pair cur ≫= e_face);
      hc ← getE cur;
      mret (if bool_decide (pf = Some f2) then Some cur else common, next hc))
    (None, m_edge h) [0; 1; 2];
  match commonEdge with
  | None => mret tt
  | Some e => flipEdge e
  end.

(** ** Segmentation *)

(** Modelled from the spec: [Region::addFace] and
    [HalfEdgeFace::getFaceNormal] are not in the sources.  A region lists
    the faces it borrows and a face refers back to its region; the normal
    of a face is the one [calc_normal] stored. *)
Definition region_addFace (r f : nat) : MeshM unit :=
  modR r (λ h, with_r_faces (r_faces h ++ [f]) h);;
  modF f (with_m_region (Some r)).

Definition getFaceNormal (f : nat) : MeshM NormalT := h ← getF f; mret (f_normal h).

Fixpoint regionGrowing (fuel : nat) (start_face region : nat) : MeshM Z :=
  match fuel with
  | 0 => out_of_fuel
  | S fuel' =>
      modF start_face (with_m_used true);;
      region_addFace region start_face;;
      foldM (λ neighbor_cnt k,
               pf ← ((face_edge start_face k ≫= e_pair) ≫= e_face);
               match pf with
               | None => mret neighbor_cnt
               | Some g =>
                   hg ← getF g;
                   if m_used hg then mret neighbor_cnt
                   else r ← regionGrowing fuel' g region; mret (neighbor_cnt + 1 + r)%Z
               end)
            0%Z [0; 1; 2]
  end.

Fixpoint regionGrowing_angle (fuel : nat) (start_face : nat) (normal : NormalT)
    (angle : Scalar) (region : nat) : MeshM Z :=
  match fuel with
  | 0 => out_of_fuel
  | S fuel' =>
      modF start_face (with_m_used true);;
      region_addFace region start_face;;
      foldM (λ neighbor_cnt k,
               pf ← ((face_edge start_face k ≫= e_pair) ≫= e_face);
               match pf with
               | None => mret neighbor_cnt
               | Some g =>
                   hg ← getF g;
                   if m_used hg then mret neighbor_cnt
                   else
                     n ← getFaceNormal g;
                     if sgt (fabs (ndot n normal)) angle
                     then r ← regionGrowing_angle fuel' g normal angle region;
                          mret (neighbor_cnt + 1 + r)%Z
                     else mret neighbor_cnt
               end)
            0%Z [0; 1; 2]
  end.

(** ** Guarded collapse *)

(** [Region::detectFlicker] is not in the sources: it is a parameter, a
    predicate on the region and face handles in the current mesh. *)
Context (detectFlicker : HalfEdgeMesh → nat → nat → bool).

Definition rd_next (e : nat) : MeshM (option nat) := h ← getE e; mret (next h).
Definition rd_pair (e : nat) : MeshM (option nat) := h ← getE e; mret (pair h).

(** The cap test on the side of [e]:
    [e->next->pair->next->next == e->next->next->pair->next->pair]
    when [e] and both neighbours across its triangle carry a face. *)
Definition is_cap (e : nat) : MeshM bool :=
  f ← e_face e;
  if bool_decide (f = None) then mret false else
  npf ← ((e_next e ≫= e_pair) ≫= e_face);
  if bool_decide (npf = None) then mret false else
  nnpf ← (((e_next e ≫= e_next) ≫= e_pair) ≫= e_face);
  if bool_decide (nnpf = None) then mret false else
  a ← (((e_next e ≫= e_pair) ≫= e_next) ≫= rd_next);
  b ← ((((e_next e ≫= e_next) ≫= e_pair) ≫= e_next) ≫= rd_pair);
  mret (bool_decide (a = b)).

(** Number of outgoing edges of [edge->start] that end in [edge->end]. *)
Definition count_parallel (edge : nat) : MeshM nat :=
  he ← getE edge; hs ← getV (start he);
  foldM (λ cnt x, hx ← getE x;
                  mret (if decide (end_ hx = end_ he) then S cnt else cnt))
        0 (out hs).

(** [e] has a face whose two other edges are both boundary edges. *)
Definition lone_side (e : nat) : MeshM bool :=
  f ← e_face e;
  if bool_decide (f = None) then mret false else
  npf ← ((e_next e ≫= e_pair) ≫= e_face);
  if bool_decide (npf ≠ None) then mret false else
  nnpf ← (((e_next e ≫= e_next) ≫= e_pair) ≫= e_face);
  mret (bool_decide (nnpf = None)).

Definition triangle_hole (edge : nat) : MeshM bool :=
  he ← getE edge; ht ← getV (end_ he);
  foldM (λ (found : bool) x,
           if found then mret true else
           hx ← getE x; hxe ← getV (end_ hx);
           foldM (λ (found : bool) y,
                    if found then mret true else
                    hx ← getE x;
                    if bool_decide (face hx = None) then
                      hy ← getE y;
                      mret (bool_decide (face hy = None ∧ end_ hy = start he))
                    else mret false)
                 false (out hxe))
        false (out ht).

(** One of the two flicker loops: the faces across the outgoing edges of
    [v], other than the face across [edge]. *)
Definition flicker_around (v edge : nat) : MeshM bool :=
  hv ← getV v;
  foldM (λ (found : bool) x,
           if found then mret true else
           xf ← (e_pair x ≫= e_face);
           ef ← (e_pair edge ≫= e_face);
           if bool_decide (xf ≠ ef) then
             match xf with
             | None => mret false
             | Some g =>
                 hg ← getF g; r ← nonnull (m_region hg); getR r;;
                 gets (λ s, detectFlicker s r g)
             end
           else mret false)
        false (out hv).

Definition safeCollapseEdge (edge : nat) : MeshM bool :=
  c1 ← is_cap edge;
  if (c1 : bool) then mret false else
  c2 ← (e_pair edge ≫= is_cap);
  if (c2 : bool) then mret false else
  edgeCnt ← count_parallel edge;
  if bool_decide (edgeCnt ≠ 1) then mret false else
  l1 ← lone_side edge;
  l2 ← (if (l1 : bool) then mret true else e_pair edge ≫= lone_side);
  if (l2 : bool) then mret false else
  th ← triangle_hole edge;
  if (th : bool) then mret false else
  s ← e_start edge; hs ← getV s;
  t ← e_end edge; ht ← getV t;
  modV s (with_position (vhalf (vadd (m_position hs) (m_position ht))));;
  fl ← flicker_around s edge;
  if (fl : bool) then modV s (with_position (m_position hs));; mret false else
  t ← e_end edge; ht ← getV t;
  s ← e_start edge; hs' ← getV s;
  modV t (with_position (vhalf (vadd (m_position hs') (m_position ht))));;
  fl ← flicker_around t edge;
  if (fl : bool) then modV t (with_position (m_position ht));; mret false else
  collapseEdge edge;;
  mret true.

(** ** Hole filler *)

(** The [while(current != 0)] loop that traces one boundary contour. *)
Fixpoint trace_contour (fuel : nat) (current : nat) (contour : list nat)
    : MeshM (list nat) :=
  match fuel with
  | 0 => out_of_fuel
  | S fuel' =>
      hc ← getE current; hs ← getV (start hc);
      forM_ (out hs) (λ x,
        hx ← getE x; hc ← getE current;
        when (bool_decide (end_ hx = end_ hc)) (
          modE x (with_used true);;
          p ← e_pair x; modE p (with_used true)));;
      modE current (with_used true);;
      hc ← getE current; ht ← getV (end_ hc);
      nx ← foldM (λ nx it, hi ← getE it;
                    mret (if bool_decide (used hi = false ∧ face hi = None)
                          then Some it else nx))
                 None (out ht);
      match nx with
      | None => mret (contour ++ [current])
      | Some n => trace_contour fuel' n (contour ++ [current])
      end
  end.

(** [contour.size() < max_size] compares a [size_t] with an [int]: the
    [int] is converted to a 64-bit unsigned value. *)
Definition keep_contour (contour : list nat) (max_size : Z) : bool :=
  bool_decide (2 < length contour) &&
  bool_decide (Z.of_nat (length contour) < max_size `mod` 2 ^ 64)%Z.

Definition find_holes (fuel : nat) (max_size : Z) : MeshM (list (list nat)) :=
  fs ← gets m_faces;
  foldM (λ holes f,
    foldM (λ holes k,
      current ← (face_edge f k ≫= e_pair);
      hc ← getE current;
      if bool_decide (used hc = false ∧ face hc = None) then
        contour ← trace_contour fuel current [];
        mret (if keep_contour contour max_size then holes ++ [contour] else holes)
      else mret holes) holes [0; 1; 2]) ([] : list (list nat)) fs.



(** The test of the innermost [if]s for a pair [(i, j)] of the hole. *)
Definition closes_cycle (back ei ej : nat) : MeshM bool :=
  hb ← getE back; hi ← getE ei;
  if bool_decide (end_ hb = start hi) then
    hj ← getE ej;
    if bool_decide (end_ hi = start hj) then
      mret (bool_decide (end_ hj = start hb))
    else mret false
  else mret false.

(** The double [for] loop: first pair in loop order that closes a
    3-cycle with the trailing edge. *)
Definition find_cycle (back : nat) (hole : list nat) : MeshM (option (nat * nat)) :=
  foldM (λ found ei,
    foldM (λ found ej,
      match found with
      | Some _ => mret found
      | None => b ← closes_cycle back ei ej;
                mret (if (b : bool) then Some (ei, ej) else None)
      end) found hole) None hole.

(** The body of the innermost [if]: a face over [back], [ei], [ej]. *)
Definition close_cycle (back ei ej : nat) (hole : list nat) : MeshM (list nat) :=
  f ← new_face;
  modF f (with_m_edge (Some back));;
  modE back (with_next (Some ei));;
  modE ei (with_next (Some ej));;
  modE ej (with_next (Some back));;
  hole ← foldM (λ hole k,
            x ← face_edge f k;
            modE x (with_face (Some f));;
            x ← face_edge f k;
            nonnull (erase_first x hole)) hole [0; 1; 2];
  g ← (((face_edge f 0 ≫= e_pair) ≫= e_face) ≫= nonnull);
  hg ← getF g; r ← nonnull (m_region hg);
  region_addFace r f;;
  modify (set_m_faces (λ l, l ++ [f]));;
  mret hole.

(** One pass of [while(current_hole.size() > 0)]. *)
Definition fill_pass (hole : list nat) : MeshM (list nat) :=
  match last hole with
  | None => mret hole
  | Some back =>
      c ← find_cycle back hole;
      match c with
      | Some (ei, ej) => close_cycle back ei ej hole
      | None => mret (removelast hole)
      end
  end.

Fixpoint fill_hole (fuel : nat) (hole : list nat) : MeshM unit :=
  match fuel with
  | 0 => out_of_fuel
  | S fuel' =>
      match hole with
      | [] => mret tt
      | _ => hole' ← fill_pass hole; fill_hole fuel' hole'
      end
  end.


(** ** Finalizer *)

Record MeshBuffers := mkBuffers {
  m_vertexBuffer : list Scalar;
  m_normalBuffer : list Scalar;
  m_colorBuffer : list Scalar;
  m_indexBuffer : list nat;
  m_nVertices : nat;
  m_nFaces : nat
}.

(** The vertex loop: slot [i] of each buffer is written in turn. *)
Fixpoint finalize_vertices (l : list nat) (i : nat) (b : MeshBuffers)
    (index_map : gmap nat nat) : MeshM (MeshBuffers * gmap nat nat) :=
  match l with
  | [] => mret (b, index_map)
  | v :: l' =>
      h ← getV v;
      let p := m_position h in
      let n := m_normal h in
      finalize_vertices l' (S i)
        (mkBuffers
           (m_vertexBuffer b ++ [vcoord p 0; vcoord p 1; vcoord p 2])
           (m_normalBuffer b ++ [sneg (ncoord n 0); sneg (ncoord n 1); sneg (ncoord n 2)])
           (m_colorBuffer b ++ [tint; tint; tint])
           (m_indexBuffer b) (m_nVertices b) (m_nFaces b))
        (<[v := i]> index_map)
  end.

(** [m_colorBuffer[i] = x]; writing past the buffer is undefined. *)
Definition write_color (i : nat) (x : Scalar) (b : MeshBuffers) : MeshM MeshBuffers :=
  if bool_decide (i < length (m_colorBuffer b)) then
    mret (mkBuffers (m_vertexBuffer b) (m_normalBuffer b)
                    (<[i := x]> (m_colorBuffer b))
                    (m_indexBuffer b) (m_nVertices b) (m_nFaces b))
  else fault.

Definition color_vertex (idx : nat) (r g bl : Scalar) (b : MeshBuffers) : MeshM MeshBuffers :=
  b ← write_color (idx * 3 + 0) r b;
  b ← write_color (idx * 3 + 1) g b;
  write_color (idx * 3 + 2) bl b.

Definition finalize_face (index_map : gmap nat nat) (b : MeshBuffers) (f : nat)
    : MeshM MeshBuffers :=
  v0 ← face_vertex f 0; v1 ← face_vertex f 1; v2 ← face_vertex f 2;
  let i0 := default 0 (index_map !! v0) in
  let i1 := default 0 (index_map !! v1) in
  let i2 := default 0 (index_map !! v2) in
  hf ← getF f;
  surface_class ← match m_region hf with
                  | Some r => hr ← getR r; mret (m_region_number hr)
                  | None => mret 1%Z
                  end;
  colorRegions ← gets m_colorRegions;
  let '(r, g, bl) := if colorRegions : bool
                     then (hash_r surface_class, hash_g surface_class, hash_b surface_class)
                     else (zero, tint, zero) in
  let b := mkBuffers (m_vertexBuffer b) (m_normalBuffer b) (m_colorBuffer b)
                     (m_indexBuffer b ++ [i0; i1; i2]) (m_nVertices b) (m_nFaces b) in
  b ← color_vertex i0 r g bl b;
  b ← color_vertex i1 r g bl b;
  color_vertex i2 r g bl b.

Definition finalize : MeshM MeshBuffers :=
  vs ← gets m_vertices; fs ← gets m_faces;
  '(b, index_map) ← finalize_vertices vs 0
                      (mkBuffers [] [] [] [] (length vs) (length fs)) ∅;
  foldM (finalize_face index_map) b fs.

(** ** Vocabulary of the properties *)

(** The three slots written for a vertex by [finalize]. *)
Definition position_slots (h : HVertex) : list Scalar :=
  [vcoord (m_position h) 0; vcoord (m_position h) 1; vcoord (m_position h) 2].
Definition normal_slots (h : HVertex) : list Scalar :=
  [sneg (ncoord (m_normal h) 0); sneg (ncoord (m_normal h) 1); sneg (ncoord (m_normal h) 2)].

(** An operation that never runs out of fuel. *)
Definition fuel_free {A} (c : MeshM A) : Prop := ∀ s, c s ≠ OutOfFuel.

(** Modelled from the spec: the constructor of a region is not in the
    sources; a new region has its number, no faces and no fitted plane. *)
Definition new_region (number : Z) : MeshM nat :=
  r ← gets (λ s, fresh_id (regions s));
  modify (set_regions (insert r (mkRegion [] false number)));;
  mret r.

(** What region growing does to a face it takes, and the mesh after the
    faces [L] were taken into region [r] in that order. *)
Definition mark (r : nat) (h : HFace) : HFace :=
  with_m_region (Some r) (with_m_used true h).
Definition grow_state (r : nat) (L : list nat) (s : HalfEdgeMesh) : HalfEdgeMesh :=
  set_regions (alter (λ hr, with_r_faces (r_faces hr ++ L) hr) r)
    (set_faces (λ m, foldl (λ m g, alter (mark r) g m) m L) s).

(** The live faces not yet visited. *)
Definition unvisited (s : HalfEdgeMesh) : gset nat :=
  dom (filter (λ kv, m_used kv.2 = false) (faces s)).

(** The admission test as the specification words it: the dot product of
    the face normal with the reference normal exceeds the threshold. *)
Definition cosine_admits (s : HalfEdgeMesh) (normal : NormalT) (angle : Scalar)
    (g : nat) : Prop :=
  ∃ hg, faces s !! g = Some hg ∧ sgt (ndot (f_normal hg) normal) angle = true.
(** The admission test of the code: the absolute value of that product. *)
Definition abs_cosine_admits (s : HalfEdgeMesh) (normal : NormalT) (angle : Scalar)
    (g : nat) : Prop :=
  ∃ hg, faces s !! g = Some hg ∧ m_used hg = false ∧
        sgt (fabs (ndot (f_normal hg) normal)) angle = true.


(** An operation that only reads the mesh. *)
Definition read_only {A} (c : MeshM A) : Prop := ∀ s a s', c s = Ok a s' → s' = s.


(** ** Graph invariants *)

Definition start_of (s : HalfEdgeMesh) (e : nat) : option nat := start <$> edges s !! e.
Definition end_of (s : HalfEdgeMesh) (e : nat) : option nat := end_ <$> edges s !! e.
Definition next_of (s : HalfEdgeMesh) (e : nat) : option nat := edges s !! e ≫= next.
Definition pair_of (s : HalfEdgeMesh) (e : nat) : option nat := edges s !! e ≫= pair.
Definition face_of (s : HalfEdgeMesh) (e : nat) : option nat := edges s !! e ≫= face.
Definition out_of (s : HalfEdgeMesh) (v : nat) : list nat := default [] (out <$> vertices s !! v).
Definition in_of (s : HalfEdgeMesh) (v : nat) : list nat := default [] (in_ <$> vertices s !! v).

(** The pairing invariant at a half-edge [e] with record [h]:
    [e.pair.pair == e], [e.pair.start == e.end], [e.pair.end == e.start]. *)
Definition paired (m : gmap nat HEdge) (e : nat) (h : HEdge) : Prop :=
  match pair h with
  | Some p =>
      match m !! p with
      | Some hp => pair hp = Some e ∧ start hp = end_ h ∧ end_ hp = start h
      | None => False
      end
  | None => False
  end.
Definition pairing_ok (s : HalfEdgeMesh) : Prop :=
  map_Forall (paired (edges s)) (edges s).

(** The two halves of a pair are two objects. *)
Definition pairs_distinct (s : HalfEdgeMesh) : Prop :=
  map_Forall (λ e h, pair h ≠ Some e) (edges s).

(** [e0], [e1], [e2] are live, follow each other by [next] in a cycle and
    all refer to the face [f]. *)
Definition is_cycle (s : HalfEdgeMesh) (f e0 e1 e2 : nat) : Prop :=
  next_of s e0 = Some e1 ∧ next_of s e1 = Some e2 ∧ next_of s e2 = Some e0 ∧
  face_of s e0 = Some f ∧ face_of s e1 = Some f ∧ face_of s e2 = Some f.

(** The face-cycle invariant at a face: three applications of [next] from
    its edge return to it, and the three edges refer to the face. *)
Definition face_cycle_at (s : HalfEdgeMesh) (f : nat) : Prop :=
  match faces s !! f ≫= m_edge with
  | Some e0 =>
      match next_of s e0 with
      | Some e1 =>
          match next_of s e1 with
          | Some e2 => is_cycle s f e0 e1 e2
          | None => False
          end
      | None => False
      end
  | None => False
  end.
Definition face_cycle_ok (s : HalfEdgeMesh) : Prop :=
  Forall (face_cycle_at s) (m_faces s).

(** [e0], [e1], [e2] run head to tail around three distinct vertices. *)
Definition is_triangle (s : HalfEdgeMesh) (e0 e1 e2 : nat) : Prop :=
  start_of s e1 = end_of s e0 ∧ start_of s e2 = end_of s e1 ∧
  start_of s e0 = end_of s e2 ∧
  start_of s e0 ≠ start_of s e1 ∧ start_of s e1 ≠ start_of s e2 ∧
  start_of s e2 ≠ start_of s e0.

(** A half-edge that refers to a face is on a triangle of that face, and
    the face is in the face list. *)
Definition on_triangle (s : HalfEdgeMesh) (e : nat) (h : HEdge) : Prop :=
  match face h with
  | None => True
  | Some f =>
      f ∈ m_faces s ∧
      match next_of s e with
      | Some e1 =>
          match next_of s e1 with
          | Some e2 => is_cycle s f e e1 e2 ∧ is_triangle s e e1 e2
          | None => False
          end
      | None => False
      end
  end.
Definition triangles_ok (s : HalfEdgeMesh) : Prop :=
  map_Forall (on_triangle s) (edges s).

(** The adjacency lists: every half-edge is registered with its two
    endpoints, and the lists hold nothing else and nothing twice. *)
Definition registered (s : HalfEdgeMesh) (e : nat) (h : HEdge) : Prop :=
  e ∈ out_of s (start h) ∧ e ∈ in_of s (end_ h).
Definition lists_sound (s : HalfEdgeMesh) (v : nat) (hv : HVertex) : Prop :=
  NoDup (out hv) ∧ NoDup (in_ hv) ∧
  Forall (λ e, start_of s e = Some v) (out hv) ∧
  Forall (λ e, end_of s e = Some v) (in_ hv).
Definition adjacency_ok (s : HalfEdgeMesh) : Prop :=
  map_Forall (registered s) (edges s) ∧ map_Forall (lists_sound s) (vertices s).

(** The vertex and face lists name live objects, each once. *)
Definition lists_ok (s : HalfEdgeMesh) : Prop :=
  NoDup (m_faces s) ∧ NoDup (m_vertices s) ∧
  map_Forall (λ v _, v ∈ m_vertices s) (vertices s).

(** A well-formed triangle mesh. *)
Definition mesh_wf (s : HalfEdgeMesh) : Prop :=
  pairing_ok s ∧ pairs_distinct s ∧ adjacency_ok s ∧
  face_cycle_ok s ∧ triangles_ok s ∧ lists_ok s.

(** How many of the two sides of an edge carry a face. *)
Definition sides (he hp : HEdge) : nat :=
  (if face he is Some _ then 1 else 0) + (if face hp is Some _ then 1 else 0).


Global Instance paired_dec m e h : Decision (paired m e h).
Proof. unfold paired. destruct (pair h); [destruct (m !! _)|]; apply _. Defined.
Global Instance pairing_ok_dec s : Decision (pairing_ok s).
Proof. unfold pairing_ok. apply _. Defined.
Global Instance pairs_distinct_dec s : Decision (pairs_distinct s).
Proof. unfold pairs_distinct. apply _. Defined.
Global Instance is_cycle_dec s f a b c : Decision (is_cycle s f a b c).
Proof. unfold is_cycle. apply _. Defined.
Global Instance face_cycle_at_dec s f : Decision (face_cycle_at s f).
Proof. unfold face_cycle_at. repeat case_match; apply _. Defined.
Global Instance face_cycle_ok_dec s : Decision (face_cycle_ok s).
Proof. unfold face_cycle_ok. apply _. Defined.
Global Instance is_triangle_dec s a b c : Decision (is_triangle s a b c).
Proof. unfold is_triangle. apply _. Defined.
Global Instance on_triangle_dec s e h : Decision (on_triangle s e h).
Proof. unfold on_triangle. repeat case_match; apply _. Defined.
Global Instance triangles_ok_dec s : Decision (triangles_ok s).
Proof. unfold triangles_ok. apply _. Defined.
Global Instance adjacency_ok_dec s : Decision (adjacency_ok s).
Proof. unfold adjacency_ok, registered, lists_sound. apply _. Defined.
Global Instance lists_ok_dec s : Decision (lists_ok s).
Proof. unfold lists_ok. apply _. Defined.
Global Instance mesh_wf_dec s : Decision (mesh_wf s).
Proof. unfold mesh_wf. apply _. Defined.

(** The pairing invariant up to a renaming [ρ] of vertices, as it holds
    in the middle of an edge collapse: the endpoints of a pair agree once
    the vertex being removed is identified with the one that stays. *)
Definition pairing_upto (ρ : nat → nat) (m : gmap nat HEdge) : Prop :=
  ∀ e h, m !! e = Some h →
    ∃ p hp, pair h = Some p ∧ p ≠ e ∧ m !! p = Some hp ∧ pair hp = Some e ∧
            ρ (start hp) = ρ (end_ h) ∧ ρ (end_ hp) = ρ (start h).

(** Identify vertex [p2] with vertex [p1]. *)
Definition merge_into (p1 p2 : nat) (v : nat) : nat := if decide (v = p2) then p1 else v.
Definition rename_edge (ρ : nat → nat) (h : HEdge) : HEdge :=
  with_end (ρ (end_ h)) (with_start (ρ (start h)) h).

(** What a run may do to the half-edges for the faces to stay intact:
    a half-edge either stays live with its [next] and [face], or it
    referred to a face that goes away ([bad] says which). *)
Definition edges_kept (bad : option nat → Prop) (s s' : HalfEdgeMesh) : Prop :=
  ∀ y h, edges s !! y = Some h →
    (∃ h', edges s' !! y = Some h' ∧ next h' = next h ∧ face h' = face h) ∨
    bad (face h).

(** Adjacency in the middle of a deletion: the half-edges [X] are already
    out of every adjacency list and may still be live. *)
Definition adjacency_but (X : list nat) (s : HalfEdgeMesh) : Prop :=
  (∀ e h, edges s !! e = Some h → e ∉ X → registered s e h) ∧
  map_Forall (lists_sound s) (vertices s) ∧
  (∀ x v hv, x ∈ X → vertices s !! v = Some hv → x ∉ out hv ∧ x ∉ in_ hv).


(** A step that touches only half-edges and adjacency lists. *)
Definition same_faces (s s' : HalfEdgeMesh) : Prop :=
  faces s' = faces s ∧ regions s' = regions s ∧
  m_faces s' = m_faces s ∧ m_vertices s' = m_vertices s ∧
  dom (vertices s') = dom (vertices s).


(** An operation that keeps a property of the mesh. *)
Definition preserves {A} (P : HalfEdgeMesh → Prop) (c : MeshM A) : Prop :=
  ∀ s a s', P s → c s = Ok a s' → P s'.

(** Every half-edge of [s'] is one of [s] with the same endpoints,
    [next] and [face]. *)
Definition edges_sub (s s' : HalfEdgeMesh) : Prop :=
  ∀ y h', edges s' !! y = Some h' →
    ∃ h, edges s !! y = Some h ∧ start h' = start h ∧ end_ h' = end_ h ∧
         next h' = next h ∧ face h' = face h.


(** What [triangles_ok] says at a half-edge with a face. *)
Definition triangle_at (s : HalfEdgeMesh) (x : nat) (hx : HEdge) (f : nat) : Prop :=
  ∃ n hn nn hnn,
    next hx = Some n ∧ edges s !! n = Some hn ∧
    next hn = Some nn ∧ edges s !! nn = Some hnn ∧ next hnn = Some x ∧
    face hn = Some f ∧ face hnn = Some f ∧
    start hn = end_ hx ∧ start hnn = end_ hn ∧ start hx = end_ hnn ∧
    start hx ≠ start hn ∧ start hn ≠ start hnn ∧ start hnn ≠ start hx.


(** ** The quad around an edge *)

(** The live half-edge [x] runs from [st] to [en], is followed by [nx]
    and refers to the face [fc]. *)
Definition edge_is (s : HalfEdgeMesh) (x st en nx fc : nat) : Prop :=
  ∃ h, edges s !! x = Some h ∧ start h = st ∧ end_ h = en ∧
       next h = Some nx ∧ face h = Some fc.

(** The two triangles on the sides of the half-edge [e] from [a] to [b]:
    [e], [n1], [n2] around [a], [b], [c] with the face [f1], and the pair
    [p], [m1], [m2] around [b], [a], [d] with the face [f2].  The six
    half-edges are six objects, [e] and [p] are in the adjacency lists of
    their endpoints, and the vertices and faces are live. *)
Definition quad (s : HalfEdgeMesh) (e p n1 n2 m1 m2 a b c d f1 f2 : nat) : Prop :=
  NoDup [e; p; n1; n2; m1; m2] ∧
  edge_is s e a b n1 f1 ∧ edge_is s n1 b c n2 f1 ∧ edge_is s n2 c a e f1 ∧
  edge_is s p b a m1 f2 ∧ edge_is s m1 a d m2 f2 ∧ edge_is s m2 d b p f2 ∧
  pair_of s e = Some p ∧ pair_of s p = Some e ∧
  e ∈ out_of s a ∧ e ∈ in_of s b ∧ p ∈ out_of s b ∧ p ∈ in_of s a ∧
  is_Some (vertices s !! c) ∧ is_Some (vertices s !! d) ∧
  is_Some (faces s !! f1) ∧ is_Some (faces s !! f2).

(** What an edit of the adjacency lists keeps of a vertex: its position
    and normal, and every entry of its lists other than those in [X]. *)
Definition vertex_kept (X : list nat) (hv hv' : HVertex) : Prop :=
  m_position hv' = m_position hv ∧ m_normal hv' = m_normal hv ∧
  ∀ x, x ∉ X → (x ∈ out hv → x ∈ out hv') ∧ (x ∈ in_ hv → x ∈ in_ hv').
Definition lists_kept (X : list nat) (V V' : gmap nat HVertex) : Prop :=
  ∀ v, option_Forall2 (vertex_kept X) (V !! v) (V' !! v).

(** The frame of an edit around the half-edges [X]: the other half-edges
    keep their endpoints and pair, those outside [Y] are untouched; the
    vertex and face lists, the regions and the faces outside [Fs] are
    untouched. *)
Definition edit_frame (X Y Fs : list nat) (s s' : HalfEdgeMesh) : Prop :=
  (∀ x h, edges s !! x = Some h → x ∉ X →
     ∃ h', edges s' !! x = Some h' ∧ start h' = start h ∧ end_ h' = end_ h ∧
           pair h' = pair h ∧ (x ∉ Y → h' = h)) ∧
  (∀ g, g ∉ Fs → faces s' !! g = faces s !! g) ∧
  m_faces s' = m_faces s ∧ m_vertices s' = m_vertices s ∧
  regions s' = regions s ∧ m_regions s' = m_regions s.


(** ** Vocabulary of the builder *)

(** The half-edges in the incoming list of [v] that run from [w] to [v],
    in list order: [halfEdgeToVertex v w] returns the last of them. *)
Definition opposite_in (s : HalfEdgeMesh) (v w : nat) : list nat :=
  filter (λ x, end_of s x = Some v ∧ start_of s x = Some w) (in_of s v).

(** A fresh pair between [cur] and [nxt]: [e] from [cur] to [nxt] with
    the face [fc], its pair [pr] back, both new and both in the adjacency
    lists of the two vertices. *)
Definition fresh_pair (s s' : HalfEdgeMesh) (cur nxt : nat) (fc : option nat)
    (e pr : nat) : Prop :=
  edges s !! e = None ∧ edges s !! pr = None ∧ e ≠ pr ∧
  edges s' = <[pr := mkHEdge nxt cur (Some e) None None false]>
               (<[e := mkHEdge cur nxt (Some pr) None fc false]> (edges s)) ∧
  e ∈ out_of s' cur ∧ e ∈ in_of s' nxt ∧ pr ∈ in_of s' cur ∧ pr ∈ out_of s' nxt ∧
  lists_kept [] (vertices s) (vertices s') ∧
  faces s' = faces s ∧ m_faces s' = m_faces s ∧ m_vertices s' = m_vertices s ∧
  regions s' = regions s.

(** What one edge step of [addTriangle] does: with a half-edge [x] found
    running from [nxt] to [cur], the pair of [x] is given the face [f],
    whatever face it or [x] had; with none found, a fresh pair. *)
Definition triangle_edge_step (s s' : HalfEdgeMesh) (f cur nxt e : nat) : Prop :=
  match last (opposite_in s cur nxt) with
  | Some x =>
      pair_of s x = Some e ∧
      ∃ he, edges s !! e = Some he ∧
            s' = set_edges (insert e (with_face (Some f) he)) s
  | None => ∃ pr, fresh_pair s s' cur nxt (Some f) e pr
  end.

(** What one edge lookup of [addFace] does: a half-edge [x] found running
    from [nxt] to [cur] is taken itself when it has no face, its pair
    otherwise; with none found, a fresh pair without a face. *)
Definition face_edge_step (s s' : HalfEdgeMesh) (cur nxt e : nat) : Prop :=
  match last (opposite_in s cur nxt) with
  | Some x =>
      s' = s ∧
      ((face_of s x = None ∧ e = x) ∨ (face_of s x ≠ None ∧ pair_of s x = Some e))
  | None => ∃ pr, fresh_pair s s' cur nxt None e pr
  end.

(** The half-edge with record [h] joins the vertices [u] and [v]. *)
Definition joins (h : HEdge) (u v : nat) : Prop :=
  (start h = u ∧ end_ h = v) ∨ (start h = v ∧ end_ h = u).

(** Exactly one physical pair between [u] and [v]: [e] from [u] to [v]
    and [pr] back are each other's pair, are in the incoming lists of
    their end vertices, and no other live half-edge joins [u] and [v]. *)
Definition single_pair (s : HalfEdgeMesh) (u v e pr : nat) : Prop :=
  e ≠ pr ∧
  (∃ he, edges s !! e = Some he ∧ start he = u ∧ end_ he = v ∧ pair he = Some pr) ∧
  (∃ hp, edges s !! pr = Some hp ∧ start hp = v ∧ end_ hp = u ∧ pair hp = Some e) ∧
  e ∈ in_of s v ∧ pr ∈ in_of s u ∧
  ∀ x hx, edges s !! x = Some hx → joins hx u v → x = e ∨ x = pr.


(** ** Properties that read half-edges only *)

(** A property of the mesh that depends on the half-edge store alone. *)
Definition edges_only (P : HalfEdgeMesh → Prop) : Prop :=
  ∀ s s', edges s' = edges s → P s → P s'.

(** A property kept when a live half-edge is rewritten without touching
    its endpoints and its pair. *)
Definition links_only (P : HalfEdgeMesh → Prop) : Prop :=
  ∀ s e h h', edges s !! e = Some h →
    start h' = start h → end_ h' = end_ h → pair h' = pair h →
    P s → P (set_edges (insert e h') s).


(** A property of the mesh that depends on the half-edge and vertex
    stores alone. *)
Definition stores_only (P : HalfEdgeMesh → Prop) : Prop :=
  ∀ s s', edges s' = edges s → vertices s' = vertices s → P s → P s'.


(** The face on the other side of the half-edge [e]. *)
Definition face_across (s : HalfEdgeMesh) (e : nat) : option nat :=
  pair_of s e ≫= face_of s.

(** The face store and the face list are [F] and [L]. *)
Definition faces_are (F : gmap nat HFace) (L : list nat) (s : HalfEdgeMesh) : Prop :=
  faces s = F ∧ m_faces s = L.

(** The mesh [s'] is the mesh [s] with the [used] mark set on some of its
    half-edges: no half-edge is created or freed, every field of a
    half-edge other than [used] is as it was, and so is everything else. *)
Definition marked_from (s s' : HalfEdgeMesh) : Prop :=
  ∃ m, s' = set_edges (λ _, m) s ∧
       ∀ e, m !! e = edges s !! e ∨ m !! e = with_used true <$> edges s !! e.

(** A property kept when the [used] mark of a live half-edge is set. *)
Definition mark_closed (P : HalfEdgeMesh → Prop) : Prop :=
  ∀ s e h, edges s !! e = Some h → P s → P (set_edges (insert e (with_used true h)) s).

(** Every entry of an incoming list is a live half-edge, and every live
    half-edge ends in a live vertex. *)
Definition links_live (s : HalfEdgeMesh) : Prop :=
  (∀ v hv x, vertices s !! v = Some hv → x ∈ in_ hv → is_Some (edges s !! x)) ∧
  (∀ e h, edges s !! e = Some h → is_Some (vertices s !! end_ h)).

End Mesh.

Global Arguments Ok {G A} a s.
Global Arguments Fault {G A}.
Global Arguments OutOfFuel {G A}.

(** ** An instance over the integers

    Positions and normals are integer triples, scalars are integers; the
    literal 0.8 is scaled to 8 and [* 0.5] is halving. *)

Definition Z3 : Type := Z * Z * Z.
Definition z3_add (a b : Z3) : Z3 :=
  let '(a0, a1, a2) := a in let '(b0, b1, b2) := b in (a0 + b0, a1 + b1, a2 + b2)%Z.
Definition z3_sub (a b : Z3) : Z3 :=
  let '(a0, a1, a2) := a in let '(b0, b1, b2) := b in (a0 - b0, a1 - b1, a2 - b2)%Z.
Definition z3_half (a : Z3) : Z3 :=
  let '(a0, a1, a2) := a in (a0 / 2, a1 / 2, a2 / 2)%Z.
Definition z3_cross (a b : Z3) : Z3 :=
  let '(a0, a1, a2) := a in let '(b0, b1, b2) := b in
  (a1 * b2 - a2 * b1, a2 * b0 - a0 * b2, a0 * b1 - a1 * b0)%Z.
Definition z3_dot (a b : Z3) : Z :=
  let '(a0, a1, a2) := a in let '(b0, b1, b2) := b in (a0 * b0 + a1 * b1 + a2 * b2)%Z.
Definition z3_coord (a : Z3) (k : nat) : Z :=
  let '(a0, a1, a2) := a in match k with 0 => a0 | 1 => a1 | _ => a2 end.

Global Instance ZGeometry : Geometry := {|
  VertexT := Z3;
  NormalT := Z3;
  Scalar := Z;
  vadd := z3_add;
  vhalf := z3_half;
  default_normal := (0, 0, 0)%Z;
  normal_of := λ a b c, z3_cross (z3_sub a b) (z3_sub a c);
  ndot := z3_dot;
  fabs := Z.abs;
  sgt := Z.gtb;
  sneg := Z.opp;
  vcoord := z3_coord;
  ncoord := z3_coord;
  tint := 8%Z;
  zero := 0%Z;
  hash_r := λ c, Z.abs c;
  hash_g := λ c, Z.abs (c * 30);
  hash_b := λ c, Z.abs (c * 2)
|}.

(** Running a sequence of operations from a mesh. *)
Definition exec `{Geometry} {A} (c : MeshM A) (s : HalfEdgeMesh) : option HalfEdgeMesh :=
  match c s with Ok _ s' => Some s' | _ => None end.

(** ** Example meshes over the integers *)

Definition run_from {A} (c : MeshM A) (s : HalfEdgeMesh) : HalfEdgeMesh :=
  match c s with Ok _ s' => s' | _ => s end.

(** A single triangle. *)
Definition triangle_mesh : HalfEdgeMesh :=
  run_from (addVertex (0, 0, 0)%Z;; addVertex (1, 0, 0)%Z;; addVertex (0, 1, 0)%Z;;
            addTriangle 0 1 2) empty_mesh.

(** The unit square split along the diagonal 0-2. *)
Definition square_mesh : HalfEdgeMesh :=
  run_from (addVertex (0, 0, 0)%Z;; addNormal (0, 0, 1)%Z;;
            addVertex (1, 0, 0)%Z;; addNormal (0, 3, 4)%Z;;
            addVertex (1, 1, 0)%Z;; addNormal (1, -2, 2)%Z;;
            addVertex (0, 1, 0)%Z;; addNormal (0, 0, 1)%Z;;
            addTriangle 0 1 2;; addTriangle 0 2 3) empty_mesh.

(** Two triangles over the edge 0-2, the second folded back onto the
    first, with an empty region: their unit normals are opposite. *)
Definition folded_mesh : HalfEdgeMesh :=
  run_from (addVertex (0, 0, 0)%Z;; addVertex (1, 0, 0)%Z;;
            addVertex (0, 1, 0)%Z;; addVertex (1, 1, 0)%Z;;
            addTriangle 0 1 2;; addTriangle 0 2 3;; new_region 0) empty_mesh.

(** A flicker test for a region in the plane [z = 0]: a face flickers
    when its corners, at their current positions, wind against the plane
    normal [(0, 0, 1)]. *)
Definition flicker_flipped (s : HalfEdgeMesh) (r f : nat) : bool :=
  match (v0 ← face_vertex f 0; v1 ← face_vertex f 1; v2 ← face_vertex f 2;
         h0 ← getV v0; h1 ← getV v1; h2 ← getV v2;
         mret (normal_of (m_position h0) (m_position h1) (m_position h2))) s with
  | Ok n _ => (z3_dot n (0, 0, 1) <? 0)%Z
  | _ => false
  end.

(** Four triangles in the plane [z = 0], all in one region. *)
Definition strip_mesh : HalfEdgeMesh :=
  run_from (addVertex (0, 0, 0)%Z;; addVertex (-32, -8, 0)%Z;;
            addVertex (-24, -24, 0)%Z;; addVertex (0, 8, 0)%Z;;
            addVertex (8, 0, 0)%Z;; addVertex (-16, -16, 0)%Z;;
            addTriangle 0 1 4;; addTriangle 0 4 3;;
            addTriangle 1 2 5;; addTriangle 1 5 4;;
            r ← new_region 0; regionGrowing 10 1 r) empty_mesh.





(** Three vertices and nothing else. *)
Definition points_mesh : HalfEdgeMesh :=
  run_from (addVertex (0, 0, 0)%Z;; addVertex (1, 0, 0)%Z;; addVertex (0, 1, 0)%Z)
           empty_mesh.

(** A single triangle taken into a region. *)
Definition tagged_triangle : HalfEdgeMesh :=
  run_from (r ← new_region 0; regionGrowing 5 1 r) triangle_mesh.

(** Buffers before [finalize] has run. *)
Definition no_buffers : MeshBuffers := mkBuffers [] [] [] [] 0 0.

(** A flicker test that never reports a flicker. *)
Definition no_flicker (s : HalfEdgeMesh) (r f : nat) : bool := false.

(** Whether a run completes, and the value it returns ([d] when it does
    not). *)
Definition completes `{Geometry} {A} (c : MeshM A) (s : HalfEdgeMesh) : bool :=
  match c s with Ok _ _ => true | _ => false end.
Definition value_of `{Geometry} {A} (c : MeshM A) (s : HalfEdgeMesh) : option A :=
  match c s with Ok a _ => Some a | _ => None end.
Definition result_of `{Geometry} {A} (d : A) (c : MeshM A) (s : HalfEdgeMesh) : A :=
  match c s with Ok a _ => a | _ => d end.

(** * Reasoning about mesh operations *)

Section Monad.
Context `{G : Geometry}.

Lemma run_bind {A B} (c : MeshM A) (f : A → MeshM B) s :
  (c ≫= f) s =
  match c s with Ok a s' => f a s' | Fault => Fault | OutOfFuel => OutOfFuel end.
Proof. reflexivity. Qed.

Lemma bind_Ok {A B} (c : MeshM A) (f : A → MeshM B) s b s' :
  (c ≫= f) s = Ok b s' ↔ ∃ a s1, c s = Ok a s1 ∧ f a s1 = Ok b s'.
Proof.
  rewrite run_bind. split.
  - destruct (c s) as [a s1| |]; [eauto|done|done].
  - intros (a & s1 & -> & H). exact H.
Qed.

Lemma mret_Ok {A} (a b : A) s s' : mret (M := MeshM) a s = Ok b s' ↔ a = b ∧ s = s'.
Proof. split; [intros [= -> ->]; done | intros [-> ->]; done]. Qed.

Lemma nonnull_Ok {A} (o : option A) a s s' : nonnull o s = Ok a s' ↔ o = Some a ∧ s = s'.
Proof. destruct o; cbn; split; try (intros [= -> ->]; done); intros [[=] ->]; subst; done. Qed.

Lemma gets_Ok {A} (f : HalfEdgeMesh → A) a s s' : gets f s = Ok a s' ↔ f s = a ∧ s = s'.
Proof. unfold gets. split; [intros [= -> ->]; done | intros [-> ->]; done]. Qed.

Lemma modify_Ok f u s s' : modify f s = Ok u s' ↔ s' = f s.
Proof. unfold modify. destruct u. split; [intros [= <-]; done | intros ->; done]. Qed.

Lemma getV_Ok v h s s' : getV v s = Ok h s' ↔ vertices s !! v = Some h ∧ s = s'.
Proof.
  unfold getV. rewrite bind_Ok. split.
  - intros (m & s1 & [<- <-]%gets_Ok & H%nonnull_Ok). done.
  - intros [H ->]. eexists _, _. split; [by apply gets_Ok|]. by apply nonnull_Ok.
Qed.
Lemma getE_Ok e h s s' : getE e s = Ok h s' ↔ edges s !! e = Some h ∧ s = s'.
Proof.
  unfold getE. rewrite bind_Ok. split.
  - intros (m & s1 & [<- <-]%gets_Ok & H%nonnull_Ok). done.
  - intros [H ->]. eexists _, _. split; [by apply gets_Ok|]. by apply nonnull_Ok.
Qed.
Lemma getF_Ok f h s s' : getF f s = Ok h s' ↔ faces s !! f = Some h ∧ s = s'.
Proof.
  unfold getF. rewrite bind_Ok. split.
  - intros (m & s1 & [<- <-]%gets_Ok & H%nonnull_Ok). done.
  - intros [H ->]. eexists _, _. split; [by apply gets_Ok|]. by apply nonnull_Ok.
Qed.
Lemma getR_Ok r h s s' : getR r s = Ok h s' ↔ regions s !! r = Some h ∧ s = s'.
Proof.
  unfold getR. rewrite bind_Ok. split.
  - intros (m & s1 & [<- <-]%gets_Ok & H%nonnull_Ok). done.
  - intros [H ->]. eexists _, _. split; [by apply gets_Ok|]. by apply nonnull_Ok.
Qed.

Lemma getE_ok s e h : edges s !! e = Some h → getE e s = Ok h s.
Proof. intros. by apply getE_Ok. Qed.
Lemma getV_ok s v h : vertices s !! v = Some h → getV v s = Ok h s.
Proof. intros. by apply getV_Ok. Qed.
Lemma getF_ok s f h : faces s !! f = Some h → getF f s = Ok h s.
Proof. intros. by apply getF_Ok. Qed.

Lemma e_pair_ok s e h p : edges s !! e = Some h → pair h = Some p → e_pair e s = Ok p s.
Proof. intros H Hp. unfold e_pair. rewrite run_bind, (getE_ok _ _ _ H), Hp. reflexivity. Qed.
Lemma e_next_ok s e h p : edges s !! e = Some h → next h = Some p → e_next e s = Ok p s.
Proof. intros H Hp. unfold e_next. rewrite run_bind, (getE_ok _ _ _ H), Hp. reflexivity. Qed.
Lemma e_face_ok s e h : edges s !! e = Some h → e_face e s = Ok (face h) s.
Proof. intros H. unfold e_face. rewrite run_bind, (getE_ok _ _ _ H). reflexivity. Qed.
Lemma e_start_ok s e h : edges s !! e = Some h → e_start e s = Ok (start h) s.
Proof. intros H. unfold e_start. rewrite run_bind, (getE_ok _ _ _ H). reflexivity. Qed.
Lemma e_end_ok s e h : edges s !! e = Some h → e_end e s = Ok (end_ h) s.
Proof. intros H. unfold e_end. rewrite run_bind, (getE_ok _ _ _ H). reflexivity. Qed.

Lemma e_pair_Ok e p s s' :
  e_pair e s = Ok p s' ↔ ∃ h, edges s !! e = Some h ∧ pair h = Some p ∧ s = s'.
Proof.
  unfold e_pair. rewrite bind_Ok. split.
  - intros (h & s1 & [? <-]%getE_Ok & [? ?]%nonnull_Ok). eauto.
  - intros (h & ? & ? & ->). exists h, s'. split; [by apply getE_Ok | by apply nonnull_Ok].
Qed.
Lemma e_next_Ok e p s s' :
  e_next e s = Ok p s' ↔ ∃ h, edges s !! e = Some h ∧ next h = Some p ∧ s = s'.
Proof.
  unfold e_next. rewrite bind_Ok. split.
  - intros (h & s1 & [? <-]%getE_Ok & [? ?]%nonnull_Ok). eauto.
  - intros (h & ? & ? & ->). exists h, s'. split; [by apply getE_Ok | by apply nonnull_Ok].
Qed.
Lemma e_face_Ok e f s s' :
  e_face e s = Ok f s' ↔ ∃ h, edges s !! e = Some h ∧ face h = f ∧ s = s'.
Proof.
  unfold e_face. rewrite bind_Ok. split.
  - intros (h & s1 & [? <-]%getE_Ok & [? ?]%mret_Ok). eauto.
  - intros (h & ? & ? & ->). exists h, s'. split; [by apply getE_Ok | by apply mret_Ok].
Qed.
Lemma e_start_Ok e v s s' :
  e_start e s = Ok v s' ↔ ∃ h, edges s !! e = Some h ∧ start h = v ∧ s = s'.
Proof.
  unfold e_start. rewrite bind_Ok. split.
  - intros (h & s1 & [? <-]%getE_Ok & [? ?]%mret_Ok). eauto.
  - intros (h & ? & ? & ->). exists h, s'. split; [by apply getE_Ok | by apply mret_Ok].
Qed.
Lemma e_end_Ok e v s s' :
  e_end e s = Ok v s' ↔ ∃ h, edges s !! e = Some h ∧ end_ h = v ∧ s = s'.
Proof.
  unfold e_end. rewrite bind_Ok. split.
  - intros (h & s1 & [? <-]%getE_Ok & [? ?]%mret_Ok). eauto.
  - intros (h & ? & ? & ->). exists h, s'. split; [by apply getE_Ok | by apply mret_Ok].
Qed.

Lemma modE_Ok e f u s s' :
  modE e f s = Ok u s' ↔ ∃ h, edges s !! e = Some h ∧ s' = set_edges (insert e (f h)) s.
Proof.
  unfold modE. rewrite bind_Ok. split.
  - intros (h & s1 & [? <-]%getE_Ok & ?%modify_Ok). eauto.
  - intros (h & ? & ->). exists h, s. split; [by apply getE_Ok | by apply modify_Ok].
Qed.
Lemma modV_Ok v f u s s' :
  modV v f s = Ok u s' ↔ ∃ h, vertices s !! v = Some h ∧ s' = set_vertices (insert v (f h)) s.
Proof.
  unfold modV. rewrite bind_Ok. split.
  - intros (h & s1 & [? <-]%getV_Ok & ?%modify_Ok). eauto.
  - intros (h & ? & ->). exists h, s. split; [by apply getV_Ok | by apply modify_Ok].
Qed.
Lemma modF_Ok x f u s s' :
  modF x f s = Ok u s' ↔ ∃ h, faces s !! x = Some h ∧ s' = set_faces (insert x (f h)) s.
Proof.
  unfold modF. rewrite bind_Ok. split.
  - intros (h & s1 & [? <-]%getF_Ok & ?%modify_Ok). eauto.
  - intros (h & ? & ->). exists h, s. split; [by apply getF_Ok | by apply modify_Ok].
Qed.
Lemma modR_Ok x f u s s' :
  modR x f s = Ok u s' ↔ ∃ h, regions s !! x = Some h ∧ s' = set_regions (insert x (f h)) s.
Proof.
  unfold modR. rewrite bind_Ok. split.
  - intros (h & s1 & [? <-]%getR_Ok & ?%modify_Ok). eauto.
  - intros (h & ? & ->). exists h, s. split; [by apply getR_Ok | by apply modify_Ok].
Qed.

(** Loop invariants. *)
Lemma foldM_inv {A B} (P : B → HalfEdgeMesh → Prop) (f : B → A → MeshM B) l :
  (∀ b x s b' s', x ∈ l → P b s → f b x s = Ok b' s' → P b' s') →
  ∀ b s r s', P b s → foldM f b l s = Ok r s' → P r s'.
Proof.
  induction l as [|x l IH]; intros Hf b s r s' HP Hrun.
  - apply mret_Ok in Hrun as [<- <-]. done.
  - cbn in Hrun. apply bind_Ok in Hrun as (b1 & s1 & H1 & H2).
    eapply IH; [|eapply Hf; [|exact HP|exact H1]; left|exact H2].
    intros ??????; eapply Hf. by right.
Qed.

Lemma forM_inv {A} (P : HalfEdgeMesh → Prop) (f : A → MeshM unit) l :
  (∀ x s u s', x ∈ l → P s → f x s = Ok u s' → P s') →
  ∀ s u s', P s → forM_ l f s = Ok u s' → P s'.
Proof.
  induction l as [|x l IH]; intros Hf s u s' HP Hrun.
  - apply mret_Ok in Hrun as [_ <-]. done.
  - cbn in Hrun. apply bind_Ok in Hrun as (b1 & s1 & H1 & H2).
    eapply IH; [|eapply Hf; [|exact HP|exact H1]; left|exact H2].
    intros ?????; eapply Hf. by right.
Qed.

Lemma fresh_id_None {A} (m : gmap nat A) : m !! fresh_id m = None.
Proof.
  apply not_elem_of_dom. intros Hin.
  apply elem_of_elements, max_list_elem_of_le in Hin.
  unfold fresh_id in Hin. lia.
Qed.

End Monad.

Ltac bd_true :=
  match goal with
  | |- context [@bool_decide ?P ?d] =>
      rewrite (@bool_decide_eq_true_2 P d) by (intuition congruence)
  end.
Ltac bd_false :=
  match goal with
  | |- context [@bool_decide ?P ?d] =>
      rewrite (@bool_decide_eq_false_2 P d) by (intuition congruence)
  end.

(** Inversion of a successful run, one primitive at a time. *)
Ltac minv H :=
  lazymatch type of H with
  | mbind _ _ _ = Ok _ _ =>
      let a := fresh "a" in let s := fresh "s" in let H1 := fresh "H" in
      apply bind_Ok in H as (a & s & H1 & H); minv H1; minv H
  | mret _ _ = Ok _ _ => apply mret_Ok in H as [<- <-]
  | nonnull _ _ = Ok _ _ => apply nonnull_Ok in H as [H <-]
  | gets _ _ = Ok _ _ => apply gets_Ok in H as [<- <-]
  | modify _ _ = Ok _ _ => apply modify_Ok in H as ->
  | getV _ _ = Ok _ _ => apply getV_Ok in H as [H <-]
  | getE _ _ = Ok _ _ => apply getE_Ok in H as [H <-]
  | getF _ _ = Ok _ _ => apply getF_Ok in H as [H <-]
  | getR _ _ = Ok _ _ => apply getR_Ok in H as [H <-]
  | e_pair _ _ = Ok _ _ =>
      let h := fresh "h" in let H1 := fresh "H" in
      apply e_pair_Ok in H as (h & H & H1 & <-)
  | e_next _ _ = Ok _ _ =>
      let h := fresh "h" in let H1 := fresh "H" in
      apply e_next_Ok in H as (h & H & H1 & <-)
  | e_face _ _ = Ok _ _ =>
      let h := fresh "h" in
      apply e_face_Ok in H as (h & H & <- & <-)
  | e_start _ _ = Ok _ _ =>
      let h := fresh "h" in
      apply e_start_Ok in H as (h & H & <- & <-)
  | e_end _ _ = Ok _ _ =>
      let h := fresh "h" in
      apply e_end_Ok in H as (h & H & <- & <-)
  | modE _ _ _ = Ok _ _ =>
      let h := fresh "h" in apply modE_Ok in H as (h & H & ->)
  | modV _ _ _ = Ok _ _ =>
      let h := fresh "h" in apply modV_Ok in H as (h & H & ->)
  | modF _ _ _ = Ok _ _ =>
      let h := fresh "h" in apply modF_Ok in H as (h & H & ->)
  | modR _ _ _ = Ok _ _ =>
      let h := fresh "h" in apply modR_Ok in H as (h & H & ->)
  | fault _ = Ok _ _ => discriminate H
  | out_of_fuel _ = Ok _ _ => discriminate H
  | _ => idtac
  end.

Section Readers.
Context `{G : Geometry}.

Lemma face_edge_Ok f k e s s' :
  face_edge f k s = Ok e s' ↔
  s' = s ∧ ∃ hf e0 h0, faces s !! f = Some hf ∧ m_edge hf = Some e0 ∧
    edges s !! e0 = Some h0 ∧
    match k with
    | 0 => e = e0
    | 1 => next h0 = Some e
    | _ => ∃ e1 h1, next h0 = Some e1 ∧ edges s !! e1 = Some h1 ∧ next h1 = Some e
    end.
Proof.
  unfold face_edge. split.
  - intros H. destruct k as [|[|k]]; minv H; (split; [done|]); eexists _, _, _; (repeat split; [done..|]); eauto 8.
  - intros (-> & hf & e0 & h0 & Hf & He0 & Hh0 & Hk).
    rewrite run_bind, (getF_ok _ _ _ Hf), run_bind, He0. cbn.
    destruct k as [|[|k]].
    + subst. rewrite run_bind, (getE_ok _ _ _ Hh0). done.
    + by rewrite (e_next_ok _ _ _ _ Hh0 Hk).
    + destruct Hk as (e1 & h1 & ? & ? & ?).
      rewrite run_bind, (e_next_ok _ _ h0 e1) by done.
      by rewrite (e_next_ok _ _ h1 e).
Qed.

Lemma face_edge_state f k e s s' : face_edge f k s = Ok e s' → s' = s.
Proof. by intros [? _]%face_edge_Ok. Qed.

Lemma face_vertex_state f k v s s' : face_vertex f k s = Ok v s' → s' = s.
Proof.
  unfold face_vertex. intros H. minv H. by apply face_edge_state in H0.
Qed.

End Readers.

(** Operations without an unbounded loop never run out of fuel. *)
Section Fuel.
Context `{G : Geometry}.


Lemma fuel_free_bind {A B} (c : MeshM A) (f : A → MeshM B) :
  fuel_free c → (∀ a, fuel_free (f a)) → fuel_free (c ≫= f).
Proof.
  intros Hc Hf s. rewrite run_bind. specialize (Hc s).
  destruct (c s); [apply Hf|done|done].
Qed.
Lemma fuel_free_ret {A} (a : A) : fuel_free (mret a).
Proof. done. Qed.
Lemma fuel_free_fault {A} : fuel_free (@fault _ A).
Proof. done. Qed.
Lemma fuel_free_gets {A} (f : HalfEdgeMesh → A) : fuel_free (gets f).
Proof. done. Qed.
Lemma fuel_free_modify f : fuel_free (modify f).
Proof. done. Qed.
Lemma fuel_free_nonnull {A} (o : option A) : fuel_free (nonnull o).
Proof. by destruct o. Qed.
Lemma fuel_free_foldM {A B} (f : B → A → MeshM B) l :
  (∀ b x, fuel_free (f b x)) → ∀ b, fuel_free (foldM f b l).
Proof.
  intros Hf. induction l as [|x l IH]; intros b; cbn; [done|].
  by apply fuel_free_bind.
Qed.
Lemma fuel_free_forM {A} (f : A → MeshM unit) l :
  (∀ x, fuel_free (f x)) → fuel_free (forM_ l f).
Proof.
  intros Hf. induction l as [|x l IH]; cbn; [done|].
  by apply fuel_free_bind.
Qed.
Lemma fuel_free_when b c : fuel_free c → fuel_free (when b c).
Proof. by destruct b. Qed.

End Fuel.

Ltac fuel_free :=
  repeat first
    [ apply fuel_free_ret | apply fuel_free_fault | apply fuel_free_gets
    | apply fuel_free_modify | apply fuel_free_nonnull
    | apply fuel_free_bind; [|intros ?]
    | apply fuel_free_foldM; intros ? ?
    | apply fuel_free_forM; intros ?
    | apply fuel_free_when
    | progress cbv beta
    | match goal with
      | |- fuel_free (match ?x with _ => _ end) => destruct x
      | |- fuel_free (let '(_, _) := ?x in _) => destruct x
      end
    | assumption ].

Create HintDb fuel.

Section FuelPrims.
Context `{G : Geometry}.

Lemma fuel_free_getV v : fuel_free (getV v). Proof. unfold getV. fuel_free. Qed.
Lemma fuel_free_getE v : fuel_free (getE v). Proof. unfold getE. fuel_free. Qed.
Lemma fuel_free_getF v : fuel_free (getF v). Proof. unfold getF. fuel_free. Qed.
Lemma fuel_free_getR v : fuel_free (getR v). Proof. unfold getR. fuel_free. Qed.
#[local] Hint Resolve fuel_free_getV fuel_free_getE fuel_free_getF fuel_free_getR : fuel.
Lemma fuel_free_modV v f : fuel_free (modV v f).
Proof. unfold modV. fuel_free; auto with fuel. Qed.
Lemma fuel_free_modE v f : fuel_free (modE v f).
Proof. unfold modE. fuel_free; auto with fuel. Qed.
Lemma fuel_free_modF v f : fuel_free (modF v f).
Proof. unfold modF. fuel_free; auto with fuel. Qed.
Lemma fuel_free_modR v f : fuel_free (modR v f).
Proof. unfold modR. fuel_free; auto with fuel. Qed.
Lemma fuel_free_e_next e : fuel_free (e_next e).
Proof. unfold e_next. fuel_free; auto with fuel. Qed.
Lemma fuel_free_e_pair e : fuel_free (e_pair e).
Proof. unfold e_pair. fuel_free; auto with fuel. Qed.
Lemma fuel_free_e_face e : fuel_free (e_face e).
Proof. unfold e_face. fuel_free; auto with fuel. Qed.
Lemma fuel_free_e_start e : fuel_free (e_start e).
Proof. unfold e_start. fuel_free; auto with fuel. Qed.
Lemma fuel_free_e_end e : fuel_free (e_end e).
Proof. unfold e_end. fuel_free; auto with fuel. Qed.
Lemma fuel_free_newE h : fuel_free (newE h).
Proof. unfold newE. fuel_free. Qed.
Lemma fuel_free_newF h : fuel_free (newF h).
Proof. unfold newF. fuel_free. Qed.
#[local] Hint Resolve fuel_free_modV fuel_free_modE fuel_free_modF fuel_free_modR
  fuel_free_e_next fuel_free_e_pair fuel_free_e_face fuel_free_e_start
  fuel_free_e_end fuel_free_newE fuel_free_newF : fuel.
Lemma fuel_free_face_edge f k : fuel_free (face_edge f k).
Proof. unfold face_edge. fuel_free; auto with fuel. Qed.
#[local] Hint Resolve fuel_free_face_edge : fuel.
Lemma fuel_free_region_addFace r f : fuel_free (region_addFace r f).
Proof. unfold region_addFace. fuel_free; auto with fuel. Qed.

End FuelPrims.

#[global] Hint Resolve fuel_free_getV fuel_free_getE fuel_free_getF fuel_free_getR
  fuel_free_modV fuel_free_modE fuel_free_modF fuel_free_modR
  fuel_free_e_next fuel_free_e_pair fuel_free_e_face fuel_free_e_start
  fuel_free_e_end fuel_free_newE fuel_free_newF fuel_free_face_edge
  fuel_free_region_addFace : fuel.

Ltac minvs :=
  repeat match goal with
         | H : ?c ?s = Ok _ _ |- _ => progress minv H
         end.
Ltac minv_cases :=
  repeat first
    [ progress minvs
    | match goal with
      | H : (if bool_decide _ then _ else _) _ = Ok _ _ |- _ => case_bool_decide
      | H : (if decide _ then _ else _) _ = Ok _ _ |- _ => case_decide
      | H : (if ?b then _ else _) _ = Ok _ _ |- _ => destruct b eqn:?
      | H : (match ?o with Some _ => _ | None => _ end) _ = Ok _ _ |- _ =>
          destruct o eqn:?
      | H : when ?b _ _ = Ok _ _ |- _ => destruct b eqn:?; cbn [when] in H
      end ].

Section ReadOnly.
Context `{G : Geometry}.

Lemma read_only_bind {A B} (c : MeshM A) (f : A → MeshM B) :
  read_only c → (∀ a, read_only (f a)) → read_only (c ≫= f).
Proof.
  intros Hc Hf s b s' (a & s1 & H1 & H2)%bind_Ok.
  apply Hc in H1 as ->. by apply Hf in H2.
Qed.
Lemma read_only_ret {A} (a : A) : read_only (mret a).
Proof. by intros s b s' [_ <-]%mret_Ok. Qed.
Lemma read_only_fault {A} : read_only (@fault _ A).
Proof. done. Qed.
Lemma read_only_gets {A} (f : HalfEdgeMesh → A) : read_only (gets f).
Proof. by intros s b s' [_ <-]%gets_Ok. Qed.
Lemma read_only_nonnull {A} (o : option A) : read_only (nonnull o).
Proof. by intros s b s' [_ <-]%nonnull_Ok. Qed.
Lemma read_only_foldM {A B} (f : B → A → MeshM B) l :
  (∀ b x, read_only (f b x)) → ∀ b, read_only (foldM f b l).
Proof.
  intros Hf b s r s'. apply (foldM_inv (λ _ s1, s1 = s)); [|done].
  intros b1 x s1 b2 s2 _ -> H. by apply Hf in H.
Qed.

End ReadOnly.

Ltac read_only :=
  repeat first
    [ apply read_only_ret | apply read_only_fault | apply read_only_gets
    | apply read_only_nonnull
    | apply read_only_bind; [|intros ?]
    | apply read_only_foldM; intros ? ?
    | progress cbv beta
    | match goal with
      | |- read_only (match ?x with _ => _ end) => destruct x
      end
    | assumption ].

Create HintDb readers.

Section ReadOnlyPrims.
Context `{G : Geometry}.

Lemma read_only_getV v : read_only (getV v). Proof. unfold getV. read_only. Qed.
Lemma read_only_getE v : read_only (getE v). Proof. unfold getE. read_only. Qed.
Lemma read_only_getF v : read_only (getF v). Proof. unfold getF. read_only. Qed.
Lemma read_only_getR v : read_only (getR v). Proof. unfold getR. read_only. Qed.
#[local] Hint Resolve read_only_getV read_only_getE read_only_getF read_only_getR : readers.
Lemma read_only_e_next e : read_only (e_next e).
Proof. unfold e_next. read_only; auto with readers. Qed.
Lemma read_only_e_pair e : read_only (e_pair e).
Proof. unfold e_pair. read_only; auto with readers. Qed.
Lemma read_only_e_face e : read_only (e_face e).
Proof. unfold e_face. read_only; auto with readers. Qed.
Lemma read_only_e_start e : read_only (e_start e).
Proof. unfold e_start. read_only; auto with readers. Qed.
Lemma read_only_e_end e : read_only (e_end e).
Proof. unfold e_end. read_only; auto with readers. Qed.
Lemma read_only_rd_next e : read_only (rd_next e).
Proof. unfold rd_next. read_only; auto with readers. Qed.
Lemma read_only_rd_pair e : read_only (rd_pair e).
Proof. unfold rd_pair. read_only; auto with readers. Qed.
#[local] Hint Resolve read_only_e_next read_only_e_pair read_only_e_face
  read_only_e_start read_only_e_end : readers.
Lemma read_only_face_edge f k : read_only (face_edge f k).
Proof. unfold face_edge. read_only; auto with readers. Qed.
#[local] Hint Resolve read_only_face_edge : readers.
Lemma read_only_face_vertex f k : read_only (face_vertex f k).
Proof. unfold face_vertex. read_only; auto with readers. Qed.
Lemma read_only_halfEdgeToVertex v w : read_only (halfEdgeToVertex v w).
Proof. unfold halfEdgeToVertex. read_only; auto with readers. Qed.

End ReadOnlyPrims.

#[global] Hint Resolve read_only_getV read_only_getE read_only_getF read_only_getR
  read_only_e_next read_only_e_pair read_only_e_face read_only_e_start
  read_only_e_end read_only_rd_next read_only_rd_pair read_only_face_edge
  read_only_face_vertex read_only_halfEdgeToVertex : readers.

Section LoopFuel.
Context `{G : Geometry}.

Lemma foldM_fuel {A B} (P : B → HalfEdgeMesh → Prop) (f : B → A → MeshM B) l :
  (∀ b x s, P b s → f b x s ≠ OutOfFuel) →
  (∀ b x s b' s', P b s → f b x s = Ok b' s' → P b' s') →
  ∀ b s, P b s → foldM f b l s ≠ OutOfFuel.
Proof.
  intros Hnf Hstep. induction l as [|x l IH]; intros b s HP; cbn; [done|].
  rewrite run_bind. destruct (f b x s) as [b' s'| |] eqn:Hf; [|done|].
  - apply IH. by eapply Hstep.
  - by apply Hnf in Hf.
Qed.

End LoopFuel.

Section Preserves.
Context `{G : Geometry}.

Lemma preserves_bind {A B} P (c : MeshM A) (f : A → MeshM B) :
  preserves P c → (∀ a, preserves P (f a)) → preserves P (c ≫= f).
Proof.
  intros Hc Hf s b s' HP (a & s1 & H1 & H2)%bind_Ok.
  eapply Hf; [|exact H2]. by eapply Hc.
Qed.
Lemma preserves_read_only {A} P (c : MeshM A) : read_only c → preserves P c.
Proof. intros Hc s a s' HP H. by apply Hc in H as ->. Qed.
Lemma preserves_ret {A} P (a : A) : preserves P (mret a).
Proof. apply preserves_read_only, read_only_ret. Qed.
Lemma preserves_fault {A} P : preserves P (@fault _ A).
Proof. done. Qed.
Lemma preserves_when P b c : preserves P c → preserves P (when b c).
Proof. destruct b; [done|]. intros _. apply preserves_ret. Qed.
Lemma preserves_foldM {A B} P (f : B → A → MeshM B) l :
  (∀ b x, preserves P (f b x)) → ∀ b, preserves P (foldM f b l).
Proof.
  intros Hf b s r s' HP. revert HP. apply (foldM_inv (λ _ s1, P s1)).
  intros ???????. by eapply Hf.
Qed.
Lemma preserves_forM {A} P (f : A → MeshM unit) l :
  (∀ x, preserves P (f x)) → preserves P (forM_ l f).
Proof.
  intros Hf s r s' HP. revert HP. apply (forM_inv (λ s1, P s1)).
  intros ??????. by eapply Hf.
Qed.
Lemma preserves_modify P f : (∀ s, P s → P (f s)) → preserves P (modify f).
Proof. intros Hf s a s' HP ->%modify_Ok. by apply Hf. Qed.

End Preserves.

Create HintDb pres.

Ltac preserves_with tac :=
  repeat first
    [ solve [apply preserves_read_only; auto with readers]
    | solve [auto with pres]
    | solve [tac]
    | assumption
    | apply preserves_ret | apply preserves_fault
    | apply preserves_when
    | apply preserves_foldM; intros ? ?
    | apply preserves_forM; intros ?
    | match goal with
      | |- preserves _ (match ?x with _ => _ end) => destruct x
      | |- preserves _ (mbind _ _) => apply preserves_bind; [|intros ?]
      end
    | progress cbv beta ].
Ltac preserves := preserves_with fail.

(** * The graph invariants and the primitive edits *)

Section Pairing.
Context `{G : Geometry}.

Lemma pairing_ok_lookup s e h :
  pairing_ok s → edges s !! e = Some h →
  ∃ p hp, pair h = Some p ∧ edges s !! p = Some hp ∧ pair hp = Some e ∧
          start hp = end_ h ∧ end_ hp = start h.
Proof.
  intros Hok He. specialize (Hok e h He). unfold paired in Hok.
  destruct (pair h) as [p|]; [|done].
  destruct (edges s !! p) as [hp|] eqn:Hp; [|done]. naive_solver.
Qed.

Lemma pairing_ok_intro s :
  (∀ e h, edges s !! e = Some h →
     ∃ p hp, pair h = Some p ∧ edges s !! p = Some hp ∧ pair hp = Some e ∧
             start hp = end_ h ∧ end_ hp = start h) →
  pairing_ok s.
Proof.
  intros H e h He. destruct (H e h He) as (p & hp & Hp & Hhp & ?).
  unfold paired. by rewrite Hp, Hhp.
Qed.

Lemma pairing_upto_of_ok ρ s :
  pairing_ok s → pairs_distinct s → pairing_upto ρ (edges s).
Proof.
  intros Hok Hd e h He.
  destruct (pairing_ok_lookup _ _ _ Hok He) as (p & hp & Hp & Hhp & Hpp & Hs & Ht).
  exists p, hp. repeat split; try done.
  - intros ->. by apply (Hd e h He).
  - by rewrite Hs.
  - by rewrite Ht.
Qed.

Lemma pairing_ok_of_upto s : pairing_upto id (edges s) → pairing_ok s.
Proof.
  intros H. apply pairing_ok_intro. intros e h He.
  destruct (H e h He) as (p & hp & ? & ? & ? & ? & ? & ?). eauto 10.
Qed.

Lemma pairing_upto_inj ρ (m : gmap nat HEdge) x y hx hy p :
  pairing_upto ρ m → m !! x = Some hx → m !! y = Some hy →
  pair hx = Some p → pair hy = Some p → x = y.
Proof.
  intros H Hx Hy Hpx Hpy.
  destruct (H x hx Hx) as (p1 & hp1 & ? & _ & ? & ? & _).
  destruct (H y hy Hy) as (p2 & hp2 & ? & _ & ? & ? & _).
  congruence.
Qed.

(** The two statements and two deletions of a [collapseEdge] block: the
    pairs [A], [B] of the two removed edges become each other's pair. *)
Lemma pairing_upto_repair ρ (m : gmap nat HEdge) n nn hn hnn A B hA hB :
  pairing_upto ρ m →
  m !! n = Some hn → m !! nn = Some hnn → n ≠ nn →
  pair hn = Some A → pair hnn = Some B →
  m !! A = Some hA → m !! B = Some hB →
  ρ (start hn) = ρ (end_ hnn) → ρ (start hnn) = ρ (end_ hn) →
  pairing_upto ρ
    (delete n (delete nn (<[A := with_pair (Some B) hA]>
                            (<[B := with_pair (Some A) hB]> m)))).
Proof.
  intros Hm Hn Hnn Hne HA HB HhA HhB G1 G2 y hy Hy.
  apply lookup_delete_Some in Hy as [Hyn Hy].
  apply lookup_delete_Some in Hy as [Hynn Hy].
  destruct (Hm n hn Hn) as (A' & hA' & ? & HAn & ? & HpA & HsA & HtA).
  destruct (Hm nn hnn Hnn) as (B' & hB' & ? & HBnn & ? & HpB & HsB & HtB).
  assert (A' = A) as -> by congruence. assert (B' = B) as -> by congruence.
  assert (hA' = hA) as -> by congruence. assert (hB' = hB) as -> by congruence.
  assert (A ≠ B) as HAB by (intros ->; apply Hne; congruence).
  destruct (decide (y = A)) as [->|HyA].
  - rewrite lookup_insert_eq in Hy. injection Hy as <-.
    assert (B ≠ n) by (intros ->; congruence).
    exists B, (with_pair (Some A) hB). cbn. repeat split; try done.
    + by rewrite !lookup_delete_ne, lookup_insert_ne, lookup_insert_eq.
    + congruence.
    + congruence.
  - rewrite lookup_insert_ne in Hy by done.
    destruct (decide (y = B)) as [->|HyB].
    + rewrite lookup_insert_eq in Hy. injection Hy as <-.
      assert (A ≠ nn) by (intros ->; congruence).
      exists A, (with_pair (Some B) hA). cbn. repeat split; try done.
      * by rewrite !lookup_delete_ne, lookup_insert_eq.
      * congruence.
      * congruence.
    + rewrite lookup_insert_ne in Hy by done.
      destruct (Hm y hy Hy) as (z & hz & Hz & Hzy & Hhz & Hpz & Hsz & Htz).
      assert (z ≠ n) by (intros ->; congruence).
      assert (z ≠ nn) by (intros ->; congruence).
      assert (z ≠ A) by (intros ->; congruence).
      assert (z ≠ B) by (intros ->; congruence).
      exists z, hz. repeat split; try done.
      by rewrite !lookup_delete_ne, !lookup_insert_ne.
Qed.

(** [deleteEdge] with [deletePair]: both halves go. *)
Lemma pairing_upto_delete_pair ρ (m : gmap nat HEdge) e p he :
  pairing_upto ρ m → m !! e = Some he → pair he = Some p →
  pairing_upto ρ (delete e (delete p m)).
Proof.
  intros Hm He Hp y hy Hy.
  apply lookup_delete_Some in Hy as [Hye Hy].
  apply lookup_delete_Some in Hy as [Hyp Hy].
  destruct (Hm e he He) as (p' & hp & ? & _ & Hhp & Hpp & _).
  assert (p' = p) as -> by congruence.
  destruct (Hm y hy Hy) as (z & hz & Hz & Hzy & Hhz & Hpz & Hsz & Htz).
  assert (z ≠ e) by (intros ->; congruence).
  assert (z ≠ p) by (intros ->; congruence).
  exists z, hz. repeat split; try done.
  by rewrite !lookup_delete_ne.
Qed.

(** Moving every endpoint along [ρ] turns agreement up to [ρ] into
    agreement. *)
Lemma pairing_upto_rename ρ (m m' : gmap nat HEdge) :
  (∀ v, ρ (ρ v) = ρ v) → pairing_upto ρ m →
  (∀ y, m' !! y = rename_edge ρ <$> m !! y) →
  pairing_upto id m'.
Proof.
  intros Hρ Hm Hm' y hy Hy. rewrite Hm' in Hy.
  destruct (m !! y) as [h|] eqn:Hh; [|done]. injection Hy as <-.
  destruct (Hm y h Hh) as (z & hz & Hz & Hzy & Hhz & Hpz & Hsz & Htz).
  exists z, (rename_edge ρ hz). cbn. repeat split; try done.
  by rewrite Hm', Hhz.
Qed.

End Pairing.

Section Lists.

Lemma erase_first_length x l l' : erase_first x l = Some l' → length l = S (length l').
Proof.
  revert l'. induction l as [|y l IH]; intros l' H; cbn in H; [done|].
  destruct (decide (y = x)).
  - by injection H as ->.
  - destruct (erase_first x l) as [l0|]; [|done]. injection H as <-.
    cbn. f_equal. by apply IH.
Qed.

Lemma erase_first_sub x l l' y : erase_first x l = Some l' → y ∈ l' → y ∈ l.
Proof.
  revert l'. induction l as [|z l IH]; intros l' H Hy; cbn in H; [done|].
  destruct (decide (z = x)).
  - injection H as ->. by right.
  - destruct (erase_first x l) as [l0|]; [|done]. injection H as <-.
    apply elem_of_cons in Hy as [->|Hy]; [by left|right; eauto].
Qed.

Lemma erase_first_in x l l' : erase_first x l = Some l' → x ∈ l.
Proof.
  revert l'. induction l as [|z l IH]; intros l' H; cbn in H; [done|].
  destruct (decide (z = x)) as [->|]; [by left|].
  destruct (erase_first x l) as [l0|]; [|done]. right. eauto.
Qed.

Lemma erase_first_other x l l' y : erase_first x l = Some l' → y ∈ l → y ≠ x → y ∈ l'.
Proof.
  revert l'. induction l as [|z l IH]; intros l' H Hy Hne; cbn in H; [done|].
  destruct (decide (z = x)) as [->|].
  - injection H as <-. by apply elem_of_cons in Hy as [->|Hy].
  - destruct (erase_first x l) as [l0|]; [|done]. injection H as <-.
    apply elem_of_cons in Hy as [->|Hy]; [by left|right; eauto].
Qed.

Lemma erase_first_NoDup x l l' :
  erase_first x l = Some l' → NoDup l → NoDup l' ∧ x ∉ l'.
Proof.
  revert l'. induction l as [|z l IH]; intros l' H Hnd; cbn in H; [done|].
  apply NoDup_cons in Hnd as [Hz Hnd].
  destruct (decide (z = x)) as [->|].
  - by injection H as <-.
  - destruct (erase_first x l) as [l0|] eqn:Hl; [|done]. injection H as <-.
    destruct (IH l0 eq_refl Hnd) as [? ?]. split.
    + apply NoDup_cons. split; [|done]. intros ?. apply Hz. by eapply erase_first_sub.
    + rewrite elem_of_cons. naive_solver.
Qed.

Lemma erase_first_is_Some x l : x ∈ l → is_Some (erase_first x l).
Proof.
  induction l as [|z l IH]; intros Hx; [by apply elem_of_nil in Hx|]. cbn.
  destruct (decide (z = x)); [eauto|].
  apply elem_of_cons in Hx as [->|Hx]; [done|].
  destruct (IH Hx) as [l0 ->]. eauto.
Qed.

End Lists.

Section Adjacency.
Context `{G : Geometry}.

Lemma erase_out_Ok v e u s s' :
  erase_out v e s = Ok u s' ↔
  ∃ hv l, vertices s !! v = Some hv ∧ erase_first e (out hv) = Some l ∧
          s' = set_vertices (insert v (with_out l hv)) s.
Proof.
  unfold erase_out. split.
  - intros H. minvs. eauto.
  - intros (hv & l & Hv & Hl & ->).
    rewrite run_bind, (getV_ok _ _ _ Hv), run_bind, Hl. by destruct u.
Qed.
Lemma erase_in_Ok v e u s s' :
  erase_in v e s = Ok u s' ↔
  ∃ hv l, vertices s !! v = Some hv ∧ erase_first e (in_ hv) = Some l ∧
          s' = set_vertices (insert v (with_in l hv)) s.
Proof.
  unfold erase_in. split.
  - intros H. minvs. eauto.
  - intros (hv & l & Hv & Hl & ->).
    rewrite run_bind, (getV_ok _ _ _ Hv), run_bind, Hl. by destruct u.
Qed.
Lemma freeE_Ok e u s s' :
  freeE e s = Ok u s' ↔ ∃ h, edges s !! e = Some h ∧ s' = set_edges (delete e) s.
Proof.
  unfold freeE. split.
  - intros H. minvs. eauto.
  - intros (h & He & ->). rewrite run_bind, (getE_ok _ _ _ He). by destruct u.
Qed.
Lemma freeV_Ok v u s s' :
  freeV v s = Ok u s' ↔ ∃ h, vertices s !! v = Some h ∧ s' = set_vertices (delete v) s.
Proof.
  unfold freeV. split.
  - intros H. minvs. eauto.
  - intros (h & He & ->). rewrite run_bind, (getV_ok _ _ _ He). by destruct u.
Qed.

Lemma registered_lookup s e h :
  registered s e h ↔
  ∃ hs ht, vertices s !! start h = Some hs ∧ e ∈ out hs ∧
           vertices s !! end_ h = Some ht ∧ e ∈ in_ ht.
Proof.
  unfold registered, out_of, in_of. split.
  - intros [Ho Hi].
    destruct (vertices s !! start h) as [hs|]; [|by apply elem_of_nil in Ho].
    destruct (vertices s !! end_ h) as [ht|]; [|by apply elem_of_nil in Hi].
    eauto 10.
  - intros (hs & ht & -> & ? & -> & ?). done.
Qed.

Lemma lists_sound_out s v hv e :
  lists_sound s v hv → e ∈ out hv → ∃ h, edges s !! e = Some h ∧ start h = v.
Proof.
  intros (_ & _ & Ho & _) He. rewrite Forall_forall in Ho.
  specialize (Ho e He). unfold start_of in Ho.
  destruct (edges s !! e) as [h|]; [|done]. injection Ho as <-. eauto.
Qed.
Lemma lists_sound_in s v hv e :
  lists_sound s v hv → e ∈ in_ hv → ∃ h, edges s !! e = Some h ∧ end_ h = v.
Proof.
  intros (_ & _ & _ & Hi) He. rewrite Forall_forall in Hi.
  specialize (Hi e He). unfold end_of in Hi.
  destruct (edges s !! e) as [h|]; [|done]. injection Hi as <-. eauto.
Qed.

Lemma adjacency_but_nil s : adjacency_ok s ↔ adjacency_but [] s.
Proof.
  unfold adjacency_ok, adjacency_but. split.
  - intros [Hr Hl]. split; [|split; [done|]].
    + intros e h He _. by apply Hr.
    + intros x v hv Hx. by apply elem_of_nil in Hx.
  - intros (Hr & Hl & _). split; [|done].
    intros e h He. apply Hr; [done|]. apply not_elem_of_nil.
Qed.

(** Once the half-edges [X] are freed, adjacency is whole again. *)
Lemma adjacency_but_dead X s :
  adjacency_but X s → (∀ x, x ∈ X → edges s !! x = None) → adjacency_ok s.
Proof.
  intros (Hr & Hl & _) Hdead. split; [|done].
  intros e h He. apply Hr; [done|]. intros Hx. apply Hdead in Hx. congruence.
Qed.

(** A change to a half-edge that leaves its endpoints alone. *)
Lemma adjacency_but_modE X s e h f :
  edges s !! e = Some h → start (f h) = start h → end_ (f h) = end_ h →
  adjacency_but X s → adjacency_but X (set_edges (insert e (f h)) s).
Proof.
  intros He Hs Ht (Hr & Hl & Hx). split; [|split; [|done]].
  - intros y hy Hy HyX. cbn in Hy.
    destruct (decide (y = e)) as [->|Hne].
    + rewrite lookup_insert_eq in Hy. injection Hy as <-.
      specialize (Hr e h He HyX). unfold registered in *. cbn. by rewrite Hs, Ht.
    + rewrite lookup_insert_ne in Hy by done. by apply Hr.
  - intros v hv Hv. specialize (Hl v hv Hv). cbn in Hv.
    destruct Hl as (? & ? & Ho & Hi). repeat split; try done.
    + eapply Forall_impl; [exact Ho|]. intros y Hy. unfold start_of in *. cbn.
      destruct (decide (y = e)) as [->|Hne].
      * rewrite lookup_insert_eq. rewrite He in Hy. cbn in *. congruence.
      * by rewrite lookup_insert_ne.
    + eapply Forall_impl; [exact Hi|]. intros y Hy. unfold end_of in *. cbn.
      destruct (decide (y = e)) as [->|Hne].
      * rewrite lookup_insert_eq. rewrite He in Hy. cbn in *. congruence.
      * by rewrite lookup_insert_ne.
Qed.

End Adjacency.

Section Unlink.
Context `{G : Geometry}.

Lemma lists_sound_edges s s' v hv :
  edges s' = edges s → lists_sound s v hv → lists_sound s' v hv.
Proof.
  intros He (? & ? & Ho & Hi). unfold lists_sound, start_of, end_of.
  rewrite He. done.
Qed.

Lemma adjacency_but_unlink X s x hx u1 s1 u2 s2 :
  adjacency_but X s → edges s !! x = Some hx →
  erase_out (start hx) x s = Ok u1 s1 → erase_in (end_ hx) x s1 = Ok u2 s2 →
  adjacency_but (x :: X) s2.
Proof.
  intros (Hr & Hl & HX) Hx
    (hs & lo & Hhs & Hlo & ->)%erase_out_Ok (ht & li & Hht & Hli & ->)%erase_in_Ok.
  cbn in Hht.
  assert (∀ v hv', <[end_ hx := with_in li ht]> (<[start hx := with_out lo hs]> (vertices s)) !! v
                   = Some hv' →
            ∃ hv, vertices s !! v = Some hv ∧
                  out hv' = (if decide (v = start hx) then lo else out hv) ∧
                  in_ hv' = (if decide (v = end_ hx) then li else in_ hv)) as Hview.
  { intros v hv' Hv.
    destruct (decide (v = end_ hx)) as [->|Hvt].
    - rewrite lookup_insert_eq in Hv. injection Hv as <-. cbn.
      destruct (decide (end_ hx = start hx)) as [Heq|Hne].
      + rewrite Heq in Hht. rewrite lookup_insert_eq in Hht. injection Hht as <-.
        exists hs. rewrite Heq. done.
      + rewrite lookup_insert_ne in Hht by done. exists ht. done.
    - rewrite lookup_insert_ne in Hv by done.
      destruct (decide (v = start hx)) as [->|Hvs].
      + rewrite lookup_insert_eq in Hv. injection Hv as <-. exists hs. done.
      + rewrite lookup_insert_ne in Hv by done. exists hv'. done. }
  assert (∀ v hv, vertices s !! v = Some hv →
            ∃ hv', <[end_ hx := with_in li ht]>
                     (<[start hx := with_out lo hs]> (vertices s)) !! v = Some hv') as Hlive.
  { intros v hv Hv.
    destruct (decide (v = end_ hx)) as [->|Hvt]; [rewrite lookup_insert_eq; eauto|].
    rewrite lookup_insert_ne by done.
    destruct (decide (v = start hx)) as [->|Hvs]; [rewrite lookup_insert_eq; eauto|].
    rewrite lookup_insert_ne by done. eauto. }
  split; [|split].
  - intros y hy Hy HyX. cbn in Hy.
    apply not_elem_of_cons in HyX as [Hyx HyX].
    specialize (Hr y hy Hy HyX). apply registered_lookup in Hr as (h1 & h2 & H1 & Ho & H2 & Hi).
    apply registered_lookup. cbn.
    destruct (Hlive _ _ H1) as [h1' H1']. destruct (Hlive _ _ H2) as [h2' H2'].
    exists h1', h2'. split; [done|]. split; [|split; [done|]].
    + destruct (Hview _ _ H1') as (h1'' & ? & -> & _).
      assert (h1'' = h1) as -> by congruence.
      destruct (decide _) as [Hc|Hc]; [|done].
      rewrite Hc in H1. assert (h1 = hs) as -> by congruence.
      by eapply erase_first_other.
    + destruct (Hview _ _ H2') as (h2'' & ? & _ & ->).
      assert (h2'' = h2) as -> by congruence.
      destruct (decide _) as [Hc|Hc]; [|done].
      rewrite Hc in H2.
      assert (in_ h2 = in_ ht) as Heq.
      { destruct (decide (end_ hx = start hx)) as [Heq|Hne].
        - rewrite Heq in Hht. rewrite lookup_insert_eq in Hht. injection Hht as <-.
          rewrite Heq in H2. assert (h2 = hs) as -> by congruence. done.
        - rewrite lookup_insert_ne in Hht by done. congruence. }
      rewrite Heq in Hi. by eapply erase_first_other.
  - intros v hv' Hv. cbn in Hv.
    destruct (Hview _ _ Hv) as (hv & Hhv & Hout & Hin).
    destruct (Hl v hv Hhv) as (Hnd1 & Hnd2 & Ho & Hi).
    assert (in_ ht = in_ (default hs (vertices s !! end_ hx))) as Hint.
    { destruct (decide (end_ hx = start hx)) as [Heq|Hne].
      - rewrite Heq in Hht. rewrite lookup_insert_eq in Hht. injection Hht as <-.
        by rewrite Heq, Hhs.
      - rewrite lookup_insert_ne in Hht by done. by rewrite Hht. }
    unfold lists_sound. rewrite Hout, Hin. clear Hout Hin.
    split; [|split; [|split]].
    + destruct (decide _) as [Hc|Hc]; [|done]. subst v.
      assert (hv = hs) as -> by congruence. by apply (erase_first_NoDup x (out hs)).
    + destruct (decide _) as [Hc|Hc]; [|done]. subst v. rewrite Hhv in Hint. cbn in Hint.
      apply (erase_first_NoDup x (in_ ht)); [done|]. by rewrite Hint.
    + destruct (decide _) as [Hc|Hc]; [|done]. subst v.
      assert (hv = hs) as -> by congruence.
      rewrite Forall_forall in Ho |- *. intros y Hy. apply Ho. by eapply erase_first_sub.
    + destruct (decide _) as [Hc|Hc]; [|done]. subst v. rewrite Hhv in Hint. cbn in Hint.
      rewrite Forall_forall in Hi |- *. intros y Hy. apply Hi. rewrite <- Hint.
      by eapply erase_first_sub.
  - intros y v hv' Hy Hv. cbn in Hv.
    destruct (Hview _ _ Hv) as (hv & Hhv & Hout & Hin).
    assert (in_ ht = in_ (default hs (vertices s !! end_ hx))) as Hint.
    { destruct (decide (end_ hx = start hx)) as [Heq|Hne].
      - rewrite Heq in Hht. rewrite lookup_insert_eq in Hht. injection Hht as <-.
        by rewrite Heq, Hhs.
      - rewrite lookup_insert_ne in Hht by done. by rewrite Hht. }
    rewrite Hout, Hin. clear Hout Hin.
    apply elem_of_cons in Hy as [->|Hy].
    + split.
      * destruct (decide _) as [Hc|Hc].
        -- subst v. assert (hv = hs) as -> by congruence.
           by apply (erase_first_NoDup x (out hs)); [|apply (Hl _ _ Hhs)].
        -- intros Hin'. destruct (lists_sound_out _ _ _ _ (Hl _ _ Hhv) Hin') as (h' & ? & ?).
           congruence.
      * destruct (decide _) as [Hc|Hc].
        -- subst v. rewrite Hhv in Hint. cbn in Hint.
           apply (erase_first_NoDup x (in_ ht)); [done|]. rewrite Hint. apply (Hl _ _ Hhv).
        -- intros Hin'. destruct (lists_sound_in _ _ _ _ (Hl _ _ Hhv) Hin') as (h' & ? & ?).
           congruence.
    + destruct (HX y v hv Hy Hhv) as [Hno Hni]. split.
      * destruct (decide _) as [Hc|Hc]; [|done]. subst v. assert (hv = hs) as -> by congruence.
        intros ?. apply Hno. by eapply erase_first_sub.
      * destruct (decide _) as [Hc|Hc]; [|done]. subst v. rewrite Hhv in Hint. cbn in Hint.
        intros ?. apply Hni. rewrite <- Hint. by eapply erase_first_sub.
Qed.

Lemma adjacency_but_free X s x :
  adjacency_but X s → x ∈ X → adjacency_but X (set_edges (delete x) s).
Proof.
  intros (Hr & Hl & HX) Hx. split; [|split; [|done]].
  - intros y hy Hy HyX. cbn in Hy. apply lookup_delete_Some in Hy as [_ Hy].
    by apply Hr.
  - intros v hv Hv. cbn in Hv. destruct (Hl v hv Hv) as (? & ? & Ho & Hi).
    destruct (HX x v hv Hx Hv) as [Hxo Hxi].
    repeat split; try done.
    + rewrite Forall_forall in Ho |- *. intros y Hy. unfold start_of. cbn.
      rewrite lookup_delete_ne by (intros ->; done). by apply Ho.
    + rewrite Forall_forall in Hi |- *. intros y Hy. unfold end_of. cbn.
      rewrite lookup_delete_ne by (intros ->; done). by apply Hi.
Qed.

Lemma adjacency_but_weaken X Y s :
  adjacency_but X s → (∀ x, x ∈ X → x ∈ Y) →
  (∀ y v hv, y ∈ Y → vertices s !! v = Some hv → y ∉ out hv ∧ y ∉ in_ hv) →
  adjacency_but Y s.
Proof.
  intros (Hr & Hl & HX) Hsub HY. split; [|split; [done|done]].
  intros e h He HeY. apply Hr; [done|]. intros ?. apply HeY. auto.
Qed.

(** [deleteEdge] keeps the adjacency lists right. *)
Lemma deleteEdge_adjacency x b u s s' :
  adjacency_ok s → deleteEdge x b s = Ok u s' → adjacency_ok s'.
Proof.
  intros Hadj%adjacency_but_nil Hrun. unfold deleteEdge in Hrun.
  apply bind_Ok in Hrun as (sv & s0 & (hx & Hx & <- & <-)%e_start_Ok & Hrun).
  apply bind_Ok in Hrun as (u1 & s1 & H1 & Hrun).
  apply bind_Ok in Hrun as (t & s1' & (hx' & Hx' & <- & <-)%e_end_Ok & Hrun).
  assert (hx' = hx) as ->.
  { apply erase_out_Ok in H1 as (? & ? & ? & ? & ->). cbn in Hx'. congruence. }
  apply bind_Ok in Hrun as (u2 & s2 & H2 & Hrun).
  pose proof (adjacency_but_unlink _ _ _ _ _ _ _ _ Hadj Hx H1 H2) as Hadj2.
  assert (edges s2 = edges s) as He2.
  { apply erase_out_Ok in H1 as (? & ? & ? & ? & ->).
    apply erase_in_Ok in H2 as (? & ? & ? & ? & ->). done. }
  apply bind_Ok in Hrun as (u3 & s3 & H3 & (h4 & Hh4 & ->)%freeE_Ok).
  destruct b; cbn [when] in H3.
  - apply bind_Ok in H3 as (p & s20 & (hx2 & Hx2 & Hp & <-)%e_pair_Ok & H3).
    apply bind_Ok in H3 as (ps & s20 & (hp & Hhp & <- & <-)%e_start_Ok & H3).
    apply bind_Ok in H3 as (u4 & s4 & H4 & H3).
    apply bind_Ok in H3 as (pe & s40 & (hp' & Hhp' & <- & <-)%e_end_Ok & H3).
    assert (hp' = hp) as ->.
    { apply erase_out_Ok in H4 as (? & ? & ? & ? & ->). cbn in Hhp'. congruence. }
    apply bind_Ok in H3 as (u5 & s5 & H5 & (h6 & Hh6 & ->)%freeE_Ok).
    pose proof (adjacency_but_unlink _ _ _ _ _ _ _ _ Hadj2 Hhp H4 H5) as Hadj5.
    apply (adjacency_but_dead [p; x]).
    + apply adjacency_but_free; [|by right; left].
      apply adjacency_but_free; [done|by left].
    + intros y [->|[->|Hy%elem_of_nil]%elem_of_cons]%elem_of_cons; [|by apply lookup_delete_eq|done].
      cbn. destruct (decide (p = x)) as [->|]; [by apply lookup_delete_eq|].
      rewrite lookup_delete_ne by done. by apply lookup_delete_eq.
  - minv H3. apply (adjacency_but_dead [x]).
    + apply adjacency_but_free; [done|by left].
    + intros y [->|Hy%elem_of_nil]%elem_of_cons; [|done]. by apply lookup_delete_eq.
Qed.

End Unlink.

(** * Edge collapse *)

Section CollapseBlocks.
Context `{G : Geometry}.

Lemma same_faces_refl s : same_faces s s.
Proof. done. Qed.
Lemma same_faces_trans s1 s2 s3 : same_faces s1 s2 → same_faces s2 s3 → same_faces s1 s3.
Proof. unfold same_faces. intros (?&?&?&?&?) (?&?&?&?&?). repeat split; congruence. Qed.

Lemma same_faces_modE s e f : same_faces s (set_edges (insert e f) s).
Proof. done. Qed.

Lemma lookup_insert_with_pair (m : gmap nat HEdge) B hB v y h' :
  m !! B = Some hB → <[B := with_pair v hB]> m !! y = Some h' →
  ∃ h, m !! y = Some h ∧ start h' = start h ∧ end_ h' = end_ h ∧
       next h' = next h ∧ face h' = face h ∧
       pair h' = (if decide (y = B) then v else pair h).
Proof.
  intros HB Hy. destruct (decide (y = B)) as [->|Hne].
  - rewrite lookup_insert_eq in Hy. injection Hy as <-. exists hB. done.
  - rewrite lookup_insert_ne in Hy by done. exists h'. done.
Qed.

Lemma lookup_repaired (m : gmap nat HEdge) A B hA hB vA vB y h' :
  m !! A = Some hA → m !! B = Some hB →
  <[A := with_pair vA hA]> (<[B := with_pair vB hB]> m) !! y = Some h' →
  ∃ h, m !! y = Some h ∧ start h' = start h ∧ end_ h' = end_ h ∧
       next h' = next h ∧ face h' = face h.
Proof.
  intros HA HB Hy. destruct (decide (y = A)) as [->|Hne].
  - rewrite lookup_insert_eq in Hy. injection Hy as <-. exists hA. done.
  - rewrite lookup_insert_ne in Hy by done.
    destruct (lookup_insert_with_pair _ _ _ _ _ _ HB Hy) as (h & ? & ? & ? & ? & ? & _).
    eauto 10.
Qed.

Lemma dom_insert_live {A} (V : gmap nat A) k v h :
  V !! k = Some h → dom (<[k:=v]> V) = dom V.
Proof. intros H%elem_of_dom_2. rewrite dom_insert_L. set_solver. Qed.

Lemma deleteEdge_false_Ok x u s s' :
  deleteEdge x false s = Ok u s' →
  ∃ hx, edges s !! x = Some hx ∧ edges s' = delete x (edges s) ∧ same_faces s s'.
Proof.
  unfold deleteEdge. intros Hrun.
  apply bind_Ok in Hrun as (sv & s0 & (hx & Hx & <- & <-)%e_start_Ok & Hrun).
  apply bind_Ok in Hrun as (u1 & s1 & (hs & lo & Hhs & Hlo & ->)%erase_out_Ok & Hrun).
  apply bind_Ok in Hrun as (t & s1' & (hx' & Hx' & <- & <-)%e_end_Ok & Hrun).
  apply bind_Ok in Hrun as (u2 & s2 & (ht & li & Hht & Hli & ->)%erase_in_Ok & Hrun).
  apply bind_Ok in Hrun as (u3 & s3 & [_ <-]%mret_Ok & (h4 & Hh4 & ->)%freeE_Ok).
  exists hx. split; [done|]. split; [done|].
  unfold same_faces; cbn. repeat split.
  cbn in Hht. by rewrite (dom_insert_live _ _ _ _ Hht), (dom_insert_live _ _ _ _ Hhs).
Qed.

Lemma deleteEdge_true_Ok x u s s' :
  deleteEdge x true s = Ok u s' →
  ∃ hx p hp, edges s !! x = Some hx ∧ pair hx = Some p ∧ edges s !! p = Some hp ∧
             edges s' = delete x (delete p (edges s)) ∧ same_faces s s'.
Proof.
  unfold deleteEdge. intros Hrun.
  apply bind_Ok in Hrun as (sv & s0 & (hx & Hx & <- & <-)%e_start_Ok & Hrun).
  apply bind_Ok in Hrun as (u1 & s1 & (hs & lo & Hhs & Hlo & ->)%erase_out_Ok & Hrun).
  apply bind_Ok in Hrun as (t & s1' & (hx' & Hx' & <- & <-)%e_end_Ok & Hrun).
  apply bind_Ok in Hrun as (u2 & s2 & (ht & li & Hht & Hli & ->)%erase_in_Ok & Hrun).
  apply bind_Ok in Hrun as (u3 & s3 & H3 & (h4 & Hh4 & ->)%freeE_Ok).
  cbn [when] in H3.
  apply bind_Ok in H3 as (p & s20 & (hx2 & Hx2 & Hp & <-)%e_pair_Ok & H3).
  apply bind_Ok in H3 as (ps & s20 & (hp & Hhp & <- & <-)%e_start_Ok & H3).
  apply bind_Ok in H3 as (u4 & s4 & (hps & lpo & Hhps & Hlpo & ->)%erase_out_Ok & H3).
  apply bind_Ok in H3 as (pe & s40 & (hp' & Hhp' & <- & <-)%e_end_Ok & H3).
  apply bind_Ok in H3 as (u5 & s5 & (hpt & lpi & Hhpt & Hlpi & ->)%erase_in_Ok
                          & (h6 & Hh6 & ->)%freeE_Ok).
  cbn in *. assert (hx2 = hx) as -> by congruence.
  exists hx, p, hp. repeat split; try done.
  cbn. repeat (erewrite dom_insert_live by eassumption). done.
Qed.

(** The block of [collapseEdge] for one side: nothing without a face;
    with a face, the two other edges [n], [nn] of the triangle are
    removed and their pairs [A], [B] are paired with each other. *)
Lemma collapse_side_Ok ρ x u s s' hx :
  collapse_side x s = Ok u s' → edges s !! x = Some hx →
  pairing_upto ρ (edges s) →
  (∀ f n hn nn, face hx = Some f → next hx = Some n → edges s !! n = Some hn →
     next hn = Some nn → n ≠ nn) →
  (face hx = None ∧ s' = s) ∨
  (∃ f n hn nn hnn A B hA hB,
     face hx = Some f ∧ next hx = Some n ∧ edges s !! n = Some hn ∧
     next hn = Some nn ∧ edges s !! nn = Some hnn ∧
     pair hn = Some A ∧ pair hnn = Some B ∧
     edges s !! A = Some hA ∧ edges s !! B = Some hB ∧
     edges s' = delete n (delete nn (<[A := with_pair (Some B) hA]>
                                       (<[B := with_pair (Some A) hB]> (edges s)))) ∧
     same_faces s s').
Proof.
  intros Hrun Hx Hpair Hdist. unfold collapse_side in Hrun.
  apply bind_Ok in Hrun as (f & s0 & (hx' & Hx' & <- & <-)%e_face_Ok & Hrun).
  assert (hx' = hx) as -> by congruence.
  destruct (face hx) as [f|] eqn:Hf.
  2:{ left. rewrite bool_decide_eq_false_2 in Hrun by naive_solver.
      by apply mret_Ok in Hrun as [_ <-]. }
  right. rewrite bool_decide_eq_true_2 in Hrun by done. cbn [when] in Hrun.
  apply bind_Ok in Hrun as (B & s0 & HB & Hrun).
  apply bind_Ok in HB as (nn & s1 & Hnn & (hnn & Hhnn & HpB & <-)%e_pair_Ok).
  apply bind_Ok in Hnn as (n & s2 & (hx2 & Hx2 & Hn & <-)%e_next_Ok
                           & (hn & Hhn & Hnnx & <-)%e_next_Ok).
  assert (hx2 = hx) as -> by congruence.
  apply bind_Ok in Hrun as (A & s0 & HA & Hrun).
  apply bind_Ok in HA as (n2 & s1 & (hx2 & Hx2' & Hn2 & <-)%e_next_Ok
                          & (hn2 & Hhn2 & HpA & <-)%e_pair_Ok).
  assert (hx2 = hx) as -> by congruence. assert (n2 = n) as -> by congruence.
  assert (hn2 = hn) as -> by congruence.
  specialize (Hdist f n hn nn eq_refl Hn Hhn Hnnx).
  destruct (Hpair n hn Hhn) as (A' & hA & ? & HAn & HhA & HpAn & _).
  destruct (Hpair nn hnn Hhnn) as (B' & hB & ? & HBnn & HhB & HpBn & _).
  assert (A' = A) as -> by congruence. assert (B' = B) as -> by congruence.
  assert (A ≠ B) as HAB by (intros ->; apply Hdist; congruence).
  apply bind_Ok in Hrun as (u1 & s1 & (hB' & HhB' & ->)%modE_Ok & Hrun).
  assert (hB' = hB) as -> by congruence.
  (* second statement, read after the first *)
  apply bind_Ok in Hrun as (A2 & s0 & HA2 & Hrun).
  apply bind_Ok in HA2 as (n3 & s2 & (hx3 & Hx3 & Hn3 & <-)%e_next_Ok
                           & (hn3 & Hhn3 & HpA3 & <-)%e_pair_Ok).
  cbn in Hx3, Hhn3.
  destruct (lookup_insert_with_pair _ _ _ _ _ _ HhB Hx3) as (hx4 & Hx4 & _ & _ & Hnx4 & _).
  assert (hx4 = hx) as -> by congruence.
  assert (n3 = n) as -> by congruence.
  destruct (lookup_insert_with_pair _ _ _ _ _ _ HhB Hhn3) as (hn4 & Hn4 & _ & _ & Hnn4 & _ & Hp4).
  assert (hn4 = hn) as -> by congruence.
  assert (A2 = A) as ->.
  { destruct (decide (n = B)); congruence. }
  apply bind_Ok in Hrun as (B2 & s0 & HB2 & Hrun).
  apply bind_Ok in HB2 as (nn3 & s2 & Hnn3 & (hnn3 & Hhnn3 & HpB3 & <-)%e_pair_Ok).
  apply bind_Ok in Hnn3 as (n5 & s3 & (hx5 & Hx5 & Hn5 & <-)%e_next_Ok
                            & (hn5 & Hhn5 & Hnn5 & <-)%e_next_Ok).
  cbn in Hx5, Hhn5, Hhnn3.
  assert (hx5 = hx3) as -> by congruence. assert (n5 = n) as -> by congruence.
  assert (hn5 = hn3) as -> by congruence. assert (nn3 = nn) as -> by congruence.
  destruct (lookup_insert_with_pair _ _ _ _ _ _ HhB Hhnn3) as (hnn4 & Hnn4' & _ & _ & _ & _ & Hp5).
  assert (hnn4 = hnn) as -> by congruence.
  assert (B2 = B) as ->.
  { rewrite decide_False in Hp5 by done. congruence. }
  apply bind_Ok in Hrun as (u2 & s2 & (hA2 & HhA2 & ->)%modE_Ok & Hrun).
  cbn in HhA2. rewrite lookup_insert_ne in HhA2 by done.
  assert (hA2 = hA) as -> by congruence.
  (* the two deletions *)
  apply bind_Ok in Hrun as (nn6 & s0 & Hnn6 & Hrun).
  apply bind_Ok in Hnn6 as (n6 & s3 & (hx6 & Hx6 & Hn6 & <-)%e_next_Ok
                            & (hn6 & Hhn6 & Hnn6 & <-)%e_next_Ok).
  cbn in Hx6, Hhn6.
  destruct (lookup_repaired _ _ _ _ _ _ _ _ _ HhA HhB Hx6) as (hx7 & Hx7 & _ & _ & Hnx7 & _).
  assert (hx7 = hx) as -> by congruence. assert (n6 = n) as -> by congruence.
  destruct (lookup_repaired _ _ _ _ _ _ _ _ _ HhA HhB Hhn6) as (hn7 & Hn7 & _ & _ & Hnn7 & _).
  assert (hn7 = hn) as -> by congruence. assert (nn6 = nn) as -> by congruence.
  apply bind_Ok in Hrun as (u3 & s3 & Hd1 & Hrun).
  apply deleteEdge_false_Ok in Hd1 as (hd1 & Hhd1 & He1 & Hsf1).
  apply bind_Ok in Hrun as (n8 & s0 & (hx8 & Hx8 & Hn8 & <-)%e_next_Ok & Hd2).
  apply deleteEdge_false_Ok in Hd2 as (hd2 & Hhd2 & He2 & Hsf2).
  rewrite He1 in Hx8. cbn in Hx8.
  apply lookup_delete_Some in Hx8 as [_ Hx8].
  destruct (lookup_repaired _ _ _ _ _ _ _ _ _ HhA HhB Hx8) as (hx9 & Hx9 & _ & _ & Hnx9 & _).
  assert (hx9 = hx) as -> by congruence. assert (n8 = n) as -> by congruence.
  exists f, n, hn, nn, hnn, A, B, hA, hB. split_and!; try done.
  - rewrite He2, He1. done.
  - eapply same_faces_trans; [|exact Hsf2].
    eapply same_faces_trans; [|exact Hsf1]. done.
Qed.

End CollapseBlocks.

Section CollapseFacts.
Context `{G : Geometry}.

Lemma triangles_ok_lookup s x hx f :
  triangles_ok s → edges s !! x = Some hx → face hx = Some f →
  f ∈ m_faces s ∧ triangle_at s x hx f.
Proof.
  intros Htri Hx Hf. specialize (Htri x hx Hx). unfold on_triangle in Htri.
  rewrite Hf in Htri. destruct Htri as [Hin Htri]. split; [done|].
  unfold next_of in Htri. rewrite Hx in Htri. cbn in Htri.
  destruct (next hx) as [n|] eqn:Hn; [|done].
  destruct (edges s !! n) as [hn|] eqn:Hhn; [|done]. cbn in Htri.
  destruct (next hn) as [nn|] eqn:Hnn; [|done].
  destruct Htri as [(_ & _ & H3 & _ & H5 & H6) (T1 & T2 & T3 & T4 & T5 & T6)].
  unfold next_of, face_of, start_of, end_of in *.
  rewrite ?Hx, ?Hhn in *. cbn in *.
  destruct (edges s !! nn) as [hnn|] eqn:Hhnn; [|done]. cbn in *.
  exists n, hn, nn, hnn. split_and!; try done; congruence.
Qed.

Lemma adjacency_ok_edges_pair s e h v :
  edges s !! e = Some h → adjacency_ok s →
  adjacency_ok (set_edges (insert e (with_pair v h)) s).
Proof.
  intros He Hadj%adjacency_but_nil. apply adjacency_but_nil.
  by apply adjacency_but_modE.
Qed.

Lemma preserves_adjacency_modE_pair e v :
  preserves adjacency_ok (modE e (with_pair v)).
Proof. intros s a s' Hadj (h & He & ->)%modE_Ok. by apply adjacency_ok_edges_pair. Qed.

Lemma preserves_adjacency_deleteEdge e b : preserves adjacency_ok (deleteEdge e b).
Proof. intros s a s' Hadj H. by eapply deleteEdge_adjacency. Qed.

Lemma preserves_adjacency_collapse_side x : preserves adjacency_ok (collapse_side x).
Proof.
  unfold collapse_side.
  preserves_with ltac:(auto using preserves_adjacency_modE_pair,
                         preserves_adjacency_deleteEdge).
Qed.

Lemma repaired_live (m : gmap nat HEdge) n nn A B hA hB vA vB y h :
  m !! A = Some hA → m !! B = Some hB →
  m !! y = Some h → y ≠ n → y ≠ nn →
  ∃ h', delete n (delete nn (<[A := with_pair vA hA]> (<[B := with_pair vB hB]> m))) !! y
        = Some h' ∧
        start h' = start h ∧ end_ h' = end_ h ∧ next h' = next h ∧ face h' = face h ∧
        (y ≠ A → y ≠ B → h' = h).
Proof.
  intros HA HB Hy Hn Hnn. rewrite !lookup_delete_ne by done.
  destruct (decide (y = A)) as [->|HyA].
  - rewrite lookup_insert_eq. assert (h = hA) as -> by congruence.
    eexists. split; [done|]. done.
  - rewrite lookup_insert_ne by done.
    destruct (decide (y = B)) as [->|HyB].
    + rewrite lookup_insert_eq. assert (h = hB) as -> by congruence.
      eexists. split; [done|]. done.
    + rewrite lookup_insert_ne by done. eauto 10.
Qed.

(** What one block of [collapseEdge] does, for the side of [x] whose
    pair is [p]. *)
Lemma collapse_side_facts ρ (bad : option nat → Prop) x hx p hp u s s' :
  collapse_side x s = Ok u s' →
  edges s !! x = Some hx → pair hx = Some p →
  edges s !! p = Some hp → pair hp = Some x →
  start hp = end_ hx → end_ hp = start hx →
  pairing_upto ρ (edges s) → adjacency_ok s →
  (∀ f, face hx = Some f → triangle_at s x hx f) →
  ρ (start hx) = ρ (end_ hx) →
  bad (face hx) →
  pairing_upto ρ (edges s') ∧ adjacency_ok s' ∧ same_faces s s' ∧
  edges_sub s s' ∧ edges_kept bad s s' ∧
  edges s' !! x = Some hx ∧ edges s' !! p = Some hp ∧
  (∀ y h, edges s !! y = Some h → edges s' !! y = None →
     start h = end_ hx ∨ end_ h = start hx).
Proof.
  intros Hrun Hx Hp Hhp Hpp Hps Hpt Hpair Hadj Htri Hρ Hbad.
  pose proof (preserves_adjacency_collapse_side x _ _ _ Hadj Hrun) as Hadj'.
  destruct (collapse_side_Ok ρ _ _ _ _ _ Hrun Hx Hpair) as
    [[Hf ->]|(f & n & hn & nn & hnn & A & B & hA & hB & Hf & Hn & Hhn & Hnn & Hhnn
              & HA & HB & HhA & HhB & He' & Hsf)].
  { intros f n hn nn Hf Hn Hhn Hnn.
    destruct (Htri f Hf) as (n' & hn' & nn' & hnn' & ? & ? & ? & ? & ? & ? & ?
                             & ? & ? & ? & ? & ? & ?).
    intros ->. assert (n' = nn) as -> by congruence.
    assert (hn' = hn) as -> by congruence. assert (nn' = nn) as -> by congruence.
    assert (hnn' = hn) as -> by congruence. done. }
  - (* no face on this side: nothing happens *)
    split_and!; try done.
    + intros y h' Hy. eauto 10.
    + intros y h Hy. left. eauto.
    + intros y h Hy Hn. congruence.
  - subst. destruct (Htri f Hf) as (n' & hn' & nn' & hnn' & Hn' & Hhn' & Hnn' & Hhnn' & Hback
                             & Hfn & Hfnn & T1 & T2 & T3 & D1 & D2 & D3).
    assert (n' = n) as -> by congruence. assert (hn' = hn) as -> by congruence.
    assert (nn' = nn) as -> by congruence. assert (hnn' = hnn) as -> by congruence.
    destruct (Hpair n hn Hhn) as (A' & hA' & ? & HAn & ? & HpA & _).
    destruct (Hpair nn hnn Hhnn) as (B' & hB' & ? & HBnn & ? & HpB & _).
    assert (A' = A) as -> by congruence. assert (B' = B) as -> by congruence.
    assert (hA' = hA) as -> by congruence. assert (hB' = hB) as -> by congruence.
    assert (x ≠ n) as Hxn by (intros ->; congruence).
    assert (x ≠ nn) as Hxnn by (intros ->; congruence).
    assert (p ≠ n) as Hpn by (intros ->; congruence).
    assert (p ≠ nn) as Hpnn by (intros ->; congruence).
    assert (x ≠ A) as HxA by (intros ->; congruence).
    assert (x ≠ B) as HxB by (intros ->; congruence).
    assert (p ≠ A) as HpA' by (intros ->; congruence).
    assert (p ≠ B) as HpB' by (intros ->; congruence).
    assert (n ≠ nn) as Hnnn by (intros ->; congruence).
    split_and!; try done.
    + rewrite He'. apply (pairing_upto_repair ρ _ n nn hn hnn A B hA hB); try done.
      * rewrite T1, <- T3. done.
      * by rewrite T2.
    + intros y h' Hy. rewrite He' in Hy.
      apply lookup_delete_Some in Hy as [_ Hy]. apply lookup_delete_Some in Hy as [_ Hy].
      exact (lookup_repaired _ _ _ _ _ _ _ _ _ HhA HhB Hy).
    + intros y h Hy.
      destruct (decide (y = n)) as [->|Hyn].
      { right. assert (h = hn) as -> by congruence. by rewrite Hfn, <- Hf. }
      destruct (decide (y = nn)) as [->|Hynn].
      { right. assert (h = hnn) as -> by congruence. by rewrite Hfnn, <- Hf. }
      left. rewrite He'.
      destruct (repaired_live _ n nn A B hA hB (Some B) (Some A) y h HhA HhB Hy Hyn Hynn)
        as (h' & ? & ? & ? & ? & ? & _). eauto.
    + rewrite He'.
      destruct (repaired_live _ n nn A B hA hB (Some B) (Some A) x hx HhA HhB Hx Hxn Hxnn)
        as (h' & -> & _ & _ & _ & _ & Heq). f_equal. by apply Heq.
    + rewrite He'.
      destruct (repaired_live _ n nn A B hA hB (Some B) (Some A) p hp HhA HhB Hhp Hpn Hpnn)
        as (h' & -> & _ & _ & _ & _ & Heq). f_equal. by apply Heq.
    + intros y h Hy Hgone. rewrite He' in Hgone.
      destruct (decide (y = n)) as [->|Hyn].
      { left. assert (h = hn) as -> by congruence. done. }
      destruct (decide (y = nn)) as [->|Hynn].
      { right. assert (h = hnn) as -> by congruence. done. }
      destruct (repaired_live _ n nn A B hA hB (Some B) (Some A) y h HhA HhB Hy Hyn Hynn)
        as (h' & ? & _). congruence.
Qed.

Lemma edges_kept_refl bad s s' : edges s' = edges s → edges_kept bad s s'.
Proof. intros He y h Hy. left. rewrite He. eauto. Qed.

Lemma edges_kept_trans bad s1 s2 s3 :
  edges_kept bad s1 s2 → edges_kept bad s2 s3 → edges_kept bad s1 s3.
Proof.
  intros H12 H23 y h Hy.
  destruct (H12 y h Hy) as [(h2 & Hy2 & Hn & Hf)|?]; [|by right].
  destruct (H23 y h2 Hy2) as [(h3 & Hy3 & Hn3 & Hf3)|?].
  - left. exists h3. split; [done|]. split; congruence.
  - right. by rewrite <- Hf.
Qed.

Lemma edges_sub_refl s s' : edges s' = edges s → edges_sub s s'.
Proof. intros He y h Hy. rewrite He in Hy. eauto 10. Qed.

Lemma edges_sub_trans s1 s2 s3 : edges_sub s1 s2 → edges_sub s2 s3 → edges_sub s1 s3.
Proof.
  intros H12 H23 y h3 Hy.
  destruct (H23 y h3 Hy) as (h2 & Hy2 & ? & ? & ? & ?).
  destruct (H12 y h2 Hy2) as (h1 & Hy1 & ? & ? & ? & ?).
  exists h1. split; [done|]. split_and!; congruence.
Qed.

(** The faces that stay keep their cycles. *)
Lemma face_cycle_transfer bad s s' :
  face_cycle_ok s → edges_kept bad s s' →
  (∀ g, g ∈ m_faces s' →
     g ∈ m_faces s ∧ faces s' !! g = faces s !! g ∧ ¬ bad (Some g)) →
  face_cycle_ok s'.
Proof.
  intros Hfc Hkept Hfaces. unfold face_cycle_ok in *.
  rewrite Forall_forall in Hfc |- *. intros g Hg.
  destruct (Hfaces g Hg) as (Hg0 & Hgf & Hbad).
  specialize (Hfc g Hg0). unfold face_cycle_at in *. rewrite Hgf.
  destruct (faces s !! g ≫= m_edge) as [e0|]; [|done].
  assert (∀ y, face_of s y = Some g →
               next_of s' y = next_of s y ∧ face_of s' y = face_of s y) as Hsame.
  { intros y Hy. unfold face_of, next_of in *.
    destruct (edges s !! y) as [h|] eqn:Hh; [|done]. cbn in Hy.
    destruct (Hkept y h Hh) as [(h' & -> & Hn & Hf)|Hb]; [|by rewrite Hy in Hb].
    cbn. by rewrite Hn, Hf. }
  destruct (next_of s e0) as [e1|] eqn:H1; [|done].
  destruct (next_of s e1) as [e2|] eqn:H2; [|done].
  destruct Hfc as (C1 & C2 & C3 & F1 & F2 & F3).
  destruct (Hsame _ F1) as [N1 G1], (Hsame _ F2) as [N2 G2], (Hsame _ F3) as [N3 G3].
  rewrite N1, H1, N2, H2. unfold is_cycle.
  rewrite N1, N2, N3, G1, G2, G3. done.
Qed.

Lemma collapse_face_Ok x u s s' :
  collapse_face x s = Ok u s' →
  ∃ hx, edges s !! x = Some hx ∧
    edges s' = edges s ∧ vertices s' = vertices s ∧ m_vertices s' = m_vertices s ∧
    match face hx with
    | None => m_faces s' = m_faces s ∧ faces s' = faces s
    | Some f => erase_first f (m_faces s) = Some (m_faces s') ∧
                faces s' = delete f (faces s)
    end.
Proof.
  unfold collapse_face, erase_face, freeF. intros Hrun.
  apply bind_Ok in Hrun as (f & s0 & (hx & Hx & <- & <-)%e_face_Ok & Hrun).
  exists hx. split; [done|].
  destruct (face hx) as [f|]; [|by apply mret_Ok in Hrun as [_ <-]].
  apply bind_Ok in Hrun as (l & s0 & [<- <-]%gets_Ok & Hrun).
  apply bind_Ok in Hrun as (l' & s0 & [Hl <-]%nonnull_Ok & Hrun).
  apply bind_Ok in Hrun as (u1 & s1 & ->%modify_Ok & Hrun).
  apply bind_Ok in Hrun as (hf & s2 & [Hhf <-]%getF_Ok & Hrun).
  apply bind_Ok in Hrun as (u2 & s2 & Hreg & ->%modify_Ok).
  assert (edges s2 = edges s ∧ vertices s2 = vertices s ∧ m_vertices s2 = m_vertices s ∧
          m_faces s2 = l' ∧ faces s2 = faces s) as (? & ? & ? & ? & ?).
  { destruct (m_region hf).
    - apply modify_Ok in Hreg as ->. done.
    - apply mret_Ok in Hreg as [_ <-]. done. }
  cbn. split_and!; try done; congruence.
Qed.

Lemma deleteVertex_Ok v u s s' :
  deleteVertex v s = Ok u s' →
  edges s' = edges s ∧ faces s' = faces s ∧ m_faces s' = m_faces s ∧
  erase_first v (m_vertices s) = Some (m_vertices s') ∧
  vertices s' = delete v (vertices s).
Proof.
  unfold deleteVertex. intros Hrun.
  apply bind_Ok in Hrun as (l & s0 & [<- <-]%gets_Ok & Hrun).
  apply bind_Ok in Hrun as (l' & s0 & [Hl <-]%nonnull_Ok & Hrun).
  apply bind_Ok in Hrun as (u1 & s1 & ->%modify_Ok & Hrun).
  apply bind_Ok in Hrun as (u2 & s2 & ->%modify_Ok & Hrun).
  apply freeV_Ok in Hrun as (h & Hh & ->). done.
Qed.

Lemma rehome_out_loop p1 l : ∀ s u s',
  forM_ l (λ x, modE x (with_start p1) ≫= λ _, modV p1 (push_out x)) s = Ok u s' →
  (∀ y, edges s' !! y =
        if decide (y ∈ l) then with_start p1 <$> edges s !! y else edges s !! y) ∧
  faces s' = faces s ∧ m_faces s' = m_faces s ∧ m_vertices s' = m_vertices s ∧
  (∀ v, v ≠ p1 → vertices s' !! v = vertices s !! v).
Proof.
  induction l as [|x l IH]; intros s u s' Hrun; cbn in Hrun.
  - apply mret_Ok in Hrun as [_ <-]. split_and!; try done;
      intros y; by rewrite decide_False by apply not_elem_of_nil.
  - apply bind_Ok in Hrun as (u1 & s1 & Hstep & Hrun).
    apply bind_Ok in Hstep as (u2 & s2 & (hx & Hx & ->)%modE_Ok & (hv & Hv & ->)%modV_Ok).
    apply IH in Hrun as (He & Hf & Hmf & Hmv & Hvs). cbn in *.
    split_and!; try done.
    + intros y. rewrite He.
      destruct (decide (y = x)) as [->|Hne].
      * rewrite lookup_insert_eq, Hx. rewrite (decide_True (P := x ∈ x :: l)) by (by left).
        by destruct (decide (x ∈ l)).
      * rewrite lookup_insert_ne by done.
        destruct (decide (y ∈ l)).
        -- by rewrite decide_True by (by right).
        -- rewrite decide_False; [done|]. rewrite elem_of_cons. naive_solver.
    + intros v Hne. rewrite Hvs by done. by rewrite lookup_insert_ne.
Qed.

Lemma rehome_in_loop p1 l : ∀ s u s',
  forM_ l (λ x, modE x (with_end p1) ≫= λ _, modV p1 (push_in x)) s = Ok u s' →
  (∀ y, edges s' !! y =
        if decide (y ∈ l) then with_end p1 <$> edges s !! y else edges s !! y) ∧
  faces s' = faces s ∧ m_faces s' = m_faces s ∧ m_vertices s' = m_vertices s ∧
  (∀ v, v ≠ p1 → vertices s' !! v = vertices s !! v).
Proof.
  induction l as [|x l IH]; intros s u s' Hrun; cbn in Hrun.
  - apply mret_Ok in Hrun as [_ <-]. split_and!; try done;
      intros y; by rewrite decide_False by apply not_elem_of_nil.
  - apply bind_Ok in Hrun as (u1 & s1 & Hstep & Hrun).
    apply bind_Ok in Hstep as (u2 & s2 & (hx & Hx & ->)%modE_Ok & (hv & Hv & ->)%modV_Ok).
    apply IH in Hrun as (He & Hf & Hmf & Hmv & Hvs). cbn in *.
    split_and!; try done.
    + intros y. rewrite He.
      destruct (decide (y = x)) as [->|Hne].
      * rewrite lookup_insert_eq, Hx. rewrite (decide_True (P := x ∈ x :: l)) by (by left).
        by destruct (decide (x ∈ l)).
      * rewrite lookup_insert_ne by done.
        destruct (decide (y ∈ l)).
        -- by rewrite decide_True by (by right).
        -- rewrite decide_False; [done|]. rewrite elem_of_cons. naive_solver.
    + intros v Hne. rewrite Hvs by done. by rewrite lookup_insert_ne.
Qed.

Lemma rename_edge_id h : rename_edge id h = h.
Proof. by destruct h. Qed.

(** The two loops that move the edges of [p2] over to [p1] rename the
    endpoints of every half-edge along [merge_into p1 p2]. *)
Lemma rehome_Ok p1 p2 u1 u2 s s1 s2 :
  adjacency_ok s →
  rehome_out p1 p2 s = Ok u1 s1 → rehome_in p1 p2 s1 = Ok u2 s2 →
  (∀ y, edges s2 !! y = rename_edge (merge_into p1 p2) <$> edges s !! y) ∧
  faces s2 = faces s ∧ m_faces s2 = m_faces s ∧ m_vertices s2 = m_vertices s.
Proof.
  intros [Hreg Hsound] H1 H2. unfold rehome_out, rehome_in in *.
  apply bind_Ok in H1 as (h2 & s0 & [Hh2 <-]%getV_Ok & H1).
  apply bind_Ok in H2 as (h2' & s0 & [Hh2' <-]%getV_Ok & H2).
  destruct (decide (p1 = p2)) as [->|Hne].
  - assert (s1 = s) as ->.
    { destruct (bool_decide (out h2 = [])); by minv H1. }
    assert (s2 = s) as ->.
    { destruct (bool_decide (in_ h2' = [])); by minv H2. }
    split_and!; try done. intros y.
    destruct (edges s !! y) as [h|]; [|done]. cbn. f_equal.
    unfold merge_into. destruct h as [a b ? ? ? ?]. unfold rename_edge; cbn.
    by destruct (decide (a = p2)), (decide (b = p2)); subst.
  - apply rehome_out_loop in H1 as (He1 & Hf1 & Hmf1 & Hmv1 & Hv1).
    apply rehome_in_loop in H2 as (He2 & Hf2 & Hmf2 & Hmv2 & Hv2).
    rewrite Hv1 in Hh2' by done. assert (h2' = h2) as -> by congruence.
    split_and!; try congruence.
    intros y. rewrite He2, He1.
    destruct (edges s !! y) as [h|] eqn:Hy.
    2:{ by destruct (decide (y ∈ in_ h2)), (decide (y ∈ out h2)). }
    specialize (Hreg y h Hy). apply registered_lookup in Hreg as (hs & ht & Hhs & Ho & Hht & Hi).
    pose proof (Hsound p2 h2 Hh2) as Hl2.
    assert (y ∈ out h2 ↔ start h = p2) as Hout.
    { split.
      - intros Hin. destruct (lists_sound_out _ _ _ _ Hl2 Hin) as (h' & ? & ?). congruence.
      - intros Heq. rewrite Heq in Hhs. congruence. }
    assert (y ∈ in_ h2 ↔ end_ h = p2) as Hin.
    { split.
      - intros Hin. destruct (lists_sound_in _ _ _ _ Hl2 Hin) as (h' & ? & ?). congruence.
      - intros Heq. rewrite Heq in Hht. congruence. }
    unfold rename_edge, merge_into. destruct h as [a b ? ? ? ?]. cbn in *.
    destruct (decide (y ∈ in_ h2)) as [Hi'|Hi'], (decide (y ∈ out h2)) as [Ho'|Ho'];
      cbn; f_equal; unfold with_end, with_start; cbn;
      destruct (decide (a = p2)), (decide (b = p2)); subst; try done;
      naive_solver.
Qed.

Lemma merge_into_l p1 p2 : merge_into p1 p2 p1 = p1.
Proof. unfold merge_into. by destruct (decide (p1 = p2)). Qed.
Lemma merge_into_r p1 p2 : merge_into p1 p2 p2 = p1.
Proof. unfold merge_into. by rewrite decide_True. Qed.
Lemma merge_into_idemp p1 p2 v : merge_into p1 p2 (merge_into p1 p2 v) = merge_into p1 p2 v.
Proof.
  unfold merge_into. destruct (decide (v = p2)); [|by rewrite decide_False].
  by destruct (decide (p1 = p2)).
Qed.

Lemma adjacency_ok_ext s s' :
  edges s' = edges s → vertices s' = vertices s → adjacency_ok s → adjacency_ok s'.
Proof.
  unfold adjacency_ok, registered, lists_sound, out_of, in_of, start_of, end_of.
  by intros -> ->.
Qed.

Lemma adjacency_ok_position s v h pos :
  vertices s !! v = Some h → adjacency_ok s →
  adjacency_ok (set_vertices (insert v (with_position pos h)) s).
Proof.
  intros Hv [Hreg Hsound]. split.
  - intros e he He. specialize (Hreg e he He).
    apply registered_lookup in Hreg as (hs & ht & Hs & ? & Ht & ?).
    apply registered_lookup. cbn.
    destruct (decide (start he = v)) as [Hsv|Hsv], (decide (end_ he = v)) as [Htv|Htv];
      rewrite ?Hsv, ?Htv, ?lookup_insert_eq, ?lookup_insert_ne by congruence;
      rewrite ?Hsv, ?Htv in *;
      repeat match goal with
             | H1 : vertices s !! v = Some ?x, H2 : vertices s !! v = Some ?y |- _ =>
                 assert (x = y) as -> by congruence; clear H2
             end; eauto 10.
  - intros w hw Hw. cbn in Hw.
    destruct (decide (w = v)) as [->|Hne].
    + rewrite lookup_insert_eq in Hw. injection Hw as <-. apply (Hsound v h Hv).
    + rewrite lookup_insert_ne in Hw by done. apply (Hsound w hw Hw).
Qed.

(** A triangle whose edges survive a block is still a triangle. *)
Lemma triangle_at_transfer s s' x hx f :
  triangle_at s x hx f → edges_sub s s' →
  (∀ n hn nn hnn, next hx = Some n → edges s !! n = Some hn →
     next hn = Some nn → edges s !! nn = Some hnn →
     is_Some (edges s' !! n) ∧ is_Some (edges s' !! nn)) →
  triangle_at s' x hx f.
Proof.
  intros (n & hn & nn & hnn & Hn & Hhn & Hnn & Hhnn & Hback & Hfn & Hfnn & T) Hsub Hlive.
  destruct (Hlive n hn nn hnn Hn Hhn Hnn Hhnn) as [[hn' Hhn'] [hnn' Hhnn']].
  destruct (Hsub n hn' Hhn') as (h1 & ? & ? & ? & ? & ?).
  destruct (Hsub nn hnn' Hhnn') as (h2 & ? & ? & ? & ? & ?).
  assert (h1 = hn) as -> by congruence. assert (h2 = hnn) as -> by congruence.
  exists n, hn', nn, hnn'. split_and!; try done; try congruence;
    destruct T as (? & ? & ? & ? & ? & ?); congruence.
Qed.

Lemma face_erase_step (l l' : list nat) (F F' : gmap nat HFace) (o : option nat) :
  NoDup l →
  match o with
  | None => l' = l ∧ F' = F
  | Some f => erase_first f l = Some l' ∧ F' = delete f F
  end →
  NoDup l' ∧ ∀ g, g ∈ l' → g ∈ l ∧ F' !! g = F !! g ∧ Some g ≠ o.
Proof.
  intros Hnd Ho. destruct o as [f|].
  - destruct Ho as [Hl ->]. destruct (erase_first_NoDup _ _ _ Hl Hnd) as [Hnd' Hf].
    split; [done|]. intros g Hg.
    assert (g ≠ f) by (intros ->; done).
    split_and!; [by eapply erase_first_sub|by rewrite lookup_delete_ne|congruence].
  - destruct Ho as [-> ->]. split; [done|]. intros g Hg. done.
Qed.

(** [collapseEdge] on a well-formed mesh: the counts, and the two graph
    invariants of the result. *)
Lemma collapseEdge_wf s e he p hp u s' :
  mesh_wf s → edges s !! e = Some he → pair he = Some p → edges s !! p = Some hp →
  collapseEdge e s = Ok u s' →
  length (m_vertices s') + 1 = length (m_vertices s) ∧
  length (m_faces s') + sides he hp = length (m_faces s) ∧
  pairing_ok s' ∧ face_cycle_ok s'.
Proof.
  intros (Hpair & Hdist & Hadj & Hfc & Htri & Hnd & _) He Hp Hhp Hrun.
  destruct (pairing_ok_lookup _ _ _ Hpair He) as (p' & hp' & ? & ? & Hpp & Hps & Hpt).
  assert (p' = p) as -> by congruence. assert (hp' = hp) as -> by congruence.
  set (ρ := merge_into (start he) (end_ he)).
  set (bad := λ o : option nat, o = None ∨ o = face he ∨ o = face hp).
  assert (ρ (start he) = ρ (end_ he)) as Hρ
    by (unfold ρ; by rewrite merge_into_l, merge_into_r).
  assert (ρ (start hp) = ρ (end_ hp)) as Hρp by (by rewrite Hps, Hpt).
  pose proof (pairing_upto_of_ok ρ _ Hpair Hdist) as Hup.
  unfold collapseEdge in Hrun.
  apply bind_Ok in Hrun as (p1 & s0 & (he1 & He1 & <- & <-)%e_start_Ok & Hrun).
  apply bind_Ok in Hrun as (p2 & s0 & (he2 & He2 & <- & <-)%e_end_Ok & Hrun).
  assert (he1 = he) as -> by congruence. assert (he2 = he) as -> by congruence.
  apply bind_Ok in Hrun as (h1 & s0 & [Hh1 <-]%getV_Ok & Hrun).
  apply bind_Ok in Hrun as (h2 & s0 & [Hh2 <-]%getV_Ok & Hrun).
  apply bind_Ok in Hrun as (u0 & sa & (h1' & Hh1' & ->)%modV_Ok & Hrun).
  assert (h1' = h1) as -> by congruence.
  set (sa := set_vertices _ s) in *.
  assert (adjacency_ok sa) as Hadja by (by apply adjacency_ok_position).
  (* the side of [e] *)
  apply bind_Ok in Hrun as (u1 & sb & Hside1 & Hrun).
  destruct (collapse_side_facts ρ bad e he p hp _ sa sb Hside1)
    as (Hupb & Hadjb & Hsfb & Hsubb & Hkeptb & Heb & Hpb & Hgoneb); try done.
  { intros f Hf. by apply (triangles_ok_lookup s e he f). }
  { unfold bad. auto. }
  (* the side of its pair *)
  apply bind_Ok in Hrun as (p0 & s0 & (he3 & He3 & Hp3 & <-)%e_pair_Ok & Hrun).
  assert (he3 = he) as -> by congruence. assert (p0 = p) as -> by congruence.
  apply bind_Ok in Hrun as (u2 & sc & Hside2 & Hrun).
  destruct (collapse_side_facts ρ bad p hp e he _ sb sc Hside2)
    as (Hupc & Hadjc & Hsfc & Hsubc & Hkeptc & Hpc & Hec & _); try done.
  { intros f Hf.
    destruct (triangles_ok_lookup s p hp f Htri Hhp Hf) as [_ Ht].
    apply (triangle_at_transfer sa sb); [done|done|].
    intros n hn nn hnn Hn Hhn Hnn Hhnn.
    destruct Ht as (n' & hn' & nn' & hnn' & ? & ? & ? & ? & ? & ? & ? & T1 & T2 & T3 & D1 & D2 & D3).
    assert (n' = n) as -> by congruence. assert (hn' = hn) as -> by (cbn in *; congruence).
    assert (nn' = nn) as -> by congruence. assert (hnn' = hnn) as -> by (cbn in *; congruence).
    split.
    - destruct (edges sb !! n) eqn:Hd; [eauto|].
      destruct (Hgoneb n hn Hhn Hd); congruence.
    - destruct (edges sb !! nn) eqn:Hd; [eauto|].
      destruct (Hgoneb nn hnn Hhnn Hd); congruence. }
  { unfold bad. auto. }
  (* the two faces *)
  apply bind_Ok in Hrun as (p0 & s0 & (he3 & He3' & Hp3' & <-)%e_pair_Ok & Hrun).
  assert (he3 = he) as -> by congruence. assert (p0 = p) as -> by congruence.
  apply bind_Ok in Hrun as (u3 & sd & Hf2 & Hrun).
  apply collapse_face_Ok in Hf2 as (hp2 & Hhp2 & Hed & Hvd & Hmvd & Hfd).
  assert (hp2 = hp) as -> by congruence.
  apply bind_Ok in Hrun as (u4 & se & Hf1 & Hrun).
  apply collapse_face_Ok in Hf1 as (he4 & Hhe4 & Hee & Hve & Hmve & Hfe).
  assert (he4 = he) as -> by congruence.
  (* the edge itself, the re-homing, the vertex *)
  apply bind_Ok in Hrun as (u5 & sf & Hdel & Hrun).
  pose proof (deleteEdge_adjacency _ _ _ _ _
                (adjacency_ok_ext sc se ltac:(congruence) ltac:(congruence) Hadjc) Hdel)
    as Hadjf.
  apply deleteEdge_true_Ok in Hdel as (he5 & p5 & hp5 & Hhe5 & Hp5 & Hhp5 & Hef & Hsff).
  assert (he5 = he) as -> by congruence. assert (p5 = p) as -> by congruence.
  apply bind_Ok in Hrun as (u6 & sg & Hro & Hrun).
  apply bind_Ok in Hrun as (u7 & sh & Hri & Hdv).
  destruct (rehome_Ok _ _ _ _ _ _ _ Hadjf Hro Hri) as (Heh & Hfh & Hmfh & Hmvh).
  apply deleteVertex_Ok in Hdv as (He' & Hf' & Hmf' & Hmv' & Hv').
  destruct Hsfb as (Hb1 & Hb2 & Hb3 & Hb4 & Hb5).
  destruct Hsfc as (Hc1 & Hc2 & Hc3 & Hc4 & Hc5).
  destruct Hsff as (Hg1 & Hg2 & Hg3 & Hg4 & Hg5).
  split_and!.
  - apply erase_first_length in Hmv'.
    rewrite Hmvh, Hg4, Hmve, Hmvd, Hc4, Hb4 in Hmv'. cbn in Hmv'. lia.
  - rewrite Hmf', Hmfh, Hg3. unfold sides.
    assert (m_faces sc = m_faces s) as Hmc by (rewrite Hc3, Hb3; done).
    revert Hfd Hfe.
    destruct (face hp) as [f2|], (face he) as [f1|]; intros [Hd1 Hd2] [He1' He2'];
      repeat match goal with
             | H : erase_first _ _ = Some _ |- _ => apply erase_first_length in H
             | H : m_faces _ = m_faces _ |- _ => apply (f_equal length) in H
             end; cbn; lia.
  - apply pairing_ok_of_upto. rewrite He'.
    apply (pairing_upto_rename ρ (edges sf)); [apply merge_into_idemp| |exact Heh].
    rewrite Hef. apply (pairing_upto_delete_pair ρ _ e p he); [|congruence|done].
    rewrite Hee, Hed. done.
  - apply (face_cycle_transfer bad s s'); [done| |].
    + apply (edges_kept_trans _ s sa); [by apply edges_kept_refl|].
      apply (edges_kept_trans _ sa sb); [done|].
      apply (edges_kept_trans _ sb sc); [done|].
      apply (edges_kept_trans _ sc se); [apply edges_kept_refl; congruence|].
      apply (edges_kept_trans _ se sf).
      { intros y h Hy. rewrite Hef.
        destruct (decide (y = e)) as [->|Hye].
        { right. rewrite Hee, Hed, Hec in Hy. injection Hy as <-. unfold bad. auto. }
        destruct (decide (y = p)) as [->|Hyp].
        { right. rewrite Hee, Hed, Hpc in Hy. injection Hy as <-. unfold bad. auto. }
        left. exists h. by rewrite !lookup_delete_ne. }
      apply (edges_kept_trans _ sf sh); [|apply edges_kept_refl; congruence].
      intros y h Hy. left. rewrite Heh, Hy. cbn. eauto.
    + assert (m_faces sc = m_faces s) as Hmc by (rewrite Hc3, Hb3; done).
      assert (faces sc = faces s) as Hfc' by (rewrite Hc1, Hb1; done).
      destruct (face_erase_step (m_faces sc) (m_faces sd) (faces sc) (faces sd) (face hp))
        as [Hnd2 Hstep2]; [by rewrite Hmc| |].
      { destruct (face hp); destruct Hfd; done. }
      destruct (face_erase_step (m_faces sd) (m_faces se) (faces sd) (faces se) (face he))
        as [Hnd1 Hstep1]; [done| |].
      { destruct (face he); destruct Hfe; done. }
      intros g Hg. rewrite Hmf', Hmfh, Hg3 in Hg. rewrite Hf', Hfh, Hg1.
      destruct (Hstep1 g Hg) as (Hg1' & Hgf1 & Hne1).
      destruct (Hstep2 g Hg1') as (Hg2' & Hgf2 & Hne2).
      split_and!; [congruence|congruence|].
      unfold bad. intros [?|[?|?]]; congruence.
Qed.


End CollapseFacts.

(** * Edge flip on a boundary edge, and the exported buffers *)

Section FlipFinalize.
Context `{G : Geometry}.

(** C10.  [flipEdge] on an edge that lacks a face on either side returns
    the mesh it was given: nothing is modified, allocated or freed. *)
Theorem flipEdge_boundary_unchanged s e he p hp :
  edges s !! e = Some he → pair he = Some p → edges s !! p = Some hp →
  face he = None ∨ face hp = None →
  flipEdge e s = Ok tt s.
Proof.
  intros He Hp Hhp Hb. unfold flipEdge.
  rewrite run_bind, run_bind, (e_pair_ok _ _ _ _ He Hp), (e_face_ok _ _ _ Hhp).
  rewrite run_bind.
  destruct (face hp) as [fp|] eqn:Efp.
  - bd_true. rewrite (e_face_ok _ _ _ He).
    destruct Hb as [Hb|Hb]; [|done]. rewrite Hb.
    bd_false. done.
  - bd_false. cbn. done.
Qed.

Lemma finalize_vertices_spec l : ∀ i b im s r s',
  finalize_vertices l i b im s = Ok r s' →
  s' = s ∧
  ∃ hs, Forall2 (λ v h, vertices s !! v = Some h) l hs ∧
        m_vertexBuffer r.1 = m_vertexBuffer b ++ concat (position_slots <$> hs) ∧
        m_normalBuffer r.1 = m_normalBuffer b ++ concat (normal_slots <$> hs).
Proof.
  induction l as [|v l IH]; intros i b im s r s' Hrun; cbn in Hrun.
  - apply mret_Ok in Hrun as [<- <-]. split; [done|]. exists [].
    cbn. rewrite !app_nil_r. auto.
  - apply bind_Ok in Hrun as (h & s1 & [Hv <-]%getV_Ok & Hrun).
    apply IH in Hrun as (-> & hs & Hall & Hvb & Hnb). split; [done|].
    exists (h :: hs). split; [by constructor|].
    cbn in Hvb, Hnb. rewrite Hvb, Hnb, <- !app_assoc. done.
Qed.

Lemma lookup_concat_triples {A B} (f : A → list B) (hs : list A) i h k :
  (∀ x, length (f x) = 3) → hs !! i = Some h → k < 3 →
  concat (f <$> hs) !! (3 * i + k) = f h !! k.
Proof.
  intros Hlen. revert i. induction hs as [|x hs IH]; intros i Hi Hk; [done|].
  change (concat (f <$> x :: hs)) with (f x ++ concat (f <$> hs)).
  destruct i as [|i].
  - injection Hi as ->. rewrite lookup_app_l by (rewrite Hlen; lia).
    f_equal; lia.
  - rewrite lookup_app_r by (rewrite Hlen; lia). rewrite Hlen.
    replace (3 * S i + k - 3) with (3 * i + k) by lia. by apply IH.
Qed.

Lemma write_color_frame i x b b' s s' :
  write_color i x b s = Ok b' s' →
  s' = s ∧ m_vertexBuffer b' = m_vertexBuffer b ∧ m_normalBuffer b' = m_normalBuffer b.
Proof.
  unfold write_color. case_bool_decide; [|done]. intros [<- <-]%mret_Ok. done.
Qed.

Lemma color_vertex_frame i r g bl b b' s s' :
  color_vertex i r g bl b s = Ok b' s' →
  s' = s ∧ m_vertexBuffer b' = m_vertexBuffer b ∧ m_normalBuffer b' = m_normalBuffer b.
Proof.
  unfold color_vertex. intros (b1 & s1 & H1 & (b2 & s2 & H2 & H3)%bind_Ok)%bind_Ok.
  apply write_color_frame in H1 as (-> & ? & ?), H2 as (-> & ? & ?), H3 as (-> & ? & ?).
  split; [done|]. split; congruence.
Qed.

Lemma finalize_face_frame im b f b' s s' :
  finalize_face im b f s = Ok b' s' →
  s' = s ∧ m_vertexBuffer b' = m_vertexBuffer b ∧ m_normalBuffer b' = m_normalBuffer b.
Proof.
  unfold finalize_face. intros Hrun.
  apply bind_Ok in Hrun as (v0 & s0 & ->%face_vertex_state & Hrun).
  apply bind_Ok in Hrun as (v1 & s1 & ->%face_vertex_state & Hrun).
  apply bind_Ok in Hrun as (v2 & s2 & ->%face_vertex_state & Hrun).
  apply bind_Ok in Hrun as (hf & s3 & [_ <-]%getF_Ok & Hrun).
  apply bind_Ok in Hrun as (cls & s4 & Hcls & Hrun).
  assert (s4 = s) as ->.
  { destruct (m_region hf); minv Hcls; done. }
  apply bind_Ok in Hrun as (cr & s5 & [_ <-]%gets_Ok & Hrun).
  destruct (if cr then _ else _) as [[r g] bl].
  apply bind_Ok in Hrun as (b1 & s1 & H1 & (b2 & s2 & H2 & H3)%bind_Ok).
  apply color_vertex_frame in H1 as (-> & ? & ?), H2 as (-> & ? & ?), H3 as (-> & ? & ?).
  split; [done|]. cbn in *. split; congruence.
Qed.

(** C9.  For the [i]-th vertex of the mesh, slots [3i .. 3i+2] of the
    normal buffer written by [finalize] hold the negated components of the
    stored normal, and the same slots of the position buffer hold the
    stored position. *)
Theorem finalize_normals_negated s b s' i v h k :
  finalize s = Ok b s' →
  m_vertices s !! i = Some v → vertices s !! v = Some h → k < 3 →
  m_normalBuffer b !! (3 * i + k) = Some (sneg (ncoord (m_normal h) k)) ∧
  m_vertexBuffer b !! (3 * i + k) = Some (vcoord (m_position h) k).
Proof.
  unfold finalize. intros Hrun Hi Hv Hk.
  apply bind_Ok in Hrun as (vs & s0 & [<- <-]%gets_Ok & Hrun).
  apply bind_Ok in Hrun as (fs & s0 & [<- <-]%gets_Ok & Hrun).
  apply bind_Ok in Hrun as ([b0 im] & s0 & Hvs & Hrun).
  apply finalize_vertices_spec in Hvs as (-> & hs & Hall & Hvb & Hnb).
  cbn in Hvb, Hnb.
  assert (m_vertexBuffer b = m_vertexBuffer b0 ∧ m_normalBuffer b = m_normalBuffer b0)
    as [-> ->].
  { revert Hrun.
    apply (foldM_inv (λ b1 _, m_vertexBuffer b1 = m_vertexBuffer b0 ∧
                               m_normalBuffer b1 = m_normalBuffer b0)); [|done].
    intros b1 f s1 b2 s2 _ [? ?] (_ & ? & ?)%finalize_face_frame. split; congruence. }
  rewrite Hvb, Hnb.
  destruct (Forall2_lookup_l _ _ _ _ _ Hall Hi) as (h' & Hh' & Hvh').
  assert (h' = h) as -> by congruence.
  rewrite (lookup_concat_triples normal_slots hs i h k), (lookup_concat_triples position_slots hs i h k)
    by done.
  destruct k as [|[|[|k]]]; [done..|lia].
Qed.

(** [finalize] succeeds when the face list is empty and the listed
    vertices are live; the mesh itself is not changed. *)
Lemma finalize_total_no_faces s :
  m_faces s = [] → (∀ v, v ∈ m_vertices s → is_Some (vertices s !! v)) →
  ∃ b, finalize s = Ok b s.
Proof.
  intros Hf Hlive. unfold finalize.
  rewrite run_bind. cbn. rewrite run_bind. cbn. rewrite Hf.
  assert (∀ l i b im, (∀ v, v ∈ l → is_Some (vertices s !! v)) →
            ∃ r, finalize_vertices l i b im s = Ok r s) as Hloop.
  { induction l as [|v l IH]; intros i b im Hl; cbn; [eauto|].
    destruct (Hl v) as [h Hh]; [by left|].
    rewrite run_bind, (getV_ok _ _ _ Hh). apply IH. intros; apply Hl. by right. }
  destruct (Hloop (m_vertices s) 0 (mkBuffers [] [] [] [] (length (m_vertices s)) (length (@nil nat))) ∅ Hlive)
    as [[b im] Hb].
  rewrite run_bind, Hb. cbn. eauto.
Qed.

End FlipFinalize.

(** * Termination of the retriangulation loop of [fillHoles] *)

Section FillTermination.
Context `{G : Geometry}.
Context (detectFlicker : HalfEdgeMesh → nat → nat → bool).

Lemma find_cycle_state back hole c s s' : find_cycle back hole s = Ok c s' → s' = s.
Proof.
  unfold find_cycle.
  apply (foldM_inv (λ _ s1, s1 = s)); [|done].
  intros found ei s1 found' s2 _ -> H. revert H.
  apply (foldM_inv (λ _ s1, s1 = s)); [|done].
  intros f2 ej s3 f2' s4 _ -> H.
  destruct f2; cbv beta iota in H; [by minv H|].
  unfold closes_cycle in H. minv_cases; done.
Qed.

Lemma fuel_free_find_cycle back hole : fuel_free (find_cycle back hole).
Proof.
  unfold find_cycle, closes_cycle. fuel_free; auto with fuel.
Qed.

Lemma fuel_free_close_cycle back ei ej hole : fuel_free (close_cycle back ei ej hole).
Proof.
  unfold close_cycle, new_face. fuel_free; auto with fuel.
Qed.

Lemma close_cycle_length back ei ej hole hole' s s' :
  close_cycle back ei ej hole s = Ok hole' s' → length hole' + 3 = length hole.
Proof.
  unfold close_cycle. intros H.
  do 5 (apply bind_Ok in H as (? & ? & _ & H)).
  apply bind_Ok in H as (h3 & ? & Hloop & H).
  assert (hole' = h3) as ->.
  { do 4 (apply bind_Ok in H as (? & ? & _ & H)).
    apply bind_Ok in H as (? & ? & _ & H). by minv H. }
  clear H. cbn in Hloop.
  apply bind_Ok in Hloop as (h1 & ? & H1 & Hloop).
  apply bind_Ok in Hloop as (h2 & ? & H2 & Hloop).
  apply bind_Ok in Hloop as (h3' & ? & H3 & Hloop).
  apply mret_Ok in Hloop as [-> _].
  assert (∀ k l l' s1 s2,
    (face_edge x k ≫= λ y, modE y (with_face (Some x)) ≫= λ _,
       face_edge x k ≫= λ y', nonnull (erase_first y' l)) s1 = Ok l' s2 →
    length l = S (length l')) as Hstep.
  { intros k l l' s1 s2 Hs.
    do 3 (apply bind_Ok in Hs as (? & ? & _ & Hs)).
    apply nonnull_Ok in Hs as [Hs _]. by apply erase_first_length in Hs. }
  apply Hstep in H1, H2, H3. lia.
Qed.

(** One pass either builds a face over three edges of the list, or finds
    no 3-cycle and drops the trailing edge, leaving the mesh as it is. *)
Lemma fill_pass_shrinks hole hole' s s' :
  hole ≠ [] → fill_pass hole s = Ok hole' s' →
  length hole' + 3 = length hole ∨ (hole' = removelast hole ∧ s' = s).
Proof.
  intros Hne H. unfold fill_pass in H.
  destruct (last hole) as [back|] eqn:Hlast.
  - apply bind_Ok in H as (c & s1 & ->%find_cycle_state & H).
    destruct c as [[ei ej]|].
    + left. by eapply close_cycle_length.
    + right. by apply mret_Ok in H as [<- <-].
  - by apply last_None in Hlast.
Qed.

Lemma removelast_length {A} (l : list A) : l ≠ [] → S (length (removelast l)) = length l.
Proof.
  intros Hne. destruct (exists_last Hne) as (l0 & a & ->).
  rewrite removelast_last, length_app. cbn. lia.
Qed.

Lemma fill_pass_length hole hole' s s' :
  hole ≠ [] → fill_pass hole s = Ok hole' s' → length hole' < length hole.
Proof.
  intros Hne H. destruct (fill_pass_shrinks _ _ _ _ Hne H) as [?|[-> _]]; [lia|].
  pose proof (removelast_length hole Hne). lia.
Qed.

Lemma fuel_free_fill_pass hole : fuel_free (fill_pass hole).
Proof.
  unfold fill_pass. fuel_free;
    auto using fuel_free_find_cycle, fuel_free_close_cycle with fuel.
Qed.

Lemma fill_hole_fuel fuel : ∀ hole s,
  length hole < fuel → fill_hole fuel hole s ≠ OutOfFuel.
Proof.
  induction fuel as [|fuel IH]; intros hole s Hlt; [lia|].
  cbn. destruct hole as [|x hole]; [done|].
  rewrite run_bind.
  destruct (fill_pass (x :: hole) s) as [hole' s'| |] eqn:Hpass; [|done|].
  - apply IH. apply fill_pass_length in Hpass; [|done]. cbn in *. lia.
  - by apply fuel_free_fill_pass in Hpass.
Qed.

End FillTermination.

(** * Region growing by normal similarity *)

Section RegionGrowing.
Context `{G : Geometry}.

Lemma alter_as_insert {A} (f : A → A) (m : gmap nat A) k h :
  m !! k = Some h → alter f k m = <[k := f h]> m.
Proof.
  intros Hk. symmetry. apply map_eq. intros j. rewrite lookup_alter, lookup_insert.
  destruct (decide (k = j)); subst; by rewrite ?Hk.
Qed.

Lemma mark_idemp r h : mark r (mark r h) = mark r h.
Proof. done. Qed.

Lemma lookup_foldl_alter {A} (f : A → A) (L : list nat) : ∀ (m : gmap nat A) g,
  (∀ a, f (f a) = f a) →
  foldl (λ m g, alter f g m) m L !! g =
  if decide (g ∈ L) then f <$> m !! g else m !! g.
Proof.
  induction L as [|x L IH]; intros m g Hf; cbn.
  - rewrite decide_False by apply not_elem_of_nil. done.
  - rewrite IH by done. rewrite lookup_alter.
    destruct (decide (g ∈ L)), (decide (x = g)); subst.
    + rewrite decide_True by (by right). destruct (m !! g); cbn; by rewrite ?Hf.
    + rewrite decide_True by (by right). done.
    + rewrite decide_True by (by left). done.
    + rewrite decide_False; [done|]. rewrite elem_of_cons. naive_solver.
Qed.

Lemma grow_state_faces r L s g :
  faces (grow_state r L s) !! g =
  if decide (g ∈ L) then mark r <$> faces s !! g else faces s !! g.
Proof. cbn. apply lookup_foldl_alter. apply mark_idemp. Qed.

Lemma grow_state_edges r L s : edges (grow_state r L s) = edges s.
Proof. done. Qed.

Lemma grow_state_app r L1 L2 s :
  grow_state r L2 (grow_state r L1 s) = grow_state r (L1 ++ L2) s.
Proof.
  unfold grow_state, set_regions, set_faces; cbn. f_equal.
  - by rewrite foldl_app.
  - rewrite alter_alter_eq. apply alter_ext. intros hr _. cbn.
    unfold with_r_faces; cbn. by rewrite app_assoc.
Qed.

(** The first two statements of [regionGrowing]: mark and add the seed. *)
Lemma grow_seed r sf u s s' :
  (modF sf (with_m_used true) ≫= λ _, region_addFace r sf) s = Ok u s' →
  s' = grow_state r [sf] s.
Proof.
  unfold region_addFace. intros H. minvs.
  unfold grow_state, set_regions, set_faces; cbn in *.
  match goal with
  | H : <[_:=_]> _ !! _ = Some _ |- _ => rewrite lookup_insert_eq in H; injection H as <-
  end.
  rewrite insert_insert_eq.
  f_equal; symmetry.
  - by apply (alter_as_insert (mark r)).
  - by apply (alter_as_insert (λ hr, with_r_faces (r_faces hr ++ [sf]) hr)).
Qed.

Lemma grow_state_used r L s g hg :
  faces (grow_state r L s) !! g = Some hg → m_used hg = false →
  (g ∉ L) ∧ faces s !! g = Some hg.
Proof.
  rewrite grow_state_faces. case_decide; [|done].
  destruct (faces s !! g); intros [= <-]; done.
Qed.

Lemma regionGrowing_angle_grows fuel : ∀ sf normal angle r s n s',
  regionGrowing_angle fuel sf normal angle r s = Ok n s' →
  ∃ added,
    s' = grow_state r (sf :: added) s ∧
    n = Z.of_nat (length added) ∧
    NoDup (sf :: added) ∧
    ∀ g, g ∈ added → abs_cosine_admits s normal angle g.
Proof.
  induction fuel as [|fuel IH]; intros sf normal angle r s n s' Hrun; [done|].
  cbn [regionGrowing_angle] in Hrun.
  apply bind_Ok in Hrun as (u & s1 & H1 & Hrun).
  apply bind_Ok in Hrun as (u' & s2 & H2 & Hrun).
  assert (s2 = grow_state r [sf] s) as ->.
  { eapply grow_seed. apply bind_Ok. eauto. }
  clear H1 H2. revert Hrun.
  apply (foldM_inv (λ cnt sc, ∃ added,
    sc = grow_state r (sf :: added) s ∧ cnt = Z.of_nat (length added) ∧
    NoDup (sf :: added) ∧ ∀ g, g ∈ added → abs_cosine_admits s normal angle g)).
  2:{ exists []. split; [done|]. split; [done|]. split; [|by intros ? ?%elem_of_nil].
      apply NoDup_singleton. }
  intros cnt k sc cnt' sn _ (added & -> & -> & Hnd & Hadm) Hstep.
  apply bind_Ok in Hstep as (pf & s3 & Hpf & Hstep).
  assert (s3 = grow_state r (sf :: added) s) as ->.
  { revert Hpf. apply read_only_bind; [|auto with readers].
    apply read_only_bind; auto with readers. }
  destruct pf as [g|]; [|minv Hstep; eauto].
  apply bind_Ok in Hstep as (hg & s4 & [Hg <-]%getF_Ok & Hstep).
  destruct (m_used hg) eqn:Hused; [minv Hstep; eauto|].
  apply bind_Ok in Hstep as (ng & s4 & Hn & Hstep).
  unfold getFaceNormal in Hn.
  apply bind_Ok in Hn as (hg' & ? & [Hg' <-]%getF_Ok & [<- <-]%mret_Ok).
  assert (hg' = hg) as -> by congruence.
  destruct (sgt _ _) eqn:Hcrit; [|minv Hstep; eauto].
  apply bind_Ok in Hstep as (rc & s4 & Hrec & Hstep). minv Hstep.
  apply IH in Hrec as (added' & -> & -> & Hnd' & Hadm').
  destruct (grow_state_used _ _ _ _ _ Hg Hused) as [HgL Hgs].
  exists (added ++ g :: added'). split; [|split; [|split]].
  - by rewrite grow_state_app.
  - rewrite length_app. cbn. lia.
  - rewrite app_comm_cons. apply NoDup_app. split; [done|]. split; [|done].
    intros x Hx [->|Hx']%elem_of_cons; [done|].
    destruct (Hadm' _ Hx') as (hx & Hhx & Hux & _).
    by destruct (grow_state_used _ _ _ _ _ Hhx Hux).
  - intros x [Hx|[->|Hx]%elem_of_cons]%elem_of_app; [by apply Hadm|by exists hg|].
    destruct (Hadm' _ Hx) as (hx & Hhx & Hux & Hcx).
    destruct (grow_state_used _ _ _ _ _ Hhx Hux) as [_ ?]. by exists hx.
Qed.

Lemma elem_of_unvisited s g :
  g ∈ unvisited s ↔ ∃ h, faces s !! g = Some h ∧ m_used h = false.
Proof.
  unfold unvisited. rewrite elem_of_dom. unfold is_Some.
  setoid_rewrite map_lookup_filter_Some. naive_solver.
Qed.

Lemma unvisited_grow r L s : unvisited (grow_state r L s) ⊆ unvisited s ∖ list_to_set L.
Proof.
  intros g (h & Hh & Hu)%elem_of_unvisited.
  destruct (grow_state_used _ _ _ _ _ Hh Hu) as [HL Hs].
  apply elem_of_difference. split.
  - apply elem_of_unvisited. eauto.
  - by rewrite elem_of_list_to_set.
Qed.

Lemma regionGrowing_angle_fuel fuel : ∀ sf normal angle r s,
  size (unvisited s ∖ {[sf]}) < fuel →
  regionGrowing_angle fuel sf normal angle r s ≠ OutOfFuel.
Proof.
  induction fuel as [|fuel IH]; intros sf normal angle r s Hsz; [lia|].
  cbn [regionGrowing_angle]. rewrite run_bind.
  destruct (modF sf (with_m_used true) s) as [u s1| |] eqn:H1; [|done|].
  2:{ by apply fuel_free_modF in H1. }
  rewrite run_bind.
  destruct (region_addFace r sf s1) as [u' s2| |] eqn:H2; [|done|].
  2:{ by apply fuel_free_region_addFace in H2. }
  assert (s2 = grow_state r [sf] s) as ->.
  { eapply grow_seed. apply bind_Ok. eauto. }
  apply (foldM_fuel (λ _ sc, unvisited sc ⊆ unvisited s ∖ {[sf]})).
  - intros cnt k sc Hsub. rewrite run_bind.
    assert (fuel_free ((face_edge sf k ≫= e_pair) ≫= e_face)) as Hff
      by (fuel_free; auto with fuel).
    destruct (_ ≫= e_face) as [pf s3| |] eqn:Hpf; [|done|by apply Hff in Hpf].
    assert (s3 = sc) as ->.
    { revert Hpf. apply read_only_bind; [|auto with readers].
      apply read_only_bind; auto with readers. }
    destruct pf as [g|]; [|done].
    rewrite run_bind.
    destruct (getF g sc) as [hg s4| |] eqn:Hg; [|done|by apply fuel_free_getF in Hg].
    apply getF_Ok in Hg as [Hg <-].
    destruct (m_used hg) eqn:Hu; [done|].
    rewrite run_bind. unfold getFaceNormal. rewrite run_bind, (getF_ok _ _ _ Hg). cbn.
    destruct (sgt _ _); [|done].
    rewrite run_bind.
    destruct (regionGrowing_angle fuel g normal angle r sc) as [rc s5| |] eqn:Hrec;
      [done|done|].
    exfalso. revert Hrec. apply IH.
    assert (g ∈ unvisited sc) as Hgin by (apply elem_of_unvisited; eauto).
    apply subseteq_size in Hsub.
    assert (size (unvisited sc) = size (unvisited sc ∖ {[g]}) + 1).
    { rewrite (union_difference_L {[g]} (unvisited sc)) at 1
        by (by apply singleton_subseteq_l).
      rewrite size_union by set_solver. rewrite size_singleton. lia. }
    lia.
  - intros cnt k sc cnt' sn Hsub Hstep.
    apply bind_Ok in Hstep as (pf & s3 & Hpf & Hstep).
    assert (s3 = sc) as ->.
    { revert Hpf. apply read_only_bind; [|auto with readers].
      apply read_only_bind; auto with readers. }
    destruct pf as [g|]; [|by minv Hstep].
    apply bind_Ok in Hstep as (hg & s4 & [Hg <-]%getF_Ok & Hstep).
    destruct (m_used hg) eqn:Hused; [by minv Hstep|].
    apply bind_Ok in Hstep as (ng & s4 & Hn & Hstep).
    apply read_only_bind in Hn as ->; [|auto with readers|intros; apply read_only_ret].
    destruct (sgt _ _) eqn:Hcrit; [|by minv Hstep].
    apply bind_Ok in Hstep as (rc & s4 & Hrec & Hstep). minv Hstep.
    apply regionGrowing_angle_grows in Hrec as (added' & -> & _).
    etrans; [apply unvisited_grow|]. set_solver.
  - etrans; [apply unvisited_grow|]. set_solver.
Qed.

(** X17.  A run of the thresholded [regionGrowing] from a seed
    takes the seed and a list of further faces into the region, each of
    them once; every face beyond the seed was unvisited and passed the
    test [fabs (n * normal) > angle] on its normal [n]; the result is the
    number of faces beyond the seed; and fuel above the number of
    unvisited faces is enough for the run to end. *)
Theorem regionGrowing_angle_spec fuel sf normal angle r s :
  (∀ n s', regionGrowing_angle fuel sf normal angle r s = Ok n s' →
     ∃ added,
       s' = grow_state r (sf :: added) s ∧
       n = Z.of_nat (length added) ∧
       NoDup (sf :: added) ∧
       ∀ g, g ∈ added → abs_cosine_admits s normal angle g) ∧
  (size (unvisited s) < fuel →
     regionGrowing_angle fuel sf normal angle r s ≠ OutOfFuel).
Proof.
  split.
  - intros n s'. apply regionGrowing_angle_grows.
  - intros Hsz. apply regionGrowing_angle_fuel.
    eapply Nat.le_lt_trans; [|exact Hsz]. apply subseteq_size. set_solver.
Qed.

End RegionGrowing.

(** * Running an operation forwards *)

(** One step of a run: rewrite with the equation of its first command. *)
Tactic Notation "fwd" open_constr(L) :=
  rewrite ?run_bind; rewrite L by (try done); cbv beta iota.

Section Forward.
Context `{G : Geometry}.

Lemma modE_ok s e h f :
  edges s !! e = Some h → modE e f s = Ok tt (set_edges (insert e (f h)) s).
Proof. intros H. apply modE_Ok. eauto. Qed.
Lemma modF_ok s x h f :
  faces s !! x = Some h → modF x f s = Ok tt (set_faces (insert x (f h)) s).
Proof. intros H. apply modF_Ok. eauto. Qed.
Lemma modV_ok s v h f :
  vertices s !! v = Some h → modV v f s = Ok tt (set_vertices (insert v (f h)) s).
Proof. intros H. apply modV_Ok. eauto. Qed.
Lemma newE_run h s :
  newE h s = Ok (fresh_id (edges s)) (set_edges (insert (fresh_id (edges s)) h) s).
Proof. reflexivity. Qed.
Lemma freeE_ok s e h : edges s !! e = Some h → freeE e s = Ok tt (set_edges (delete e) s).
Proof. intros H. apply freeE_Ok. eauto. Qed.

Lemma fresh_id_insert_live {A} (m : gmap nat A) k v h :
  m !! k = Some h → fresh_id (<[k:=v]> m) = fresh_id m.
Proof.
  intros H. unfold fresh_id. f_equal. f_equal. f_equal.
  apply elem_of_dom_2 in H. rewrite dom_insert_L. set_solver.
Qed.

(** ** Adjacency lists *)

Lemma lists_kept_refl X V : lists_kept X V V.
Proof. intros v. destruct (V !! v); constructor. done. Qed.

Lemma lists_kept_trans X Y Z V1 V2 V3 :
  lists_kept X V1 V2 → lists_kept Y V2 V3 →
  (∀ x, x ∉ Z → (x ∉ X) ∧ (x ∉ Y)) → lists_kept Z V1 V3.
Proof.
  intros H12 H23 HZ v. specialize (H12 v). specialize (H23 v).
  destruct H12 as [h1 h2 (Hp & Hn & Hm)|]; inversion H23 as [h2' h3 (Hp' & Hn' & Hm') E1 E2|];
    subst; constructor.
  split; [congruence|]. split; [congruence|].
  intros x Hx. destruct (HZ x Hx) as [HxX HxY].
  destruct (Hm x HxX), (Hm' x HxY). auto.
Qed.

Lemma lists_kept_weaken X Z V V' :
  lists_kept X V V' → (∀ x, x ∉ Z → x ∉ X) → lists_kept Z V V'.
Proof.
  intros Hk HZ. eapply lists_kept_trans; [exact Hk|apply (lists_kept_refl [])|].
  intros x Hx. split; [auto|]. apply not_elem_of_nil.
Qed.

Lemma lists_kept_insert X V v hv hv' :
  V !! v = Some hv → vertex_kept X hv hv' → lists_kept X V (<[v := hv']> V).
Proof.
  intros Hv Hk w. destruct (decide (w = v)) as [->|Hne].
  - rewrite lookup_insert_eq, Hv. by constructor.
  - rewrite lookup_insert_ne by done. destruct (V !! w); constructor. done.
Qed.

Lemma lists_kept_live X V V' v : lists_kept X V V' → is_Some (V !! v) → is_Some (V' !! v).
Proof. intros Hk [h Hh]. specialize (Hk v). rewrite Hh in Hk. inversion Hk. eauto. Qed.

Lemma lists_kept_position X V V' v :
  lists_kept X V V' → m_position <$> V' !! v = m_position <$> V !! v.
Proof. intros Hk. destruct (Hk v) as [h h' (Hp & _)|]; cbn; [by rewrite Hp|done]. Qed.

Lemma lists_kept_dom X V V' : lists_kept X V V' → dom V' = dom V.
Proof.
  intros Hk. apply set_eq. intros v. rewrite !elem_of_dom.
  destruct (Hk v) as [h h' _|]; split; intros [? ?]; eauto; done.
Qed.

Lemma lists_kept_out X V V' v x :
  lists_kept X V V' → x ∉ X →
  x ∈ default [] (out <$> V !! v) → x ∈ default [] (out <$> V' !! v).
Proof.
  intros Hk Hx. destruct (Hk v) as [h h' (_ & _ & Hm)|]; cbn; [|done].
  apply Hm, Hx.
Qed.
Lemma lists_kept_in X V V' v x :
  lists_kept X V V' → x ∉ X →
  x ∈ default [] (in_ <$> V !! v) → x ∈ default [] (in_ <$> V' !! v).
Proof.
  intros Hk Hx. destruct (Hk v) as [h h' (_ & _ & Hm)|]; cbn; [|done].
  apply Hm, Hx.
Qed.

Lemma out_of_live s v x : x ∈ out_of s v → is_Some (vertices s !! v).
Proof. unfold out_of. destruct (vertices s !! v); [eauto|]. cbn. by intros ?%elem_of_nil. Qed.
Lemma in_of_live s v x : x ∈ in_of s v → is_Some (vertices s !! v).
Proof. unfold in_of. destruct (vertices s !! v); [eauto|]. cbn. by intros ?%elem_of_nil. Qed.

Lemma push_out_ok s v x :
  is_Some (vertices s !! v) →
  ∃ V', modV v (push_out x) s = Ok tt (set_vertices (λ _, V') s) ∧
        lists_kept [] (vertices s) V' ∧ x ∈ default [] (out <$> V' !! v).
Proof.
  intros [hv Hv]. exists (<[v := push_out x hv]> (vertices s)).
  split; [by apply modV_ok|]. split.
  - apply (lists_kept_insert _ _ _ _ _ Hv). split; [done|]. split; [done|].
    intros y _. cbn. rewrite elem_of_app. auto.
  - rewrite lookup_insert_eq. cbn. set_solver.
Qed.

Lemma push_in_ok s v x :
  is_Some (vertices s !! v) →
  ∃ V', modV v (push_in x) s = Ok tt (set_vertices (λ _, V') s) ∧
        lists_kept [] (vertices s) V' ∧ x ∈ default [] (in_ <$> V' !! v).
Proof.
  intros [hv Hv]. exists (<[v := push_in x hv]> (vertices s)).
  split; [by apply modV_ok|]. split.
  - apply (lists_kept_insert _ _ _ _ _ Hv). split; [done|]. split; [done|].
    intros y _. cbn. rewrite elem_of_app. auto.
  - rewrite lookup_insert_eq. cbn. set_solver.
Qed.

Lemma erase_out_ok s v x :
  x ∈ out_of s v →
  ∃ V', erase_out v x s = Ok tt (set_vertices (λ _, V') s) ∧
        lists_kept [x] (vertices s) V' ∧
        ∀ w, in_ <$> V' !! w = in_ <$> vertices s !! w.
Proof.
  intros Hx. destruct (out_of_live _ _ _ Hx) as [hv Hv].
  unfold out_of in Hx. rewrite Hv in Hx. cbn in Hx.
  destruct (erase_first_is_Some _ _ Hx) as [l Hl].
  exists (<[v := with_out l hv]> (vertices s)). split; [|split].
  - apply erase_out_Ok. eauto.
  - apply (lists_kept_insert _ _ _ _ _ Hv). split; [done|]. split; [done|].
    intros y Hy. cbn. split; [|done]. intros Hin.
    eapply erase_first_other; [done..|]. set_solver.
  - intros w. destruct (decide (w = v)) as [->|Hne].
    + by rewrite lookup_insert_eq, Hv.
    + by rewrite lookup_insert_ne.
Qed.

Lemma erase_in_ok s v x :
  x ∈ in_of s v →
  ∃ V', erase_in v x s = Ok tt (set_vertices (λ _, V') s) ∧
        lists_kept [x] (vertices s) V' ∧
        ∀ w, out <$> V' !! w = out <$> vertices s !! w.
Proof.
  intros Hx. destruct (in_of_live _ _ _ Hx) as [hv Hv].
  unfold in_of in Hx. rewrite Hv in Hx. cbn in Hx.
  destruct (erase_first_is_Some _ _ Hx) as [l Hl].
  exists (<[v := with_in l hv]> (vertices s)). split; [|split].
  - apply erase_in_Ok. eauto.
  - apply (lists_kept_insert _ _ _ _ _ Hv). split; [done|]. split; [done|].
    intros y Hy. cbn. split; [done|]. intros Hin.
    eapply erase_first_other; [done..|]. set_solver.
  - intros w. destruct (decide (w = v)) as [->|Hne].
    + by rewrite lookup_insert_eq, Hv.
    + by rewrite lookup_insert_ne.
Qed.

(** [deleteEdge] with [deletePair] on a registered pair of two objects. *)
Lemma deleteEdge_true_ok s e he p hp :
  edges s !! e = Some he → pair he = Some p → edges s !! p = Some hp → e ≠ p →
  e ∈ out_of s (start he) → e ∈ in_of s (end_ he) →
  p ∈ out_of s (start hp) → p ∈ in_of s (end_ hp) →
  ∃ V', deleteEdge e true s
          = Ok tt (set_edges (λ E, delete e (delete p E)) (set_vertices (λ _, V') s)) ∧
        lists_kept [e; p] (vertices s) V'.
Proof.
  intros He Hpair Hp Hne Heo Hei Hpo Hpi. unfold deleteEdge.
  fwd (e_start_ok _ _ _ He).
  destruct (erase_out_ok _ _ _ Heo) as (V1 & Hrun & Hk1 & Hi1).
  fwd Hrun. clear Hrun.
  set (s1 := set_vertices (λ _, V1) s) in *.
  fwd (e_end_ok s1 _ he).
  assert (e ∈ in_of s1 (end_ he)) as Hei1 by (unfold in_of; cbn; by rewrite Hi1).
  destruct (erase_in_ok _ _ _ Hei1) as (V2 & Hrun & Hk2 & Ho2).
  fwd Hrun. clear Hrun.
  set (s2 := set_vertices (λ _, V2) s1) in *.
  cbn [when].
  fwd (e_pair_ok s2 _ he p).
  fwd (e_start_ok s2 _ hp).
  assert (p ∈ out_of s2 (start hp)) as Hpo2.
  { unfold out_of. cbn. rewrite Ho2. cbn.
    eapply lists_kept_out; [exact Hk1| |done]. set_solver. }
  destruct (erase_out_ok _ _ _ Hpo2) as (V3 & Hrun & Hk3 & Hi3).
  fwd Hrun. clear Hrun.
  set (s3 := set_vertices (λ _, V3) s2) in *.
  fwd (e_end_ok s3 _ hp).
  assert (p ∈ in_of s3 (end_ hp)) as Hpi3.
  { unfold in_of. cbn. rewrite Hi3. cbn.
    eapply lists_kept_in; [exact Hk2| |]. { set_solver. }
    cbn. rewrite Hi1. done. }
  destruct (erase_in_ok _ _ _ Hpi3) as (V4 & Hrun & Hk4 & Ho4).
  fwd Hrun. clear Hrun.
  set (s4 := set_vertices (λ _, V4) s3) in *.
  fwd (freeE_ok s4 _ hp).
  rewrite (freeE_ok _ _ he) by (cbn; by rewrite lookup_delete_ne).
  exists V4. split; [done|]. cbn in *.
  eapply lists_kept_trans; [exact Hk1| |].
  2: { intros x Hx. split; [|exact Hx]. set_solver. }
  eapply lists_kept_trans; [exact Hk2| |].
  2: { intros x Hx. split; [|exact Hx]. set_solver. }
  eapply lists_kept_trans; [exact Hk3|exact Hk4|]. set_solver.
Qed.

(** [calc_normal] on a face whose cycle and corners are live. *)
Lemma calc_normal_ok s f hf e0 h0 e1 h1 e2 h2 :
  faces s !! f = Some hf → m_edge hf = Some e0 →
  edges s !! e0 = Some h0 → next h0 = Some e1 →
  edges s !! e1 = Some h1 → next h1 = Some e2 →
  edges s !! e2 = Some h2 →
  is_Some (vertices s !! end_ h0) → is_Some (vertices s !! end_ h1) →
  is_Some (vertices s !! end_ h2) →
  ∃ n, calc_normal f s = Ok tt (set_faces (insert f (with_f_normal n hf)) s).
Proof.
  intros Hf He0 H0 Hn0 H1 Hn1 H2 [v0 Hv0] [v1 Hv1] [v2 Hv2].
  assert (face_edge f 0 s = Ok e0 s) as R0.
  { apply face_edge_Ok. split; [done|]. eauto 10. }
  assert (face_edge f 1 s = Ok e1 s) as R1.
  { apply face_edge_Ok. split; [done|]. eauto 10. }
  assert (face_edge f 2 s = Ok e2 s) as R2.
  { apply face_edge_Ok. split; [done|]. eexists _, _, _. eauto 10. }
  eexists. unfold calc_normal, face_vertex.
  fwd R0. fwd (e_end_ok _ _ _ H0).
  fwd R1. fwd (e_end_ok _ _ _ H1).
  fwd R2. fwd (e_end_ok _ _ _ H2).
  fwd (getV_ok _ _ _ Hv0). fwd (getV_ok _ _ _ Hv1). fwd (getV_ok _ _ _ Hv2).
  by apply modF_ok.
Qed.

End Forward.

(** * Edge flip *)

Ltac mesh_simpl :=
  cbn [edges vertices faces regions m_vertices m_faces m_regions m_globalIndex
       m_colorRegions set_edges set_vertices set_faces set_regions set_m_vertices
       set_m_faces set_m_globalIndex
       with_start with_end with_pair with_next with_face with_used
       start end_ pair next face used
       with_m_edge with_f_normal with_m_region with_m_used with_m_face_index
       m_edge f_normal m_region m_used m_face_index] in *.

(** Lookup in a chain of inserts and deletes at keys known to differ. *)
Ltac lk :=
  mesh_simpl;
  repeat first
    [ rewrite lookup_insert_eq
    | rewrite lookup_insert_ne by done
    | rewrite lookup_delete_ne by done ];
  first [eassumption | reflexivity].

Tactic Notation "fwd" open_constr(L) "in" hyp(H) :=
  rewrite ?run_bind in H; erewrite L in H by lk; cbv beta iota in H; mesh_simpl.

Section Runs.
Context `{G : Geometry}.

Lemma mret_run {A} (a : A) s : mret (M := MeshM) a s = Ok a s.
Proof. reflexivity. Qed.
Lemma nonnull_run {A} (a : A) s : nonnull (Some a) s = Ok a s.
Proof. reflexivity. Qed.

End Runs.

(** One step of a run kept in the hypothesis [H], by the equation of the
    command at its head. *)
Ltac step H :=
  rewrite ?run_bind in H;
  first
    [ erewrite e_next_ok in H by lk
    | erewrite e_pair_ok in H by lk
    | erewrite e_face_ok in H by lk
    | erewrite e_end_ok in H by lk
    | erewrite e_start_ok in H by lk
    | erewrite modE_ok in H by lk
    | erewrite modF_ok in H by lk
    | rewrite nonnull_run in H
    | rewrite mret_run in H ];
  cbv beta iota in H;
  cbv [set_edges set_vertices set_faces] in H; mesh_simpl.

(** Allocation of a half-edge: the new handle [r] is not live. *)
Ltac step_new H r Hr :=
  rewrite ?run_bind in H; rewrite newE_run in H; cbv beta iota in H;
  cbv [set_edges set_vertices set_faces] in H; mesh_simpl;
  match type of H with
  | context [fresh_id ?M] =>
      pose proof (fresh_id_None M) as Hr; set (r := fresh_id M) in *; clearbody r
  end;
  rewrite ?lookup_insert_None in Hr; destruct_and?;
  repeat match goal with
         | Hk : ?E !! ?k = Some _, Hn : ?E !! r = None |- _ =>
             lazymatch goal with
             | _ : r ≠ k |- _ => fail
             | _ => assert (r ≠ k) by (intros ->; rewrite Hn in Hk; discriminate)
             end
         end.

(** A step on the adjacency lists, by one of the lemmas on them. *)
Ltac step_by H L := rewrite ?run_bind in H; rewrite L in H; cbv beta iota in H;
  cbv [set_edges set_vertices set_faces] in H; mesh_simpl.

Section Flip.
Context `{G : Geometry}.

Lemma NoDup_6 (x1 x2 x3 x4 x5 x6 : nat) :
  NoDup [x1; x2; x3; x4; x5; x6] ↔
  (x1 ≠ x2 ∧ x1 ≠ x3 ∧ x1 ≠ x4 ∧ x1 ≠ x5 ∧ x1 ≠ x6) ∧
  (x2 ≠ x3 ∧ x2 ≠ x4 ∧ x2 ≠ x5 ∧ x2 ≠ x6) ∧
  (x3 ≠ x4 ∧ x3 ≠ x5 ∧ x3 ≠ x6) ∧ (x4 ≠ x5 ∧ x4 ≠ x6) ∧ x5 ≠ x6.
Proof.
  rewrite !NoDup_cons, !not_elem_of_cons. split.
  - intros ((?&?&?&?&?&_) & (?&?&?&?&_) & (?&?&?&_) & (?&?&_) & (?&_) & _). done.
  - intros ((?&?&?&?&?) & (?&?&?&?) & (?&?&?) & (?&?) & ?).
    split_and!; try done; try apply not_elem_of_nil. apply NoDup_nil_2.
Qed.

Lemma flipEdge_quad s e p n1 n2 m1 m2 a b c d f1 f2 :
  quad s e p n1 n2 m1 m2 a b c d f1 f2 →
  ∃ s1 r rp,
    flipEdge e s = Ok tt s1 ∧
    edges s !! r = None ∧ edges s !! rp = None ∧
    edges s1 !! e = None ∧ edges s1 !! p = None ∧
    quad s1 r rp m2 n1 n2 m1 c d b a f2 f1 ∧
    edit_frame [e; p] [n1; n2; m1; m2] [f1; f2] s s1 ∧
    lists_kept [e; p] (vertices s) (vertices s1) ∧
    (∀ x, is_Some (edges s1 !! x) → x = r ∨ x = rp ∨ is_Some (edges s !! x)) ∧
    face_cycle_at s1 f1 ∧ face_cycle_at s1 f2.
Proof.
  intros (Hnd & (he & He & Hes & Het & Hen & Hef) & (hn1 & Hn1 & Hn1s & Hn1t & Hn1n & Hn1f)
          & (hn2 & Hn2 & Hn2s & Hn2t & Hn2n & Hn2f) & (hp & Hp & Hps & Hpt & Hpn & Hpf)
          & (hm1 & Hm1 & Hm1s & Hm1t & Hm1n & Hm1f) & (hm2 & Hm2 & Hm2s & Hm2t & Hm2n & Hm2f)
          & Hep & Hpe & Heo & Hei & Hpo & Hpi & Hc & Hd & [hf1 Hf1] & [hf2 Hf2]).
  apply NoDup_6 in Hnd as ((? & ? & ? & ? & ?) & (? & ? & ? & ?) & (? & ? & ?) & (? & ?) & ?).
  unfold pair_of in Hep, Hpe. rewrite He in Hep. rewrite Hp in Hpe. cbn in Hep, Hpe.
  destruct s as [V E F R mv mf mr gi cr]. mesh_simpl.
  destruct he as [? ? ? ? ? eu], hp as [? ? ? ? ? pu], hn1 as [? ? n1p ? ? n1u],
    hn2 as [? ? n2p ? ? n2u], hm1 as [? ? m1p ? ? m1u], hm2 as [? ? m2p ? ? m2u].
  mesh_simpl. subst.
  cut (∀ res, res = flipEdge e (mkMesh V E F R mv mf mr gi cr) →
         ∃ s1 r rp, res = Ok tt s1 ∧ E !! r = None ∧ E !! rp = None ∧
           edges s1 !! e = None ∧ edges s1 !! p = None ∧
           quad s1 r rp m2 n1 n2 m1 c d b a f2 f1 ∧
           edit_frame [e; p] [n1; n2; m1; m2] [f1; f2] (mkMesh V E F R mv mf mr gi cr) s1 ∧
           lists_kept [e; p] V (vertices s1) ∧
           (∀ x, is_Some (edges s1 !! x) → x = r ∨ x = rp ∨ is_Some (E !! x)) ∧
           face_cycle_at s1 f1 ∧ face_cycle_at s1 f2).
  { intros Hcut. exact (Hcut _ eq_refl). }
  intros res Hres. unfold flipEdge in Hres.
  do 2 step Hres.
  rewrite bool_decide_eq_true_2 in Hres by done.
  step Hres.
  rewrite bool_decide_eq_true_2 in Hres by done.
  repeat step Hres.
  step_new Hres r Hr.
  rewrite ?run_bind in Hres.
  match type of Hres with context [modV c _ ?S] =>
    destruct (push_out_ok S c r Hc) as (V1 & Hrun & Hk1 & Ho1) end.
  step_by Hres Hrun. clear Hrun. mesh_simpl.
  rewrite ?run_bind in Hres.
  match type of Hres with context [modV d _ ?S] =>
    destruct (push_in_ok S d r) as (V2 & Hrun & Hk2 & Ho2) end.
  { mesh_simpl. eapply lists_kept_live; eauto. }
  step_by Hres Hrun. clear Hrun. mesh_simpl.
  repeat step Hres.
  step_new Hres rp Hrp.
  rewrite ?run_bind in Hres.
  match type of Hres with context [modV d _ ?S] =>
    destruct (push_out_ok S d rp) as (V3 & Hrun & Hk3 & Ho3) end.
  { mesh_simpl. eapply lists_kept_live; [exact Hk2|]. eapply lists_kept_live; eauto. }
  step_by Hres Hrun. clear Hrun. mesh_simpl.
  rewrite ?run_bind in Hres.
  match type of Hres with context [modV c _ ?S] =>
    destruct (push_in_ok S c rp) as (V4 & Hrun & Hk4 & Ho4) end.
  { mesh_simpl. do 3 (eapply lists_kept_live; [eassumption|]). done. }
  step_by Hres Hrun. clear Hrun. mesh_simpl.
  repeat step Hres.
  (* the face of the new pair *)
  rewrite ?run_bind in Hres.
  match type of Hres with context [modF f1 _ ?S] =>
    assert (is_Some (faces S !! f1)) as [hf1' Hf1'] end.
  { mesh_simpl. apply lookup_insert_is_Some'. eauto. }
  mesh_simpl. repeat step Hres.
  (* liveness of the four corners *)
  assert (lists_kept [] V V4) as Hk.
  { eapply lists_kept_trans; [exact Hk1| |done].
    eapply lists_kept_trans; [exact Hk2| |done].
    eapply lists_kept_trans; [exact Hk3|exact Hk4|done]. }
  assert (is_Some (V4 !! a) ∧ is_Some (V4 !! b) ∧ is_Some (V4 !! c) ∧ is_Some (V4 !! d))
    as (Ha4 & Hb4 & Hc4 & Hd4).
  { split_and!; eapply lists_kept_live; try exact Hk; try done.
    - exact (out_of_live _ _ _ Heo).
    - exact (in_of_live _ _ _ Hei). }
  (* the two normals *)
  rewrite ?run_bind in Hres.
  match type of Hres with context [calc_normal f2 ?S] =>
    assert (∃ hfb, faces S !! f2 = Some hfb ∧
              ((m_edge hfb = Some r ∧ f1 ≠ f2) ∨ (m_edge hfb = Some rp ∧ f1 = f2)))
      as (hfb & Hfb & Hmb);
    [|assert (∃ n, calc_normal f2 S = Ok tt (set_faces (insert f2 (with_f_normal n hfb)) S))
        as [nb Hrun] ]
  end.
  { mesh_simpl. destruct (decide (f1 = f2)) as [<-|Hff].
    - eexists. rewrite lookup_insert_eq. split; [done|]. right. done.
    - eexists. rewrite lookup_insert_ne, lookup_insert_eq by done. split; [done|]. left. done. }
  { destruct Hmb as [[Hmb _]|[Hmb _]].
    - eapply (calc_normal_ok _ _ _ r _ m2 _ n1); first [exact Hfb | exact Hmb | lk | idtac].
      all: mesh_simpl; done.
    - eapply (calc_normal_ok _ _ _ rp _ n2 _ m1); first [exact Hfb | exact Hmb | lk | idtac].
      all: mesh_simpl; done. }
  step_by Hres Hrun. clear Hrun. mesh_simpl.
  repeat step Hres.
  rewrite ?run_bind in Hres.
  match type of Hres with context [calc_normal f1 ?S] =>
    assert (∃ hfc, faces S !! f1 = Some hfc ∧ m_edge hfc = Some rp) as (hfc & Hfc & Hmc);
    [|assert (∃ n, calc_normal f1 S = Ok tt (set_faces (insert f1 (with_f_normal n hfc)) S))
        as [nc Hrun] ]
  end.
  { mesh_simpl. destruct (decide (f1 = f2)) as [<-|Hff].
    - eexists. rewrite lookup_insert_eq. split; [done|].
      destruct Hmb as [[_ ?]|[? _]]; done.
    - eexists. rewrite lookup_insert_ne, lookup_insert_eq by done. done. }
  { eapply (calc_normal_ok _ _ _ rp _ n2 _ m1); first [exact Hfc | exact Hmc | lk | idtac].
    all: mesh_simpl; done. }
  step_by Hres Hrun. clear Hrun. mesh_simpl.
  (* the old pair goes *)
  match type of Hres with context [deleteEdge e true ?S] =>
    destruct (deleteEdge_true_ok S e (mkHEdge a b (Some p) (Some n1) (Some f1) eu)
                p (mkHEdge b a (Some e) (Some m1) (Some f2) pu)) as (V5 & Hrun & Hk5)
  end.
  1: lk. 1: reflexivity. 1: lk. 1: done.
  1-4: unfold out_of, in_of; mesh_simpl.
  1,3: eapply (lists_kept_out [] V V4); [exact Hk|apply not_elem_of_nil|].
  3,4: eapply (lists_kept_in [] V V4); [exact Hk|apply not_elem_of_nil|].
  1: exact Heo. 1: exact Hpo. 1: exact Hei. 1: exact Hpi.
  rewrite Hrun in Hres. clear Hrun.
  cbv [set_edges set_vertices set_faces] in Hres, Hk5. mesh_simpl.
  subst res. eexists _, r, rp. split; [reflexivity|]. mesh_simpl.
  match goal with |- context [delete e ?M] => set (E' := delete e M) in * end.
  eassert (E' !! r = Some _) as Lr by (subst E'; lk).
  eassert (E' !! rp = Some _) as Lrp by (subst E'; lk).
  eassert (E' !! n1 = Some _) as Ln1 by (subst E'; lk).
  eassert (E' !! n2 = Some _) as Ln2 by (subst E'; lk).
  eassert (E' !! m1 = Some _) as Lm1 by (subst E'; lk).
  eassert (E' !! m2 = Some _) as Lm2 by (subst E'; lk).
  assert (E' !! e = None) as Le by (subst E'; apply lookup_delete_eq).
  assert (E' !! p = None) as Lp
    by (subst E'; rewrite lookup_delete_ne by done; apply lookup_delete_eq).
  assert (∀ x h, E !! x = Some h → x ≠ e → x ≠ p → x ≠ n1 → x ≠ n2 → x ≠ m1 → x ≠ m2 →
            E' !! x = Some h) as Lother.
  { intros x h Hx ? ? ? ? ? ?.
    assert (x ≠ r) by (intros ->; congruence).
    assert (x ≠ rp) by (intros ->; congruence).
    subst E'. rewrite !lookup_delete_ne, !lookup_insert_ne by done. exact Hx. }
  assert (∀ x, is_Some (E' !! x) → x = r ∨ x = rp ∨ is_Some (E !! x)) as Ldom.
  { intros x [h Hx]. subst E'.
    apply lookup_delete_Some in Hx as [_ Hx]. apply lookup_delete_Some in Hx as [_ Hx].
    repeat (apply lookup_insert_Some in Hx as [[<- _]|[_ Hx]]; [eauto|]). eauto. }
  clearbody E'.
  assert (lists_kept [e; p] V4 V5) as K45 by exact Hk5.
  assert (lists_kept [e; p] V3 V5) as K35.
  { eapply lists_kept_trans; [exact Hk4|exact K45|]. intros x Hx. split; [apply not_elem_of_nil|done]. }
  assert (lists_kept [e; p] V2 V5) as K25.
  { eapply lists_kept_trans; [exact Hk3|exact K35|]. intros x Hx. split; [apply not_elem_of_nil|done]. }
  assert (lists_kept [e; p] V1 V5) as K15.
  { eapply lists_kept_trans; [exact Hk2|exact K25|]. intros x Hx. split; [apply not_elem_of_nil|done]. }
  assert (lists_kept [e; p] V V5) as K05.
  { eapply lists_kept_trans; [exact Hk1|exact K15|]. intros x Hx. split; [apply not_elem_of_nil|done]. }
  assert ((r ∉ [e; p]) ∧ (rp ∉ [e; p])) as [Hr_ep Hrp_ep].
  { rewrite !not_elem_of_cons. split_and!; try done; apply not_elem_of_nil. }
  split; [done|]. split; [done|]. split; [done|]. split; [done|].
  split.
  { unfold quad, edge_is, pair_of, out_of, in_of. mesh_simpl.
    split_and!.
    - apply NoDup_6. split_and!; done.
    - eexists. split; [exact Lr|]. done.
    - eexists. split; [exact Lm2|]. done.
    - eexists. split; [exact Ln1|]. done.
    - eexists. split; [exact Lrp|]. done.
    - eexists. split; [exact Ln2|]. done.
    - eexists. split; [exact Lm1|]. done.
    - by rewrite Lr.
    - by rewrite Lrp.
    - eapply lists_kept_out; [exact K15|done|done].
    - eapply lists_kept_in; [exact K25|done|done].
    - eapply lists_kept_out; [exact K35|done|done].
    - eapply lists_kept_in; [exact K45|done|done].
    - eapply lists_kept_live; [exact K45|done].
    - eapply lists_kept_live; [exact K45|done].
    - rewrite !lookup_insert_is_Some'. eauto.
    - rewrite !lookup_insert_is_Some'. eauto. }
  split.
  { unfold edit_frame. mesh_simpl. split_and!; try done.
    - intros x h Hx Hxe. rewrite !not_elem_of_cons in Hxe. destruct Hxe as (? & ? & _).
      destruct (decide (x = n1)) as [->|?].
      { eexists. split; [exact Ln1|]. rewrite Hn1 in Hx. injection Hx as <-.
        split_and!; try done. intros Hy. exfalso. apply Hy. set_solver. }
      destruct (decide (x = n2)) as [->|?].
      { eexists. split; [exact Ln2|]. rewrite Hn2 in Hx. injection Hx as <-.
        split_and!; try done. intros Hy. exfalso. apply Hy. set_solver. }
      destruct (decide (x = m1)) as [->|?].
      { eexists. split; [exact Lm1|]. rewrite Hm1 in Hx. injection Hx as <-.
        split_and!; try done. intros Hy. exfalso. apply Hy. set_solver. }
      destruct (decide (x = m2)) as [->|?].
      { eexists. split; [exact Lm2|]. rewrite Hm2 in Hx. injection Hx as <-.
        split_and!; try done. intros Hy. exfalso. apply Hy. set_solver. }
      exists h. split; [by apply Lother|done].
    - intros g Hg. rewrite !not_elem_of_cons in Hg. destruct Hg as (? & ? & _).
      by rewrite !lookup_insert_ne by done. }
  split; [exact K05|].
  split; [exact Ldom|].
  assert (face_cycle_at
            (mkMesh V5 E' (<[f1:=with_f_normal nc hfc]> (<[f2:=with_f_normal nb hfb]>
               (<[f1:=with_m_edge (Some rp) hf1']> (<[f2:=with_m_edge (Some r) hf2]> F))))
               R mv mf mr gi cr) f1) as Hcyc1.
  { unfold face_cycle_at, is_cycle, next_of, face_of. mesh_simpl.
    rewrite lookup_insert_eq. cbn. rewrite Hmc.
    repeat first [rewrite Lrp | rewrite Ln2 | rewrite Lm1 | progress cbn]. done. }
  split; [exact Hcyc1|].
  destruct Hmb as [[Hmb Hff]|[Hmb <-]]; [|exact Hcyc1].
  unfold face_cycle_at, is_cycle, next_of, face_of. mesh_simpl.
  rewrite lookup_insert_ne, lookup_insert_eq by done. cbn. rewrite Hmb.
  repeat first [rewrite Lr | rewrite Lm2 | rewrite Ln1 | progress cbn]. done.
Qed.

End Flip.

Section FlipTwice.
Context `{G : Geometry}.

(** The quad seen from the other side of its diagonal. *)
Lemma quad_sym s e p n1 n2 m1 m2 a b c d f1 f2 :
  quad s e p n1 n2 m1 m2 a b c d f1 f2 → quad s p e m1 m2 n1 n2 b a d c f2 f1.
Proof.
  unfold quad. rewrite !NoDup_6. intros (Hnd & ?). split; [|naive_solver].
  destruct Hnd as ((?&?&?&?&?) & (?&?&?&?) & (?&?&?) & (?&?) & ?).
  split_and!; done.
Qed.

(** In a well-formed mesh an edge with a face on both sides sits in a quad. *)
Lemma mesh_wf_quad s e he p hp f1 f2 :
  mesh_wf s → edges s !! e = Some he → pair he = Some p → edges s !! p = Some hp →
  face he = Some f1 → face hp = Some f2 →
  ∃ n1 n2 m1 m2 c d,
    quad s e p n1 n2 m1 m2 (start he) (end_ he) c d f1 f2.
Proof.
  intros (Hpair & Hdist & [Hreg Hls] & Hfc & Htri & Hl) He Hp Hhp Hf1 Hf2.
  destruct (pairing_ok_lookup _ _ _ Hpair He) as (p' & hp' & Hp' & Hhp' & Hpe & Hps & Hpt).
  assert (p' = p) as -> by congruence. assert (hp' = hp) as -> by congruence.
  destruct (triangles_ok_lookup _ _ _ _ Htri He Hf1)
    as (Hin1 & n1 & hn1 & n2 & hn2 & Hen & Hn1 & Hn1n & Hn2 & Hn2n & Hn1f & Hn2f
        & S1 & S2 & S3 & D1 & D2 & D3).
  destruct (triangles_ok_lookup _ _ _ _ Htri Hhp Hf2)
    as (Hin2 & m1 & hm1 & m2 & hm2 & Hpn & Hm1 & Hm1n & Hm2 & Hm2n & Hm1f & Hm2f
        & T1 & T2 & T3 & U1 & U2 & U3).
  exists n1, n2, m1, m2, (end_ hn1), (end_ hm1).
  assert (∀ f, f ∈ m_faces s → is_Some (faces s !! f)) as Hlive.
  { intros f Hf. unfold face_cycle_ok in Hfc. rewrite Forall_forall in Hfc.
    specialize (Hfc f Hf). unfold face_cycle_at in Hfc.
    destruct (faces s !! f); [eauto|done]. }
  destruct (Hreg _ _ He) as [Heo Hei]. destruct (Hreg _ _ Hhp) as [Hpo Hpi].
  destruct (Hreg _ _ Hn2) as [Hn2o _]. destruct (Hreg _ _ Hm2) as [Hm2o _].
  unfold quad, edge_is, pair_of. rewrite He, Hhp. cbn.
  split_and!.
  - apply NoDup_6.
    split_and!; intros ->; congruence.
  - eexists. split; [reflexivity|]. split_and!; congruence.
  - eexists. split; [exact Hn1|]. split_and!; congruence.
  - eexists. split; [exact Hn2|]. split_and!; congruence.
  - eexists. split; [reflexivity|]. split_and!; congruence.
  - eexists. split; [exact Hm1|]. split_and!; congruence.
  - eexists. split; [exact Hm2|]. split_and!; congruence.
  - congruence.
  - congruence.
  - done.
  - done.
  - congruence.
  - congruence.
  - rewrite <- S2. eauto using out_of_live.
  - rewrite <- T2. eauto using out_of_live.
  - auto.
  - auto.
Qed.

(** What two edits in a row keep of a half-edge outside both. *)
Lemma edit_frame_edge X Y Fs X' Y' Fs' s s1 s2 y :
  edit_frame X Y Fs s s1 → edit_frame X' Y' Fs' s1 s2 →
  is_Some (edges s !! y) → y ∉ X → y ∉ X' →
  start_of s2 y = start_of s y ∧ end_of s2 y = end_of s y ∧ pair_of s2 y = pair_of s y.
Proof.
  intros (He1 & _) (He2 & _) [h Hy] HX HX'.
  destruct (He1 y h Hy HX) as (h1 & Hy1 & ? & ? & ? & _).
  destruct (He2 y h1 Hy1 HX') as (h2 & Hy2 & ? & ? & ? & _).
  unfold start_of, end_of, pair_of. rewrite Hy, Hy2. cbn.
  split_and!; congruence.
Qed.

(** X14.  In a well-formed mesh, let [e] have a face on both sides.  It
    sits in a quad [a], [c], [b], [d] with the boundary half-edges [n1],
    [n2], [m1], [m2].  [flipEdge e] completes and creates the pair [r],
    [rp] over the other diagonal; flipping either of them completes as
    well and leaves a pair over the original diagonal from [a] to [b]
    with the triangle [n1], [n2] on one side and [m1], [m2] on the
    other: the boundary half-edges keep their endpoints and pairs, the
    vertices their positions, and the vertex and face lists are the
    same (the two faces have traded sides). *)
Theorem flipEdge_twice_restores_quad s e he p hp f1 f2 :
  mesh_wf s → edges s !! e = Some he → pair he = Some p → edges s !! p = Some hp →
  face he = Some f1 → face hp = Some f2 →
  ∃ n1 n2 m1 m2 c d s1 r rp,
    quad s e p n1 n2 m1 m2 (start he) (end_ he) c d f1 f2 ∧
    flipEdge e s = Ok tt s1 ∧
    edges s !! r = None ∧ edges s !! rp = None ∧
    quad s1 r rp m2 n1 n2 m1 c d (end_ he) (start he) f2 f1 ∧
    ∀ x, x = r ∨ x = rp →
      ∃ s2 e' p',
        flipEdge x s1 = Ok tt s2 ∧
        quad s2 e' p' n1 n2 m1 m2 (start he) (end_ he) c d f2 f1 ∧
        (∀ y, y ∈ [n1; n2; m1; m2] →
           start_of s2 y = start_of s y ∧ end_of s2 y = end_of s y ∧
           pair_of s2 y = pair_of s y) ∧
        (∀ v, m_position <$> vertices s2 !! v = m_position <$> vertices s !! v) ∧
        m_vertices s2 = m_vertices s ∧ m_faces s2 = m_faces s.
Proof.
  intros Hwf He Hp Hhp Hf1 Hf2.
  destruct (mesh_wf_quad _ _ _ _ _ _ _ Hwf He Hp Hhp Hf1 Hf2)
    as (n1 & n2 & m1 & m2 & c & d & Hq).
  destruct (flipEdge_quad _ _ _ _ _ _ _ _ _ _ _ _ _ Hq)
    as (s1 & r & rp & Hrun1 & Hr & Hrp & _ & _ & Hq1 & Hfr1 & Hk1 & _).
  exists n1, n2, m1, m2, c, d, s1, r, rp.
  split; [done|]. split; [done|]. split; [done|]. split; [done|]. split; [done|].
  assert (∀ y, y ∈ [n1; n2; m1; m2] →
            is_Some (edges s !! y) ∧ (y ∉ [e; p]) ∧ (y ∉ [r; rp]) ∧ (y ∉ [rp; r])) as Hbd.
  { destruct Hq as (Hnd & _ & (h1 & E1 & _) & (h2 & E2 & _) & _ & (h3 & E3 & _)
                    & (h4 & E4 & _) & _).
    apply NoDup_6 in Hnd as ((?&?&?&?&?) & (?&?&?&?) & _).
    intros y Hy. rewrite !elem_of_cons in Hy. rewrite !not_elem_of_cons.
    destruct Hy as [->|[->|[->|[->|Hy]]]]; [..|by apply elem_of_nil in Hy];
      (split; [eauto|]); split_and!; try done; try apply not_elem_of_nil;
      intros ->; congruence. }
  assert (∀ s2 e' p' y0 y1 Y,
            flipEdge y0 s1 = Ok tt s2 →
            quad s2 e' p' n1 n2 m1 m2 (start he) (end_ he) c d f2 f1 →
            edit_frame [y0; y1] Y [f2; f1] s1 s2 ∨ edit_frame [y0; y1] Y [f1; f2] s1 s2 →
            lists_kept [y0; y1] (vertices s1) (vertices s2) →
            (∀ y, y ∈ [n1; n2; m1; m2] → y ∉ [y0; y1]) →
            ∃ s2 e' p',
              flipEdge y0 s1 = Ok tt s2 ∧
              quad s2 e' p' n1 n2 m1 m2 (start he) (end_ he) c d f2 f1 ∧
              (∀ y, y ∈ [n1; n2; m1; m2] →
                 start_of s2 y = start_of s y ∧ end_of s2 y = end_of s y ∧
                 pair_of s2 y = pair_of s y) ∧
              (∀ v, m_position <$> vertices s2 !! v = m_position <$> vertices s !! v) ∧
              m_vertices s2 = m_vertices s ∧ m_faces s2 = m_faces s) as Hfin.
  { intros s2 e' p' y0 y1 Y Hrun2 Hq2 Hfr2 Hk2 Hout.
    exists s2, e', p'. split; [done|]. split; [done|].
    assert (m_vertices s2 = m_vertices s ∧ m_faces s2 = m_faces s) as [? ?].
    { destruct Hfr1 as (_ & _ & ? & ? & _).
      destruct Hfr2 as [(_ & _ & ? & ? & _)|(_ & _ & ? & ? & _)]; split; congruence. }
    split_and!; try done.
    - intros y Hy. destruct (Hbd y Hy) as (Hlive & Hep & _).
      destruct Hfr2 as [Hfr2|Hfr2]; eapply edit_frame_edge; eauto.
    - intros v. rewrite (lists_kept_position _ _ _ v Hk2).
      apply (lists_kept_position _ _ _ v Hk1). }
  intros x [->| ->].
  - destruct (flipEdge_quad _ _ _ _ _ _ _ _ _ _ _ _ _ Hq1)
      as (s2 & r' & rp' & Hrun2 & _ & _ & _ & _ & Hq2%quad_sym & Hfr2 & Hk2 & _).
    eapply Hfin; eauto. intros y Hy. by destruct (Hbd y Hy) as (_ & _ & ? & _).
  - destruct (flipEdge_quad _ _ _ _ _ _ _ _ _ _ _ _ _ (quad_sym _ _ _ _ _ _ _ _ _ _ _ _ _ Hq1))
      as (s2 & r' & rp' & Hrun2 & _ & _ & _ & _ & Hq2 & Hfr2 & Hk2 & _).
    eapply Hfin; eauto. intros y Hy. by destruct (Hbd y Hy) as (_ & _ & _ & ?).
Qed.

(** The two ways a completed [flipEdge] goes. *)
Lemma flipEdge_cases e s u s' :
  flipEdge e s = Ok u s' →
  ∃ he p hp, edges s !! e = Some he ∧ pair he = Some p ∧ edges s !! p = Some hp ∧
    (((face he = None ∨ face hp = None) ∧ s' = s) ∨
     (∃ f1 f2, face he = Some f1 ∧ face hp = Some f2)).
Proof.
  unfold flipEdge. intros H.
  apply bind_Ok in H as (pf & s0 & H0 & H).
  apply bind_Ok in H0 as (p & s1 & (he & He & Hp & <-)%e_pair_Ok
                          & (hp & Hhp & <- & <-)%e_face_Ok).
  exists he, p, hp. split_and!; try done.
  apply bind_Ok in H as (ef & s1 & H1 & H).
  destruct (face hp) as [f2|] eqn:Ef2.
  - rewrite bool_decide_eq_true_2 in H1 by done.
    apply e_face_Ok in H1 as (he' & He' & <- & <-).
    assert (he' = he) as -> by congruence.
    destruct (face he) as [f1|] eqn:Ef1; [right; eauto|].
    rewrite bool_decide_eq_false_2 in H by (intros [_ ?]; done).
    apply mret_Ok in H as [_ <-]. left. auto.
  - rewrite bool_decide_eq_false_2 in H1 by (intros ?; done).
    apply mret_Ok in H1 as [<- <-].
    rewrite bool_decide_eq_false_2 in H by (intros [? _]; done).
    apply mret_Ok in H as [_ <-]. left. auto.
Qed.

(** A face whose record and half-edges are untouched keeps its cycle. *)
Lemma face_cycle_at_same s s' g :
  face_cycle_at s g → faces s' !! g = faces s !! g →
  (∀ y h, edges s !! y = Some h → face h = Some g → edges s' !! y = Some h) →
  face_cycle_at s' g.
Proof.
  intros Hc Hf Hsame. unfold face_cycle_at in *. rewrite Hf.
  destruct (faces s !! g ≫= m_edge) as [e0|]; [|done].
  assert (∀ y, face_of s y = Some g →
            next_of s' y = next_of s y ∧ face_of s' y = face_of s y) as Hy.
  { intros y Hy. unfold face_of, next_of in *.
    destruct (edges s !! y) as [h|] eqn:E; [|done].
    cbn in Hy. by rewrite (Hsame y h E Hy). }
  destruct (next_of s e0) as [e1|] eqn:N0; [|done].
  destruct (next_of s e1) as [e2|] eqn:N1; [|done].
  destruct Hc as (C0 & C1 & C2 & F0 & F1 & F2).
  destruct (Hy _ F0) as [A0 B0], (Hy _ F1) as [A1 B1], (Hy _ F2) as [A2 B2].
  rewrite A0, N0, A1, N1. unfold is_cycle.
  rewrite A0, A1, A2, B0, B1, B2. done.
Qed.

(** X13.  A completed [flipEdge] on a well-formed mesh keeps the pairing
    and the face-cycle invariants, the face list, the vertex list and the
    position of every vertex. *)
Theorem flipEdge_wf s e u s' :
  mesh_wf s → flipEdge e s = Ok u s' →
  pairing_ok s' ∧ face_cycle_ok s' ∧
  m_faces s' = m_faces s ∧ m_vertices s' = m_vertices s ∧
  ∀ v, m_position <$> vertices s' !! v = m_position <$> vertices s !! v.
Proof.
  intros Hwf Hrun.
  destruct (flipEdge_cases _ _ _ _ Hrun)
    as (he & p & hp & He & Hp & Hhp & [[_ ->]|(f1 & f2 & Hf1 & Hf2)]).
  { destruct Hwf as (? & _ & _ & ? & _). done. }
  destruct (mesh_wf_quad _ _ _ _ _ _ _ Hwf He Hp Hhp Hf1 Hf2)
    as (n1 & n2 & m1 & m2 & c & d & Hq).
  destruct (flipEdge_quad _ _ _ _ _ _ _ _ _ _ _ _ _ Hq)
    as (s1 & r & rp & Hrun1 & Hr & Hrp & Le & Lp & Hq1 & Hfr & Hk & Hdom & Hc1 & Hc2).
  assert (s' = s1) as -> by congruence.
  destruct Hwf as (Hpair & _ & _ & Hfc & _).
  destruct Hfr as (Hfe & Hff & Hmf & Hmv & _).
  split_and!; try done.
  - apply pairing_ok_intro. intros x hx Hx.
    destruct Hq1 as (_ & (hr & Er & ? & ? & _) & _ & _ & (hrp & Erp & ? & ? & _) & _ & _
                     & Prr & Prp & _).
    unfold pair_of in Prr, Prp. rewrite Er in Prr. rewrite Erp in Prp. cbn in Prr, Prp.
    destruct (decide (x = r)) as [->|?].
    { assert (hx = hr) as -> by congruence. exists rp, hrp. split_and!; congruence. }
    destruct (decide (x = rp)) as [->|?].
    { assert (hx = hrp) as -> by congruence. exists r, hr. split_and!; congruence. }
    assert (is_Some (edges s1 !! x)) as Hlive by (by exists hx).
    destruct (Hdom x Hlive) as [?|[?|[h0 Hx0]]]; [done|done|].
    assert (x ∉ [e; p]) as Hxep.
    { rewrite !not_elem_of_cons. split_and!; [congruence|congruence|apply not_elem_of_nil]. }
    destruct (Hfe x h0 Hx0 Hxep) as (hx' & Hx' & ? & ? & ? & _).
    assert (hx' = hx) as -> by congruence.
    destruct (pairing_ok_lookup _ _ _ Hpair Hx0) as (z & hz & Hz & Hhz & Hzx & ? & ?).
    assert (z ∉ [e; p]) as Hzep.
    { rewrite !not_elem_of_cons in Hxep |- *. destruct Hxep as (? & ? & _).
      destruct (pairing_ok_lookup _ _ _ Hpair He) as (? & ? & ? & ? & ? & _).
      split_and!; [|  |apply not_elem_of_nil]; intros ->; congruence. }
    destruct (Hfe z hz Hhz Hzep) as (hz' & Hz' & ? & ? & ? & _).
    exists z, hz'. split_and!; congruence.
  - unfold face_cycle_ok in *. rewrite Forall_forall in Hfc |- *. rewrite Hmf.
    intros g Hg. destruct (decide (g = f1)) as [->|?]; [done|].
    destruct (decide (g = f2)) as [->|?]; [done|].
    apply (face_cycle_at_same s); [by apply Hfc| |].
    + apply Hff. rewrite !not_elem_of_cons. split_and!; [done|done|apply not_elem_of_nil].
    + intros y h Hy Hg'.
      destruct Hq as (_ & (? & E0 & _ & _ & _ & F0) & (? & E1 & _ & _ & _ & F1)
                      & (? & E2 & _ & _ & _ & F2) & (? & E3 & _ & _ & _ & F3)
                      & (? & E4 & _ & _ & _ & F4) & (? & E5 & _ & _ & _ & F5) & _).
      assert ((y ∉ [e; p]) ∧ (y ∉ [n1; n2; m1; m2])) as [Hy1 Hy2].
      { rewrite !not_elem_of_cons. split_and!; try apply not_elem_of_nil;
          intros ->; congruence. }
      destruct (Hfe y h Hy Hy1) as (h' & Hy' & _ & _ & _ & Heq).
      by rewrite (Heq Hy2) in Hy'.
  - intros v. by apply (lists_kept_position _ _ _ v Hk).
Qed.


(** X27.  On a well-formed mesh [flipEdge] returns, without a fault, on
    every live half-edge: with a face missing on a side it returns the
    mesh as it is, with a face on both sides it flips the edge. *)
Theorem flipEdge_total s e :
  mesh_wf s → is_Some (edges s !! e) →
  ∃ s', flipEdge e s = Ok tt s' ∧
        ((face_of s e = None ∨ face_across s e = None) → s' = s).
Proof.
  intros Hwf [he He]. pose proof Hwf as (Hpair & _).
  destruct (pairing_ok_lookup _ _ _ Hpair He) as (p & hp & Hp & Hhp & _).
  assert (face_of s e = face he) as Ef by (unfold face_of; by rewrite He).
  assert (face_across s e = face hp) as Ea.
  { unfold face_across, pair_of, face_of. rewrite He. cbn. rewrite Hp. cbn. by rewrite Hhp. }
  rewrite Ef, Ea.
  destruct (face he) as [f1|] eqn:Ef1; [destruct (face hp) as [f2|] eqn:Ef2|].
  - destruct (mesh_wf_quad _ _ _ _ _ _ _ Hwf He Hp Hhp Ef1 Ef2)
      as (n1 & n2 & m1 & m2 & c & d & Hq).
    destruct (flipEdge_quad _ _ _ _ _ _ _ _ _ _ _ _ _ Hq) as (s1 & r & rp & Hrun & _).
    exists s1. split; [done|]. by intros [?|?].
  - exists s. split; [|done]. unfold flipEdge.
    rewrite run_bind, run_bind, (e_pair_ok _ _ _ _ He Hp), (e_face_ok _ _ _ Hhp).
    rewrite run_bind, Ef2. bd_false. cbn. done.
  - exists s. split; [|done]. unfold flipEdge.
    rewrite run_bind, run_bind, (e_pair_ok _ _ _ _ He Hp), (e_face_ok _ _ _ Hhp).
    rewrite run_bind.
    destruct (face hp) as [fp|] eqn:Efp.
    + bd_true. rewrite (e_face_ok _ _ _ He), Ef1. bd_false. done.
    + bd_false. cbn. done.
Qed.

End FlipTwice.

(** * Builder *)

Section Builder.
Context `{G : Geometry}.

Lemma newE_Ok h e s s' :
  newE h s = Ok e s' ↔ e = fresh_id (edges s) ∧ s' = set_edges (insert e h) s.
Proof.
  unfold newE. split.
  - intros H. minv H. done.
  - intros [-> ->]. reflexivity.
Qed.

Lemma newF_Ok h f s s' :
  newF h s = Ok f s' ↔ f = fresh_id (faces s) ∧ s' = set_faces (insert f h) s.
Proof.
  unfold newF. split.
  - intros H. minv H. done.
  - intros [-> ->]. reflexivity.
Qed.

(** [halfEdgeToVertex] returns the last half-edge of the incoming list
    that runs the other way. *)
Lemma halfEdgeToVertex_Ok v w r s s' :
  halfEdgeToVertex v w s = Ok r s' → s' = s ∧ r = last (opposite_in s v w).
Proof.
  unfold halfEdgeToVertex, opposite_in, in_of. intros H.
  apply bind_Ok in H as (hv & s0 & [Hv <-]%getV_Ok & H). rewrite Hv. cbn.
  assert (∀ l acc, foldM (λ edge cur, hc ← getE cur;
              mret (if decide (end_ hc = v ∧ start hc = w) then Some cur else edge))
            acc l s = Ok r s' →
          s' = s ∧
          r = from_option Some acc
                (last (filter (λ x, end_of s x = Some v ∧ start_of s x = Some w) l)))
    as Hloop.
  { clear. induction l as [|x l IH]; intros acc H.
    - apply mret_Ok in H as [<- <-]. done.
    - cbn in H. apply bind_Ok in H as (acc' & s1 & H1 & H).
      apply bind_Ok in H1 as (hc & s2 & [Hc <-]%getE_Ok & [<- <-]%mret_Ok).
      apply IH in H as [-> ->]. split; [done|].
      rewrite filter_cons.
      assert ((end_of s x = Some v ∧ start_of s x = Some w) ↔
              (end_ hc = v ∧ start hc = w)) as Hiff.
      { unfold end_of, start_of. rewrite Hc. cbn. naive_solver. }
      destruct (decide (end_ hc = v ∧ start hc = w)) as [Hyes|Hno].
      + rewrite decide_True by (by apply Hiff). rewrite last_cons.
        by destruct (last (filter _ l)).
      + rewrite decide_False by (by rewrite Hiff). done. }
  apply Hloop in H as [-> ->]. split; [done|].
  by destruct (last (filter _ (in_ hv))).
Qed.

Lemma push_out_Ok v x u s s' :
  modV v (push_out x) s = Ok u s' →
  ∃ V', s' = set_vertices (λ _, V') s ∧ lists_kept [] (vertices s) V' ∧
        x ∈ default [] (out <$> V' !! v).
Proof.
  intros H. pose proof H as (hv & Hv & _)%modV_Ok.
  destruct (push_out_ok s v x) as (V' & Hrun & ? & ?); [eauto|].
  rewrite Hrun in H. injection H as <-. eauto.
Qed.
Lemma push_in_Ok v x u s s' :
  modV v (push_in x) s = Ok u s' →
  ∃ V', s' = set_vertices (λ _, V') s ∧ lists_kept [] (vertices s) V' ∧
        x ∈ default [] (in_ <$> V' !! v).
Proof.
  intros H. pose proof H as (hv & Hv & _)%modV_Ok.
  destruct (push_in_ok s v x) as (V' & Hrun & ? & ?); [eauto|].
  rewrite Hrun in H. injection H as <-. eauto.
Qed.

Lemma insert_pair_twice (E : gmap nat HEdge) e pr a b c d :
  e ≠ pr →
  <[pr := a]> (<[e := b]> (<[pr := c]> (<[e := d]> E))) = <[pr := a]> (<[e := b]> E).
Proof.
  intros Hne. apply map_eq. intros k.
  destruct (decide (k = pr)) as [->|?].
  { rewrite !lookup_insert_eq. done. }
  rewrite !(lookup_insert_ne _ pr) by congruence.
  destruct (decide (k = e)) as [->|?].
  { rewrite !lookup_insert_eq. done. }
  rewrite !lookup_insert_ne by congruence. done.
Qed.

(** Registering a new pair with its two vertices. *)
Lemma register_pair_Ok cur nxt e pr s s1 s2 s3 s4 u1 u2 u3 u4 :
  modV cur (push_out e) s = Ok u1 s1 → modV nxt (push_in e) s1 = Ok u2 s2 →
  modV cur (push_in pr) s2 = Ok u3 s3 → modV nxt (push_out pr) s3 = Ok u4 s4 →
  ∃ V', s4 = set_vertices (λ _, V') s ∧ lists_kept [] (vertices s) V' ∧
        e ∈ default [] (out <$> V' !! cur) ∧ e ∈ default [] (in_ <$> V' !! nxt) ∧
        pr ∈ default [] (in_ <$> V' !! cur) ∧ pr ∈ default [] (out <$> V' !! nxt).
Proof.
  intros (V1 & -> & K1 & M1)%push_out_Ok (V2 & -> & K2 & M2)%push_in_Ok
         (V3 & -> & K3 & M3)%push_in_Ok (V4 & -> & K4 & M4)%push_out_Ok.
  cbn in *. exists V4. split; [done|].
  assert (lists_kept [] V3 V4) as K34 by done.
  assert (lists_kept [] V2 V4) as K24 by (eapply lists_kept_trans; eauto).
  assert (lists_kept [] V1 V4) as K14 by (eapply lists_kept_trans; eauto).
  split; [eapply lists_kept_trans; eauto|].
  split_and!.
  - eapply lists_kept_out; [exact K14|apply not_elem_of_nil|done].
  - eapply lists_kept_in; [exact K24|apply not_elem_of_nil|done].
  - eapply lists_kept_in; [exact K34|apply not_elem_of_nil|done].
  - done.
Qed.

(** One edge step of [addTriangle]. *)
Lemma addTriangle_edge_Ok f cur nxt e s s' :
  addTriangle_edge f cur nxt s = Ok e s' → triangle_edge_step s s' f cur nxt e.
Proof.
  unfold addTriangle_edge, triangle_edge_step. intros H.
  apply bind_Ok in H as (r & s0 & [-> ->]%halfEdgeToVertex_Ok & H).
  destruct (last (opposite_in s cur nxt)) as [x|].
  - apply bind_Ok in H as (e' & s0 & (hx & Hx & Hp & <-)%e_pair_Ok & H).
    apply bind_Ok in H as (u & s1 & (he & He & ->)%modE_Ok & [<- <-]%mret_Ok).
    split; [unfold pair_of; by rewrite Hx|]. eauto.
  - apply bind_Ok in H as (e' & s1 & [-> ->]%newE_Ok & H).
    apply bind_Ok in H as (pr & s2 & [-> ->]%newE_Ok & H).
    pose proof (fresh_id_None (edges s)) as Hfe.
    set (e' := fresh_id (edges s)) in *. clearbody e'.
    match type of H with context [fresh_id ?M] =>
      pose proof (fresh_id_None M) as Hfp; set (pr := fresh_id M) in *; clearbody pr end.
    cbn in Hfp. apply lookup_insert_None in Hfp as [Hfp Hne].
    apply bind_Ok in H as (u1 & s3 & (h1 & Hh1 & ->)%modE_Ok & H).
    apply bind_Ok in H as (u2 & s4 & (h2 & Hh2 & ->)%modE_Ok & H).
    apply bind_Ok in H as (u3 & s5 & M1 & H).
    apply bind_Ok in H as (u4 & s6 & M2 & H).
    apply bind_Ok in H as (u5 & s7 & M3 & H).
    apply bind_Ok in H as (u6 & s8 & M4 & [<- <-]%mret_Ok).
    destruct (register_pair_Ok _ _ _ _ _ _ _ _ _ _ _ _ _ M1 M2 M3 M4)
      as (V' & -> & K & ? & ? & ? & ?).
    cbn in Hh1, Hh2. rewrite lookup_insert_ne, lookup_insert_eq in Hh1 by congruence.
    rewrite lookup_insert_ne, lookup_insert_eq in Hh2 by congruence.
    injection Hh1 as <-. injection Hh2 as <-.
    exists pr. unfold fresh_pair, out_of, in_of. cbn.
    split_and!; try done.
    apply insert_pair_twice. done.
Qed.

(** One edge lookup of [addFace]. *)
Lemma addFace_edge_Ok cur nxt e s s' :
  addFace_edge cur nxt s = Ok e s' → face_edge_step s s' cur nxt e.
Proof.
  unfold addFace_edge, face_edge_step. intros H.
  apply bind_Ok in H as (r & s0 & [-> ->]%halfEdgeToVertex_Ok & H).
  destruct (last (opposite_in s cur nxt)) as [x|].
  - apply bind_Ok in H as (fc & s0 & (hx & Hx & <- & <-)%e_face_Ok & H).
    unfold face_of, pair_of. rewrite Hx. cbn.
    destruct (face hx) as [g|].
    + apply e_pair_Ok in H as (hx' & Hx' & Hp & <-).
      split; [done|]. right. split; [done|]. congruence.
    + apply mret_Ok in H as [<- <-]. split; [done|]. left. done.
  - apply bind_Ok in H as (e' & s1 & [-> ->]%newE_Ok & H).
    apply bind_Ok in H as (pr & s2 & [-> ->]%newE_Ok & H).
    pose proof (fresh_id_None (edges s)) as Hfe.
    set (e' := fresh_id (edges s)) in *. clearbody e'.
    match type of H with context [fresh_id ?M] =>
      pose proof (fresh_id_None M) as Hfp; set (pr := fresh_id M) in *; clearbody pr end.
    cbn in Hfp. apply lookup_insert_None in Hfp as [Hfp Hne].
    apply bind_Ok in H as (u3 & s5 & M1 & H).
    apply bind_Ok in H as (u4 & s6 & M2 & H).
    apply bind_Ok in H as (u5 & s7 & M3 & H).
    apply bind_Ok in H as (u6 & s8 & M4 & H).
    destruct (register_pair_Ok _ _ _ _ _ _ _ _ _ _ _ _ _ M1 M2 M3 M4)
      as (V' & -> & K & ? & ? & ? & ?).
    apply bind_Ok in H as (u1 & s3 & (h1 & Hh1 & ->)%modE_Ok & H).
    apply bind_Ok in H as (u2 & s4 & (h2 & Hh2 & ->)%modE_Ok & [<- <-]%mret_Ok).
    cbn in Hh1, Hh2. rewrite lookup_insert_ne, lookup_insert_eq in Hh1 by congruence.
    rewrite lookup_insert_ne, lookup_insert_eq in Hh2 by congruence.
    injection Hh1 as <-. injection Hh2 as <-.
    exists pr. unfold fresh_pair, out_of, in_of. cbn.
    split_and!; try done.
    apply insert_pair_twice. done.
Qed.

End Builder.

(** * Operations that keep the pairing invariant *)

#[global] Hint Resolve read_only_nonnull read_only_gets read_only_ret : readers.

Section EdgesOnly.
Context `{G : Geometry}.
Context (P : HalfEdgeMesh → Prop) (HP : edges_only P).

Lemma preserves_edges_same {A} (c : MeshM A) :
  (∀ s a s', c s = Ok a s' → edges s' = edges s) → preserves P c.
Proof. intros Hc s a s' Hs Hrun. eapply HP; [|exact Hs]. eauto. Qed.

Lemma preserves_modV v f : preserves P (modV v f).
Proof. apply preserves_edges_same. by intros s a s' (h & _ & ->)%modV_Ok. Qed.
Lemma preserves_modF x f : preserves P (modF x f).
Proof. apply preserves_edges_same. by intros s a s' (h & _ & ->)%modF_Ok. Qed.
Lemma preserves_modR x f : preserves P (modR x f).
Proof. apply preserves_edges_same. by intros s a s' (h & _ & ->)%modR_Ok. Qed.
Lemma preserves_newF h : preserves P (newF h).
Proof. apply preserves_edges_same. by intros s a s' [_ ->]%newF_Ok. Qed.
Lemma preserves_set_vertices f : preserves P (modify (set_vertices f)).
Proof. apply preserves_edges_same. by intros s a s' ->%modify_Ok. Qed.
Lemma preserves_set_faces f : preserves P (modify (set_faces f)).
Proof. apply preserves_edges_same. by intros s a s' ->%modify_Ok. Qed.
Lemma preserves_set_regions f : preserves P (modify (set_regions f)).
Proof. apply preserves_edges_same. by intros s a s' ->%modify_Ok. Qed.
Lemma preserves_set_m_vertices f : preserves P (modify (set_m_vertices f)).
Proof. apply preserves_edges_same. by intros s a s' ->%modify_Ok. Qed.
Lemma preserves_set_m_faces f : preserves P (modify (set_m_faces f)).
Proof. apply preserves_edges_same. by intros s a s' ->%modify_Ok. Qed.
Lemma preserves_set_m_globalIndex f : preserves P (modify (set_m_globalIndex f)).
Proof. apply preserves_edges_same. by intros s a s' ->%modify_Ok. Qed.

End EdgesOnly.

#[global] Hint Resolve preserves_modV preserves_modF preserves_modR preserves_newF
  preserves_set_vertices preserves_set_faces preserves_set_regions
  preserves_set_m_vertices preserves_set_m_faces preserves_set_m_globalIndex : pres.

Section LinksOnly.
Context `{G : Geometry}.
Context (P : HalfEdgeMesh → Prop) (HP : edges_only P) (HL : links_only P).

Lemma preserves_with_next e n : preserves P (modE e (with_next n)).
Proof. intros s a s' Hs (h & He & ->)%modE_Ok. by apply (HL _ _ _ _ He). Qed.
Lemma preserves_with_face e n : preserves P (modE e (with_face n)).
Proof. intros s a s' Hs (h & He & ->)%modE_Ok. by apply (HL _ _ _ _ He). Qed.
Lemma preserves_with_used e n : preserves P (modE e (with_used n)).
Proof. intros s a s' Hs (h & He & ->)%modE_Ok. by apply (HL _ _ _ _ He). Qed.

Lemma preserves_calc_normal f : preserves P (calc_normal f).
Proof. unfold calc_normal. preserves. Qed.
Lemma preserves_region_addFace r f : preserves P (region_addFace r f).
Proof. unfold region_addFace. preserves. Qed.
Lemma preserves_erase_out v e : preserves P (erase_out v e).
Proof. unfold erase_out. preserves. Qed.
Lemma preserves_erase_in v e : preserves P (erase_in v e).
Proof. unfold erase_in. preserves. Qed.
Lemma preserves_deleteVertex v : preserves P (deleteVertex v).
Proof. unfold deleteVertex, freeV. preserves. Qed.
Lemma preserves_delete_if_isolated v : preserves P (delete_if_isolated v).
Proof. unfold delete_if_isolated. preserves_with ltac:(apply preserves_deleteVertex). Qed.
Lemma preserves_erase_face f : preserves P (erase_face f).
Proof. unfold erase_face, freeF. preserves. Qed.
Lemma preserves_new_face : preserves P new_face.
Proof. unfold new_face. preserves. Qed.
Lemma preserves_addVertex v : preserves P (addVertex v).
Proof.
  unfold addVertex, newV. preserves.
Qed.
Lemma preserves_addNormal n : preserves P (addNormal n).
Proof. unfold addNormal. preserves. Qed.

End LinksOnly.

#[global] Hint Resolve preserves_with_next preserves_with_face preserves_with_used
  preserves_calc_normal preserves_region_addFace preserves_erase_out preserves_erase_in
  preserves_deleteVertex preserves_delete_if_isolated preserves_erase_face
  preserves_new_face preserves_addVertex preserves_addNormal : pres.

Section PairingKept.
Context `{G : Geometry}.

Lemma edges_only_pairing : edges_only pairing_ok.
Proof. intros s s' He. unfold pairing_ok. by rewrite He. Qed.

Lemma links_only_pairing : links_only pairing_ok.
Proof.
  intros s e h h' He Hs Ht Hp Hok. apply pairing_ok_intro. intros x hx Hx. cbn in Hx.
  assert (∃ hx0, edges s !! x = Some hx0 ∧ start hx = start hx0 ∧ end_ hx = end_ hx0 ∧
                 pair hx = pair hx0) as (hx0 & Hx0 & S0 & T0 & P0).
  { destruct (decide (x = e)) as [->|?].
    - rewrite lookup_insert_eq in Hx. injection Hx as <-. eauto.
    - rewrite lookup_insert_ne in Hx by done. eauto. }
  destruct (pairing_ok_lookup _ _ _ Hok Hx0) as (p & hp & Hpp & Hhp & Hpx & S1 & T1).
  cbn. destruct (decide (p = e)) as [->|?].
  - exists e, h'. rewrite lookup_insert_eq. assert (hp = h) as -> by congruence.
    split_and!; congruence.
  - exists p, hp. rewrite lookup_insert_ne by done. split_and!; congruence.
Qed.

End PairingKept.

#[global] Hint Resolve edges_only_pairing links_only_pairing : pres.

Section PairingOps.
Context `{G : Geometry}.

Lemma fresh_pair_pairing s s' cur nxt fc e pr :
  fresh_pair s s' cur nxt fc e pr → pairing_ok s → pairing_ok s'.
Proof.
  intros (He & Hpr & Hne & Hs' & _) Hok. apply pairing_ok_intro. intros x hx Hx.
  rewrite Hs' in Hx |- *.
  destruct (decide (x = pr)) as [->|Hxp].
  { rewrite lookup_insert_eq in Hx. injection Hx as <-.
    eexists e, _. rewrite lookup_insert_ne, lookup_insert_eq by done. done. }
  rewrite lookup_insert_ne in Hx by done.
  destruct (decide (x = e)) as [->|Hxe].
  { rewrite lookup_insert_eq in Hx. injection Hx as <-.
    eexists pr, _. rewrite lookup_insert_eq. done. }
  rewrite lookup_insert_ne in Hx by done.
  destruct (pairing_ok_lookup _ _ _ Hok Hx) as (p & hp & ? & Hp & ? & ? & ?).
  exists p, hp. rewrite !lookup_insert_ne by congruence. done.
Qed.

Lemma preserves_pairing_addTriangle_edge f cur nxt :
  preserves pairing_ok (addTriangle_edge f cur nxt).
Proof.
  intros s e s' Hok Hrun%addTriangle_edge_Ok. unfold triangle_edge_step in Hrun.
  destruct (last (opposite_in s cur nxt)).
  - destruct Hrun as (_ & he & He & ->). by apply (links_only_pairing _ _ _ _ He).
  - destruct Hrun as (pr & Hfresh). by eapply fresh_pair_pairing.
Qed.

Lemma preserves_pairing_addFace_edge cur nxt :
  preserves pairing_ok (addFace_edge cur nxt).
Proof.
  intros s e s' Hok Hrun%addFace_edge_Ok. unfold face_edge_step in Hrun.
  destruct (last (opposite_in s cur nxt)).
  - by destruct Hrun as (-> & _).
  - destruct Hrun as (pr & Hfresh). by eapply fresh_pair_pairing.
Qed.

Lemma read_only_out_or_pair e x : read_only (out_or_pair e x).
Proof. unfold out_or_pair. read_only; auto with readers. Qed.
Lemma read_only_vertex_at i : read_only (vertex_at i).
Proof. unfold vertex_at. read_only. Qed.

Lemma preserves_pairing_addTriangle a b c : preserves pairing_ok (addTriangle a b c).
Proof.
  unfold addTriangle.
  preserves_with ltac:(first [ apply preserves_pairing_addTriangle_edge
                             | apply preserves_read_only, read_only_vertex_at ]).
Qed.

Lemma preserves_pairing_addFace v1 v2 v3 : preserves pairing_ok (addFace v1 v2 v3).
Proof.
  unfold addFace.
  preserves_with ltac:(first [ apply preserves_pairing_addFace_edge
                             | apply preserves_read_only, read_only_out_or_pair ]).
Qed.

Lemma preserves_pairing_deleteEdge e : preserves pairing_ok (deleteEdge e true).
Proof.
  intros s u s' Hok (hx & p & hp & Hx & Hp & Hhp & Hs' & _)%deleteEdge_true_Ok.
  destruct (pairing_ok_lookup _ _ _ Hok Hx) as (p' & hp' & ? & ? & Hpe & _).
  assert (p' = p) as -> by congruence. assert (hp' = hp) as -> by congruence.
  apply pairing_ok_intro. intros y hy Hy. rewrite Hs' in Hy |- *.
  apply lookup_delete_Some in Hy as [Hye Hy]. apply lookup_delete_Some in Hy as [Hyp Hy].
  destruct (pairing_ok_lookup _ _ _ Hok Hy) as (z & hz & Hz & Hhz & Hzy & ? & ?).
  exists z, hz. rewrite !lookup_delete_ne by congruence. done.
Qed.

Lemma preserves_pairing_deleteFace f : preserves pairing_ok (deleteFace f).
Proof.
  unfold deleteFace.
  preserves_with ltac:(apply preserves_pairing_deleteEdge).
Qed.

End PairingOps.

(** * One physical pair per shared edge *)

Section StoresOnly.
Context `{G : Geometry}.
Context (P : HalfEdgeMesh → Prop) (HP : stores_only P) (HL : links_only P).

Lemma preserves_stores_same {A} (c : MeshM A) :
  (∀ s a s', c s = Ok a s' → edges s' = edges s ∧ vertices s' = vertices s) →
  preserves P c.
Proof. intros Hc s a s' Hs Hrun. destruct (Hc _ _ _ Hrun). by eapply HP. Qed.

Lemma stores_modF x f : preserves P (modF x f).
Proof. apply preserves_stores_same. by intros s a s' (h & _ & ->)%modF_Ok. Qed.
Lemma stores_new_face : preserves P new_face.
Proof. apply preserves_stores_same. by intros s a s' [_ ->]%newF_Ok. Qed.
Lemma stores_set_m_faces f : preserves P (modify (set_m_faces f)).
Proof. apply preserves_stores_same. by intros s a s' ->%modify_Ok. Qed.
Lemma stores_with_next e n : preserves P (modE e (with_next n)).
Proof. intros s a s' Hs (h & He & ->)%modE_Ok. by apply (HL _ _ _ _ He). Qed.
Lemma stores_calc_normal f : preserves P (calc_normal f).
Proof.
  unfold calc_normal. preserves_with ltac:(apply stores_modF).
Qed.

(** The part of [addTriangle] after its three edge steps. *)
Lemma stores_addTriangle a b c :
  (∀ f cur nxt, preserves P (addTriangle_edge f cur nxt)) →
  preserves P (addTriangle a b c).
Proof.
  intros Hstep. unfold addTriangle, vertex_at.
  preserves_with ltac:(first [ apply Hstep | apply stores_modF | apply stores_new_face
                             | apply stores_set_m_faces | apply stores_with_next
                             | apply stores_calc_normal
                             | apply preserves_read_only, read_only_nonnull
                             | apply preserves_read_only, read_only_gets ]).
Qed.

End StoresOnly.

Section SinglePair.
Context `{G : Geometry}.

Lemma opposite_in_elem s v w x :
  x ∈ opposite_in s v w ↔
  x ∈ in_of s v ∧ end_of s x = Some v ∧ start_of s x = Some w.
Proof. unfold opposite_in. rewrite list_elem_of_filter. naive_solver. Qed.

Lemma single_pair_stores u v e pr : stores_only (λ s, single_pair s u v e pr).
Proof.
  intros s s' He Hv. unfold single_pair, in_of. rewrite He, Hv. done.
Qed.

Lemma single_pair_links u v e pr : links_only (λ s, single_pair s u v e pr).
Proof.
  intros s x h h' Hx Hs Ht Hp (Hne & (he & He & ? & ? & ?) & (hp & Hhp & ? & ? & ?)
                               & Hin1 & Hin2 & Hall).
  assert (∀ y hy, edges s !! y = Some hy →
            ∃ hy', <[x := h']> (edges s) !! y = Some hy' ∧ start hy' = start hy ∧
                   end_ hy' = end_ hy ∧ pair hy' = pair hy) as Hkeep.
  { intros y hy Hy. destruct (decide (y = x)) as [->|?].
    - rewrite lookup_insert_eq. assert (hy = h) as -> by congruence. eauto.
    - rewrite lookup_insert_ne by done. eauto. }
  unfold single_pair. cbn. split; [done|].
  destruct (Hkeep _ _ He) as (he' & ? & ? & ? & ?).
  destruct (Hkeep _ _ Hhp) as (hp' & ? & ? & ? & ?).
  split; [exists he'; split_and!; congruence|].
  split; [exists hp'; split_and!; congruence|].
  split; [done|]. split; [done|].
  intros y hy Hy Hj. destruct (decide (y = x)) as [->|?].
  - rewrite lookup_insert_eq in Hy. injection Hy as <-.
    apply (Hall x h Hx). unfold joins in *. by rewrite <- Hs, <- Ht.
  - rewrite lookup_insert_ne in Hy by done. by apply (Hall y hy).
Qed.

Lemma single_pair_found s u v e pr :
  single_pair s u v e pr →
  last (opposite_in s u v) ≠ None ∧ last (opposite_in s v u) ≠ None.
Proof.
  intros (Hne & (he & He & ? & ? & ?) & (hp & Hhp & ? & ? & ?) & Hin1 & Hin2 & _).
  rewrite !last_None. split; intros Hnil.
  - assert (pr ∈ opposite_in s u v) as Hin; [|rewrite Hnil in Hin; by apply elem_of_nil in Hin].
    apply opposite_in_elem. unfold end_of, start_of. rewrite Hhp. cbn.
    split_and!; [done|congruence|congruence].
  - assert (e ∈ opposite_in s v u) as Hin; [|rewrite Hnil in Hin; by apply elem_of_nil in Hin].
    apply opposite_in_elem. unfold end_of, start_of. rewrite He. cbn.
    split_and!; [done|congruence|congruence].
Qed.

(** A fresh pair between two vertices that no half-edge joins is the
    single pair between them. *)
Lemma fresh_pair_single s s' cur nxt fc e pr :
  fresh_pair s s' cur nxt fc e pr →
  (∀ x hx, edges s !! x = Some hx → ¬ joins hx cur nxt) →
  single_pair s' cur nxt e pr.
Proof.
  intros (He & Hpr & Hne & Hs' & _ & Hi1 & Hi2 & _) Hno.
  unfold single_pair. rewrite Hs'. split; [done|].
  split; [eexists; rewrite lookup_insert_ne, lookup_insert_eq by done; done|].
  split; [eexists; rewrite lookup_insert_eq; done|].
  split; [done|]. split; [done|].
  intros x hx Hx Hj.
  destruct (decide (x = pr)) as [->|?]; [by right|].
  destruct (decide (x = e)) as [->|?]; [by left|].
  rewrite !lookup_insert_ne in Hx by done. by destruct (Hno x hx Hx).
Qed.

(** A fresh pair elsewhere leaves the single pair between [u] and [v]. *)
Lemma fresh_pair_keeps_single s s' cur nxt fc e' pr' u v e pr :
  fresh_pair s s' cur nxt fc e' pr' → ¬ joins (mkHEdge cur nxt None None None false) u v →
  single_pair s u v e pr → single_pair s' u v e pr.
Proof.
  intros (He' & Hpr' & Hne' & Hs' & _ & _ & _ & _ & Hk & _) Hnj
         (Hne & (he & He & ? & ? & ?) & (hp & Hhp & ? & ? & ?) & Hin1 & Hin2 & Hall).
  unfold single_pair. rewrite Hs'. split; [done|].
  split; [exists he; rewrite !lookup_insert_ne by congruence; done|].
  split; [exists hp; rewrite !lookup_insert_ne by congruence; done|].
  split; [by eapply (lists_kept_in [] _ _ v e Hk); [apply not_elem_of_nil|]|].
  split; [by eapply (lists_kept_in [] _ _ u pr Hk); [apply not_elem_of_nil|]|].
  intros x hx Hx Hj.
  destruct (decide (x = pr')) as [->|?].
  { rewrite lookup_insert_eq in Hx. injection Hx as <-. exfalso. apply Hnj.
    unfold joins in *. cbn in *. naive_solver. }
  rewrite lookup_insert_ne in Hx by done.
  destruct (decide (x = e')) as [->|?].
  { rewrite lookup_insert_eq in Hx. injection Hx as <-. exfalso. apply Hnj.
    unfold joins in *. cbn in *. naive_solver. }
  rewrite lookup_insert_ne in Hx by done. by apply (Hall x hx).
Qed.

Lemma single_pair_edge_step u v e pr f cur nxt :
  preserves (λ s, single_pair s u v e pr) (addTriangle_edge f cur nxt).
Proof.
  intros s e' s' Hsp Hrun%addTriangle_edge_Ok. unfold triangle_edge_step in Hrun.
  destruct (last (opposite_in s cur nxt)) as [x|] eqn:Hlast.
  - destruct Hrun as (_ & he & He & ->). by apply (single_pair_links _ _ _ _ _ _ _ _ He).
  - destruct Hrun as (pr' & Hfresh). eapply fresh_pair_keeps_single; [done| |done].
    destruct (single_pair_found _ _ _ _ _ Hsp) as [F1 F2].
    unfold joins. cbn. intros [[-> ->]|[-> ->]]; congruence.
Qed.

Lemma single_pair_addTriangle u v e pr a b c :
  preserves (λ s, single_pair s u v e pr) (addTriangle a b c).
Proof.
  apply stores_addTriangle.
  - apply single_pair_stores.
  - apply single_pair_links.
  - intros. apply single_pair_edge_step.
Qed.

(** X8.  A triangle added over two vertices that no half-edge joins yet
    creates one pair of half-edges between them, and any triangle added
    later reuses that pair instead of creating a second one: the pair
    stays the only one between the two vertices. *)
Theorem addTriangle_single_pair s0 a b c va vb u s1 :
  m_vertices s0 !! a = Some va → m_vertices s0 !! b = Some vb →
  (∀ x hx, edges s0 !! x = Some hx → ¬ joins hx va vb) →
  addTriangle a b c s0 = Ok u s1 →
  ∃ e pr, single_pair s1 va vb e pr ∧
          ∀ a' b' c' u' s2, addTriangle a' b' c' s1 = Ok u' s2 →
                            single_pair s2 va vb e pr.
Proof.
  intros Ha Hb Hno Hrun. unfold addTriangle in Hrun.
  apply bind_Ok in Hrun as (f & s & [_ ->]%newF_Ok & Hrun).
  apply bind_Ok in Hrun as (va' & s & Hva & Hrun).
  unfold vertex_at in Hva. minv Hva. cbn in Hva.
  apply bind_Ok in Hrun as (vb' & s & Hvb & Hrun).
  unfold vertex_at in Hvb. minv Hvb. cbn in Hvb.
  assert (va' = va) as -> by congruence. assert (vb' = vb) as -> by congruence.
  apply bind_Ok in Hrun as (e0 & s & Hstep%addTriangle_edge_Ok & Hrun).
  unfold triangle_edge_step in Hstep.
  assert (∀ S, edges S = edges s0 → opposite_in S va vb = []) as Hnil.
  { intros S HS. destruct (opposite_in S va vb) as [|x l] eqn:E; [done|]. exfalso.
    assert (x ∈ opposite_in S va vb) as Hin by (rewrite E; left).
    apply opposite_in_elem in Hin as (_ & Hx1 & Hx2).
    unfold end_of, start_of in *. rewrite HS in *.
    destruct (edges s0 !! x) as [hx|] eqn:Hx; [|done]. cbn in *.
    apply (Hno x hx Hx). right. split; congruence. }
  rewrite Hnil in Hstep by done. cbn in Hstep. destruct Hstep as (pr & Hfresh).
  exists e0, pr.
  assert (single_pair s va vb e0 pr) as Hsp.
  { eapply fresh_pair_single; [exact Hfresh|]. exact Hno. }
  split.
  - revert Hsp Hrun.
    match goal with |- _ → ?c s = Ok u s1 → _ =>
      assert (preserves (λ s, single_pair s va vb e0 pr) c) as Hp end.
    { unfold vertex_at.
      preserves_with ltac:(first
        [ apply single_pair_edge_step
        | apply stores_modF, single_pair_stores
        | apply stores_set_m_faces, single_pair_stores
        | apply stores_with_next, single_pair_links
        | apply stores_calc_normal, single_pair_stores
        | apply preserves_read_only, read_only_nonnull
        | apply preserves_read_only, read_only_gets ]). }
    intros Hsp Hrun. exact (Hp _ _ _ Hsp Hrun).
  - intros a' b' c' u' s2 Hrun2. eapply single_pair_addTriangle; [|exact Hrun2].
    revert Hsp Hrun.
    match goal with |- _ → ?c s = Ok u s1 → _ =>
      assert (preserves (λ s, single_pair s va vb e0 pr) c) as Hp end.
    { unfold vertex_at.
      preserves_with ltac:(first
        [ apply single_pair_edge_step
        | apply stores_modF, single_pair_stores
        | apply stores_set_m_faces, single_pair_stores
        | apply stores_with_next, single_pair_links
        | apply stores_calc_normal, single_pair_stores
        | apply preserves_read_only, read_only_nonnull
        | apply preserves_read_only, read_only_gets ]). }
    intros Hsp Hrun. exact (Hp _ _ _ Hsp Hrun).
Qed.

End SinglePair.

(** * Region growing without a threshold *)

Section PlainGrowing.
Context `{G : Geometry}.

Lemma regionGrowing_grows fuel : ∀ sf r s n s',
  regionGrowing fuel sf r s = Ok n s' →
  ∃ added,
    s' = grow_state r (sf :: added) s ∧
    n = Z.of_nat (length added) ∧
    NoDup (sf :: added) ∧
    ∀ g, g ∈ added → ∃ hg, faces s !! g = Some hg ∧ m_used hg = false.
Proof.
  induction fuel as [|fuel IH]; intros sf r s n s' Hrun; [done|].
  cbn [regionGrowing] in Hrun.
  apply bind_Ok in Hrun as (u & s1 & H1 & Hrun).
  apply bind_Ok in Hrun as (u' & s2 & H2 & Hrun).
  assert (s2 = grow_state r [sf] s) as ->.
  { eapply grow_seed. apply bind_Ok. eauto. }
  clear H1 H2. revert Hrun.
  apply (foldM_inv (λ cnt sc, ∃ added,
    sc = grow_state r (sf :: added) s ∧ cnt = Z.of_nat (length added) ∧
    NoDup (sf :: added) ∧
    ∀ g, g ∈ added → ∃ hg, faces s !! g = Some hg ∧ m_used hg = false)).
  2:{ exists []. split; [done|]. split; [done|]. split; [|by intros ? ?%elem_of_nil].
      apply NoDup_singleton. }
  intros cnt k sc cnt' sn _ (added & -> & -> & Hnd & Hadm) Hstep.
  apply bind_Ok in Hstep as (pf & s3 & Hpf & Hstep).
  assert (s3 = grow_state r (sf :: added) s) as ->.
  { revert Hpf. apply read_only_bind; [|auto with readers].
    apply read_only_bind; auto with readers. }
  destruct pf as [g|]; [|minv Hstep; eauto].
  apply bind_Ok in Hstep as (hg & s4 & [Hg <-]%getF_Ok & Hstep).
  destruct (m_used hg) eqn:Hused; [minv Hstep; eauto|].
  apply bind_Ok in Hstep as (rc & s4 & Hrec & Hstep). minv Hstep.
  apply IH in Hrec as (added' & -> & -> & Hnd' & Hadm').
  destruct (grow_state_used _ _ _ _ _ Hg Hused) as [HgL Hgs].
  exists (added ++ g :: added'). split; [|split; [|split]].
  - by rewrite grow_state_app.
  - rewrite length_app. cbn. lia.
  - rewrite app_comm_cons. apply NoDup_app. split; [done|]. split; [|done].
    intros x Hx [->|Hx']%elem_of_cons; [done|].
    destruct (Hadm' _ Hx') as (hx & Hhx & Hux).
    by destruct (grow_state_used _ _ _ _ _ Hhx Hux).
  - intros x [Hx|[->|Hx]%elem_of_cons]%elem_of_app; [by apply Hadm|by exists hg|].
    destruct (Hadm' _ Hx) as (hx & Hhx & Hux).
    destruct (grow_state_used _ _ _ _ _ Hhx Hux) as [_ ?]. by exists hx.
Qed.

Lemma regionGrowing_fuel fuel : ∀ sf r s,
  size (unvisited s ∖ {[sf]}) < fuel →
  regionGrowing fuel sf r s ≠ OutOfFuel.
Proof.
  induction fuel as [|fuel IH]; intros sf r s Hsz; [lia|].
  cbn [regionGrowing]. rewrite run_bind.
  destruct (modF sf (with_m_used true) s) as [u s1| |] eqn:H1; [|done|].
  2:{ by apply fuel_free_modF in H1. }
  rewrite run_bind.
  destruct (region_addFace r sf s1) as [u' s2| |] eqn:H2; [|done|].
  2:{ by apply fuel_free_region_addFace in H2. }
  assert (s2 = grow_state r [sf] s) as ->.
  { eapply grow_seed. apply bind_Ok. eauto. }
  apply (foldM_fuel (λ _ sc, unvisited sc ⊆ unvisited s ∖ {[sf]})).
  - intros cnt k sc Hsub. rewrite run_bind.
    assert (fuel_free ((face_edge sf k ≫= e_pair) ≫= e_face)) as Hff
      by (fuel_free; auto with fuel).
    destruct (_ ≫= e_face) as [pf s3| |] eqn:Hpf; [|done|by apply Hff in Hpf].
    assert (s3 = sc) as ->.
    { revert Hpf. apply read_only_bind; [|auto with readers].
      apply read_only_bind; auto with readers. }
    destruct pf as [g|]; [|done].
    rewrite run_bind.
    destruct (getF g sc) as [hg s4| |] eqn:Hg; [|done|by apply fuel_free_getF in Hg].
    apply getF_Ok in Hg as [Hg <-].
    destruct (m_used hg) eqn:Hu; [done|].
    rewrite run_bind.
    destruct (regionGrowing fuel g r sc) as [rc s5| |] eqn:Hrec; [done|done|].
    exfalso. revert Hrec. apply IH.
    assert (g ∈ unvisited sc) as Hgin by (apply elem_of_unvisited; eauto).
    apply subseteq_size in Hsub.
    assert (size (unvisited sc) = size (unvisited sc ∖ {[g]}) + 1).
    { rewrite (union_difference_L {[g]} (unvisited sc)) at 1
        by (by apply singleton_subseteq_l).
      rewrite size_union by set_solver. rewrite size_singleton. lia. }
    lia.
  - intros cnt k sc cnt' sn Hsub Hstep.
    apply bind_Ok in Hstep as (pf & s3 & Hpf & Hstep).
    assert (s3 = sc) as ->.
    { revert Hpf. apply read_only_bind; [|auto with readers].
      apply read_only_bind; auto with readers. }
    destruct pf as [g|]; [|by minv Hstep].
    apply bind_Ok in Hstep as (hg & s4 & [Hg <-]%getF_Ok & Hstep).
    destruct (m_used hg) eqn:Hused; [by minv Hstep|].
    apply bind_Ok in Hstep as (rc & s4 & Hrec & Hstep). minv Hstep.
    apply regionGrowing_grows in Hrec as (added' & -> & _).
    etrans; [apply unvisited_grow|]. set_solver.
  - etrans; [apply unvisited_grow|]. set_solver.
Qed.

End PlainGrowing.

(** * Guarded collapse *)

Section Guards.
Context `{G : Geometry}.
Context (detectFlicker : HalfEdgeMesh → nat → nat → bool).

Lemma read_only_is_cap e : read_only (is_cap e).
Proof. unfold is_cap. read_only; auto with readers. Qed.
Lemma read_only_count_parallel e : read_only (count_parallel e).
Proof. unfold count_parallel. read_only; auto with readers. Qed.
Lemma read_only_lone_side e : read_only (lone_side e).
Proof. unfold lone_side. read_only; auto with readers. Qed.
Lemma read_only_triangle_hole e : read_only (triangle_hole e).
Proof. unfold triangle_hole. read_only; auto with readers. Qed.
Lemma read_only_flicker_around v e : read_only (flicker_around detectFlicker v e).
Proof. unfold flicker_around. read_only; auto with readers. Qed.

Lemma with_position_back (h : HVertex) p :
  with_position (m_position h) (with_position p h) = h.
Proof. by destruct h. Qed.

Lemma restore_position s v h p :
  vertices s !! v = Some h →
  set_vertices (insert v (with_position (m_position h) (with_position p h)))
    (set_vertices (insert v (with_position p h)) s) = s.
Proof.
  intros Hv. rewrite with_position_back. destruct s. unfold set_vertices. simpl in *.
  f_equal. rewrite insert_insert_eq. by apply insert_id.
Qed.

(** The three ways a completed [safeCollapseEdge] ends. *)
Lemma safeCollapseEdge_Ok edge b s s' :
  safeCollapseEdge detectFlicker edge s = Ok b s' →
  (b = false ∧ s' = s) ∨
  ∃ he hs ht,
    edges s !! edge = Some he ∧ vertices s !! start he = Some hs ∧
    vertices s !! end_ he = Some ht ∧
    let moved := set_vertices (insert (start he)
                   (with_position (vhalf (vadd (m_position hs) (m_position ht))) hs)) s in
    (b = false ∧ s' = moved) ∨
    (b = true ∧ ∃ ht' hs',
       vertices moved !! end_ he = Some ht' ∧ vertices moved !! start he = Some hs' ∧
       collapseEdge edge
         (set_vertices (insert (end_ he)
            (with_position (vhalf (vadd (m_position hs') (m_position ht'))) ht')) moved)
       = Ok tt s').
Proof.
  unfold safeCollapseEdge. intros H.
  apply bind_Ok in H as (c1 & s0 & ->%read_only_is_cap & H).
  destruct c1; [apply mret_Ok in H as [<- <-]; by left|].
  apply bind_Ok in H as (c2 & s0 & H2 & H).
  assert (s0 = s) as ->.
  { revert H2. apply read_only_bind; [auto with readers|]. intros; apply read_only_is_cap. }
  destruct c2; [apply mret_Ok in H as [<- <-]; by left|].
  apply bind_Ok in H as (cnt & s0 & ->%read_only_count_parallel & H).
  case_bool_decide; [apply mret_Ok in H as [<- <-]; by left|].
  apply bind_Ok in H as (l1 & s0 & ->%read_only_lone_side & H).
  apply bind_Ok in H as (l2 & s0 & Hl2 & H).
  assert (s0 = s) as ->.
  { destruct l1; [by apply mret_Ok in Hl2 as [_ <-]|].
    revert Hl2. apply read_only_bind; [auto with readers|].
    intros; apply read_only_lone_side. }
  destruct l2; [apply mret_Ok in H as [<- <-]; by left|].
  apply bind_Ok in H as (th & s0 & ->%read_only_triangle_hole & H).
  destruct th; [apply mret_Ok in H as [<- <-]; by left|].
  apply bind_Ok in H as (st & s0 & (he & He & <- & <-)%e_start_Ok & H).
  apply bind_Ok in H as (hs & s0 & [Hs <-]%getV_Ok & H).
  apply bind_Ok in H as (t & s0 & (he' & He' & <- & <-)%e_end_Ok & H).
  assert (he' = he) as -> by congruence.
  apply bind_Ok in H as (ht & s0 & [Ht <-]%getV_Ok & H).
  apply bind_Ok in H as (u & sA & (hs0 & Hs0 & ->)%modV_Ok & H).
  assert (hs0 = hs) as -> by congruence.
  apply bind_Ok in H as (fl & s0 & ->%read_only_flicker_around & H).
  destruct fl.
  { apply bind_Ok in H as (u1 & s1 & (h1 & Hh1 & ->)%modV_Ok & [<- <-]%mret_Ok).
    cbn in Hh1. rewrite lookup_insert_eq in Hh1. injection Hh1 as <-.
    left. split; [done|]. cbn [m_position with_position].
    rewrite <- (restore_position s (start he) hs
                  (vhalf (vadd (m_position hs) (m_position ht)))) at 2 by done. done. }
  right. exists he, hs, ht. split_and!; try done. cbn zeta.
  apply bind_Ok in H as (t & s0 & (he1 & He1 & <- & <-)%e_end_Ok & H).
  cbn in He1. assert (he1 = he) as -> by congruence.
  apply bind_Ok in H as (ht' & s0 & [Ht' <-]%getV_Ok & H).
  apply bind_Ok in H as (st & s0 & (he2 & He2 & <- & <-)%e_start_Ok & H).
  cbn in He2. assert (he2 = he) as -> by congruence.
  apply bind_Ok in H as (hs' & s0 & [Hs' <-]%getV_Ok & H).
  apply bind_Ok in H as (u2 & sB & (ht0 & Ht0 & ->)%modV_Ok & H).
  assert (ht0 = ht') as -> by congruence.
  apply bind_Ok in H as (fl & s0 & ->%read_only_flicker_around & H).
  destruct fl.
  { apply bind_Ok in H as (u1 & s1 & (h1 & Hh1 & ->)%modV_Ok & [<- <-]%mret_Ok).
    cbn in Hh1. rewrite lookup_insert_eq in Hh1. injection Hh1 as <-.
    left. split; [done|]. cbn [m_position with_position].
    match goal with |- _ = ?M => 
      rewrite <- (restore_position M (end_ he) ht'
                    (vhalf (vadd (m_position hs') (m_position ht')))) at 2 by done end.
    done. }
  apply bind_Ok in H as (u3 & s3 & Hc & [<- <-]%mret_Ok).
  right. split; [done|]. exists ht', hs'. split_and!; try done. by destruct u3.
Qed.

(** Moving a vertex does not touch the graph invariants. *)
Lemma mesh_wf_position s v h pos :
  vertices s !! v = Some h → mesh_wf s →
  mesh_wf (set_vertices (insert v (with_position pos h)) s).
Proof.
  intros Hv (Hp & Hd & Ha & Hc & Ht & Hn1 & Hn2 & Hl).
  split_and!; try done.
  - by apply adjacency_ok_position.
  - split; [done|]. split; [done|].
    intros w hw Hw. cbn in Hw |- *. destruct (decide (w = v)) as [->|?].
    + by apply (Hl v h).
    + rewrite lookup_insert_ne in Hw by done. by apply (Hl w hw).
Qed.

(** X19.  An accepted [safeCollapseEdge] (result [true]) on a well-formed
    mesh removes one vertex and as many faces as the edge had sides with a
    face, and keeps the pairing and the face-cycle invariants. *)
Theorem safeCollapseEdge_wf edge s s' :
  mesh_wf s → safeCollapseEdge detectFlicker edge s = Ok true s' →
  ∃ he p hp,
    edges s !! edge = Some he ∧ pair he = Some p ∧ edges s !! p = Some hp ∧
    length (m_vertices s') + 1 = length (m_vertices s) ∧
    length (m_faces s') + sides he hp = length (m_faces s) ∧
    pairing_ok s' ∧ face_cycle_ok s'.
Proof.
  intros Hwf [[? _]|(he & hs & ht & He & Hs & Ht & Hrun)]%safeCollapseEdge_Ok; [done|].
  cbn zeta in Hrun. destruct Hrun as [[? _]|(_ & ht' & hs' & Ht' & Hs' & Hrun)]; [done|].
  pose proof Hwf as (Hpair & _).
  destruct (pairing_ok_lookup _ _ _ Hpair He) as (p & hp & Hp & Hhp & _).
  exists he, p, hp. split; [done|]. split; [done|]. split; [done|].
  eapply (collapseEdge_wf _ edge he p hp) in Hrun; [exact Hrun| |done|done|done].
  apply mesh_wf_position; [done|]. by apply mesh_wf_position.
Qed.

End Guards.

(** * Graph store, bounds and deletion *)

Section Store.
Context `{G : Geometry}.

Lemma erase_first_snoc x l : x ∉ l → erase_first x (l ++ [x]) = Some l.
Proof.
  induction l as [|y l IH]; intros Hx; cbn.
  - by rewrite decide_True.
  - apply not_elem_of_cons in Hx as [Hne Hx]. rewrite decide_False by done.
    by rewrite IH.
Qed.

Lemma erase_first_None x l : x ∉ l → erase_first x l = None.
Proof.
  induction l as [|y l IH]; intros Hx; cbn; [done|].
  apply not_elem_of_cons in Hx as [Hne Hx]. rewrite decide_False by done.
  by rewrite IH.
Qed.

Lemma mesh_eq (s s' : HalfEdgeMesh) :
  vertices s = vertices s' → edges s = edges s' → faces s = faces s' →
  regions s = regions s' → m_vertices s = m_vertices s' → m_faces s = m_faces s' →
  m_regions s = m_regions s' → m_globalIndex s = m_globalIndex s' →
  m_colorRegions s = m_colorRegions s' → s = s'.
Proof. destruct s, s'; simpl; intros; subst; reflexivity. Qed.

Lemma addVertex_run p s :
  addVertex p s =
  Ok tt (set_m_globalIndex (λ i, i + 1)%Z
          (set_m_vertices (λ l, l ++ [fresh_id (vertices s)])
             (set_vertices (insert (fresh_id (vertices s))
                              (mkHVertex p default_normal [] [])) s))).
Proof. reflexivity. Qed.

(** X1.  In a mesh whose vertex list names live vertices only,
    [addVertex] appends a new vertex to the list, and [deleteVertex] on
    that vertex gives back the mesh as it was before, counter included. *)
Theorem addVertex_deleteVertex p s :
  (∀ v, v ∈ m_vertices s → is_Some (vertices s !! v)) →
  ∃ s1, addVertex p s = Ok tt s1 ∧
        m_vertices s1 = m_vertices s ++ [fresh_id (vertices s)] ∧
        deleteVertex (fresh_id (vertices s)) s1 = Ok tt s.
Proof.
  intros Hlive. eexists. split; [apply addVertex_run|]. split; [done|].
  pose proof (fresh_id_None (vertices s)) as Hfresh.
  set (x := fresh_id (vertices s)) in *.
  assert (x ∉ m_vertices s) as Hx.
  { intros [h Hh]%Hlive. congruence. }
  unfold deleteVertex.
  rewrite run_bind. cbn [gets m_vertices set_m_globalIndex set_m_vertices set_vertices].
  rewrite run_bind, (erase_first_snoc _ _ Hx). cbn [nonnull mret MeshM_ret].
  rewrite run_bind. cbn [modify]. rewrite run_bind. cbn [modify].
  unfold freeV. rewrite run_bind.
  erewrite getV_ok by (cbn; apply lookup_insert_eq).
  cbv beta iota. cbv [modify]. f_equal. clearbody x.
  apply mesh_eq;
    cbn [vertices edges faces regions m_vertices m_faces m_regions m_globalIndex
         m_colorRegions set_vertices set_m_globalIndex set_m_vertices]; try done.
  - by apply delete_insert_id.
  - lia.
Qed.

(** [deleteVertex] completes exactly on a listed live vertex. *)
Lemma deleteVertex_spec v s u s' :
  deleteVertex v s = Ok u s' ↔
  ∃ l h, erase_first v (m_vertices s) = Some l ∧ vertices s !! v = Some h ∧
         s' = set_vertices (delete v)
                (set_m_globalIndex (λ i, i - 1)%Z (set_m_vertices (λ _, l) s)).
Proof.
  unfold deleteVertex. split.
  - intros H. minv H. apply freeV_Ok in H as (h & Hh & ->). eauto.
  - intros (l & h & Hl & Hh & ->).
    rewrite run_bind. cbn [gets]. rewrite run_bind, Hl. cbn [nonnull mret MeshM_ret].
    rewrite run_bind. cbn [modify]. rewrite run_bind. cbn [modify].
    destruct u. apply freeV_Ok. eauto.
Qed.

(** X3.  [addVertex] followed by [addNormal]: with the counter
    [m_globalIndex] in step with the vertex list, the new vertex is
    appended with the given position and normal and empty adjacency
    lists, the counter stays in step, and half-edges and faces are not
    touched; with the counter out of step the assertion of [addNormal]
    fails. *)
Theorem addVertex_addNormal p n s :
  if bool_decide (m_globalIndex s = Z.of_nat (length (m_vertices s))) then
    ∃ s', (addVertex p ≫= λ _, addNormal n) s = Ok tt s' ∧
          vertices s' = <[fresh_id (vertices s) := mkHVertex p n [] []]> (vertices s) ∧
          m_vertices s' = m_vertices s ++ [fresh_id (vertices s)] ∧
          m_globalIndex s' = Z.of_nat (length (m_vertices s')) ∧
          edges s' = edges s ∧ faces s' = faces s ∧ m_faces s' = m_faces s
  else (addVertex p ≫= λ _, addNormal n) s = Fault.
Proof.
  rewrite run_bind, addVertex_run. unfold addNormal.
  rewrite run_bind. cbn [gets]. rewrite run_bind. cbn [gets].
  cbn [m_vertices m_globalIndex set_m_globalIndex set_m_vertices set_vertices].
  rewrite length_app. cbn [length].
  case_bool_decide as Hsync.
  - rewrite bool_decide_eq_true_2 by lia.
    rewrite run_bind.
    replace (Z.to_nat (m_globalIndex s + 1 - 1)) with (length (m_vertices s)) by lia.
    rewrite lookup_app_r by lia. rewrite Nat.sub_diag. cbn [lookup list_lookup nonnull].
    eexists. split.
    { apply modV_Ok. eexists. split; [cbn; apply lookup_insert_eq|done]. }
    cbn. rewrite insert_insert_eq, length_app. cbn. split_and!; try done. lia.
  - rewrite bool_decide_eq_false_2 by lia. done.
Qed.


(** What an edge step of the builder leaves alone. *)
Lemma triangle_edge_step_frame s s' f cur nxt e :
  triangle_edge_step s s' f cur nxt e →
  faces s' = faces s ∧ m_faces s' = m_faces s ∧ m_vertices s' = m_vertices s ∧
  regions s' = regions s ∧ lists_kept [] (vertices s) (vertices s').
Proof.
  unfold triangle_edge_step. destruct (last (opposite_in s cur nxt)).
  - intros (_ & he & _ & ->). split_and!; try done. apply lists_kept_refl.
  - intros (pr & _ & _ & _ & _ & _ & _ & _ & _ & ? & ? & ? & ? & ?). done.
Qed.

Lemma fuel_free_halfEdgeToVertex v w : fuel_free (halfEdgeToVertex v w).
Proof. unfold halfEdgeToVertex. fuel_free; auto with fuel. Qed.
Lemma fuel_free_addTriangle_edge f cur nxt : fuel_free (addTriangle_edge f cur nxt).
Proof.
  unfold addTriangle_edge.
  fuel_free; auto using fuel_free_halfEdgeToVertex with fuel.
Qed.

Lemma addTriangle_Ok_faces a b c u s s' :
  addTriangle a b c s = Ok u s' →
  ∃ va vb vc hf,
    m_vertices s !! a = Some va ∧ m_vertices s !! b = Some vb ∧
    m_vertices s !! c = Some vc ∧
    faces s !! fresh_id (faces s) = None ∧
    m_faces s' = m_faces s ++ [fresh_id (faces s)] ∧
    m_vertices s' = m_vertices s ∧
    lists_kept [] (vertices s) (vertices s') ∧
    faces s' !! fresh_id (faces s) = Some hf ∧
    m_face_index hf = length (m_faces s') ∧ m_region hf = None ∧
    (∀ g, g ≠ fresh_id (faces s) → faces s' !! g = faces s !! g).
Proof.
  unfold addTriangle. intros Hrun.
  apply bind_Ok in Hrun as (f & s1 & [-> ->]%newF_Ok & Hrun).
  pose proof (fresh_id_None (faces s)) as Hf. set (f := fresh_id (faces s)) in *.
  apply bind_Ok in Hrun as (va & s0 & Hva & Hrun). unfold vertex_at in Hva. minv Hva.
  apply bind_Ok in Hrun as (vb & s0 & Hvb & Hrun). unfold vertex_at in Hvb. minv Hvb.
  apply bind_Ok in Hrun as (e0 & s2 & H0%addTriangle_edge_Ok & Hrun).
  destruct (triangle_edge_step_frame _ _ _ _ _ _ H0) as (F0 & MF0 & MV0 & _ & K0).
  apply bind_Ok in Hrun as (vc & s0 & Hvc & Hrun). unfold vertex_at in Hvc. minv Hvc.
  apply bind_Ok in Hrun as (e1 & s3 & H1%addTriangle_edge_Ok & Hrun).
  destruct (triangle_edge_step_frame _ _ _ _ _ _ H1) as (F1 & MF1 & MV1 & _ & K1).
  apply bind_Ok in Hrun as (e2 & s4 & H2%addTriangle_edge_Ok & Hrun).
  destruct (triangle_edge_step_frame _ _ _ _ _ _ H2) as (F2 & MF2 & MV2 & _ & K2).
  apply bind_Ok in Hrun as (? & ? & (? & ? & ->)%modE_Ok & Hrun).
  apply bind_Ok in Hrun as (? & ? & (? & ? & ->)%modE_Ok & Hrun).
  apply bind_Ok in Hrun as (? & ? & (? & ? & ->)%modE_Ok & Hrun).
  apply bind_Ok in Hrun as (? & ? & (hf1 & Hhf1 & ->)%modF_Ok & Hrun).
  apply bind_Ok in Hrun as (? & s5 & Hcn & Hrun).
  assert (∃ n hf2, faces s5 = <[f := with_f_normal n hf2]> (<[f := with_m_edge (Some e0) hf1]> (faces s4)) ∧
                   m_region hf2 = m_region hf1 ∧
                   m_faces s5 = m_faces s4 ∧ m_vertices s5 = m_vertices s4 ∧
                   vertices s5 = vertices s4) as (n & hf2 & F5 & R5 & MF5 & MV5 & V5).
  { unfold calc_normal in Hcn.
    repeat (apply bind_Ok in Hcn as (? & ? & ->%read_only_face_vertex & Hcn)).
    repeat (apply bind_Ok in Hcn as (? & ? & [_ <-]%getV_Ok & Hcn)).
    apply modF_Ok in Hcn as (hf2 & Hhf2 & ->). cbn in Hhf2.
    rewrite lookup_insert_eq in Hhf2. injection Hhf2 as <-.
    eexists _, _. split; [reflexivity|]. done. }
  apply bind_Ok in Hrun as (? & ? & ->%modify_Ok & Hrun).
  apply bind_Ok in Hrun as (len & ? & [<- <-]%gets_Ok & Hrun).
  apply modF_Ok in Hrun as (hf3 & Hhf3 & ->).
  cbn in *. rewrite F5, lookup_insert_eq in Hhf3. injection Hhf3 as <-.
  rewrite F2, F1, F0 in Hhf1. rewrite lookup_insert_eq in Hhf1. injection Hhf1 as <-.
  rewrite MV2, MV1, MV0 in *.
  exists va, vb, vc. eexists. split_and!.
  - done.
  - done.
  - done.
  - done.
  - by rewrite MF5, MF2, MF1, MF0.
  - congruence.
  - rewrite V5. eapply lists_kept_trans; [exact K0| |done].
    eapply lists_kept_trans; [exact K1|exact K2|done].
  - apply lookup_insert_eq.
  - cbn. by rewrite MF5, MF2, MF1, MF0.
  - cbn. by rewrite R5.
  - intros g Hg. rewrite F5, F2, F1, F0. by rewrite !lookup_insert_ne by done.
Qed.

(** X5.  A completed [addTriangle a b c] had its three indices inside the
    vertex list; it appends exactly one new face to the face list, numbers
    it with the new length of the list (one-based) and gives it no region;
    the vertex list, the other faces, and the position, normal and
    adjacency entries of every vertex are kept. *)
Theorem addTriangle_appends_face a b c u s s' :
  addTriangle a b c s = Ok u s' →
  ∃ va vb vc hf,
    m_vertices s !! a = Some va ∧ m_vertices s !! b = Some vb ∧
    m_vertices s !! c = Some vc ∧
    faces s !! fresh_id (faces s) = None ∧
    m_faces s' = m_faces s ++ [fresh_id (faces s)] ∧
    m_vertices s' = m_vertices s ∧
    lists_kept [] (vertices s) (vertices s') ∧
    faces s' !! fresh_id (faces s) = Some hf ∧
    m_face_index hf = length (m_faces s') ∧ m_region hf = None ∧
    (∀ g, g ≠ fresh_id (faces s) → faces s' !! g = faces s !! g).
Proof. exact (addTriangle_Ok_faces a b c u s s'). Qed.

Lemma vertex_at_run i s :
  vertex_at i s = match m_vertices s !! i with Some v => Ok v s | None => Fault end.
Proof. unfold vertex_at. rewrite run_bind. cbn. by destruct (m_vertices s !! i). Qed.

(** X6.  [addTriangle] does not check its indices: with one of them past
    the end of the vertex list the call is a fault. *)
Theorem addTriangle_out_of_range a b c s :
  length (m_vertices s) ≤ a ∨ length (m_vertices s) ≤ b ∨ length (m_vertices s) ≤ c →
  addTriangle a b c s = Fault.
Proof.
  intros Hr. unfold addTriangle.
  rewrite run_bind. unfold new_face. rewrite (proj2 (newF_Ok _ _ _ _) (conj eq_refl eq_refl)).
  cbv beta iota.
  assert (∀ i s1, m_vertices s1 = m_vertices s → length (m_vertices s) ≤ i →
            ∀ B (k : nat → MeshM B), (vertex_at i ≫= k) s1 = Fault) as Hfault.
  { intros i s1 Hm Hi B k. rewrite run_bind, vertex_at_run.
    rewrite Hm, (lookup_ge_None_2 _ _ Hi). done. }
  destruct (decide (length (m_vertices s) ≤ a)) as [Ha|Ha]; [by apply Hfault|].
  rewrite run_bind, vertex_at_run. cbn [m_vertices set_faces].
  destruct (m_vertices s !! a) as [va|] eqn:Eva; [|done].
  destruct (decide (length (m_vertices s) ≤ b)) as [Hb|Hb]; [by apply Hfault|].
  rewrite run_bind, vertex_at_run. cbn [m_vertices set_faces].
  destruct (m_vertices s !! b) as [vb|] eqn:Evb; [|done].
  rewrite run_bind.
  destruct (addTriangle_edge _ va vb _) as [e0 s2| |] eqn:E0; [|done|].
  - apply addTriangle_edge_Ok, triangle_edge_step_frame in E0 as (_ & _ & MV & _).
    apply Hfault; [done|]. lia.
  - by apply fuel_free_addTriangle_edge in E0.
Qed.

Lemma halfEdgeToVertex_ok v w s hv :
  vertices s !! v = Some hv → Forall (λ e, is_Some (edges s !! e)) (in_ hv) →
  halfEdgeToVertex v w s = Ok (last (opposite_in s v w)) s.
Proof.
  intros Hv Hlive.
  assert (∃ r, halfEdgeToVertex v w s = Ok r s) as [r Hr].
  { unfold halfEdgeToVertex. rewrite run_bind, (getV_ok _ _ _ Hv). cbv beta iota.
    generalize (@None nat). induction Hlive as [|e l [he He] _ IH]; intros acc.
    - by eexists.
    - cbn [foldM]. rewrite run_bind, run_bind, (getE_ok _ _ _ He). cbv beta iota.
      cbn [mret MeshM_ret]. apply IH. }
  rewrite Hr. by apply halfEdgeToVertex_Ok in Hr as [_ ->].
Qed.

(** X4.  On a live vertex [v] whose incoming list names live half-edges,
    [halfEdgeToVertex v w] leaves the mesh as it is and returns the last
    half-edge of that list that runs from [w] to [v], or null when there
    is none. *)
Theorem halfEdgeToVertex_run v w s hv :
  vertices s !! v = Some hv → Forall (λ e, is_Some (edges s !! e)) (in_ hv) →
  halfEdgeToVertex v w s = Ok (last (opposite_in s v w)) s.
Proof. exact (halfEdgeToVertex_ok v w s hv). Qed.

(** X2.  [deleteVertex] completes on a vertex that is in the vertex list
    and live, and faults on every other: erasing a vertex that is not
    listed erases the end iterator, and deleting a vertex that is not live
    is a second [delete]. *)
Theorem deleteVertex_completes_or_faults v s :
  if decide (v ∈ m_vertices s ∧ is_Some (vertices s !! v))
  then ∃ s', deleteVertex v s = Ok tt s'
  else deleteVertex v s = Fault.
Proof.
  case_decide as Hv.
  - destruct Hv as [[l Hl]%erase_first_is_Some [h Hh]].
    eexists. apply deleteVertex_spec. eauto.
  - unfold deleteVertex. rewrite run_bind. cbn [gets]. cbv beta iota. rewrite run_bind.
    destruct (erase_first v (m_vertices s)) as [l|] eqn:El; [|done].
    cbn [nonnull mret MeshM_ret]. cbv beta iota.
    rewrite run_bind. cbn [modify]. cbv beta iota. rewrite run_bind. cbn [modify].
    cbv beta iota. unfold freeV. rewrite run_bind. unfold getV. rewrite run_bind.
    cbn [gets]. cbv beta iota. cbn [vertices set_m_globalIndex set_m_vertices].
    apply erase_first_in in El.
    destruct (vertices s !! v) as [h|] eqn:Ev; [|done].
    exfalso. apply Hv. eauto.
Qed.

End Store.

(** * The two-face overload of [flipEdge] *)

Section Faces.
Context `{G : Geometry}.

(** One round of the scan over the edges of the first face. *)
Lemma flip_scan_step s f2 common cur k h p hp :
  edges s !! cur = Some h → pair h = Some p → edges s !! p = Some hp →
  (λ '(common, current) (_ : nat),
     cur ← nonnull current;
     pf ← (e_pair cur ≫= e_face);
     hc ← getE cur;
     mret (M := MeshM)
       (if bool_decide (pf = Some f2) then Some cur else common, next hc))
    (common, Some cur) k s
  = Ok (if bool_decide (face_across s cur = Some f2) then Some cur else common,
        next_of s cur) s.
Proof.
  intros Hc Hp Hhp. cbv beta iota.
  rewrite run_bind, nonnull_run. cbv beta iota.
  rewrite run_bind.
  assert ((e_pair cur ≫= e_face) s = Ok (face hp) s) as ->.
  { apply bind_Ok. exists p, s. split.
    - apply e_pair_Ok. by exists h.
    - apply e_face_Ok. by exists hp. }
  cbv beta iota. rewrite run_bind, (getE_ok _ _ _ Hc). cbv beta iota.
  unfold face_across, pair_of, face_of, next_of. rewrite Hc. cbn. rewrite Hp. cbn.
  rewrite Hhp. cbn. done.
Qed.

(** X15.  On a paired mesh in which the face [f1] has the closed cycle
    [e0], [e1], [e2], the two-face overload of [flipEdge] behaves as
    [flipEdge] on the last of the three half-edges whose pair refers to
    [f2], and returns with the mesh as it is when no half-edge of [f1] has
    [f2] on its other side. *)
Theorem flipEdge_faces_run s f1 f2 e0 e1 e2 :
  pairing_ok s → faces s !! f1 ≫= m_edge = Some e0 → is_cycle s f1 e0 e1 e2 →
  flipEdge_faces f1 f2 s =
  match last (filter (λ e, face_across s e = Some f2) [e0; e1; e2]) with
  | Some e => flipEdge e s
  | None => Ok tt s
  end.
Proof.
  intros Hpair Hf (N0 & N1 & N2 & _).
  destruct (faces s !! f1) as [hf|] eqn:Ef; [|done]. cbn in Hf.
  assert (∀ e n, next_of s e = Some n →
            ∃ h p hp, edges s !! e = Some h ∧ pair h = Some p ∧ edges s !! p = Some hp)
    as Hlive.
  { intros e n Hn. unfold next_of in Hn.
    destruct (edges s !! e) as [h|] eqn:Ee; [|done].
    destruct (pairing_ok_lookup _ _ _ Hpair Ee) as (p & hp & ? & ? & _).
    by exists h, p, hp. }
  destruct (Hlive _ _ N0) as (h0 & p0 & hp0 & L0 & P0 & Q0).
  destruct (Hlive _ _ N1) as (h1 & p1 & hp1 & L1 & P1 & Q1).
  destruct (Hlive _ _ N2) as (h2 & p2 & hp2 & L2 & P2 & Q2).
  unfold flipEdge_faces. rewrite run_bind, (getF_ok _ _ _ Ef). cbv beta iota.
  rewrite Hf.
  match goal with |- context [foldM ?f] => set (body := f) end.
  assert (∀ common cur k h p hp,
            edges s !! cur = Some h → pair h = Some p → edges s !! p = Some hp →
            body (common, Some cur) k s
            = Ok (if bool_decide (face_across s cur = Some f2) then Some cur else common,
                  next_of s cur) s) as Hstep.
  { intros. by eapply flip_scan_step. }
  clearbody body.
  rewrite run_bind. cbn [foldM]. rewrite !run_bind.
  rewrite (Hstep None e0 0 h0 p0 hp0) by done. cbv beta iota. rewrite N0.
  rewrite run_bind, (Hstep _ e1 1 h1 p1 hp1) by done. cbv beta iota. rewrite N1.
  rewrite run_bind, (Hstep _ e2 2 h2 p2 hp2) by done. cbv beta iota.
  cbn [mret MeshM_ret].
  rewrite !filter_cons, filter_nil.
  destruct (decide (face_across s e0 = Some f2)) as [D0|D0];
    destruct (decide (face_across s e1 = Some f2)) as [D1|D1];
    destruct (decide (face_across s e2 = Some f2)) as [D2|D2];
    rewrite ?(bool_decide_eq_true_2 _ D0), ?(bool_decide_eq_false_2 _ D0),
      ?(bool_decide_eq_true_2 _ D1), ?(bool_decide_eq_false_2 _ D1),
      ?(bool_decide_eq_true_2 _ D2), ?(bool_decide_eq_false_2 _ D2);
    reflexivity.
Qed.

End Faces.

(** * The buffers written by [finalize] *)

Section Final.
Context `{G : Geometry}.

Lemma lookup_concat_3 {B} (ts : list (list B)) i t k :
  Forall (λ t, length t = 3) ts → ts !! i = Some t → k < 3 →
  concat ts !! (3 * i + k) = t !! k.
Proof.
  intros Hlen. revert i. induction Hlen as [|x ts Hx _ IH]; intros i Hi Hk; [done|].
  cbn [concat]. destruct i as [|i].
  - injection Hi as ->. rewrite lookup_app_l by lia. f_equal; lia.
  - rewrite lookup_app_r by lia. rewrite Hx.
    replace (3 * S i + k - 3) with (3 * i + k) by lia. by apply IH.
Qed.

Lemma length_concat_3 {B} (ts : list (list B)) :
  Forall (λ t, length t = 3) ts → length (concat ts) = 3 * length ts.
Proof.
  induction 1 as [|x ts Hx _ IH]; [done|]. cbn. rewrite length_app, Hx, IH. lia.
Qed.

(** The vertex loop: sizes, and the fields it leaves alone. *)
Lemma finalize_vertices_sizes l : ∀ i b im s r s',
  finalize_vertices l i b im s = Ok r s' →
  length (m_vertexBuffer r.1) = length (m_vertexBuffer b) + 3 * length l ∧
  length (m_normalBuffer r.1) = length (m_normalBuffer b) + 3 * length l ∧
  length (m_colorBuffer r.1) = length (m_colorBuffer b) + 3 * length l ∧
  m_indexBuffer r.1 = m_indexBuffer b ∧
  m_nVertices r.1 = m_nVertices b ∧ m_nFaces r.1 = m_nFaces b.
Proof.
  induction l as [|v l IH]; intros i b im s r s' Hrun; cbn in Hrun.
  - apply mret_Ok in Hrun as [<- <-]. cbn. split_and!; (done || lia).
  - apply bind_Ok in Hrun as (h & s1 & [Hv <-]%getV_Ok & Hrun).
    apply IH in Hrun as (Hl1 & Hl2 & Hl3 & ? & ? & ?). cbn in *.
    rewrite length_app in Hl1, Hl2, Hl3. cbn in *. split_and!; (done || lia).
Qed.

(** The vertex loop maps the [k]-th listed vertex to slot [i + k]. *)
Lemma finalize_vertices_map l : ∀ i b im s r s',
  finalize_vertices l i b im s = Ok r s' → NoDup l →
  (∀ k v, l !! k = Some v → r.2 !! v = Some (i + k)) ∧
  (∀ v, v ∉ l → r.2 !! v = im !! v).
Proof.
  induction l as [|v l IH]; intros i b im s r s' Hrun Hnd; cbn in Hrun.
  - apply mret_Ok in Hrun as [<- <-]. cbn. split; [done|done].
  - apply bind_Ok in Hrun as (h & s1 & [Hv <-]%getV_Ok & Hrun).
    apply NoDup_cons in Hnd as [Hvl Hnd].
    destruct (IH _ _ _ _ _ _ Hrun Hnd) as [Hin Hout]. split.
    + intros [|k] w Hk.
      * injection Hk as <-. rewrite (Hout _ Hvl), lookup_insert_eq. f_equal; lia.
      * rewrite (Hin k w Hk). f_equal; lia.
    + intros w Hw. apply not_elem_of_cons in Hw as [Hwv Hwl].
      rewrite (Hout _ Hwl). by rewrite lookup_insert_ne.
Qed.

Lemma finalize_vertices_ok l : ∀ i b im s,
  (∀ v, v ∈ l → is_Some (vertices s !! v)) →
  ∃ r, finalize_vertices l i b im s = Ok r s.
Proof.
  induction l as [|v l IH]; intros i b im s Hl; cbn; [eauto|].
  destruct (Hl v) as [h Hh]; [by left|].
  rewrite run_bind, (getV_ok _ _ _ Hh). apply IH. intros; apply Hl. by right.
Qed.

(** A colour write is in bounds and touches the colour buffer alone. *)
Lemma write_color_Ok i x b b' s s' :
  write_color i x b s = Ok b' s' ↔
  s' = s ∧ i < length (m_colorBuffer b) ∧
  b' = mkBuffers (m_vertexBuffer b) (m_normalBuffer b) (<[i := x]> (m_colorBuffer b))
                 (m_indexBuffer b) (m_nVertices b) (m_nFaces b).
Proof.
  unfold write_color. case_bool_decide.
  - split; [by intros [<- <-]%mret_Ok | by intros (-> & _ & ->)].
  - split; [done | intros (_ & ? & _); lia].
Qed.

Lemma color_vertex_Ok idx r g bl b b' s s' :
  color_vertex idx r g bl b s = Ok b' s' →
  s' = s ∧ idx * 3 + 2 < length (m_colorBuffer b) ∧
  length (m_colorBuffer b') = length (m_colorBuffer b) ∧
  m_indexBuffer b' = m_indexBuffer b ∧
  m_nVertices b' = m_nVertices b ∧ m_nFaces b' = m_nFaces b.
Proof.
  unfold color_vertex. intros (b1 & s1 & H1 & (b2 & s2 & H2 & H3)%bind_Ok)%bind_Ok.
  apply write_color_Ok in H1 as (-> & ? & ->), H2 as (-> & ? & ->), H3 as (-> & ? & ->).
  cbn in *. rewrite ?length_insert in *. done.
Qed.

Lemma write_color_ok i x b s :
  i < length (m_colorBuffer b) →
  write_color i x b s =
  Ok (mkBuffers (m_vertexBuffer b) (m_normalBuffer b) (<[i := x]> (m_colorBuffer b))
                (m_indexBuffer b) (m_nVertices b) (m_nFaces b)) s.
Proof. intros. by apply write_color_Ok. Qed.

Lemma color_vertex_ok idx r g bl b s :
  idx * 3 + 2 < length (m_colorBuffer b) → ∃ b', color_vertex idx r g bl b s = Ok b' s.
Proof.
  intros Hi. unfold color_vertex.
  rewrite run_bind, write_color_ok by lia. cbv beta iota.
  rewrite run_bind, write_color_ok by (cbn; rewrite ?length_insert; lia). cbv beta iota.
  rewrite write_color_ok by (cbn; rewrite ?length_insert; lia).
  eauto.
Qed.

(** One round of the face loop appends the slots of the three corners. *)
Lemma finalize_face_Ok im b f b' s s' :
  finalize_face im b f s = Ok b' s' →
  s' = s ∧
  ∃ v0 v1 v2, face_vertex f 0 s = Ok v0 s ∧ face_vertex f 1 s = Ok v1 s ∧
    face_vertex f 2 s = Ok v2 s ∧
    m_indexBuffer b' = m_indexBuffer b ++
      [default 0 (im !! v0); default 0 (im !! v1); default 0 (im !! v2)] ∧
    length (m_colorBuffer b') = length (m_colorBuffer b) ∧
    m_nVertices b' = m_nVertices b ∧ m_nFaces b' = m_nFaces b.
Proof.
  unfold finalize_face. intros Hrun.
  apply bind_Ok in Hrun as (v0 & s0 & H0 & Hrun).
  pose proof (face_vertex_state _ _ _ _ _ H0) as ->.
  apply bind_Ok in Hrun as (v1 & s1 & H1 & Hrun).
  pose proof (face_vertex_state _ _ _ _ _ H1) as ->.
  apply bind_Ok in Hrun as (v2 & s2 & H2 & Hrun).
  pose proof (face_vertex_state _ _ _ _ _ H2) as ->.
  apply bind_Ok in Hrun as (hf & s3 & [_ <-]%getF_Ok & Hrun).
  apply bind_Ok in Hrun as (cls & s4 & Hcls & Hrun).
  assert (s4 = s) as ->.
  { destruct (m_region hf); minv Hcls; done. }
  apply bind_Ok in Hrun as (cr & s5 & [_ <-]%gets_Ok & Hrun).
  destruct (if cr then _ else _) as [[r g] bl].
  apply bind_Ok in Hrun as (b1 & s1 & C1 & (b2 & s2 & C2 & C3)%bind_Ok).
  apply color_vertex_Ok in C1 as (-> & _ & ? & ? & ? & ?).
  apply color_vertex_Ok in C2 as (-> & _ & ? & ? & ? & ?).
  apply color_vertex_Ok in C3 as (-> & _ & ? & ? & ? & ?).
  cbn in *. split; [done|]. exists v0, v1, v2. split_and!; congruence.
Qed.

(** The corners of a face as [finalize] numbers them. *)
Lemma finalize_faces_Ok im fs : ∀ b b' s s',
  foldM (finalize_face im) b fs s = Ok b' s' →
  s' = s ∧
  length (m_colorBuffer b') = length (m_colorBuffer b) ∧
  m_nVertices b' = m_nVertices b ∧ m_nFaces b' = m_nFaces b ∧
  ∃ ts, Forall2 (λ f t, ∃ v0 v1 v2, face_vertex f 0 s = Ok v0 s ∧
                   face_vertex f 1 s = Ok v1 s ∧ face_vertex f 2 s = Ok v2 s ∧
                   t = [default 0 (im !! v0); default 0 (im !! v1); default 0 (im !! v2)])
          fs ts ∧
        m_indexBuffer b' = m_indexBuffer b ++ concat ts.
Proof.
  induction fs as [|f fs IH]; intros b b' s s' Hrun; cbn in Hrun.
  - apply mret_Ok in Hrun as [<- <-]. split_and!; try done.
    exists []. split; [constructor|]. cbn. by rewrite app_nil_r.
  - apply bind_Ok in Hrun as (b1 & s1 & Hf & Hrun).
    apply finalize_face_Ok in Hf as (-> & v0 & v1 & v2 & F0 & F1 & F2 & Hi & Hc & Hn & Hm).
    apply IH in Hrun as (-> & Hc' & Hn' & Hm' & ts & Hall & Hi').
    split_and!; try congruence.
    exists ([default 0 (im !! v0); default 0 (im !! v1); default 0 (im !! v2)] :: ts).
    split.
    + constructor; [|done]. by exists v0, v1, v2.
    + rewrite Hi', Hi. cbn [concat]. by rewrite <- app_assoc.
Qed.

(** X21.  A completed [finalize] leaves the mesh as it is; the vertex,
    normal and colour buffers have three slots for each listed vertex, the
    index buffer three for each listed face, and the two counters are the
    lengths of the lists. *)
Theorem finalize_sizes s b s' :
  finalize s = Ok b s' →
  s' = s ∧
  m_nVertices b = length (m_vertices s) ∧ m_nFaces b = length (m_faces s) ∧
  length (m_vertexBuffer b) = 3 * length (m_vertices s) ∧
  length (m_normalBuffer b) = 3 * length (m_vertices s) ∧
  length (m_colorBuffer b) = 3 * length (m_vertices s) ∧
  length (m_indexBuffer b) = 3 * length (m_faces s).
Proof.
  unfold finalize. intros Hrun.
  apply bind_Ok in Hrun as (vs & s0 & [<- <-]%gets_Ok & Hrun).
  apply bind_Ok in Hrun as (fs & s0 & [<- <-]%gets_Ok & Hrun).
  apply bind_Ok in Hrun as ([b0 im] & s0 & Hvs & Hrun).
  pose proof (finalize_vertices_spec _ _ _ _ _ _ _ Hvs) as (-> & hs & Hhs & Hvb & Hnb).
  apply finalize_vertices_sizes in Hvs as (L1 & L2 & L3 & I0 & N0 & M0). cbn in *.
  pose proof Hrun as Hfr.
  apply finalize_faces_Ok in Hrun as (-> & Lc & Ln & Lm & ts & Hall & Hib).
  assert (m_vertexBuffer b = m_vertexBuffer b0 ∧ m_normalBuffer b = m_normalBuffer b0)
    as [E1 E2].
  { revert Hfr.
    apply (foldM_inv (λ b1 _, m_vertexBuffer b1 = m_vertexBuffer b0 ∧
                               m_normalBuffer b1 = m_normalBuffer b0)); [|done].
    intros b1 f s1 b2 s2 _ [? ?] (_ & ? & ?)%finalize_face_frame. split; congruence. }
  assert (Forall (λ t : list nat, length t = 3) ts) as H3.
  { clear -Hall. induction Hall as [|f t fs ts (? & ? & ? & _ & _ & _ & ->) _ IH];
      constructor; done. }
  split_and!; try congruence; try lia.
  rewrite Hib, I0, length_app, (length_concat_3 _ H3). cbn.
  by rewrite <- (Forall2_length _ _ _ Hall).
Qed.

(** X22.  With no vertex listed twice, slot [3j + k] of the index buffer
    written by [finalize] holds, for corner [k] of the [j]-th listed face,
    the position of that vertex in the vertex list. *)
Theorem finalize_index s b s' j f k v i :
  finalize s = Ok b s' → NoDup (m_vertices s) →
  m_faces s !! j = Some f → k < 3 → face_vertex f k s = Ok v s →
  m_vertices s !! i = Some v →
  m_indexBuffer b !! (3 * j + k) = Some i.
Proof.
  unfold finalize. intros Hrun Hnd Hj Hk Hv Hi.
  apply bind_Ok in Hrun as (vs & s0 & [<- <-]%gets_Ok & Hrun).
  apply bind_Ok in Hrun as (fs & s0 & [<- <-]%gets_Ok & Hrun).
  apply bind_Ok in Hrun as ([b0 im] & s0 & Hvs & Hrun).
  pose proof (finalize_vertices_spec _ _ _ _ _ _ _ Hvs) as (-> & _).
  pose proof (finalize_vertices_sizes _ _ _ _ _ _ _ Hvs) as (_ & _ & _ & I0 & _).
  destruct (finalize_vertices_map _ _ _ _ _ _ _ Hvs Hnd) as [Hmap _]. cbn in I0, Hmap.
  apply finalize_faces_Ok in Hrun as (-> & _ & _ & _ & ts & Hall & Hib).
  assert (Forall (λ t : list nat, length t = 3) ts) as H3.
  { clear -Hall. induction Hall as [|f' t fs ts (? & ? & ? & _ & _ & _ & ->) _ IH];
      constructor; done. }
  destruct (Forall2_lookup_l _ _ _ _ _ Hall Hj) as (t & Ht & v0 & v1 & v2 & F0 & F1 & F2 & ->).
  rewrite Hib, I0. cbn [app].
  rewrite (lookup_concat_3 _ _ _ _ H3 Ht Hk).
  specialize (Hmap _ _ Hi). cbn in Hmap.
  destruct k as [|[|[|k]]]; [| | |lia]; cbn.
  - assert (v0 = v) as -> by congruence. by rewrite Hmap.
  - assert (v1 = v) as -> by congruence. by rewrite Hmap.
  - assert (v2 = v) as -> by congruence. by rewrite Hmap.
Qed.

Lemma finalize_vertices_out l : ∀ i b im s r s' v,
  finalize_vertices l i b im s = Ok r s' → v ∉ l → r.2 !! v = im !! v.
Proof.
  induction l as [|v0 l IH]; intros i b im s r s' v Hrun Hv; cbn in Hrun.
  - by apply mret_Ok in Hrun as [<- <-].
  - apply bind_Ok in Hrun as (h & s1 & [_ <-]%getV_Ok & Hrun).
    apply not_elem_of_cons in Hv as [Hv0 Hvl].
    rewrite (IH _ _ _ _ _ _ _ Hrun Hvl). by rewrite lookup_insert_ne.
Qed.

(** Every listed vertex gets a slot of the buffers. *)
Lemma finalize_vertices_bound l : ∀ i b im s r s' v,
  finalize_vertices l i b im s = Ok r s' → v ∈ l →
  ∃ i', r.2 !! v = Some i' ∧ i ≤ i' < i + length l.
Proof.
  induction l as [|v0 l IH]; intros i b im s r s' v Hrun Hv; [by apply elem_of_nil in Hv|].
  pose proof Hrun as Hrun0. cbn in Hrun.
  apply bind_Ok in Hrun as (h & s1 & [_ <-]%getV_Ok & Hrun).
  destruct (decide (v ∈ l)) as [Hl|Hl].
  - destruct (IH _ _ _ _ _ _ _ Hrun Hl) as (i' & ? & ?). exists i'. cbn. split; [done|lia].
  - apply elem_of_cons in Hv as [->|?]; [|done].
    exists i. rewrite (finalize_vertices_out _ _ _ _ _ _ _ _ Hrun Hl), lookup_insert_eq.
    cbn. split; [done|lia].
Qed.

(** The corners of a face with a closed cycle. *)
Lemma face_cycle_corners s f :
  face_cycle_at s f →
  ∃ hf e0 e1 e2 h0 h1 h2,
    faces s !! f = Some hf ∧
    edges s !! e0 = Some h0 ∧ edges s !! e1 = Some h1 ∧ edges s !! e2 = Some h2 ∧
    face_vertex f 0 s = Ok (end_ h0) s ∧ face_vertex f 1 s = Ok (end_ h1) s ∧
    face_vertex f 2 s = Ok (end_ h2) s.
Proof.
  unfold face_cycle_at, is_cycle, next_of.
  destruct (faces s !! f) as [hf|] eqn:Ef; [|done]. cbn.
  destruct (m_edge hf) as [e0|] eqn:E0; [|done].
  destruct (edges s !! e0) as [h0|] eqn:L0; [|done]. cbn.
  destruct (next h0) as [e1|] eqn:N0; [|done].
  destruct (edges s !! e1) as [h1|] eqn:L1; [|done]. cbn.
  destruct (next h1) as [e2|] eqn:N1; [|done].
  intros (_ & _ & N2 & _).
  destruct (edges s !! e2) as [h2|] eqn:L2; [|done].
  exists hf, e0, e1, e2, h0, h1, h2. split_and!; try done.
  - unfold face_vertex. rewrite run_bind.
    rewrite (proj2 (face_edge_Ok f 0 e0 s s)); [by apply e_end_ok|].
    split; [done|]. by exists hf, e0, h0.
  - unfold face_vertex. rewrite run_bind.
    rewrite (proj2 (face_edge_Ok f 1 e1 s s)); [by apply e_end_ok|].
    split; [done|]. by exists hf, e0, h0.
  - unfold face_vertex. rewrite run_bind.
    rewrite (proj2 (face_edge_Ok f 2 e2 s s)); [by apply e_end_ok|].
    split; [done|]. exists hf, e0, h0. split_and!; try done. by exists e1, h1.
Qed.

(** One round of the face loop succeeds when the corners have slots and
    the region of the face is live. *)
Lemma finalize_face_ok im b f s hf v0 v1 v2 :
  faces s !! f = Some hf →
  face_vertex f 0 s = Ok v0 s → face_vertex f 1 s = Ok v1 s →
  face_vertex f 2 s = Ok v2 s →
  default 0 (im !! v0) * 3 + 2 < length (m_colorBuffer b) →
  default 0 (im !! v1) * 3 + 2 < length (m_colorBuffer b) →
  default 0 (im !! v2) * 3 + 2 < length (m_colorBuffer b) →
  (∀ r, m_region hf = Some r → is_Some (regions s !! r)) →
  ∃ b', finalize_face im b f s = Ok b' s.
Proof.
  intros Hf F0 F1 F2 B0 B1 B2 Hr. unfold finalize_face.
  rewrite run_bind, F0. cbv beta iota. rewrite run_bind, F1. cbv beta iota.
  rewrite run_bind, F2. cbv beta iota.
  rewrite run_bind, (getF_ok _ _ _ Hf). cbv beta iota.
  rewrite run_bind.
  assert (∃ cls, match m_region hf with
                 | Some r => hr ← getR r; mret (m_region_number hr)
                 | None => mret (M := MeshM) 1%Z
                 end s = Ok cls s) as [cls ->].
  { destruct (m_region hf) as [r|]; [|by eexists].
    destruct (Hr r eq_refl) as [hr Hhr].
    exists (m_region_number hr). apply bind_Ok. exists hr, s.
    split; [by apply getR_Ok|done]. }
  cbv beta iota. rewrite run_bind. cbn [gets]. cbv beta iota.
  destruct (if m_colorRegions s then _ else _) as [[r g] bl].
  rewrite run_bind.
  match goal with |- context [color_vertex ?i r g bl ?b0 s] =>
    destruct (color_vertex_ok i r g bl b0 s) as [b1 C1]; [exact B0|] end.
  rewrite C1. cbv beta iota.
  apply color_vertex_Ok in C1 as (_ & _ & L1 & _). cbn in L1.
  rewrite run_bind.
  destruct (color_vertex_ok (default 0 (im !! v1)) r g bl b1 s) as [b2 C2]; [lia|].
  rewrite C2. cbv beta iota.
  apply color_vertex_Ok in C2 as (_ & _ & L2 & _).
  apply color_vertex_ok. lia.
Qed.

(** X23.  [finalize] completes, without a write outside a buffer, on a
    mesh whose listed vertices are live, whose listed faces have closed
    cycles, whose half-edges are registered with their endpoints, whose
    live vertices are listed, and in which the region of every listed face
    is live. *)
Theorem finalize_total s :
  (∀ v, v ∈ m_vertices s → is_Some (vertices s !! v)) →
  face_cycle_ok s → adjacency_ok s → lists_ok s →
  (∀ f hf r, f ∈ m_faces s → faces s !! f = Some hf → m_region hf = Some r →
             is_Some (regions s !! r)) →
  ∃ b, finalize s = Ok b s.
Proof.
  intros Hlive Hfc [Hreg _] (_ & _ & Hlisted) Hregion. unfold finalize.
  rewrite run_bind. cbn [gets]. cbv beta iota. rewrite run_bind. cbn [gets]. cbv beta iota.
  destruct (finalize_vertices_ok (m_vertices s) 0
              (mkBuffers [] [] [] [] (length (m_vertices s)) (length (m_faces s))) ∅ s Hlive)
    as [[b0 im] Hvs].
  rewrite run_bind, Hvs. cbv beta iota.
  pose proof (finalize_vertices_sizes _ _ _ _ _ _ _ Hvs) as (_ & _ & L0 & _).
  cbn in L0.
  assert (∀ v, v ∈ m_vertices s →
            default 0 (im !! v) * 3 + 2 < 3 * length (m_vertices s)) as Hslot.
  { intros v Hv.
    destruct (finalize_vertices_bound _ _ _ _ _ _ _ _ Hvs Hv) as (i' & Hi' & ?).
    cbn in Hi'. rewrite Hi'. cbn. lia. }
  unfold face_cycle_ok in Hfc. rewrite Forall_forall in Hfc.
  assert (∀ fs b, (∀ f, f ∈ fs → f ∈ m_faces s) →
            length (m_colorBuffer b) = 3 * length (m_vertices s) →
            ∃ b', foldM (finalize_face im) b fs s = Ok b' s) as Hloop.
  { induction fs as [|f fs IH]; intros b Hfs Hlen; cbn [foldM]; [by eexists|].
    assert (f ∈ m_faces s) as Hf by (apply Hfs; by left).
    destruct (face_cycle_corners s f (Hfc f Hf))
      as (hf & e0 & e1 & e2 & h0 & h1 & h2 & Lf & L0' & L1' & L2' & F0 & F1 & F2).
    assert (∀ e h, edges s !! e = Some h → end_ h ∈ m_vertices s) as Hend.
    { intros e h He. destruct (proj1 (registered_lookup s e h) (Hreg e h He))
        as (hs & ht & _ & _ & Ht & _).
      exact (Hlisted _ _ Ht). }
    destruct (finalize_face_ok im b f s hf _ _ _ Lf F0 F1 F2) as [b1 Hb1].
    - rewrite Hlen. eapply Hslot, Hend; done.
    - rewrite Hlen. eapply Hslot, Hend; done.
    - rewrite Hlen. eapply Hslot, Hend; done.
    - intros r Hr. by eapply Hregion.
    - rewrite run_bind, Hb1. cbv beta iota.
      apply finalize_face_Ok in Hb1 as (_ & _ & _ & _ & _ & _ & _ & _ & Lc & _).
      apply IH; [|congruence]. intros; apply Hfs. by right. }
  apply Hloop; [done|]. lia.
Qed.

End Final.

(** * What [deleteFace] does to the face store *)

Section FacesKept.
Context `{G : Geometry} (F : gmap nat HFace) (L : list nat).

Lemma kept_same {A} (c : MeshM A) :
  (∀ s a s', c s = Ok a s' → faces s' = faces s ∧ m_faces s' = m_faces s) →
  preserves (faces_are F L) c.
Proof. intros Hc s a s' [? ?] [? ?]%Hc. split; congruence. Qed.

Lemma kept_modE e f : preserves (faces_are F L) (modE e f).
Proof. apply kept_same. by intros s a s' (h & _ & ->)%modE_Ok. Qed.

Lemma kept_deleteEdge e : preserves (faces_are F L) (deleteEdge e true).
Proof.
  apply kept_same.
  by intros s a s' (? & ? & ? & _ & _ & _ & _ & ? & _ & ? & _)%deleteEdge_true_Ok.
Qed.

Lemma kept_delete_if_isolated p : preserves (faces_are F L) (delete_if_isolated p).
Proof.
  apply kept_same. unfold delete_if_isolated. intros s a s' H.
  apply bind_Ok in H as (hv & s0 & [_ <-]%getV_Ok & H).
  case_bool_decide; cbn [when] in H.
  - by apply deleteVertex_Ok in H as (_ & ? & ? & _).
  - by apply mret_Ok in H as [_ <-].
Qed.

Lemma frame_bind {A B} (P : HalfEdgeMesh → Prop) (Q : B → HalfEdgeMesh → Prop)
    (c : MeshM A) (k : A → MeshM B) :
  preserves P c → (∀ a s b s', P s → k a s = Ok b s' → Q b s') →
  ∀ s b s', P s → (c ≫= k) s = Ok b s' → Q b s'.
Proof.
  intros Hc Hk s b s' HP (a & s1 & H1 & H2)%bind_Ok.
  eapply Hk; [|exact H2]. eapply Hc; [exact HP|exact H1].
Qed.

Lemma erase_face_kept f u s s' :
  faces_are F L s → erase_face f s = Ok u s' →
  is_Some (F !! f) ∧ erase_first f L = Some (m_faces s') ∧ faces s' = delete f F.
Proof.
  intros [<- <-]. unfold erase_face, freeF. intros H.
  apply bind_Ok in H as (l & s0 & [<- <-]%gets_Ok & H).
  apply bind_Ok in H as (l' & s0 & [Hl <-]%nonnull_Ok & H).
  apply bind_Ok in H as (u1 & s1 & ->%modify_Ok & H).
  apply bind_Ok in H as (hf & s3 & [Hf <-]%getF_Ok & H).
  apply bind_Ok in H as (u2 & s2 & H2 & ->%modify_Ok).
  assert (faces s2 = faces s ∧ m_faces s2 = l') as [E1 E2].
  { destruct (m_region hf).
    - by apply modify_Ok in H2 as ->.
    - by apply mret_Ok in H2 as [_ <-]. }
  cbn in Hf. split; [by exists hf|]. cbn. rewrite E1, E2. done.
Qed.

End FacesKept.

Section DeleteFace.
Context `{G : Geometry}.

(** A completed [deleteFace] took the face out of the face list, once,
    and freed it; no other face was touched. *)
Lemma deleteFace_Ok_faces f u s s' :
  deleteFace f s = Ok u s' →
  is_Some (faces s !! f) ∧
  erase_first f (m_faces s) = Some (m_faces s') ∧
  faces s' = delete f (faces s).
Proof.
  assert (∀ s0 b s1, faces_are (faces s) (m_faces s) s0 →
            deleteFace f s0 = Ok b s1 →
            (λ _ s1, is_Some (faces s !! f) ∧
                     erase_first f (m_faces s) = Some (m_faces s1) ∧
                     faces s1 = delete f (faces s)) b s1) as Hall.
  { unfold deleteFace.
    repeat lazymatch goal with
    | |- ∀ s0 b s1, _ → (mbind _ _) s0 = Ok b s1 → _ =>
        apply frame_bind;
        [ preserves_with ltac:(first [ apply kept_modE | apply kept_deleteEdge
                                     | apply kept_delete_if_isolated ])
        | intros ? ]
    end.
    intros s0 b s1 Hk Hrun. cbv beta. by eapply erase_face_kept. }
  intros Hrun. exact (Hall s u s' (conj eq_refl eq_refl) Hrun).
Qed.

End DeleteFace.

(** * Builder, editor and hole filler: what the invariants survive *)

Section Relinking.
Context `{G : Geometry}.
Context (P : HalfEdgeMesh → Prop) (HP : edges_only P) (HL : links_only P).

Lemma preserves_links_close_cycle back ei ej hole :
  preserves P (close_cycle back ei ej hole).
Proof. unfold close_cycle. preserves. Qed.

Lemma preserves_links_fill_pass hole : preserves P (fill_pass hole).
Proof.
  unfold fill_pass. destruct (last hole); [|apply preserves_ret].
  apply preserves_bind.
  - apply preserves_read_only. intros s c s' H. by apply find_cycle_state in H.
  - intros [[ei ej]|]; [apply preserves_links_close_cycle|apply preserves_ret].
Qed.

Lemma preserves_links_fill_hole fuel : ∀ hole, preserves P (fill_hole fuel hole).
Proof.
  induction fuel as [|fuel IH]; intros hole; cbn; [done|].
  destruct hole; [apply preserves_ret|].
  apply preserves_bind; [apply preserves_links_fill_pass|apply IH].
Qed.

Lemma preserves_links_trace_contour fuel : ∀ current contour,
  preserves P (trace_contour fuel current contour).
Proof.
  induction fuel as [|fuel IH]; intros current contour; cbn; [done|].
  preserves_with ltac:(apply IH).
Qed.

Lemma preserves_links_find_holes fuel max_size :
  preserves P (find_holes fuel max_size).
Proof.
  unfold find_holes. preserves_with ltac:(apply preserves_links_trace_contour).
Qed.

End Relinking.

Section Marking.
Context `{G : Geometry}.
Context (P : HalfEdgeMesh → Prop) (HM : mark_closed P).

Lemma preserves_mark e : preserves P (modE e (with_used true)).
Proof. intros s a s' Hs (h & He & ->)%modE_Ok. by apply HM. Qed.

Lemma preserves_marks_trace_contour fuel : ∀ current contour,
  preserves P (trace_contour fuel current contour).
Proof.
  induction fuel as [|fuel IH]; intros current contour; cbn; [done|].
  preserves_with ltac:(first [apply IH | apply preserves_mark]).
Qed.

Lemma preserves_marks_find_holes fuel max_size :
  preserves P (find_holes fuel max_size).
Proof.
  unfold find_holes. preserves_with ltac:(apply preserves_marks_trace_contour).
Qed.

End Marking.

Section Kept.
Context `{G : Geometry}.

Lemma marked_from_refl s : marked_from s s.
Proof. exists (edges s). split; [by destruct s|]. intros e. by left. Qed.

Lemma mark_closed_marked_from s0 : mark_closed (marked_from s0).
Proof.
  intros s e h He (m & -> & Hm). cbn in He.
  exists (<[e := with_used true h]> m). split; [done|].
  intros x. destruct (decide (x = e)) as [->|Hx].
  - rewrite lookup_insert_eq. right.
    destruct (Hm e) as [Hk|Hk]; rewrite He in Hk.
    + by rewrite <-Hk.
    + destruct (edges s0 !! e) as [h0|]; [|done].
      injection Hk as ->. by destruct h0.
  - rewrite lookup_insert_ne by done. apply Hm.
Qed.

Lemma edges_only_dom D : edges_only (λ s, dom (edges s) = D).
Proof. intros s s' He. by rewrite He. Qed.

Lemma links_only_dom D : links_only (λ s, dom (edges s) = D).
Proof.
  intros s e h h' He _ _ _ <-. cbn. apply dom_insert_lookup_L. by exists h.
Qed.

(** X7.  A completed [addTriangle] keeps the pairing invariant: every
    live half-edge has a live pair that refers back to it and runs the
    other way. *)
Theorem addTriangle_keeps_pairing a b c u s s' :
  pairing_ok s → addTriangle a b c s = Ok u s' → pairing_ok s'.
Proof. intros Hok Hrun. exact (preserves_pairing_addTriangle a b c s u s' Hok Hrun). Qed.

(** X9.  A completed [addFace] keeps the pairing invariant. *)
Theorem addFace_keeps_pairing v1 v2 v3 u s s' :
  pairing_ok s → addFace v1 v2 v3 s = Ok u s' → pairing_ok s'.
Proof. intros Hok Hrun. exact (preserves_pairing_addFace v1 v2 v3 s u s' Hok Hrun). Qed.

(** X10.  [deleteEdge] with [deletePair] set frees the half-edge and its
    pair, nothing else of the half-edge store, and keeps the pairing
    invariant. *)
Theorem deleteEdge_keeps_pairing e u s s' :
  pairing_ok s → deleteEdge e true s = Ok u s' →
  pairing_ok s' ∧
  ∃ he p, edges s !! e = Some he ∧ pair he = Some p ∧
          edges s' = delete e (delete p (edges s)).
Proof.
  intros Hok Hrun. split; [exact (preserves_pairing_deleteEdge e s u s' Hok Hrun)|].
  apply deleteEdge_true_Ok in Hrun as (he & p & hp & ? & ? & _ & ? & _). eauto.
Qed.

(** X12.  A completed [deleteFace] keeps the pairing invariant, takes the
    face out of the face list (its first occurrence) and frees it; no
    other face is touched. *)
Theorem deleteFace_removes_face f u s s' :
  pairing_ok s → deleteFace f s = Ok u s' →
  pairing_ok s' ∧ is_Some (faces s !! f) ∧
  erase_first f (m_faces s) = Some (m_faces s') ∧
  faces s' = delete f (faces s).
Proof.
  intros Hok Hrun. split; [exact (preserves_pairing_deleteFace f s u s' Hok Hrun)|].
  by apply deleteFace_Ok_faces in Hrun.
Qed.

(** X16.  A run of the unthresholded [regionGrowing] from a seed takes
    the seed and a list of further faces into the region, each of them
    once; every face beyond the seed was live and unvisited; the result is
    the number of faces beyond the seed; and fuel above the number of
    unvisited faces is enough for the run to end. *)
Theorem regionGrowing_spec fuel sf r s :
  (∀ n s', regionGrowing fuel sf r s = Ok n s' →
     ∃ added,
       s' = grow_state r (sf :: added) s ∧
       n = Z.of_nat (length added) ∧
       NoDup (sf :: added) ∧
       ∀ g, g ∈ added → ∃ hg, faces s !! g = Some hg ∧ m_used hg = false) ∧
  (size (unvisited s) < fuel → regionGrowing fuel sf r s ≠ OutOfFuel).
Proof.
  split.
  - intros n s'. apply regionGrowing_grows.
  - intros Hsz. apply regionGrowing_fuel.
    eapply Nat.le_lt_trans; [|exact Hsz]. apply subseteq_size. set_solver.
Qed.

(** X20.  The retriangulation loop [fill_hole] only relinks: it never
    creates or frees a half-edge, and it keeps the pairing invariant; with
    fuel above the length of the edge list it ends, with a result or a
    fault. *)
Theorem fill_hole_relinks_only fuel hole s :
  pairing_ok s → length hole < fuel →
  match fill_hole fuel hole s with
  | Ok _ s' => pairing_ok s' ∧ dom (edges s') = dom (edges s)
  | Fault => True
  | OutOfFuel => False
  end.
Proof.
  intros Hok Hlt.
  destruct (fill_hole fuel hole s) as [u s'| |] eqn:Hrun; [|done|].
  - split.
    + exact (preserves_links_fill_hole pairing_ok edges_only_pairing links_only_pairing
               fuel hole s u s' Hok Hrun).
    + exact (preserves_links_fill_hole _ (edges_only_dom _) (links_only_dom _)
               fuel hole s u s' eq_refl Hrun).
  - by apply fill_hole_fuel in Hrun.
Qed.

(** X24.  The hole finder of [fillHoles] only sets [used] marks: the
    mesh it leaves is the mesh it found with the mark set on some
    half-edges, every other field of every half-edge and everything else
    unchanged; so no half-edge is created or freed and the pairing
    invariant is kept; and every contour it returns has more than two
    half-edges. *)
Theorem find_holes_marks_only fuel max_size holes s s' :
  pairing_ok s → find_holes fuel max_size s = Ok holes s' →
  marked_from s s' ∧
  pairing_ok s' ∧ dom (edges s') = dom (edges s) ∧
  Forall (λ hole, 2 < length hole) holes.
Proof.
  intros Hok Hrun. split_and!.
  - exact (preserves_marks_find_holes _ (mark_closed_marked_from s)
             fuel max_size s holes s' (marked_from_refl s) Hrun).
  - exact (preserves_links_find_holes pairing_ok links_only_pairing
             fuel max_size s holes s' Hok Hrun).
  - exact (preserves_links_find_holes _ (links_only_dom _)
             fuel max_size s holes s' eq_refl Hrun).
  - unfold find_holes in Hrun.
    apply bind_Ok in Hrun as (fs & s0 & [_ <-]%gets_Ok & Hrun).
    revert Hrun.
    apply (foldM_inv (λ hs _, Forall (λ hole, 2 < length hole) hs)); [|constructor].
    intros hs f s1 hs' s2 _ Hhs.
    apply (foldM_inv (λ hs _, Forall (λ hole, 2 < length hole) hs)); [|done].
    clear. intros hs k s1 hs' s2 _ Hhs Hrun.
    apply bind_Ok in Hrun as (cur & s3 & _ & Hrun).
    apply bind_Ok in Hrun as (hc & s4 & _ & Hrun).
    case_bool_decide; [|by apply mret_Ok in Hrun as [<- _]].
    apply bind_Ok in Hrun as (contour & s5 & _ & [<- _]%mret_Ok).
    destruct (keep_contour contour max_size) eqn:Hkeep; [|done].
    apply Forall_app. split; [done|]. constructor; [|constructor].
    unfold keep_contour in Hkeep. apply andb_true_iff in Hkeep as [Hk _].
    by apply bool_decide_eq_true in Hk.
Qed.

End Kept.

Section Rejected.
Context `{G : Geometry}.
Context (detectFlicker : HalfEdgeMesh → nat → nat → bool).

(** X18.  A rejected [safeCollapseEdge] (result [false]) leaves the mesh
    either as it was, or as it was but for the start vertex of the edge,
    which sits at the midpoint of the edge: what a rejection by the
    flicker test around the end vertex leaves behind, since only the end
    vertex is moved back. *)
Theorem safeCollapseEdge_rejected edge s s' :
  safeCollapseEdge detectFlicker edge s = Ok false s' →
  s' = s ∨
  ∃ he hs ht,
    edges s !! edge = Some he ∧ vertices s !! start he = Some hs ∧
    vertices s !! end_ he = Some ht ∧
    s' = set_vertices (insert (start he)
           (with_position (vhalf (vadd (m_position hs) (m_position ht))) hs)) s.
Proof.
  intros [[_ ->]|(he & hs & ht & He & Hs & Ht & Hrun)]%safeCollapseEdge_Ok; [by left|].
  cbn zeta in Hrun. destruct Hrun as [[_ ->]|[? _]]; [|done].
  right. by exists he, hs, ht.
Qed.

End Rejected.

(** * Region growing always returns *)

Section GrowTotal.
Context `{G : Geometry}.

Lemma foldM_no_fault {A B} (P : B → HalfEdgeMesh → Prop) (f : B → A → MeshM B) l :
  (∀ b x s, x ∈ l → P b s → f b x s ≠ Fault) →
  (∀ b x s b' s', x ∈ l → P b s → f b x s = Ok b' s' → P b' s') →
  ∀ b s, P b s → foldM f b l s ≠ Fault.
Proof.
  induction l as [|x l IH]; intros Hnf Hstep b s HP; cbn; [done|].
  rewrite run_bind. destruct (f b x s) as [b' s'| |] eqn:Hf; [| |done].
  - apply IH.
    + intros ??? Hin. apply Hnf. by right.
    + intros ????? Hin. apply Hstep. by right.
    + eapply Hstep; [by left|exact HP|exact Hf].
  - apply Hnf in Hf; [done|by left|done].
Qed.

Lemma grow_state_m_edge r L s g :
  faces (grow_state r L s) !! g ≫= m_edge = faces s !! g ≫= m_edge.
Proof.
  rewrite grow_state_faces. case_decide; [|done]. by destruct (faces s !! g).
Qed.

(** Growing a region touches no half-edge and no [m_edge]: the graph
    invariants and the liveness of the region are kept. *)
Lemma grow_state_graph r L s :
  pairing_ok s ∧ face_cycle_ok s ∧ triangles_ok s ∧ is_Some (regions s !! r) →
  pairing_ok (grow_state r L s) ∧ face_cycle_ok (grow_state r L s) ∧
  triangles_ok (grow_state r L s) ∧ is_Some (regions (grow_state r L s) !! r) ∧
  m_faces (grow_state r L s) = m_faces s.
Proof.
  intros (Hp & Hc & Ht & Hr). split_and!.
  - exact Hp.
  - unfold face_cycle_ok in *. eapply Forall_impl; [exact Hc|].
    intros g Hg. unfold face_cycle_at in *. rewrite grow_state_m_edge. exact Hg.
  - exact Ht.
  - cbn. apply lookup_alter_is_Some. exact Hr.
  - reflexivity.
Qed.

(** The three reads at the top of a pass of the neighbour loop. *)
Lemma neighbour_read s sf k :
  pairing_ok s → face_cycle_ok s → triangles_ok s → sf ∈ m_faces s → k < 3 →
  ∃ pf, ((face_edge sf k ≫= e_pair) ≫= e_face) s = Ok pf s ∧
        ∀ g, pf = Some g → g ∈ m_faces s ∧ is_Some (faces s !! g).
Proof.
  intros Hp Hc Ht Hsf Hk.
  unfold face_cycle_ok in Hc. rewrite Forall_forall in Hc.
  pose proof (Hc sf Hsf) as Hcyc. unfold face_cycle_at, is_cycle, next_of in Hcyc.
  destruct (faces s !! sf) as [hf|] eqn:Ef; [|done]. cbn in Hcyc.
  destruct (m_edge hf) as [e0|] eqn:E0; [|done].
  destruct (edges s !! e0) as [h0|] eqn:L0; [|done]. cbn in Hcyc.
  destruct (next h0) as [e1|] eqn:N0; [|done].
  destruct (edges s !! e1) as [h1|] eqn:L1; [|done]. cbn in Hcyc.
  destruct (next h1) as [e2|] eqn:N1; [|done].
  destruct Hcyc as (_ & _ & N2 & _).
  destruct (edges s !! e2) as [h2|] eqn:L2; [|done].
  assert (∃ e h, face_edge sf k s = Ok e s ∧ edges s !! e = Some h) as (e & h & He & Hh).
  { destruct k as [|[|[|k]]]; [| | |lia].
    - exists e0, h0. split; [|done]. apply face_edge_Ok. split; [done|]. by exists hf, e0, h0.
    - exists e1, h1. split; [|done]. apply face_edge_Ok. split; [done|]. by exists hf, e0, h0.
    - exists e2, h2. split; [|done]. apply face_edge_Ok. split; [done|].
      exists hf, e0, h0. split_and!; try done. by exists e1, h1. }
  destruct (pairing_ok_lookup _ _ _ Hp Hh) as (p & hp & Hpp & Hhp & _).
  exists (face hp). split.
  - rewrite run_bind, run_bind, He. cbv beta iota.
    rewrite (e_pair_ok _ _ _ _ Hh Hpp). cbv beta iota. by apply e_face_ok.
  - intros g Hg.
    destruct (triangles_ok_lookup _ _ _ _ Ht Hhp Hg) as [Hin _]. split; [done|].
    pose proof (Hc g Hin) as Hcg. unfold face_cycle_at in Hcg.
    destruct (faces s !! g); [eauto|done].
Qed.

Lemma modR_ok s x h f :
  regions s !! x = Some h → modR x f s = Ok tt (set_regions (insert x (f h)) s).
Proof. intros H. apply modR_Ok. eauto. Qed.

Lemma seed_ok r sf s :
  is_Some (faces s !! sf) → is_Some (regions s !! r) →
  ∃ s2, (modF sf (with_m_used true) ≫= λ _, region_addFace r sf) s = Ok tt s2.
Proof.
  intros [hf Hf] [hr Hr].
  rewrite run_bind, (modF_ok _ _ _ _ Hf). cbv beta iota.
  unfold region_addFace. rewrite run_bind.
  erewrite modR_ok by (cbn; exact Hr). cbv beta iota.
  erewrite modF_ok by (cbn; apply lookup_insert_eq). eauto.
Qed.

Lemma regionGrowing_no_fault r fuel : ∀ sf s,
  pairing_ok s → face_cycle_ok s → triangles_ok s → is_Some (regions s !! r) →
  sf ∈ m_faces s →
  regionGrowing fuel sf r s ≠ Fault.
Proof.
  induction fuel as [|fuel IH]; intros sf s Hp Hc Ht Hr Hsf; [done|].
  cbn [regionGrowing].
  assert (is_Some (faces s !! sf)) as Hf.
  { unfold face_cycle_ok in Hc. rewrite Forall_forall in Hc.
    pose proof (Hc sf Hsf) as Hcyc. unfold face_cycle_at in Hcyc.
    destruct (faces s !! sf); [eauto|done]. }
  destruct (seed_ok r sf s Hf Hr) as [s2 Hseed].
  pose proof (grow_seed _ _ _ _ _ Hseed) as ->.
  rewrite run_bind in Hseed. rewrite run_bind.
  destruct (modF sf (with_m_used true) s) as [u1 s1| |] eqn:H1; [|done..].
  cbv beta iota in Hseed |- *. rewrite run_bind, Hseed. cbv beta iota.
  destruct (grow_state_graph r [sf] s) as (Hp2 & Hc2 & Ht2 & Hr2 & Hm2); [by eauto|].
  apply (foldM_no_fault (λ _ sc,
    pairing_ok sc ∧ face_cycle_ok sc ∧ triangles_ok sc ∧ is_Some (regions sc !! r) ∧
    m_faces sc = m_faces s)); [| |done].
  - intros cnt k sc Hk (Hpc & Hcc & Htc & Hrc & Hmc). cbv beta.
    assert (k < 3) as Hk3.
    { rewrite !elem_of_cons in Hk. destruct Hk as [->|[->|[->|[]%elem_of_nil]]]; lia. }
    destruct (neighbour_read sc sf k) as (pf & Hread & Hpf); try done.
    { by rewrite Hmc. }
    rewrite run_bind, Hread. cbv beta iota.
    destruct pf as [g|]; [|done].
    destruct (Hpf g eq_refl) as [Hg [hg Hhg]].
    rewrite run_bind, (getF_ok _ _ _ Hhg). cbv beta iota.
    destruct (m_used hg); [done|].
    rewrite run_bind.
    destruct (regionGrowing fuel g r sc) as [n s5| |] eqn:Hrec; [done| |done].
    by apply IH in Hrec.
  - intros cnt k sc cnt' sn Hk (Hpc & Hcc & Htc & Hrc & Hmc) Hstep.
    apply bind_Ok in Hstep as (pf & s3 & Hpf & Hstep).
    assert (s3 = sc) as ->.
    { revert Hpf. apply read_only_bind; [|auto with readers].
      apply read_only_bind; auto with readers. }
    destruct pf as [g|]; [|by apply mret_Ok in Hstep as [_ <-]].
    apply bind_Ok in Hstep as (hg & s4 & [Hg <-]%getF_Ok & Hstep).
    destruct (m_used hg); [by apply mret_Ok in Hstep as [_ <-]|].
    apply bind_Ok in Hstep as (rc & s4 & Hrec & [_ <-]%mret_Ok).
    apply regionGrowing_grows in Hrec as (added & -> & _).
    destruct (grow_state_graph r (g :: added) sc) as (? & ? & ? & ? & Hm); [by eauto|].
    split_and!; (done || congruence).
Qed.

Lemma regionGrowing_angle_no_fault r (normal : NormalT) (angle : Scalar) fuel : ∀ sf s,
  pairing_ok s → face_cycle_ok s → triangles_ok s → is_Some (regions s !! r) →
  sf ∈ m_faces s →
  regionGrowing_angle fuel sf normal angle r s ≠ Fault.
Proof.
  induction fuel as [|fuel IH]; intros sf s Hp Hc Ht Hr Hsf; [done|].
  cbn [regionGrowing_angle].
  assert (is_Some (faces s !! sf)) as Hf.
  { unfold face_cycle_ok in Hc. rewrite Forall_forall in Hc.
    pose proof (Hc sf Hsf) as Hcyc. unfold face_cycle_at in Hcyc.
    destruct (faces s !! sf); [eauto|done]. }
  destruct (seed_ok r sf s Hf Hr) as [s2 Hseed].
  pose proof (grow_seed _ _ _ _ _ Hseed) as ->.
  rewrite run_bind in Hseed. rewrite run_bind.
  destruct (modF sf (with_m_used true) s) as [u1 s1| |] eqn:H1; [|done..].
  cbv beta iota in Hseed |- *. rewrite run_bind, Hseed. cbv beta iota.
  destruct (grow_state_graph r [sf] s) as (Hp2 & Hc2 & Ht2 & Hr2 & Hm2); [by eauto|].
  apply (foldM_no_fault (λ _ sc,
    pairing_ok sc ∧ face_cycle_ok sc ∧ triangles_ok sc ∧ is_Some (regions sc !! r) ∧
    m_faces sc = m_faces s)); [| |done].
  - intros cnt k sc Hk (Hpc & Hcc & Htc & Hrc & Hmc). cbv beta.
    assert (k < 3) as Hk3.
    { rewrite !elem_of_cons in Hk. destruct Hk as [->|[->|[->|[]%elem_of_nil]]]; lia. }
    destruct (neighbour_read sc sf k) as (pf & Hread & Hpf); try done.
    { by rewrite Hmc. }
    rewrite run_bind, Hread. cbv beta iota.
    destruct pf as [g|]; [|done].
    destruct (Hpf g eq_refl) as [Hg [hg Hhg]].
    rewrite run_bind, (getF_ok _ _ _ Hhg). cbv beta iota.
    destruct (m_used hg); [done|].
    assert (getFaceNormal g sc = Ok (f_normal hg) sc) as Hn.
    { unfold getFaceNormal. by rewrite run_bind, (getF_ok _ _ _ Hhg). }
    rewrite run_bind, Hn. cbv beta iota.
    destruct (sgt _ _); [|done].
    rewrite run_bind.
    destruct (regionGrowing_angle fuel g normal angle r sc) as [n s5| |] eqn:Hrec;
      [done| |done].
    by apply IH in Hrec.
  - intros cnt k sc cnt' sn Hk (Hpc & Hcc & Htc & Hrc & Hmc) Hstep.
    apply bind_Ok in Hstep as (pf & s3 & Hpf & Hstep).
    assert (s3 = sc) as ->.
    { revert Hpf. apply read_only_bind; [|auto with readers].
      apply read_only_bind; auto with readers. }
    destruct pf as [g|]; [|by apply mret_Ok in Hstep as [_ <-]].
    apply bind_Ok in Hstep as (hg & s4 & [Hg <-]%getF_Ok & Hstep).
    destruct (m_used hg); [by apply mret_Ok in Hstep as [_ <-]|].
    apply bind_Ok in Hstep as (nrm & s4 & Hn & Hstep).
    unfold getFaceNormal in Hn. minv Hn.
    destruct (sgt _ _); [|by apply mret_Ok in Hstep as [_ <-]].
    apply bind_Ok in Hstep as (rc & s4 & Hrec & [_ <-]%mret_Ok).
    apply regionGrowing_angle_grows in Hrec as (added & -> & _).
    destruct (grow_state_graph r (g :: added) sc) as (? & ? & ? & ? & Hm); [by eauto|].
    split_and!; (done || congruence).
Qed.

(** X25.  On a mesh that satisfies the pairing, face-cycle and triangle
    invariants, both overloads of [regionGrowing], started from a listed
    face with a live region, return without a fault once the fuel exceeds
    the number of unvisited faces. *)
Theorem regionGrowing_total fuel sf r s :
  pairing_ok s → face_cycle_ok s → triangles_ok s → is_Some (regions s !! r) →
  sf ∈ m_faces s → size (unvisited s) < fuel →
  (∃ n s', regionGrowing fuel sf r s = Ok n s') ∧
  (∀ normal angle, ∃ n s', regionGrowing_angle fuel sf normal angle r s = Ok n s').
Proof.
  intros Hp Hc Ht Hr Hsf Hfuel.
  assert (size (unvisited s ∖ {[sf]}) < fuel) as Hfuel'.
  { eapply Nat.le_lt_trans; [|exact Hfuel]. apply subseteq_size. set_solver. }
  split.
  - destruct (regionGrowing fuel sf r s) as [n s'| |] eqn:Hrun; [by eauto| |].
    + by apply regionGrowing_no_fault in Hrun.
    + by apply regionGrowing_fuel in Hrun.
  - intros normal angle.
    destruct (regionGrowing_angle fuel sf normal angle r s) as [n s'| |] eqn:Hrun;
      [by eauto| |].
    + by apply regionGrowing_angle_no_fault in Hrun.
    + by apply regionGrowing_angle_fuel in Hrun.
Qed.

End GrowTotal.

(** * The builder returns on valid input *)

Section BuilderTotal.
Context `{G : Geometry}.

Lemma adjacency_links_live s : adjacency_ok s → links_live s.
Proof.
  intros [Hreg Hls]. split.
  - intros v hv x Hv Hx.
    destruct (lists_sound_in _ _ _ _ (Hls v hv Hv) Hx) as (h & Hh & _). eauto.
  - intros e h He.
    destruct (proj1 (registered_lookup s e h) (Hreg e h He)) as (_ & ht & _ & _ & Ht & _).
    eauto.
Qed.

(** Writing a half-edge record whose end vertex is live. *)
Lemma links_live_insertE s e h :
  is_Some (vertices s !! end_ h) → links_live s →
  links_live (set_edges (insert e h) s).
Proof.
  intros Hend [Hin Hends]. split.
  - intros v hv x Hv Hx. cbn in *. apply lookup_insert_is_Some'. right. by eapply Hin.
  - intros y hy Hy. cbn in *. destruct (decide (y = e)) as [->|?].
    + rewrite lookup_insert_eq in Hy. by injection Hy as <-.
    + rewrite lookup_insert_ne in Hy by done. by eapply Hends.
Qed.

(** Writing a vertex record whose new incoming entries are live. *)
Lemma links_live_insertV s v hv hv' :
  vertices s !! v = Some hv →
  (∀ x, x ∈ in_ hv' → x ∈ in_ hv ∨ is_Some (edges s !! x)) →
  links_live s → links_live (set_vertices (insert v hv') s).
Proof.
  intros Hv Hnew [Hin Hends]. split.
  - intros w hw x Hw Hx. cbn in *. destruct (decide (w = v)) as [->|?].
    + rewrite lookup_insert_eq in Hw. injection Hw as <-.
      destruct (Hnew x Hx) as [?|?]; [by eapply Hin|done].
    + rewrite lookup_insert_ne in Hw by done. by eapply Hin.
  - intros e h He. cbn in *. apply lookup_insert_is_Some'. right. by eapply Hends.
Qed.

Lemma links_live_modE e f u s s' :
  (∀ h, end_ (f h) = end_ h) →
  modE e f s = Ok u s' → links_live s → links_live s'.
Proof.
  intros Hf (h & He & ->)%modE_Ok Hl. apply links_live_insertE; [|done].
  rewrite Hf. destruct Hl as [_ Hends]. by eapply Hends.
Qed.

Lemma links_live_push_out v x u s s' :
  modV v (push_out x) s = Ok u s' → links_live s → links_live s'.
Proof.
  intros (h & Hv & ->)%modV_Ok Hl. eapply links_live_insertV; [exact Hv| |done].
  intros y Hy. by left.
Qed.

Lemma links_live_push_in v x u s s' :
  modV v (push_in x) s = Ok u s' → is_Some (edges s !! x) → links_live s → links_live s'.
Proof.
  intros (h & Hv & ->)%modV_Ok Hx Hl. eapply links_live_insertV; [exact Hv| |done].
  intros y Hy. cbn in Hy. apply elem_of_app in Hy as [?|Hy]; [by left|].
  apply list_elem_of_singleton in Hy as ->. by right.
Qed.

(** What a completed edge step of [addTriangle] keeps. *)
Lemma addTriangle_edge_links f cur nxt e s s' :
  addTriangle_edge f cur nxt s = Ok e s' → links_live s →
  links_live s' ∧ is_Some (edges s' !! e) ∧
  (∀ v, is_Some (vertices s !! v) → is_Some (vertices s' !! v)) ∧
  (∀ x, is_Some (edges s !! x) → is_Some (edges s' !! x)).
Proof.
  unfold addTriangle_edge. intros H Hl.
  apply bind_Ok in H as (r & s0 & Hh & H).
  assert (is_Some (vertices s !! cur)) as Hcur.
  { unfold halfEdgeToVertex in Hh. apply bind_Ok in Hh as (hv & ? & [? _]%getV_Ok & _). eauto. }
  apply halfEdgeToVertex_Ok in Hh as [-> ->].
  destruct (last (opposite_in s cur nxt)) as [x|].
  - apply bind_Ok in H as (e' & s0 & (hx & Hx & Hp & <-)%e_pair_Ok & H).
    apply bind_Ok in H as (u & s1 & Hmod & [<- <-]%mret_Ok).
    assert (links_live s1) as Hl' by (eapply links_live_modE; [|exact Hmod|exact Hl]; done).
    apply modE_Ok in Hmod as (he & He & ->). cbn.
    split; [exact Hl'|]. split; [rewrite lookup_insert_eq; eauto|].
    split; [done|]. intros y Hy. apply lookup_insert_is_Some'. by right.
  - apply bind_Ok in H as (e' & s1 & [-> ->]%newE_Ok & H).
    apply bind_Ok in H as (pr & s2 & [-> ->]%newE_Ok & H).
    set (e' := fresh_id (edges s)) in *. clearbody e'.
    match type of H with context [fresh_id ?M] => set (pr := fresh_id M) in *; clearbody pr end.
    assert (is_Some (vertices s !! nxt)) as Hnxt.
    { pose proof H as Hq.
      apply bind_Ok in Hq as (q1 & t1 & (g1 & G1 & ->)%modE_Ok & Hq).
      apply bind_Ok in Hq as (q2 & t2 & (g2 & G2 & ->)%modE_Ok & Hq).
      apply bind_Ok in Hq as (q3 & t3 & (g3 & G3 & ->)%modV_Ok & Hq).
      apply bind_Ok in Hq as (q4 & t4 & (hn & Hn & _)%modV_Ok & _).
      cbn in Hn. destruct (decide (cur = nxt)) as [<-|?]; [done|].
      rewrite lookup_insert_ne in Hn by done. eauto. }
    assert (links_live (set_edges (insert pr (mkHEdge nxt cur None None None false))
              (set_edges (insert e' (mkHEdge cur nxt None None (Some f) false)) s))) as Hl2.
    { apply links_live_insertE; [done|]. apply links_live_insertE; [done|]. done. }
    apply bind_Ok in H as (u1 & s3 & H1 & H).
    assert (links_live s3) as Hl3 by (eapply links_live_modE; [|exact H1|exact Hl2]; done).
    apply bind_Ok in H as (u2 & s4 & H2 & H).
    assert (links_live s4) as Hl4 by (eapply links_live_modE; [|exact H2|exact Hl3]; done).
    assert (is_Some (edges s4 !! e') ∧ is_Some (edges s4 !! pr) ∧
            (∀ y, is_Some (edges s !! y) → is_Some (edges s4 !! y)) ∧
            vertices s4 = vertices s) as (Le & Lp & Lold & Lv).
    { apply modE_Ok in H1 as (h1 & Hh1 & ->). apply modE_Ok in H2 as (h2 & Hh2 & ->).
      cbn. split_and!; [| |intros y Hy|done]; rewrite !lookup_insert_is_Some'; auto 10. }
    clear H1 H2.
    apply bind_Ok in H as (u3 & s5 & M1 & H).
    apply bind_Ok in H as (u4 & s6 & M2 & H).
    apply bind_Ok in H as (u5 & s7 & M3 & H).
    apply bind_Ok in H as (u6 & s8 & M4 & [<- <-]%mret_Ok).
    pose proof (links_live_push_out _ _ _ _ _ M1 Hl4) as Hl5.
    pose proof M1 as (V1 & -> & K1 & _)%push_out_Ok.
    pose proof (links_live_push_in _ _ _ _ _ M2 Le Hl5) as Hl6.
    pose proof M2 as (V2 & -> & K2 & _)%push_in_Ok.
    pose proof (links_live_push_in _ _ _ _ _ M3 Lp Hl6) as Hl7.
    pose proof M3 as (V3 & -> & K3 & _)%push_in_Ok.
    pose proof (links_live_push_out _ _ _ _ _ M4 Hl7) as Hl8.
    pose proof M4 as (V4 & -> & K4 & _)%push_out_Ok.
    split; [exact Hl8|]. split; [exact Le|]. split; [|exact Lold].
    intros v Hv. cbn in *.
    eapply lists_kept_live; [exact K4|]. eapply lists_kept_live; [exact K3|].
    eapply lists_kept_live; [exact K2|]. eapply lists_kept_live; [exact K1|].
    by rewrite Lv.
Qed.

(** An edge step of [addTriangle] between two live vertices returns. *)
Lemma addTriangle_edge_ok f cur nxt s :
  pairing_ok s → links_live s →
  is_Some (vertices s !! cur) → is_Some (vertices s !! nxt) →
  ∃ e s', addTriangle_edge f cur nxt s = Ok e s'.
Proof.
  intros Hp [Hin Hends] [hc Hc] Hn. unfold addTriangle_edge.
  rewrite run_bind, (halfEdgeToVertex_ok cur nxt s hc Hc).
  2:{ apply Forall_forall. intros x Hx. by eapply Hin. }
  cbv beta iota.
  destruct (last (opposite_in s cur nxt)) as [x|] eqn:El.
  - apply last_Some_elem_of, opposite_in_elem in El as (Hx & _).
    unfold in_of in Hx. rewrite Hc in Hx. cbn in Hx.
    destruct (Hin _ _ _ Hc Hx) as [hx Hhx].
    destruct (pairing_ok_lookup _ _ _ Hp Hhx) as (p & hp & Hpp & Hhp & _).
    rewrite run_bind, (e_pair_ok _ _ _ _ Hhx Hpp). cbv beta iota.
    rewrite run_bind, (modE_ok _ _ _ _ Hhp). cbv beta iota. eauto.
  - rewrite run_bind, newE_run. cbv beta iota.
    rewrite run_bind, newE_run. cbv beta iota.
    set (e := fresh_id (edges s)).
    match goal with |- context [fresh_id ?M] =>
      pose proof (fresh_id_None M) as Hfp; set (pr := fresh_id M) in * end.
    cbn in Hfp. apply lookup_insert_None in Hfp as [_ Hne].
    rewrite run_bind.
    erewrite modE_ok by (cbn; rewrite lookup_insert_ne by done; apply lookup_insert_eq).
    cbv beta iota. rewrite run_bind.
    erewrite modE_ok by (cbn; rewrite lookup_insert_ne by done; apply lookup_insert_eq).
    cbv beta iota.
    rewrite run_bind.
    match goal with |- context [modV cur (push_out e) ?S] =>
      destruct (push_out_ok S cur e) as (V1 & -> & K1 & _); [cbn; eauto|] end.
    cbv beta iota. rewrite run_bind.
    match goal with |- context [modV nxt (push_in e) ?S] =>
      destruct (push_in_ok S nxt e) as (V2 & -> & K2 & _);
        [cbn; by eapply lists_kept_live|] end.
    cbv beta iota. rewrite run_bind.
    match goal with |- context [modV cur (push_in pr) ?S] =>
      destruct (push_in_ok S cur pr) as (V3 & -> & K3 & _);
        [cbn; eapply lists_kept_live; [exact K2|]; eapply lists_kept_live; [exact K1|];
         cbn; eauto|] end.
    cbv beta iota. rewrite run_bind.
    match goal with |- context [modV nxt (push_out pr) ?S] =>
      destruct (push_out_ok S nxt pr) as (V4 & -> & K4 & _);
        [cbn; eapply lists_kept_live; [exact K3|]; eapply lists_kept_live; [exact K2|];
         eapply lists_kept_live; [exact K1|]; cbn; eauto|] end.
    cbv beta iota. eauto.
Qed.

Lemma modE_live s e f :
  is_Some (edges s !! e) →
  ∃ h, edges s !! e = Some h ∧ modE e f s = Ok tt (set_edges (insert e (f h)) s).
Proof. intros [h Hh]. exists h. split; [done|]. by apply modE_ok. Qed.

(** Linking the three half-edges into a cycle and finishing the face. *)
Lemma triangle_tail_ok f e0 e1 e2 hf s :
  links_live s → faces s !! f = Some hf →
  is_Some (edges s !! e0) → is_Some (edges s !! e1) → is_Some (edges s !! e2) →
  ∃ s', (modE e0 (with_next (Some e1));;
         modE e1 (with_next (Some e2));;
         modE e2 (with_next (Some e0));;
         modF f (with_m_edge (Some e0));;
         calc_normal f;;
         modify (set_m_faces (λ l, l ++ [f]));;
         n ← gets (λ s, length (m_faces s));
         modF f (with_m_face_index n)) s = Ok tt s'.
Proof.
  intros Hl Hf L0 L1 L2.
  destruct (modE_live s e0 (with_next (Some e1)) L0) as (h0 & H0 & R0).
  rewrite run_bind, R0. cbv beta iota.
  assert (links_live (set_edges (insert e0 (with_next (Some e1) h0)) s)) as Hl1.
  { eapply links_live_modE; [|exact R0|exact Hl]. done. }
  set (s1 := set_edges (insert e0 (with_next (Some e1) h0)) s) in *.
  destruct (modE_live s1 e1 (with_next (Some e2))) as (h1 & H1 & R1).
  { cbn. apply lookup_insert_is_Some'. by right. }
  rewrite run_bind, R1. cbv beta iota.
  assert (links_live (set_edges (insert e1 (with_next (Some e2) h1)) s1)) as Hl2.
  { eapply links_live_modE; [|exact R1|exact Hl1]. done. }
  set (s2 := set_edges (insert e1 (with_next (Some e2) h1)) s1) in *.
  destruct (modE_live s2 e2 (with_next (Some e0))) as (h2 & H2 & R2).
  { cbn. rewrite !lookup_insert_is_Some'. auto. }
  rewrite run_bind, R2. cbv beta iota.
  assert (links_live (set_edges (insert e2 (with_next (Some e0) h2)) s2)) as Hl3.
  { eapply links_live_modE; [|exact R2|exact Hl2]. done. }
  set (s3 := set_edges (insert e2 (with_next (Some e0) h2)) s2) in *.
  rewrite run_bind, (modF_ok s3 f hf) by exact Hf. cbv beta iota.
  set (s4 := set_faces (insert f (with_m_edge (Some e0) hf)) s3).
  assert (∀ x, x ∈ [e0; e1; e2] →
            ∃ h y, edges s4 !! x = Some h ∧ next h = Some y ∧ y ∈ [e0; e1; e2] ∧
                   is_Some (vertices s4 !! end_ h)) as Hcl.
  { intros x Hx.
    assert (is_Some (edges s3 !! x)) as [h Hh].
    { cbn. rewrite !lookup_insert_is_Some'. rewrite !elem_of_cons in Hx.
      destruct Hx as [->|[->|[->|[]%elem_of_nil]]]; auto 10. }
    assert (∃ y, next h = Some y ∧ y ∈ [e0; e1; e2]) as (y & Hy & Hin).
    { cbn in Hh. destruct (decide (x = e2)) as [->|?].
      { rewrite lookup_insert_eq in Hh. injection Hh as <-. exists e0. split; [done|]. set_solver. }
      rewrite lookup_insert_ne in Hh by done.
      destruct (decide (x = e1)) as [->|?].
      { rewrite lookup_insert_eq in Hh. injection Hh as <-. exists e2. split; [done|]. set_solver. }
      rewrite lookup_insert_ne in Hh by done.
      assert (x = e0) as -> by set_solver.
      rewrite lookup_insert_eq in Hh. injection Hh as <-. exists e1. split; [done|]. set_solver. }
    exists h, y. split; [exact Hh|]. split; [done|]. split; [done|].
    destruct Hl3 as [_ Hends]. exact (Hends x h Hh). }
  destruct (Hcl e0) as (g0 & y0 & G0 & N0 & I0 & V0); [set_solver|].
  destruct (Hcl y0 I0) as (g1 & y1 & G1 & N1 & I1 & V1).
  destruct (Hcl y1 I1) as (g2 & y2 & G2 & N2 & I2 & V2).
  destruct (calc_normal_ok s4 f (with_m_edge (Some e0) hf) e0 g0 y0 g1 y1 g2)
    as (n & Rn); try done.
  { cbn. apply lookup_insert_eq. }
  rewrite run_bind, Rn. cbv beta iota.
  rewrite run_bind. cbn [modify]. cbv beta iota.
  rewrite run_bind. cbn [gets]. cbv beta iota.
  erewrite modF_ok by (cbn; apply lookup_insert_eq). eauto.
Qed.

Lemma links_live_stores : stores_only links_live.
Proof. intros s s' He Hv. unfold links_live. by rewrite He, Hv. Qed.

Lemma links_live_links : links_only links_live.
Proof.
  intros s e h h' He _ Hend _ Hl. apply links_live_insertE; [|done].
  rewrite Hend. destruct Hl as [_ Hends]. by eapply Hends.
Qed.

Lemma preserves_links_live_addTriangle a b c : preserves links_live (addTriangle a b c).
Proof.
  apply stores_addTriangle.
  - apply links_live_stores.
  - apply links_live_links.
  - intros f cur nxt s e s' Hl Hrun. by apply addTriangle_edge_links in Hrun as [? _].
Qed.

(** X26.  [addTriangle] returns, without a fault, when its three indices
    are inside the vertex list, the listed vertices are live, every live
    half-edge has a live pair, every incoming list names live half-edges
    and every half-edge ends in a live vertex; and these conditions hold
    again afterwards, so that a mesh can be built triangle by triangle. *)
Theorem addTriangle_total a b c s :
  a < length (m_vertices s) → b < length (m_vertices s) → c < length (m_vertices s) →
  (∀ v, v ∈ m_vertices s → is_Some (vertices s !! v)) →
  pairing_ok s → links_live s →
  ∃ s', addTriangle a b c s = Ok tt s' ∧
        (∀ v, v ∈ m_vertices s' → is_Some (vertices s' !! v)) ∧
        pairing_ok s' ∧ links_live s'.
Proof.
  intros Ha Hb Hc Hlisted Hp Hl.
  assert (∃ s', addTriangle a b c s = Ok tt s') as [s' Hrun].
  { apply lookup_lt_is_Some_2 in Ha as [va Hva], Hb as [vb Hvb], Hc as [vc Hvc].
    pose proof (Hlisted va (list_elem_of_lookup_2 _ _ _ Hva)) as La.
    pose proof (Hlisted vb (list_elem_of_lookup_2 _ _ _ Hvb)) as Lb.
    pose proof (Hlisted vc (list_elem_of_lookup_2 _ _ _ Hvc)) as Lc.
    unfold addTriangle.
    rewrite run_bind. unfold new_face.
    rewrite (proj2 (newF_Ok _ _ _ _) (conj eq_refl eq_refl)).
    cbv beta iota.
    set (f := fresh_id (faces s)).
    set (s0 := set_faces (insert f (mkHFace None default_normal None false 0)) s).
    assert (pairing_ok s0) as Hp0 by exact Hp.
    assert (links_live s0) as Hl0 by exact Hl.
    assert (faces s0 !! f = Some (mkHFace None default_normal None false 0)) as Hf0
      by (cbn; apply lookup_insert_eq).
    assert (m_vertices s0 = m_vertices s) as Hm0 by done.
    assert (is_Some (vertices s0 !! va)) as La0 by exact La.
    assert (is_Some (vertices s0 !! vb)) as Lb0 by exact Lb.
    assert (is_Some (vertices s0 !! vc)) as Lc0 by exact Lc.
    clearbody s0. clear Hp Hl La Lb Lc Hlisted.
    rewrite run_bind, vertex_at_run, Hm0, Hva. cbv beta iota.
    rewrite run_bind, vertex_at_run, Hm0, Hvb. cbv beta iota.
    destruct (addTriangle_edge_ok f va vb s0) as (e0 & s1 & R0); try done.
    rewrite run_bind, R0. cbv beta iota.
    destruct (addTriangle_edge_links _ _ _ _ _ _ R0) as (Hl1 & Le0 & Lv1 & Le1); try done.
    pose proof (preserves_pairing_addTriangle_edge _ _ _ _ _ _ Hp0 R0) as Hp1.
    destruct (triangle_edge_step_frame _ _ _ _ _ _ (addTriangle_edge_Ok _ _ _ _ _ _ R0))
      as (F1 & _ & M1 & _).
    rewrite run_bind, vertex_at_run, M1, Hm0, Hvc. cbv beta iota.
    destruct (addTriangle_edge_ok f vb vc s1) as (e1 & s2 & R1); auto.
    rewrite run_bind, R1. cbv beta iota.
    destruct (addTriangle_edge_links _ _ _ _ _ _ R1) as (Hl2 & Le1' & Lv2 & Le2); auto.
    pose proof (preserves_pairing_addTriangle_edge _ _ _ _ _ _ Hp1 R1) as Hp2.
    destruct (triangle_edge_step_frame _ _ _ _ _ _ (addTriangle_edge_Ok _ _ _ _ _ _ R1))
      as (F2 & _ & M2 & _).
    destruct (addTriangle_edge_ok f vc va s2) as (e2 & s3 & R2); auto.
    rewrite run_bind, R2. cbv beta iota.
    destruct (addTriangle_edge_links _ _ _ _ _ _ R2) as (Hl3 & Le2' & Lv3 & Le3); auto.
    destruct (triangle_edge_step_frame _ _ _ _ _ _ (addTriangle_edge_Ok _ _ _ _ _ _ R2))
      as (F3 & _ & M3 & _).
    apply (triangle_tail_ok f e0 e1 e2 (mkHFace None default_normal None false 0)); auto.
    by rewrite F3, F2, F1. }
  exists s'. split; [exact Hrun|]. split_and!.
  - destruct (addTriangle_Ok_faces _ _ _ _ _ _ Hrun)
      as (va & vb & vc & hf & _ & _ & _ & _ & _ & Hmv & Hk & _).
    intros v Hv. rewrite Hmv in Hv. eapply lists_kept_live; [exact Hk|]. by apply Hlisted.
  - exact (preserves_pairing_addTriangle a b c s tt s' Hp Hrun).
  - exact (preserves_links_live_addTriangle a b c s tt s' Hl Hrun).
Qed.

(** The half-edge an edge step returns runs from [cur] to [nxt] and
    refers to the face; no other half-edge of the mesh is touched, and a
    half-edge that was there before ran from [cur] to [nxt] already. *)
Lemma triangle_edge_step_edges s s' f cur nxt e :
  pairing_ok s → triangle_edge_step s s' f cur nxt e →
  (∃ h, edges s' !! e = Some h ∧ start h = cur ∧ end_ h = nxt ∧ face h = Some f) ∧
  (∀ y hy, edges s !! y = Some hy → y ≠ e → edges s' !! y = Some hy) ∧
  (∀ hy, edges s !! e = Some hy → start hy = cur ∧ end_ hy = nxt).
Proof.
  intros Hp Hstep. unfold triangle_edge_step in Hstep.
  destruct (last (opposite_in s cur nxt)) as [x|] eqn:El.
  - destruct Hstep as (Hpx & he & He & ->).
    apply last_Some_elem_of, opposite_in_elem in El as (_ & Hxe & Hxs).
    unfold pair_of, end_of, start_of in *.
    destruct (edges s !! x) as [hx|] eqn:Hx; [|done]. cbn in *.
    destruct (pairing_ok_lookup _ _ _ Hp Hx) as (p & hp & Hpp & Hhp & _ & Hs & He').
    assert (p = e) as -> by congruence. assert (hp = he) as -> by congruence.
    assert (start he = cur ∧ end_ he = nxt) as [Hst Hen] by (split; congruence).
    split_and!.
    + exists (with_face (Some f) he). rewrite lookup_insert_eq. done.
    + intros y hy Hy Hne. by rewrite lookup_insert_ne.
    + intros hy Hy. by assert (hy = he) as -> by congruence.
  - destruct Hstep as (pr & Hfe & Hfp & Hne & -> & _).
    split_and!.
    + eexists. rewrite lookup_insert_ne, lookup_insert_eq by done. done.
    + intros y hy Hy Hye. rewrite !lookup_insert_ne; [done|congruence..].
    + intros hy Hy. congruence.
Qed.

(** The half-edges of a completed [addTriangle] over three different
    vertices. *)
Lemma addTriangle_Ok_edges a b c u s s' va vb vc :
  pairing_ok s →
  m_vertices s !! a = Some va → m_vertices s !! b = Some vb → m_vertices s !! c = Some vc →
  va ≠ vb → vb ≠ vc → vc ≠ va →
  addTriangle a b c s = Ok u s' →
  ∃ e0 e1 e2,
    faces s' !! fresh_id (faces s) ≫= m_edge = Some e0 ∧
    is_cycle s' (fresh_id (faces s)) e0 e1 e2 ∧
    (∀ y hy, edges s !! y = Some hy → (y ∉ [e0; e1; e2]) → edges s' !! y = Some hy) ∧
    (∀ y hy, edges s !! y = Some hy → y ∈ [e0; e1; e2] →
       (start hy, end_ hy) ∈ [(va, vb); (vb, vc); (vc, va)]).
Proof.
  intros Hp Ha Hb Hc Dab Dbc Dca Hrun. unfold addTriangle in Hrun.
  apply bind_Ok in Hrun as (f & s0 & [-> ->]%newF_Ok & Hrun).
  set (f := fresh_id (faces s)) in *.
  match type of Hrun with _ ?S = _ => set (s0 := S) in * end.
  assert (pairing_ok s0) as Hp0 by exact Hp.
  assert (edges s0 = edges s) as E0 by done.
  assert (m_vertices s0 = m_vertices s) as M0 by done.
  assert (faces s0 !! f = Some (mkHFace None default_normal None false 0)) as Hf0
    by (cbn; apply lookup_insert_eq).
  clearbody s0.
  apply bind_Ok in Hrun as (va' & sx & Hva & Hrun). unfold vertex_at in Hva. minv Hva.
  apply bind_Ok in Hrun as (vb' & sx & Hvb & Hrun). unfold vertex_at in Hvb. minv Hvb.
  rewrite M0 in Hva, Hvb.
  assert (va' = va) as -> by congruence. assert (vb' = vb) as -> by congruence.
  apply bind_Ok in Hrun as (e0 & s1 & R0 & Hrun).
  pose proof (preserves_pairing_addTriangle_edge _ _ _ _ _ _ Hp0 R0) as Hp1.
  apply addTriangle_edge_Ok in R0.
  destruct (triangle_edge_step_frame _ _ _ _ _ _ R0) as (F0 & _ & MV0 & _).
  destruct (triangle_edge_step_edges _ _ _ _ _ _ Hp0 R0) as ((h0 & H0 & S0 & T0 & C0) & K0 & O0).
  rewrite E0 in K0, O0.
  apply bind_Ok in Hrun as (vc' & sx & Hvc & Hrun). unfold vertex_at in Hvc. minv Hvc.
  rewrite MV0, M0 in Hvc. assert (vc' = vc) as -> by congruence.
  apply bind_Ok in Hrun as (e1 & s2 & R1 & Hrun).
  pose proof (preserves_pairing_addTriangle_edge _ _ _ _ _ _ Hp1 R1) as Hp2.
  apply addTriangle_edge_Ok in R1.
  destruct (triangle_edge_step_frame _ _ _ _ _ _ R1) as (F1 & _ & MV1 & _).
  destruct (triangle_edge_step_edges _ _ _ _ _ _ Hp1 R1) as ((h1 & H1 & S1 & T1 & C1) & K1 & O1).
  apply bind_Ok in Hrun as (e2 & s3 & R2 & Hrun).
  apply addTriangle_edge_Ok in R2.
  destruct (triangle_edge_step_frame _ _ _ _ _ _ R2) as (F2 & _ & MV2 & _).
  destruct (triangle_edge_step_edges _ _ _ _ _ _ Hp2 R2) as ((h2 & H2 & S2 & T2 & C2) & K2 & O2).
  (* the three half-edges are three objects *)
  assert (e0 ≠ e1) as D01.
  { intros ->. destruct (O1 h0 H0) as [? _]. congruence. }
  assert (edges s2 !! e0 = Some h0) as H0' by (by apply K1).
  assert (e0 ≠ e2) as D02.
  { intros ->. destruct (O2 h0 H0') as [? _]. congruence. }
  assert (e1 ≠ e2) as D12.
  { intros ->. destruct (O2 h1 H1) as [? _]. congruence. }
  assert (edges s3 !! e0 = Some h0) as H0'' by (by apply K2).
  assert (edges s3 !! e1 = Some h1) as H1' by (by apply K2).
  (* the tail *)
  apply bind_Ok in Hrun as (? & ? & (g0 & G0 & ->)%modE_Ok & Hrun).
  apply bind_Ok in Hrun as (? & ? & (g1 & G1 & ->)%modE_Ok & Hrun).
  apply bind_Ok in Hrun as (? & ? & (g2 & G2 & ->)%modE_Ok & Hrun).
  cbn in G1, G2. rewrite lookup_insert_ne in G1 by done.
  rewrite !lookup_insert_ne in G2 by done.
  assert (g0 = h0) as -> by congruence. assert (g1 = h1) as -> by congruence.
  assert (g2 = h2) as -> by congruence.
  apply bind_Ok in Hrun as (? & ? & (hf1 & Hhf1 & ->)%modF_Ok & Hrun).
  apply bind_Ok in Hrun as (? & s5 & Hcn & Hrun).
  assert (∃ n hf2, s5 = set_faces (insert f (with_f_normal n hf2))
            (set_faces (insert f (with_m_edge (Some e0) hf1))
               (set_edges (insert e2 (with_next (Some e0) h2))
                  (set_edges (insert e1 (with_next (Some e2) h1))
                     (set_edges (insert e0 (with_next (Some e1) h0)) s3)))) ∧
            m_edge hf2 = Some e0) as (n & hf2 & -> & Hme).
  { unfold calc_normal in Hcn.
    repeat (apply bind_Ok in Hcn as (? & ? & ->%read_only_face_vertex & Hcn)).
    repeat (apply bind_Ok in Hcn as (? & ? & [_ <-]%getV_Ok & Hcn)).
    apply modF_Ok in Hcn as (hf2 & Hhf2 & ->). cbn in Hhf2.
    rewrite lookup_insert_eq in Hhf2. injection Hhf2 as <-.
    eexists _, _. split; [reflexivity|]. done. }
  apply bind_Ok in Hrun as (? & ? & ->%modify_Ok & Hrun).
  apply bind_Ok in Hrun as (len & ? & [<- <-]%gets_Ok & Hrun).
  apply modF_Ok in Hrun as (hf3 & Hhf3 & ->).
  cbn in Hhf3. rewrite lookup_insert_eq in Hhf3. injection Hhf3 as <-.
  exists e0, e1, e2. split_and!.
  - cbn. rewrite lookup_insert_eq. cbn. exact Hme.
  - unfold is_cycle, next_of, face_of. cbn.
    rewrite lookup_insert_eq.
    rewrite (lookup_insert_ne _ e2 e1), lookup_insert_eq by done.
    rewrite (lookup_insert_ne _ e2 e0), (lookup_insert_ne _ e1 e0), lookup_insert_eq by done.
    cbn. split_and!; congruence.
  - intros y hy Hy Hny. cbn.
    rewrite !not_elem_of_cons in Hny. destruct Hny as (? & ? & ? & _).
    rewrite !lookup_insert_ne by done.
    apply K2; [|done]. apply K1; [|done]. apply K0; [|done]. exact Hy.
  - intros y hy Hy Hin. rewrite !elem_of_cons in Hin.
    destruct Hin as [->|[->|[->|[]%elem_of_nil]]].
    + destruct (O0 hy Hy) as [-> ->]. set_solver.
    + destruct (decide (e1 = e0)) as [?|Hne]; [done|].
      pose proof (K0 _ _ Hy Hne) as Hy1.
      destruct (O1 hy Hy1) as [-> ->]. set_solver.
    + pose proof (K1 _ _ (K0 _ _ Hy (not_eq_sym D02)) (not_eq_sym D12)) as Hy2.
      destruct (O2 hy Hy2) as [-> ->]. set_solver.
Qed.

(** X28.  A completed [addTriangle] over three different vertices of a
    paired mesh gives the new face a closed cycle: three applications of
    [next] from its edge return to it and the three half-edges refer to
    the face.  A face that had a closed cycle keeps it, unless one of its
    half-edges ran along a side of the new triangle in the same
    direction (that half-edge is taken over by the new face). *)
Theorem addTriangle_face_cycle a b c u s s' va vb vc :
  pairing_ok s →
  m_vertices s !! a = Some va → m_vertices s !! b = Some vb → m_vertices s !! c = Some vc →
  va ≠ vb → vb ≠ vc → vc ≠ va →
  addTriangle a b c s = Ok u s' →
  face_cycle_at s' (fresh_id (faces s)) ∧
  ∀ g, face_cycle_at s g →
       (∀ y hy, edges s !! y = Some hy → face hy = Some g →
                (start hy, end_ hy) ∉ [(va, vb); (vb, vc); (vc, va)]) →
       face_cycle_at s' g.
Proof.
  intros Hp Ha Hb Hc Dab Dbc Dca Hrun.
  destruct (addTriangle_Ok_edges _ _ _ _ _ _ _ _ _ Hp Ha Hb Hc Dab Dbc Dca Hrun)
    as (e0 & e1 & e2 & Hme & Hcyc & Hkeep & Hold).
  split.
  - unfold face_cycle_at. rewrite Hme.
    destruct Hcyc as (N0 & N1 & N2 & Hf). rewrite N0, N1. done.
  - intros g Hg Hside.
    destruct (addTriangle_Ok_faces _ _ _ _ _ _ Hrun)
      as (? & ? & ? & hf & _ & _ & _ & Hfresh & _ & _ & _ & _ & _ & _ & Hother).
    apply (face_cycle_at_same s s' g Hg).
    + apply Hother. intros ->. unfold face_cycle_at in Hg. by rewrite Hfresh in Hg.
    + intros y h Hy Hface. apply Hkeep; [done|]. intros Hin.
      by apply (Hside y h Hy Hface), (Hold y h Hy Hin).
Qed.

End BuilderTotal.

(** * The theorems at concrete meshes *)

Lemma flipEdge_boundary_unchanged_witness :
  flipEdge 1 triangle_mesh = Ok tt triangle_mesh.
Proof.
  eapply (flipEdge_boundary_unchanged triangle_mesh 1 _ 2 _).
  - vm_compute. reflexivity.
  - reflexivity.
  - vm_compute. reflexivity.
  - right. reflexivity.
Defined.

Lemma finalize_normals_negated_witness :
  ∃ b, finalize square_mesh = Ok b square_mesh ∧
       m_normalBuffer b !! (3 * 2 + 1) = Some 2%Z ∧
       m_vertexBuffer b !! (3 * 2 + 1) = Some 1%Z.
Proof.
  eexists. split; [vm_compute; reflexivity|].
  apply (finalize_normals_negated square_mesh _ square_mesh 2 3
           (@mkHVertex ZGeometry (1, 1, 0)%Z (1, -2, 2)%Z [4; 5; 7] [3; 6; 8]) 1).
  - vm_compute. reflexivity.
  - vm_compute. reflexivity.
  - vm_compute. reflexivity.
  - lia.
Defined.


(** * The further theorems at concrete meshes *)

Lemma completes_run (c : MeshM unit) (s : HalfEdgeMesh) :
  completes c s = true → c s = Ok tt (run_from c s).
Proof. unfold completes, run_from. by destruct (c s) as [[] s'| |]. Qed.

Lemma value_of_run {A} (c : MeshM A) (s : HalfEdgeMesh) a :
  value_of c s = Some a → c s = Ok a (run_from c s).
Proof.
  unfold value_of, run_from. destruct (c s) as [a' s'| |]; [|done..]. by intros [= ->].
Qed.

Lemma value_of_read {A} (c : MeshM A) (s : HalfEdgeMesh) a :
  read_only c → value_of c s = Some a → c s = Ok a s.
Proof.
  unfold value_of. intros Hc. destruct (c s) as [a' s'| |] eqn:Hrun; [|done..].
  apply Hc in Hrun as ->. by intros [= ->].
Qed.

Lemma result_of_run {A} (d : A) (c : MeshM A) (s : HalfEdgeMesh) :
  completes c s = true → c s = Ok (result_of d c s) (run_from c s).
Proof. unfold completes, result_of, run_from. by destruct (c s). Qed.

Ltac evaluated := vm_compute; reflexivity.
Ltac decided := apply (bool_decide_unpack _); vm_compute; reflexivity.
Ltac completed := apply completes_run; vm_compute; reflexivity.
Ltac returned := apply value_of_run; vm_compute; reflexivity.

Lemma addVertex_deleteVertex_witness :
  ∃ s1, addVertex (2, 2, 2)%Z triangle_mesh = Ok tt s1 ∧
        m_vertices s1 = m_vertices triangle_mesh ++ [fresh_id (vertices triangle_mesh)] ∧
        deleteVertex (fresh_id (vertices triangle_mesh)) s1 = Ok tt triangle_mesh.
Proof.
  apply (addVertex_deleteVertex (G := ZGeometry) (2, 2, 2)%Z triangle_mesh).
  apply Forall_forall. decided.
Defined.

Lemma halfEdgeToVertex_run_witness :
  halfEdgeToVertex 2 1 triangle_mesh
  = Ok (last (opposite_in triangle_mesh 2 1)) triangle_mesh.
Proof.
  eapply (halfEdgeToVertex_run (G := ZGeometry) 2 1 triangle_mesh).
  - evaluated.
  - decided.
Defined.

Lemma addTriangle_appends_face_witness :
  ∃ va vb vc hf,
    m_vertices points_mesh !! 0 = Some va ∧ m_vertices points_mesh !! 1 = Some vb ∧
    m_vertices points_mesh !! 2 = Some vc ∧
    faces points_mesh !! fresh_id (faces points_mesh) = None ∧
    m_faces (run_from (addTriangle 0 1 2) points_mesh)
    = m_faces points_mesh ++ [fresh_id (faces points_mesh)] ∧
    m_vertices (run_from (addTriangle 0 1 2) points_mesh) = m_vertices points_mesh ∧
    lists_kept [] (vertices points_mesh)
      (vertices (run_from (addTriangle 0 1 2) points_mesh)) ∧
    faces (run_from (addTriangle 0 1 2) points_mesh) !! fresh_id (faces points_mesh)
    = Some hf ∧
    m_face_index hf = length (m_faces (run_from (addTriangle 0 1 2) points_mesh)) ∧
    m_region hf = None ∧
    (∀ g, g ≠ fresh_id (faces points_mesh) →
          faces (run_from (addTriangle 0 1 2) points_mesh) !! g = faces points_mesh !! g).
Proof.
  apply (addTriangle_appends_face (G := ZGeometry) 0 1 2 tt points_mesh).
  completed.
Defined.

Lemma addTriangle_out_of_range_witness : addTriangle 0 1 7 triangle_mesh = Fault.
Proof.
  apply (addTriangle_out_of_range (G := ZGeometry) 0 1 7 triangle_mesh).
  right. right. vm_compute. lia.
Defined.

Lemma addTriangle_keeps_pairing_witness :
  pairing_ok (run_from (addTriangle 0 2 1) triangle_mesh).
Proof.
  apply (addTriangle_keeps_pairing (G := ZGeometry) 0 2 1 tt triangle_mesh).
  - decided.
  - completed.
Defined.

Lemma addTriangle_single_pair_witness :
  ∃ e pr, single_pair (run_from (addTriangle 0 1 2) points_mesh) 1 2 e pr ∧
          ∀ a' b' c' u' s2,
            addTriangle a' b' c' (run_from (addTriangle 0 1 2) points_mesh) = Ok u' s2 →
            single_pair s2 1 2 e pr.
Proof.
  apply (addTriangle_single_pair (G := ZGeometry) points_mesh 0 1 2 1 2 tt).
  - evaluated.
  - evaluated.
  - intros x hx Hx. vm_compute in Hx. discriminate Hx.
  - completed.
Defined.

Lemma addFace_keeps_pairing_witness :
  pairing_ok (run_from (addFace 1 2 3) points_mesh).
Proof.
  apply (addFace_keeps_pairing (G := ZGeometry) 1 2 3 tt points_mesh).
  - decided.
  - completed.
Defined.

Lemma deleteEdge_keeps_pairing_witness :
  pairing_ok (run_from (deleteEdge 1 true) triangle_mesh) ∧
  ∃ he p, edges triangle_mesh !! 1 = Some he ∧ pair he = Some p ∧
          edges (run_from (deleteEdge 1 true) triangle_mesh)
          = delete 1 (delete p (edges triangle_mesh)).
Proof.
  apply (deleteEdge_keeps_pairing (G := ZGeometry) 1 tt triangle_mesh).
  - decided.
  - completed.
Defined.


Lemma deleteFace_removes_face_witness :
  pairing_ok (run_from (deleteFace 1) square_mesh) ∧
  is_Some (faces square_mesh !! 1) ∧
  erase_first 1 (m_faces square_mesh) = Some (m_faces (run_from (deleteFace 1) square_mesh)) ∧
  faces (run_from (deleteFace 1) square_mesh) = delete 1 (faces square_mesh).
Proof.
  apply (deleteFace_removes_face (G := ZGeometry) 1 tt square_mesh).
  - decided.
  - completed.
Defined.

Lemma flipEdge_wf_witness :
  pairing_ok (run_from (flipEdge 5) square_mesh) ∧
  face_cycle_ok (run_from (flipEdge 5) square_mesh) ∧
  m_faces (run_from (flipEdge 5) square_mesh) = m_faces square_mesh ∧
  m_vertices (run_from (flipEdge 5) square_mesh) = m_vertices square_mesh ∧
  ∀ v, m_position <$> vertices (run_from (flipEdge 5) square_mesh) !! v
       = m_position <$> vertices square_mesh !! v.
Proof.
  apply (flipEdge_wf square_mesh 5 tt).
  - decided.
  - completed.
Defined.

Lemma flipEdge_twice_restores_quad_witness :
  ∃ n1 n2 m1 m2 c d s1 r rp,
    quad square_mesh 5 6 n1 n2 m1 m2 3 1 c d 1 2 ∧
    flipEdge 5 square_mesh = Ok tt s1 ∧
    edges square_mesh !! r = None ∧ edges square_mesh !! rp = None ∧
    quad s1 r rp m2 n1 n2 m1 c d 1 3 2 1 ∧
    ∀ x, x = r ∨ x = rp →
      ∃ s2 e' p',
        flipEdge x s1 = Ok tt s2 ∧
        quad s2 e' p' n1 n2 m1 m2 3 1 c d 2 1 ∧
        (∀ y, y ∈ [n1; n2; m1; m2] →
           start_of s2 y = start_of square_mesh y ∧ end_of s2 y = end_of square_mesh y ∧
           pair_of s2 y = pair_of square_mesh y) ∧
        (∀ v, m_position <$> vertices s2 !! v = m_position <$> vertices square_mesh !! v) ∧
        m_vertices s2 = m_vertices square_mesh ∧ m_faces s2 = m_faces square_mesh.
Proof.
  apply (flipEdge_twice_restores_quad square_mesh 5
           (mkHEdge 3 1 (Some 6) (Some 1) (Some 1) false) 6
           (mkHEdge 1 3 (Some 5) (Some 7) (Some 2) false) 1 2).
  - decided.
  - evaluated.
  - reflexivity.
  - evaluated.
  - reflexivity.
  - reflexivity.
Defined.

Lemma flipEdge_faces_run_witness :
  flipEdge_faces 1 2 square_mesh =
  match last (filter (λ e, face_across square_mesh e = Some 2) [1; 3; 5]) with
  | Some e => flipEdge e square_mesh
  | None => Ok tt square_mesh
  end.
Proof.
  apply (flipEdge_faces_run (G := ZGeometry) square_mesh 1 2 1 3 5).
  - decided.
  - evaluated.
  - decided.
Defined.

Lemma regionGrowing_spec_witness :
  ∃ added,
    run_from (regionGrowing 5 1 1) folded_mesh = grow_state 1 (1 :: added) folded_mesh ∧
    1%Z = Z.of_nat (length added) ∧
    NoDup (1 :: added) ∧
    ∀ g, g ∈ added → ∃ hg, faces folded_mesh !! g = Some hg ∧ m_used hg = false.
Proof.
  apply (proj1 (regionGrowing_spec (G := ZGeometry) 5 1 1 folded_mesh)).
  returned.
Defined.

Lemma regionGrowing_angle_spec_witness :
  ∃ added,
    run_from (regionGrowing_angle 5 1 (0, 0, 1)%Z 0%Z 1) folded_mesh
      = grow_state 1 (1 :: added) folded_mesh ∧
    1%Z = Z.of_nat (length added) ∧
    NoDup (1 :: added) ∧
    ∀ g, g ∈ added → abs_cosine_admits folded_mesh (0, 0, 1)%Z 0%Z g.
Proof.
  apply (proj1 (regionGrowing_angle_spec (G := ZGeometry) 5 1 (0, 0, 1)%Z 0%Z 1 folded_mesh)).
  returned.
Defined.

Lemma safeCollapseEdge_rejected_witness :
  run_from (safeCollapseEdge flicker_flipped 3) strip_mesh = strip_mesh ∨
  ∃ he hs ht,
    edges strip_mesh !! 3 = Some he ∧ vertices strip_mesh !! start he = Some hs ∧
    vertices strip_mesh !! end_ he = Some ht ∧
    run_from (safeCollapseEdge flicker_flipped 3) strip_mesh
    = set_vertices (insert (start he)
        (with_position (vhalf (vadd (m_position hs) (m_position ht))) hs)) strip_mesh.
Proof.
  apply (safeCollapseEdge_rejected (G := ZGeometry) flicker_flipped 3 strip_mesh).
  returned.
Defined.

Lemma safeCollapseEdge_wf_witness :
  ∃ he p hp,
    edges strip_mesh !! 3 = Some he ∧ pair he = Some p ∧ edges strip_mesh !! p = Some hp ∧
    length (m_vertices (run_from (safeCollapseEdge no_flicker 3) strip_mesh)) + 1
    = length (m_vertices strip_mesh) ∧
    length (m_faces (run_from (safeCollapseEdge no_flicker 3) strip_mesh)) + sides he hp
    = length (m_faces strip_mesh) ∧
    pairing_ok (run_from (safeCollapseEdge no_flicker 3) strip_mesh) ∧
    face_cycle_ok (run_from (safeCollapseEdge no_flicker 3) strip_mesh).
Proof.
  apply (safeCollapseEdge_wf (G := ZGeometry) no_flicker 3 strip_mesh).
  - decided.
  - returned.
Defined.

Lemma fill_hole_relinks_only_witness :
  match fill_hole 4 [2; 6; 4] tagged_triangle with
  | Ok _ s' => pairing_ok s' ∧ dom (edges s') = dom (edges tagged_triangle)
  | Fault => True
  | OutOfFuel => False
  end.
Proof.
  apply (fill_hole_relinks_only (G := ZGeometry) 4 [2; 6; 4] tagged_triangle).
  - decided.
  - cbn. lia.
Defined.

Lemma find_holes_marks_only_witness :
  marked_from square_mesh (run_from (find_holes 10 100) square_mesh) ∧
  pairing_ok (run_from (find_holes 10 100) square_mesh) ∧
  dom (edges (run_from (find_holes 10 100) square_mesh)) = dom (edges square_mesh) ∧
  Forall (λ hole, 2 < length hole) [[2; 10; 8; 4]].
Proof.
  apply (find_holes_marks_only (G := ZGeometry) 10 100 [[2; 10; 8; 4]] square_mesh).
  - decided.
  - returned.
Defined.

Lemma finalize_sizes_witness :
  run_from finalize square_mesh = square_mesh ∧
  m_nVertices (result_of no_buffers finalize square_mesh) = length (m_vertices square_mesh) ∧
  m_nFaces (result_of no_buffers finalize square_mesh) = length (m_faces square_mesh) ∧
  length (m_vertexBuffer (result_of no_buffers finalize square_mesh))
  = 3 * length (m_vertices square_mesh) ∧
  length (m_normalBuffer (result_of no_buffers finalize square_mesh))
  = 3 * length (m_vertices square_mesh) ∧
  length (m_colorBuffer (result_of no_buffers finalize square_mesh))
  = 3 * length (m_vertices square_mesh) ∧
  length (m_indexBuffer (result_of no_buffers finalize square_mesh))
  = 3 * length (m_faces square_mesh).
Proof.
  apply (finalize_sizes (G := ZGeometry) square_mesh).
  apply result_of_run. evaluated.
Defined.

Lemma finalize_index_witness :
  m_indexBuffer (result_of no_buffers finalize square_mesh) !! (3 * 1 + 0) = Some 2.
Proof.
  apply (finalize_index (G := ZGeometry) square_mesh _ (run_from finalize square_mesh)
           1 2 0 3 2).
  - apply result_of_run. evaluated.
  - decided.
  - evaluated.
  - lia.
  - apply value_of_read; [apply read_only_face_vertex|evaluated].
  - evaluated.
Defined.

Lemma finalize_total_witness : ∃ b, finalize square_mesh = Ok b square_mesh.
Proof.
  apply (finalize_total (G := ZGeometry) square_mesh).
  - apply Forall_forall. decided.
  - decided.
  - decided.
  - decided.
  - intros f hf r Hf. revert hf r. revert f Hf.
    apply (proj1 (Forall_forall
        (λ f, ∀ hf r, faces square_mesh !! f = Some hf → m_region hf = Some r →
                      is_Some (regions square_mesh !! r)) (m_faces square_mesh))).
    replace (m_faces square_mesh) with [1; 2] by (vm_compute; reflexivity).
    repeat constructor; intros hf r Hl Hr; vm_compute in Hl; injection Hl as <-;
      vm_compute in Hr; discriminate Hr.
Defined.

Lemma regionGrowing_total_witness :
  (∃ n s', regionGrowing 5 1 1 folded_mesh = Ok n s') ∧
  (∀ normal angle, ∃ n s', regionGrowing_angle 5 1 normal angle 1 folded_mesh = Ok n s').
Proof.
  apply (regionGrowing_total (G := ZGeometry) 5 1 1 folded_mesh).
  - decided.
  - decided.
  - decided.
  - decided.
  - decided.
  - decided.
Defined.

Lemma addTriangle_total_witness :
  ∃ s', addTriangle 0 2 1 triangle_mesh = Ok tt s' ∧
        (∀ v, v ∈ m_vertices s' → is_Some (vertices s' !! v)) ∧
        pairing_ok s' ∧ links_live s'.
Proof.
  apply (addTriangle_total (G := ZGeometry) 0 2 1 triangle_mesh).
  - decided.
  - decided.
  - decided.
  - apply Forall_forall. decided.
  - decided.
  - apply adjacency_links_live. decided.
Defined.

Lemma flipEdge_total_witness :
  ∃ s', flipEdge 5 square_mesh = Ok tt s' ∧
        ((face_of square_mesh 5 = None ∨ face_across square_mesh 5 = None) →
         s' = square_mesh).
Proof.
  apply (flipEdge_total square_mesh 5).
  - decided.
  - decided.
Defined.

Lemma addTriangle_face_cycle_witness :
  face_cycle_at (run_from (addTriangle 0 1 2) points_mesh) (fresh_id (faces points_mesh)) ∧
  ∀ g, face_cycle_at points_mesh g →
       (∀ y hy, edges points_mesh !! y = Some hy → face hy = Some g →
                (start hy, end_ hy) ∉ [(1, 2); (2, 3); (3, 1)]) →
       face_cycle_at (run_from (addTriangle 0 1 2) points_mesh) g.
Proof.
  apply (addTriangle_face_cycle (G := ZGeometry) 0 1 2 tt points_mesh).
  - decided.
  - evaluated.
  - evaluated.
  - evaluated.
  - lia.
  - lia.
  - lia.
  - completed.
Defined.

(** * Where the two graph invariants are not enough *)


